(** * vibevibes/sdk: the scene simulation core, embedded in Rocq

    A shallow embedding of the scene tools, the rule engine, the tween
    evaluator, the particle simulator and the retained-mode reconciler of
    the SDK, with the properties its specification states about them.

    Conventions of the embedding.
    - A JavaScript [number] is a rational ([Q]); [===] on numbers is
      [Qeq_bool].  NaN, the infinities and the sign of zero are not
      represented.  The numbers that decide what exists (the count of
      spawned particles, the age of a particle against its lifetime, the
      index of a slice, the distance of two nodes against a radius) are
      computed in double precision, each operation rounded by [round64] as
      JavaScript rounds it; the numbers that are only stored (positions,
      velocities, interpolated values) are computed exactly, so they are
      the stored doubles up to the rounding of each operation.
    - [undefined] and [null] are [None]; [x ?? d] is [default d x].
    - A string is a [string] whose characters stand for the code units
      U+0000 to U+00FF.
    - [Math.random], [Date.now] and the id generator are explicit inputs.
    - [Math.sin], [Math.cos], [Math.PI] and [Math.pow(2, x)] have no exact
      rational value; they are the members of the [MathLib] interface. *)

From Stdlib Require Import QArith Qround Qabs Qpower Lqa ZArith Lia String Ascii List Bool.
From stdpp Require Import gmap strings list.
Import ListNotations.
Local Open Scope string_scope.
Local Open Scope list_scope.
Set Warnings "-register-all".

(** ** JavaScript numbers *)

Module JS.
Local Open Scope Q_scope.

Definition Qltb (x y : Q) : bool := negb (Qle_bool y x).

(** [Math.floor], as a number. *)
Definition Math_floor (x : Q) : Q := inject_Z (Qfloor x).

(** Truncation toward zero, the rounding of [%] and of array indices. *)
Definition Math_trunc (x : Q) : Z :=
  if Qltb x 0 then Qceiling x else Qfloor x.

(** [a % b] for [b <> 0]: the remainder has the sign of the dividend. *)
Definition rem (a b : Q) : Q := a - b * inject_Z (Math_trunc (a / b)).

Definition Math_max (a b : Q) : Q := if Qle_bool a b then b else a.
Definition Math_min (a b : Q) : Q := if Qle_bool a b then a else b.

(** The transcendental members of [Math]. *)
Class MathLib := {
  Math_sin : Q -> Q;
  Math_cos : Q -> Q;
  Math_PI : Q;
  Math_pow2 : Q -> Q  (* Math.pow(2, x) *)
}.

(** One instance, to run the definitions on examples; no theorem depends on
    the values it picks. *)
Definition sampleMath : MathLib :=
  {| Math_sin := fun _ => 0; Math_cos := fun _ => 1;
     Math_PI := 355 # 113; Math_pow2 := fun _ => 1 |}.

Lemma Qltb_lt x y : Qltb x y = true <-> x < y.
Proof.
  unfold Qltb. rewrite negb_true_iff, <- not_true_iff_false, Qle_bool_iff.
  split; intros; lra.
Qed.

Lemma Qltb_ge x y : Qltb x y = false <-> y <= x.
Proof. unfold Qltb. rewrite negb_false_iff, Qle_bool_iff. reflexivity. Qed.


Lemma Qeq_bool_false x y : Qeq_bool x y = false <-> ~ x == y.
Proof. rewrite <- not_true_iff_false, Qeq_bool_iff. reflexivity. Qed.



Lemma Math_trunc_Z (z : Z) : Math_trunc (inject_Z z) = z.
Proof. unfold Math_trunc. destruct (Qltb _ _); [apply Qceiling_Z | apply Qfloor_Z]. Qed.

Lemma Math_trunc_comp x y : x == y -> Math_trunc x = Math_trunc y.
Proof.
  intros E. unfold Math_trunc, Qltb. rewrite E.
  destruct (negb _); [apply Qceiling_comp | apply Qfloor_comp]; exact E.
Qed.



(** *** Double precision

    A number of JavaScript is a binary64 value.  [round64] rounds a
    rational to the nearest one, ties to the even significand, as every
    arithmetic operation of JavaScript rounds its exact result.  Overflow
    to an infinity, NaN and the sign of zero are not represented. *)

(** The binade of a positive rational: the [e] with [2^e <= q < 2^(e+1)]. *)
Definition binade (q : Q) : Z :=
  let k := (Z.log2 (Qnum q) - Z.log2 (Zpos (Qden q)))%Z in
  if Qle_bool (2 ^ k) q then k else (k - 1)%Z.

(** The nearest integer, the even one of two that are equally near. *)
Definition round_even (x : Q) : Z :=
  let f := Qfloor x in
  let r := x - inject_Z f in
  if Qltb r (1 # 2) then f
  else if Qltb (1 # 2) r then (f + 1)%Z
  else if Z.even f then f else (f + 1)%Z.

(** The distance between the binary64 values next to [a], for [a > 0]:
    53 significant bits, and the smallest exponent is -1022. *)
Definition ulp (a : Q) : Q := 2 ^ (Z.max (binade a) (-1022) - 52).

Definition round64 (q : Q) : Q :=
  if Qeq_bool q 0 then 0
  else
    let a := Qabs q in
    let m := inject_Z (round_even (a / ulp a)) * ulp a in
    if Qltb q 0 then - m else m.

Definition add64 (a b : Q) : Q := round64 (a + b).
Definition sub64 (a b : Q) : Q := round64 (a - b).
Definition mul64 (a b : Q) : Q := round64 (a * b).
Definition div64 (a b : Q) : Q := round64 (a / b).

(** [Math.sqrt], correctly rounded, of a number that is not negative: the
    root is taken of the number scaled by a power of 4 that leaves more
    than 64 bits before the point, and a root that is not exact is
    replaced by a value strictly between the same two integers, which
    rounds the same way. *)
Definition sqrt64 (q : Q) : Q :=
  if Qle_bool q 0 then 0
  else
    let s := (64 - binade q / 2)%Z in
    let scaled := q * 4 ^ s in
    let m := Z.sqrt (Qfloor scaled) in
    let root := if Qeq_bool (inject_Z (m * m)) scaled then inject_Z m
                else inject_Z m + (1 # 2) in
    round64 (root / 2 ^ s).

(** A binary64 value. *)
Definition is_double (q : Q) : Prop := round64 q == q.


Lemma pow2_pos e : 0 < 2 ^ e.
Proof. apply Qpower_0_lt. reflexivity. Qed.

Lemma pow2_plus a b : 2 ^ (a + b) == 2 ^ a * 2 ^ b.
Proof. apply Qpower_plus. discriminate. Qed.

Lemma pow2_le a b : (a <= b)%Z -> 2 ^ a <= 2 ^ b.
Proof. intros H. apply Qpower_le_compat_l; [exact H | discriminate]. Qed.

Lemma pow2_lt_inv a b : 2 ^ a < 2 ^ b -> (a < b)%Z.
Proof. intros H. apply (Qpower_lt_compat_l_inv 2); [exact H | reflexivity]. Qed.

Lemma pow2_Z (n : Z) : (0 <= n)%Z -> 2 ^ n == inject_Z (2 ^ n).
Proof. intros H. symmetry. apply (Zpower_Qpower 2 n H). Qed.

Lemma binade_spec q : 0 < q -> 2 ^ binade q <= q /\ q < 2 ^ (binade q + 1).
Proof.
  intros Hq. destruct q as [n d]. unfold binade. cbn [Qnum Qden].
  assert (0 < n)%Z as Hn by (unfold Qlt in Hq; simpl in Hq; lia).
  set (a := Z.log2 n). set (b := Z.log2 (Zpos d)). set (k := (a - b)%Z).
  destruct (Z.log2_spec n Hn) as [A1 A2]. fold a in A1, A2.
  destruct (Z.log2_spec (Zpos d) eq_refl) as [B1 B2]. fold b in B1, B2.
  assert (0 <= a)%Z as Ha by apply Z.log2_nonneg.
  assert (0 <= b)%Z as Hb by apply Z.log2_nonneg.
  assert (n # d == inject_Z n / inject_Z (Zpos d)) as E by apply Qmake_Qdiv.
  assert (0 < inject_Z (Zpos d)) as Pd by reflexivity.
  assert (2 ^ a <= inject_Z n) as A1' by (rewrite pow2_Z by lia; now rewrite <- Zle_Qle).
  assert (inject_Z n < 2 ^ (a + 1)) as A2'
    by (rewrite pow2_Z by lia; rewrite <- Zlt_Qlt; exact A2).
  assert (2 ^ b <= inject_Z (Zpos d)) as B1' by (rewrite pow2_Z by lia; now rewrite <- Zle_Qle).
  assert (inject_Z (Zpos d) < 2 ^ (b + 1)) as B2'
    by (rewrite pow2_Z by lia; rewrite <- Zlt_Qlt; exact B2).
  assert (n # d < 2 ^ (k + 1)) as U.
  { rewrite E. apply Qlt_shift_div_r; [exact Pd |].
    assert (2 ^ (a + 1) == 2 ^ (k + 1) * 2 ^ b) as F
      by (rewrite <- pow2_plus; unfold k; now replace (a - b + 1 + b)%Z with (a + 1)%Z by lia).
    pose proof (pow2_pos (k + 1)). nra. }
  assert (2 ^ (k - 1) <= n # d) as L.
  { rewrite E. apply Qle_shift_div_l; [exact Pd |].
    assert (2 ^ a == 2 ^ (k - 1) * 2 ^ (b + 1)) as F
      by (rewrite <- pow2_plus; unfold k; now replace (a - b - 1 + (b + 1))%Z with a by lia).
    pose proof (pow2_pos (k - 1)). nra. }
  destruct (Qle_bool (2 ^ k) (n # d)) eqn:C.
  - apply Qle_bool_iff in C. split; [exact C | exact U].
  - assert (n # d < 2 ^ k) as C'.
    { apply Qnot_le_lt. intros H. apply Qle_bool_iff in H. congruence. }
    split; [exact L |]. now replace (k - 1 + 1)%Z with k by lia.
Qed.

Lemma binade_unique q e : 0 < q -> 2 ^ e <= q -> q < 2 ^ (e + 1) -> binade q = e.
Proof.
  intros Hq L U. destruct (binade_spec q Hq) as [L' U'].
  assert (2 ^ e < 2 ^ (binade q + 1)) as A by lra.
  assert (2 ^ binade q < 2 ^ (e + 1)) as B by lra.
  apply pow2_lt_inv in A, B. lia.
Qed.

Lemma binade_comp q q' : 0 < q -> q == q' -> binade q = binade q'.
Proof.
  intros Hq E. symmetry. destruct (binade_spec q Hq) as [L U].
  apply binade_unique; rewrite <- E; assumption.
Qed.

Lemma binade_mono x y : 0 < x -> x <= y -> (binade x <= binade y)%Z.
Proof.
  intros Hx H. destruct (binade_spec x Hx) as [L _].
  destruct (binade_spec y) as [_ U]; [lra |].
  assert (2 ^ binade x < 2 ^ (binade y + 1)) as A by lra.
  apply pow2_lt_inv in A. lia.
Qed.

Lemma ulp_pos a : 0 < ulp a.
Proof. apply pow2_pos. Qed.

Lemma ulp_comp a a' : 0 < a -> a == a' -> ulp a = ulp a'.
Proof. intros H E. unfold ulp. now rewrite (binade_comp a a' H E). Qed.

(** [round_even] does not pass an integer. *)
Lemma round_even_ge (x : Q) (k : Z) : inject_Z k <= x -> (k <= round_even x)%Z.
Proof.
  intros H. apply Qfloor_resp_le in H. rewrite Qfloor_Z in H. unfold round_even.
  destruct (Qltb _ _); [exact H |]. destruct (Qltb _ _); [lia |]. destruct (Z.even _); lia.
Qed.

Lemma round_even_le (x : Q) (k : Z) : x <= inject_Z k -> (round_even x <= k)%Z.
Proof.
  intros H. pose proof (Qfloor_le x) as F. pose proof (Qlt_floor x) as F'.
  assert (Qfloor x <= k)%Z as A by (rewrite Zle_Qle; lra).
  unfold round_even. destruct (Qltb (x - inject_Z (Qfloor x)) (1 # 2)) eqn:C; [exact A |].
  apply Qltb_ge in C.
  assert (Qfloor x <> k) as N by (intros E; rewrite E in C; lra).
  destruct (Qltb _ _); [lia |]. destruct (Z.even _); lia.
Qed.

Lemma round_even_comp x y : x == y -> round_even x = round_even y.
Proof.
  intros E. unfold round_even, Qltb. cbv zeta. rewrite (Qfloor_comp x y E).
  assert (x - inject_Z (Qfloor y) == y - inject_Z (Qfloor y)) as D by (now rewrite E).
  assert (Qle_bool (1 # 2) (x - inject_Z (Qfloor y))
          = Qle_bool (1 # 2) (y - inject_Z (Qfloor y))) as -> by (now rewrite D).
  assert (Qle_bool (x - inject_Z (Qfloor y)) (1 # 2)
          = Qle_bool (y - inject_Z (Qfloor y)) (1 # 2)) as -> by (now rewrite D).
  reflexivity.
Qed.

Lemma round_even_Z (k : Z) : round_even (inject_Z k) = k.
Proof.
  apply Z.le_antisymm; [apply round_even_le | apply round_even_ge]; apply Qle_refl.
Qed.

(** The rounding of a positive rational. *)
Definition nearest (a : Q) : Q := inject_Z (round_even (a / ulp a)) * ulp a.

Lemma round64_pos q : 0 < q -> round64 q = nearest q.
Proof.
  intros H. unfold round64, nearest.
  assert (Qeq_bool q 0 = false) as -> by (apply Qeq_bool_false; lra).
  assert (Qltb q 0 = false) as -> by (apply Qltb_ge; lra).
  assert (Qabs q == q) as E by (apply Qabs_pos; lra).
  assert (0 < Qabs q) as P by lra.
  rewrite (ulp_comp _ _ P E).
  now rewrite (round_even_comp _ _ (Qdiv_comp _ _ E _ _ (Qeq_refl (ulp q)))).
Qed.

Lemma round64_neg q : q < 0 -> round64 q = - nearest (- q).
Proof.
  intros H. unfold round64, nearest.
  assert (Qeq_bool q 0 = false) as -> by (apply Qeq_bool_false; lra).
  assert (Qltb q 0 = true) as -> by (apply Qltb_lt; lra).
  assert (Qabs q == - q) as E by (apply Qabs_neg; lra).
  assert (0 < Qabs q) as P by lra.
  rewrite (ulp_comp _ _ P E).
  now rewrite (round_even_comp _ _ (Qdiv_comp _ _ E _ _ (Qeq_refl (ulp (- q))))).
Qed.

Lemma round64_zero q : q == 0 -> round64 q = 0.
Proof. intros H. unfold round64. now apply Qeq_bool_iff in H as ->. Qed.

Lemma nearest_nonneg a : 0 < a -> 0 <= nearest a.
Proof.
  intros H. unfold nearest. pose proof (ulp_pos a) as U.
  assert (0 <= round_even (a / ulp a))%Z as R.
  { apply round_even_ge. change (inject_Z 0) with 0. apply Qle_shift_div_l; [exact U | lra]. }
  rewrite Zle_Qle in R. change (inject_Z 0) with 0 in R. nra.
Qed.

Lemma nearest_grid_ge a (k : Z) : 0 < a -> inject_Z k * ulp a <= a -> inject_Z k * ulp a <= nearest a.
Proof.
  intros H L. unfold nearest. pose proof (ulp_pos a) as U.
  assert (k <= round_even (a / ulp a))%Z as R
    by (apply round_even_ge; apply Qle_shift_div_l; assumption).
  rewrite Zle_Qle in R. nra.
Qed.

Lemma nearest_grid_le a (k : Z) : 0 < a -> a <= inject_Z k * ulp a -> nearest a <= inject_Z k * ulp a.
Proof.
  intros H L. unfold nearest. pose proof (ulp_pos a) as U.
  assert (round_even (a / ulp a) <= k)%Z as R
    by (apply round_even_le; apply Qle_shift_div_r; assumption).
  rewrite Zle_Qle in R. nra.
Qed.

(** The binary64 values lie on the grid of every smaller [ulp]. *)
Lemma ulp_divides a z : 0 < a -> a <= z ->
  exists d : Z, (0 <= d)%Z /\ ulp z == inject_Z (2 ^ d) * ulp a.
Proof.
  intros Ha H. pose proof (binade_mono a z Ha H) as M. unfold ulp.
  exists (Z.max (binade z) (-1022) - Z.max (binade a) (-1022))%Z. split; [lia |].
  rewrite <- pow2_Z by lia. rewrite <- pow2_plus. now match goal with
  | |- 2 ^ ?u == 2 ^ ?v => replace v with u by lia end.
Qed.

Lemma nearest_le_double q z : 0 < q -> q <= z -> nearest z == z -> nearest q <= z.
Proof.
  intros Hq H D. destruct (ulp_divides q z Hq H) as (d & Hd & E).
  unfold nearest in D. set (j := round_even (z / ulp z)) in D.
  assert (z == inject_Z (j * 2 ^ d) * ulp q) as G
    by (rewrite inject_Z_mult, <- Qmult_assoc, <- E; now symmetry).
  rewrite G. apply nearest_grid_le; [exact Hq | now rewrite <- G].
Qed.

Lemma double_le_nearest q z : 0 < z -> z <= q -> nearest z == z -> z <= nearest q.
Proof.
  intros Hz H D. assert (0 < q) as Hq by lra.
  pose proof (binade_mono z q Hz H) as M.
  destruct (Z.eq_dec (Z.max (binade z) (-1022)) (Z.max (binade q) (-1022))) as [Same | Diff].
  - assert (ulp z = ulp q) as U by (unfold ulp; now rewrite Same).
    unfold nearest in D. set (j := round_even (z / ulp z)) in D. rewrite U in D.
    rewrite <- D. apply nearest_grid_ge; [exact Hq | now rewrite D].
  - assert (Z.max (binade q) (-1022) = binade q) as Eq by lia.
    assert (binade z + 1 <= binade q)%Z as Lt by lia.
    destruct (binade_spec z Hz) as [_ Uz]. destruct (binade_spec q Hq) as [Lq _].
    assert (2 ^ binade q == inject_Z (2 ^ 52) * ulp q) as G.
    { unfold ulp. rewrite Eq, <- pow2_Z by lia. rewrite <- pow2_plus.
      now replace (52 + (binade q - 52))%Z with (binade q) by lia. }
    assert (inject_Z (2 ^ 52) * ulp q <= nearest q) as N
      by (apply nearest_grid_ge; [exact Hq | now rewrite <- G]).
    pose proof (pow2_le _ _ Lt). lra.
Qed.

Lemma is_double_opp z : is_double z -> is_double (- z).
Proof.
  unfold is_double. intros D.
  destruct (Qlt_le_dec z 0) as [N | P].
  - rewrite round64_neg in D by exact N. rewrite round64_pos by lra.
    assert (nearest (- z) == - - nearest (- z)) as -> by ring. now rewrite D.
  - destruct (Qle_lt_or_eq _ _ P) as [P' | Z].
    + rewrite round64_pos in D by exact P'. rewrite round64_neg by lra.
      assert (- - z == z) as E by ring. assert (0 < - - z) as P2 by lra.
      unfold nearest in *. rewrite (ulp_comp _ _ P2 E).
      rewrite (round_even_comp _ _ (Qdiv_comp _ _ E _ _ (Qeq_refl (ulp z)))). now rewrite D.
    + rewrite round64_zero by lra. lra.
Qed.

(** Rounding does not pass a binary64 value. *)
Theorem round64_le q z : is_double z -> q <= z -> round64 q <= z.
Proof.
  unfold is_double. intros D H.
  destruct (Qlt_le_dec 0 q) as [Pq | Nq].
  - rewrite round64_pos by exact Pq. rewrite round64_pos in D by lra.
    now apply nearest_le_double.
  - destruct (Qle_lt_or_eq _ _ Nq) as [Nq' | Zq]; [| rewrite round64_zero by exact Zq; lra].
    rewrite round64_neg by exact Nq'.
    destruct (Qlt_le_dec z 0) as [Nz | Pz].
    + rewrite round64_neg in D by exact Nz.
      assert (- z <= nearest (- q)); [| lra].
      apply double_le_nearest; [lra | lra | lra].
    + pose proof (nearest_nonneg (- q)). lra.
Qed.

Theorem round64_ge q z : is_double z -> z <= q -> z <= round64 q.
Proof.
  intros D H. apply is_double_opp in D.
  assert (round64 (- q) <= - z) as A by (apply round64_le; [exact D | lra]).
  destruct (Qlt_le_dec 0 q) as [Pq | Nq].
  - rewrite round64_neg in A by lra. rewrite round64_pos by exact Pq.
    assert (- - q == q) as E by ring. assert (0 < - - q) as P2 by lra.
    unfold nearest in *. rewrite (ulp_comp _ _ P2 E) in A.
    rewrite (round_even_comp _ _ (Qdiv_comp _ _ E _ _ (Qeq_refl (ulp q)))) in A. lra.
  - destruct (Qle_lt_or_eq _ _ Nq) as [Nq' | Zq].
    + rewrite round64_pos in A by lra. rewrite round64_neg by exact Nq'. lra.
    + rewrite round64_zero in A by lra. rewrite round64_zero by exact Zq. lra.
Qed.

Lemma round64_comp q q' : q == q' -> round64 q = round64 q'.
Proof.
  intros E. destruct (Qlt_le_dec 0 q) as [P | N].
  - rewrite !round64_pos by lra. unfold nearest. rewrite (ulp_comp _ _ P E).
    now rewrite (round_even_comp _ _ (Qdiv_comp _ _ E _ _ (Qeq_refl (ulp q')))).
  - destruct (Qle_lt_or_eq _ _ N) as [N' | Z]; [| now rewrite !round64_zero by lra].
    rewrite !round64_neg by lra.
    assert (- q == - q') as E' by (now rewrite E). assert (0 < - q) as P by lra.
    unfold nearest. rewrite (ulp_comp _ _ P E').
    now rewrite (round_even_comp _ _ (Qdiv_comp _ _ E' _ _ (Qeq_refl (ulp (- q'))))).
Qed.

Lemma nearest_exact a (k : Z) : 0 < a -> a == inject_Z k * ulp a -> nearest a == a.
Proof.
  intros H E.
  assert (nearest a <= inject_Z k * ulp a) as A
    by (apply nearest_grid_le; [exact H | rewrite <- E; apply Qle_refl]).
  assert (inject_Z k * ulp a <= nearest a) as B
    by (apply nearest_grid_ge; [exact H | rewrite <- E; apply Qle_refl]).
  set (t := inject_Z k * ulp a) in *. lra.
Qed.

(** A binary64 value of the binade [e] is a multiple of [2^(e-52)]. *)
Lemma double_grid z e : is_double z -> 2 ^ e <= z -> z < 2 ^ (e + 1) -> (-1022 <= e)%Z ->
  exists j : Z, z == inject_Z j * 2 ^ (e - 52).
Proof.
  intros D L U He. assert (0 < z) as P by (pose proof (pow2_pos e); lra).
  unfold is_double in D. rewrite round64_pos in D by exact P.
  exists (round_even (z / ulp z)).
  assert (ulp z = 2 ^ (e - 52)) as <-; [| now symmetry].
  unfold ulp. rewrite (binade_unique z e P L U). now replace (Z.max e (-1022)) with e by lia.
Qed.

(** The whole numbers below [2^53] are binary64 values. *)
Lemma is_double_Z (n : Z) : (Z.abs n < 2 ^ 53)%Z -> is_double (inject_Z n).
Proof.
  assert (forall n, (0 < n < 2 ^ 53)%Z -> is_double (inject_Z n)) as Pos.
  { clear n. intros n [Hn Hb]. unfold is_double.
    assert (0 < inject_Z n) as P by (change 0 with (inject_Z 0); now rewrite <- Zlt_Qlt).
    rewrite round64_pos by exact P.
    destruct (binade_spec _ P) as [L U]. set (b := binade (inject_Z n)) in *.
    assert (b < 53)%Z as B1.
    { apply pow2_lt_inv. rewrite (pow2_Z 53) by lia. rewrite Zlt_Qlt in Hb. lra. }
    assert (0 <= b)%Z as B0.
    { assert (2 ^ 0 < 2 ^ (b + 1)) as A.
      { change (2 ^ 0) with 1. assert (1 <= inject_Z n); [| lra].
        change 1 with (inject_Z 1). rewrite <- Zle_Qle. lia. }
      apply pow2_lt_inv in A. lia. }
    apply (nearest_exact _ (n * 2 ^ (52 - b))); [exact P |].
    unfold ulp. fold b. replace (Z.max b (-1022)) with b by lia.
    rewrite inject_Z_mult, <- pow2_Z by lia. rewrite <- Qmult_assoc, <- pow2_plus.
    replace (52 - b + (b - 52))%Z with 0%Z by lia. change (2 ^ 0) with 1. ring. }
  intros H. destruct (Z.lt_trichotomy n 0) as [N | [-> | P]].
  - assert (inject_Z n == - inject_Z (- n)) as E by (rewrite inject_Z_opp; ring).
    assert (is_double (- inject_Z (- n))) as D by (apply is_double_opp, Pos; lia).
    unfold is_double in *. rewrite (round64_comp _ _ E).
    etransitivity; [exact D | symmetry; exact E].
  - reflexivity.
  - apply Pos. lia.
Qed.

(** *** Numbers as text *)

(** The decimal digits of a whole number that is not negative. *)
Fixpoint digits_from (fuel : nat) (n : Z) (acc : string) : string :=
  match fuel with
  | O => acc
  | S fuel =>
      let acc := String (ascii_of_nat (48 + Z.to_nat (n mod 10))) acc in
      if (n / 10 =? 0)%Z then acc else digits_from fuel (n / 10) acc
  end.

Definition digits (n : Z) : string := digits_from 400 n "".

Fixpoint zeros (n : nat) : string :=
  match n with O => "" | S n => String "0" (zeros n) end.

(** The [n] with [10^(n-1) <= x < 10^n], for [x > 0]. *)
Definition decade (x : Q) : Z :=
  (fix adjust (fuel : nat) (n : Z) : Z :=
     match fuel with
     | O => n
     | S fuel =>
         if Qle_bool (10 ^ n) x then adjust fuel (n + 1)%Z
         else if Qltb x (10 ^ (n - 1)) then adjust fuel (n - 1)%Z
         else n
     end) 8%nat (binade x * 30103 / 100000 + 1)%Z.

(** The shortest decimal that reads back as the double [x > 0]: the
    digits [s], their number [k] and the place [n] of the point, with
    [s * 10^(n-k)] the decimal; of two decimals of the same length the
    nearer one. *)
Definition shortest (x : Q) : Z * Z * Z :=
  let n := decade x in
  (fix search (fuel : nat) (k : Z) : Z * Z * Z :=
     let scale := 10 ^ (n - k) in
     let lo := Qfloor (x / scale) in
     let hi := (lo + 1)%Z in
     let reads s := Qeq_bool (round64 (inject_Z s * scale)) x in
     let found s := if (s =? 10 ^ k)%Z then ((n + 1)%Z, 1%Z, 1%Z) else (n, k, s) in
     match fuel with
     | O => found lo
     | S fuel =>
         if reads lo && reads hi then
           if Qle_bool (x - inject_Z lo * scale) (inject_Z hi * scale - x)
           then found lo else found hi
         else if reads lo then found lo
         else if reads hi then found hi
         else search fuel (k + 1)%Z
     end) 17%nat 1%Z.

(** [String(x)] for a number: the text of the double nearest to [x]. *)
Definition Number_toString (q : Q) : string :=
  let x := round64 q in
  if Qeq_bool x 0 then "0"
  else
    let '(n, k, s) := shortest (Qabs x) in
    let ds := digits s in
    let body :=
      if (k <=? n)%Z && (n <=? 21)%Z then ds +:+ zeros (Z.to_nat (n - k))
      else if (0 <? n)%Z && (n <=? 21)%Z then
        substring 0 (Z.to_nat n) ds +:+ "." +:+ substring (Z.to_nat n) (Z.to_nat (k - n)) ds
      else if (-6 <? n)%Z && (n <=? 0)%Z then "0." +:+ zeros (Z.to_nat (- n)) +:+ ds
      else
        let e := (n - 1)%Z in
        (if (k =? 1)%Z then ds
         else substring 0 1 ds +:+ "." +:+ substring 1 (Z.to_nat (k - 1)) ds)
        +:+ "e" +:+ (if (0 <=? e)%Z then "+" else "-") +:+ digits (Z.abs e) in
    if Qltb x 0 then "-" +:+ body else body.

End JS.

(** ** Tween evaluator (src/scene/hooks.ts) *)

Module Tween.
Import JS.
Local Open Scope Q_scope.

Record TweenDef := mkTween {
  property : string;
  from : Q;
  to : Q;
  duration : Q;
  easing : option string;
  delay : option Q;
  repeat : option Q;
  yoyo : option bool;
  startedAt : option Q
}.

Definition EasingFn := Q -> Q.

Definition bounceOut (t : Q) : Q :=
  let n1 := 7.5625 in
  let d1 := 2.75 in
  if Qltb t (1 / d1) then n1 * t * t
  else if Qltb t (2 / d1) then
    let t := t - 1.5 / d1 in n1 * t * t + 0.75
  else if Qltb t (2.5 / d1) then
    let t := t - 2.25 / d1 in n1 * t * t + 0.9375
  else
    let t := t - 2.625 / d1 in n1 * t * t + 0.984375.

Section Easing.
Context {M : MathLib}.

(** The table [easingFunctions], in the order of the source. *)
Definition easingFunctions : list (string * EasingFn) :=
  [ ("linear", fun t => t);
    ("ease-in", fun t => t * t * t);
    ("ease-out", fun t => 1 - (1 - t) ^ 3);
    ("ease-in-out",
      fun t => if Qltb t 0.5 then 4 * t * t * t else 1 - (-2 * t + 2) ^ 3 / 2);
    ("ease-in-quad", fun t => t * t);
    ("ease-out-quad", fun t => 1 - (1 - t) * (1 - t));
    ("ease-in-out-quad",
      fun t => if Qltb t 0.5 then 2 * t * t else 1 - (-2 * t + 2) ^ 2 / 2);
    ("ease-in-cubic", fun t => t * t * t);
    ("ease-out-cubic", fun t => 1 - (1 - t) ^ 3);
    ("ease-in-out-cubic",
      fun t => if Qltb t 0.5 then 4 * t * t * t else 1 - (-2 * t + 2) ^ 3 / 2);
    ("ease-in-elastic",
      fun t => if Qeq_bool t 0 || Qeq_bool t 1 then t
               else - Math_pow2 (10 * t - 10)
                      * Math_sin ((t * 10 - 10.75) * (2 * Math_PI / 3)));
    ("ease-out-elastic",
      fun t => if Qeq_bool t 0 || Qeq_bool t 1 then t
               else Math_pow2 (-10 * t)
                      * Math_sin ((t * 10 - 0.75) * (2 * Math_PI / 3)) + 1);
    ("ease-in-bounce", fun t => 1 - bounceOut (1 - t));
    ("ease-out-bounce", bounceOut) ].

(** The table is an object literal, so [easingFunctions[name]] also finds
    the members every object inherits from [Object.prototype]. *)
Definition Object_prototype_members : list string :=
  [ "constructor"; "hasOwnProperty"; "isPrototypeOf"; "propertyIsEnumerable";
    "toLocaleString"; "toString"; "valueOf"; "__proto__";
    "__defineGetter__"; "__defineSetter__"; "__lookupGetter__"; "__lookupSetter__" ].

Inductive table_entry :=
| Curve (f : EasingFn)       (* an own property: one of the named curves *)
| Inherited (name : string)  (* a member of Object.prototype, not a curve *)
| Undefined.                 (* no such property *)

Fixpoint own_property (name : string) (tbl : list (string * EasingFn)) : option EasingFn :=
  match tbl with
  | [] => None
  | (k, f) :: rest => if String.eqb k name then Some f else own_property name rest
  end.

Definition table_get (name : string) : table_entry :=
  match own_property name easingFunctions with
  | Some f => Curve f
  | None =>
      if existsb (String.eqb name) Object_prototype_members
      then Inherited name else Undefined
  end.

(** The result of [interpolateTween]: [null], a number, the call of an
    inherited member in place of a curve (depending on the member it yields
    NaN, a value that is no curve value, or a TypeError; left
    uninterpreted), or the call of [undefined]. *)
Inductive result :=
| Null
| Num (v : Q)
| CallsInherited (name : string)
| NotCallable.               (* TypeError: easeFn is not a function *)

Definition interpolateTween (tween : TweenDef) (now : Q) : result :=
  match startedAt tween with
  | None => Null
  | Some started =>
      let delay := default 0 (delay tween) in
      let elapsed := now - started - delay in
      if Qltb elapsed 0 then Num (from tween)
      else
        let repeat := default 0 (repeat tween) in
        let duration := duration tween in
        if Qle_bool duration 0 then Num (to tween)
        else
          let iteration := Math_floor (elapsed / duration) in
          let progress := rem elapsed duration / duration in
          if Qle_bool 0 repeat && Qltb repeat iteration then
            if default false (yoyo tween) && Qeq_bool (rem repeat 2) 0
            then Num (from tween) else Num (to tween)
          else
            let progress :=
              if default false (yoyo tween) && Qeq_bool (rem iteration 2) 1
              then 1 - progress else progress in
            let easingName := default "ease-in-out" (easing tween) in
            let entry :=
              match table_get easingName with
              | Undefined => table_get "linear"
              | e => e
              end in
            match entry with
            | Curve easeFn =>
                let t := easeFn (Math_max 0 (Math_min 1 progress)) in
                Num (from tween + (to tween - from tween) * t)
            | Inherited name => CallsInherited name
            | Undefined => NotCallable
            end
  end.

End Easing.

(** [r] is the number [q]. *)
Definition returns (r : result) (q : Q) : Prop :=
  match r with Num v => v == q | _ => False end.

Definition with_easing (name : option string) (tw : TweenDef) : TweenDef :=
  mkTween (property tw) (from tw) (to tw) (duration tw) name
          (delay tw) (repeat tw) (yoyo tw) (startedAt tw).

(** *** Properties of the tween evaluator *)

Section TweenFacts.
Context {M : MathLib}.


Lemma table_get_ease_in_out :
  table_get "ease-in-out" =
  Curve (fun t => if Qltb t 0.5 then 4 * t * t * t else 1 - (-2 * t + 2) ^ 3 / 2).
Proof. reflexivity. Qed.






Lemma own_property_absent name tbl :
  ~ In name (map fst tbl) -> own_property name tbl = None.
Proof.
  induction tbl as [| [k f] rest IH]; simpl; intros H; [reflexivity|].
  destruct (String.eqb_spec k name) as [-> | _]; [ exfalso; auto | apply IH; auto ].
Qed.

Lemma table_get_unknown name :
  ~ In name (map fst easingFunctions) ->
  ~ In name Object_prototype_members ->
  table_get name = Undefined.
Proof.
  intros H1 H2. unfold table_get. rewrite (own_property_absent _ _ H1).
  destruct (existsb _ _) eqn:E; [| reflexivity].
  apply existsb_exists in E. destruct E as (x & Hin & Hx).
  apply String.eqb_eq in Hx. subst x. contradiction.
Qed.

(** With a positive duration and an easing that is absent or names a curve,
    the result is a number computed with that curve (or an end value). *)
Lemma interpolate_with_curve tw s now name f :
  startedAt tw = Some s ->
  0 < duration tw ->
  match table_get (default "ease-in-out" (easing tw)) with
  | Undefined => table_get "linear" | e => e end = Curve f ->
  table_get name = Curve f ->
  interpolateTween tw now = interpolateTween (with_easing (Some name) tw) now /\
  exists v, interpolateTween tw now = Num v.
Proof.
  intros Hs Hd H1 H2. unfold interpolateTween, with_easing. simpl. rewrite Hs. cbv zeta.
  destruct (Qltb _ 0); [ split; [reflexivity | eauto] |].
  destruct (Qle_bool (duration tw) 0); [ split; [reflexivity | eauto] |].
  destruct (_ && Qltb _ _).
  - split; [reflexivity|]. destruct (_ && _); eauto.
  - rewrite H1, H2. split; [reflexivity | eauto].
Qed.


(** C8, amended: with [startedAt] set and a positive duration, an absent
    easing name is evaluated with the ease-in-out curve, and a name that is
    no property of the easing table is evaluated with the linear curve; in
    both cases the result is a number. *)
Theorem easing_fallback tw s now :
  startedAt tw = Some s ->
  0 < duration tw ->
  (easing tw = None ->
     interpolateTween tw now =
       interpolateTween (with_easing (Some "ease-in-out") tw) now /\
     exists v, interpolateTween tw now = Num v) /\
  (forall name, easing tw = Some name ->
     ~ In name (map fst easingFunctions) ->
     ~ In name Object_prototype_members ->
     interpolateTween tw now =
       interpolateTween (with_easing (Some "linear") tw) now /\
     exists v, interpolateTween tw now = Num v).
Proof.
  intros Hs Hd. split.
  - intros He. eapply interpolate_with_curve; eauto.
    rewrite He. simpl default. rewrite table_get_ease_in_out. reflexivity.
  - intros name He H1 H2. eapply interpolate_with_curve; eauto.
    rewrite He. simpl default. rewrite (table_get_unknown name H1 H2). reflexivity.
Qed.


End TweenFacts.







(** A tween from 0 to 16 over 4 ms whose easing names no curve. *)
Definition bogus_tween : TweenDef :=
  mkTween "transform.x" 0 16 4 (Some "bogus") None None None (Some 0).

(** C8 as stated fails for an unrecognized name: a quarter into the run the
    tween is at 4, the linear value, where ease-in-out gives 1. *)
Lemma bogus_easing_is_linear :
  ~ In "bogus" (map fst (easingFunctions (M := sampleMath))) /\
  returns (interpolateTween (M := sampleMath) bogus_tween 1) 4 /\
  returns (interpolateTween (M := sampleMath)
             (with_easing (Some "ease-in-out") bogus_tween) 1) 1 /\
  interpolateTween (M := sampleMath) bogus_tween 1 <>
    interpolateTween (M := sampleMath) (with_easing (Some "ease-in-out") bogus_tween) 1.
Proof.
  split; [| split; [| split] ].
  - simpl. intros H. repeat (destruct H as [H | H]; [discriminate H |]). exact H.
  - reflexivity.
  - reflexivity.
  - vm_compute. discriminate.
Qed.

Lemma easing_fallback_witness :
  (interpolateTween (M := sampleMath) bogus_tween 1 =
     interpolateTween (M := sampleMath) (with_easing (Some "linear") bogus_tween) 1 /\
   exists v, interpolateTween (M := sampleMath) bogus_tween 1 = Num v).
Proof.
  destruct (easing_fallback (M := sampleMath) bogus_tween 0 1) as (_ & H);
    [reflexivity | reflexivity |].
  apply (H "bogus"); [reflexivity | |];
    simpl; intros F; repeat (destruct F as [F | F]; [discriminate F |]); exact F.
Defined.



(** *** Bounds and running values of tweens *)

Section TweenBounds.
Context {M : MathLib}.






End TweenBounds.




End Tween.

(** ** Calls of [Math.random] *)

Module Random.
Local Open Scope Q_scope.

(** A computation that calls [Math.random]: it reads the sequence of the
    values the calls return, and counts the calls made so far. *)
Definition Rand (A : Type) : Type := (nat -> Q) -> nat -> A * nat.

#[export] Instance rand_ret : MRet Rand := fun A a _ i => (a, i).
#[export] Instance rand_bind : MBind Rand :=
  fun A B f c random i => let '(a, j) := c random i in f a random j.

Definition Math_random : Rand Q := fun random i => (random i, S i).

(** [Math.random] returns a number in [[0, 1)]. *)
Definition unit_interval (random : nat -> Q) : Prop :=
  forall i, 0 <= random i < 1.

End Random.

(** ** Particle simulator (src/scene/particles.ts) *)

Module Particles.
Import JS Random.
Local Open Scope Q_scope.

Record Range := mkRange { min : Q; max : Q }.

(** [color?: string | string[]] *)
Inductive ColorSpec := OneColor (c : string) | ColorList (cs : list string).

Record ParticleEmitter := mkEmitter {
  ex : Q;
  ey : Q;
  rate : Q;
  elifetime : Q;
  speed : Range;
  direction : Range;
  gravity : option Q;
  ecolor : option ColorSpec;
  esize : option Range;
  fadeOut : option bool;
  shape : option string
}.

Record Particle := mkParticle {
  x : Q; y : Q;
  vx : Q; vy : Q;
  age : Q; lifetime : Q;
  size : Q;
  color : option string   (* [None] when drawn from an empty color list *)
}.

Record ParticlesNode := mkParticlesNode {
  emitters : list ParticleEmitter;
  maxParticles : option Q;
  _particles : option (list Particle)
}.

Section Simulation.
Context {M : MathLib}.

Definition rand (lo hi : Q) : Rand Q :=
  r ← Math_random; mret (lo + r * (hi - lo)).

Definition degToRad (deg : Q) : Q := deg * Math_PI / 180.

(** The body of the spawn loop: one particle, from fresh draws. *)
Definition spawnOne (emitter : ParticleEmitter) : Rand Particle :=
  deg ← rand (min (direction emitter)) (max (direction emitter));
  let angle := degToRad deg in
  speed ← rand (min (speed emitter)) (max (speed emitter));
  size ← match esize emitter with
         | Some s => rand (min s) (max s)
         | None => mret 4
         end;
  let colors := match ecolor emitter with
                | Some (ColorList cs) => cs
                | Some (OneColor c) => [c]
                | None => ["#ffffff"]
                end in
  r ← Math_random;
  let color := colors !! Z.to_nat (Qfloor (r * inject_Z (Z.of_nat (length colors)))) in
  mret {| x := ex emitter; y := ey emitter;
          vx := Math_cos angle * speed; vy := Math_sin angle * speed;
          age := 0; lifetime := elifetime emitter;
          size := size; color := color |}.

Fixpoint spawnLoop (emitter : ParticleEmitter) (count : nat) : Rand (list Particle) :=
  match count with
  | O => mret []
  | S n => p ← spawnOne emitter; ps ← spawnLoop emitter n; mret (p :: ps)
  end.

(** [count = Math.floor(emitter.rate * (dt / 1000))], the quotient and the
    product rounded to doubles.  The loop [for (i = 0; i < count; i++)]
    runs [count] times, and not at all when [count] is negative. *)
Definition spawnParticles (emitter : ParticleEmitter) (dt : Q) : Rand (list Particle) :=
  let count := Qfloor (mul64 (rate emitter) (div64 dt 1000)) in
  spawnLoop emitter (Z.to_nat count).

Definition tickParticles (particles : list Particle) (emitters : list ParticleEmitter)
    (dt : Q) : list Particle :=
  let dtSec := dt / 1000 in
  let gravity := default 0 (head emitters ≫= gravity) in
  filter (fun p => Qltb (age p) (lifetime p) = true)
    (map (fun p => {| x := x p + vx p * dtSec;
                      y := y p + vy p * dtSec;
                      vx := vx p;
                      vy := vy p + gravity * dtSec;
                      age := add64 (age p) dt;
                      lifetime := lifetime p; size := size p; color := color p |})
         particles).

Fixpoint spawnAll (emitters : list ParticleEmitter) (dt : Q) : Rand (list Particle) :=
  match emitters with
  | [] => mret []
  | emitter :: rest =>
      spawned ← spawnParticles emitter dt;
      more ← spawnAll rest dt;
      mret (spawned ++ more)
  end.

(** [particles.slice(start)] for a start that is not negative: the index
    is truncated to a whole number. *)
Definition slice_from (start : Q) (l : list Particle) : list Particle :=
  drop (Z.to_nat (Math_trunc start)) l.

Definition tickParticleNode (node : ParticlesNode) (dt : Q) : Rand (list Particle) :=
  let max := default 200 (maxParticles node) in
  let particles := default [] (_particles node) in
  let particles := tickParticles particles (emitters node) dt in
  spawned ← spawnAll (emitters node) dt;
  let particles := particles ++ spawned in
  let len := inject_Z (Z.of_nat (length particles)) in
  mret (if Qltb max len then slice_from (sub64 len max) particles else particles).

End Simulation.

(** *** Properties of the particle simulator *)

Section ParticleFacts.
Context {M : MathLib}.
Variable random : nat -> Q.
Hypothesis random_unit : unit_interval random.

(** What the spawn loop gives a particle of emitter [e]: the place and the
    lifetime of the emitter, the age 0, and the velocity of the speed [v]
    at the angle of [deg] degrees, each the point of its range of the
    emitter that a draw [r] of [Math.random] picks, [min + r * (max - min)],
    and so within the range when the range is ordered. *)
Definition spawned_by (e : ParticleEmitter) (p : Particle) : Prop :=
  exists r1 r2 : Q,
    0 <= r1 < 1 /\ 0 <= r2 < 1 /\
    let deg := min (direction e) + r1 * (max (direction e) - min (direction e)) in
    let v := min (speed e) + r2 * (max (speed e) - min (speed e)) in
    (min (direction e) <= max (direction e) ->
       min (direction e) <= deg <= max (direction e)) /\
    (min (speed e) <= max (speed e) -> min (speed e) <= v <= max (speed e)) /\
    vx p = Math_cos (deg * Math_PI / 180) * v /\
    vy p = Math_sin (deg * Math_PI / 180) * v /\
    x p = ex e /\ y p = ey e /\ age p = 0 /\ lifetime p = elifetime e.

Lemma rand_in_range lo hi i :
  lo <= hi -> lo <= (rand lo hi random i).1 <= hi.
Proof.
  intros H. unfold rand, Math_random. simpl.
  destruct (random_unit i) as [R0 R1]. nra.
Qed.

Lemma spawnOne_spec e i : spawned_by e (spawnOne e random i).1.
Proof.
  exists (random i), (random (S i)).
  split; [apply random_unit | split; [apply random_unit |]]. cbv zeta.
  pose proof (rand_in_range (min (direction e)) (max (direction e)) i) as A.
  pose proof (rand_in_range (min (speed e)) (max (speed e)) (S i)) as B.
  split; [exact A | split; [exact B |]].
  unfold spawnOne, mbind, rand_bind, rand, Math_random, mret, rand_ret, degToRad.
  destruct (esize e) as [sz |]; simpl; repeat split.
Qed.

Lemma spawnLoop_spec e n i :
  length (spawnLoop e n random i).1 = n /\
  Forall (spawned_by e) (spawnLoop e n random i).1.
Proof.
  revert i. induction n as [| n IH]; intros i; simpl.
  - split; [reflexivity | constructor].
  - unfold mbind, rand_bind.
    pose proof (spawnOne_spec e i) as P.
    destruct (spawnOne e random i) as [p j].
    specialize (IH j). destruct (spawnLoop e n random j) as [ps k].
    simpl in *. destruct IH as [L F].
    split; [ now rewrite L | now constructor ].
Qed.

Lemma spawnAll_spec es dt i :
  exists spawned : list (list Particle),
    (spawnAll es dt random i).1 = concat spawned /\
    Forall2 (fun e sp =>
               length sp = Z.to_nat (Qfloor (mul64 (rate e) (div64 dt 1000))) /\
               Forall (spawned_by e) sp)
            es spawned.
Proof.
  revert i. induction es as [| e es IH]; intros i; simpl.
  - exists []. split; [reflexivity | constructor].
  - unfold mbind, rand_bind, spawnParticles. cbv zeta.
    destruct (spawnLoop_spec e (Z.to_nat (Qfloor (mul64 (rate e) (div64 dt 1000)))) i)
      as [L F].
    destruct (spawnLoop e _ random i) as [sp j].
    destruct (IH j) as (rest & E & F2).
    destruct (spawnAll es dt random j) as [more k].
    simpl in *. exists (sp :: rest). split.
    + simpl. now rewrite E.
    + constructor; [| exact F2]. split; [exact L | exact F].
Qed.

(** The cap keeps the last [m] particles of an array, which holds fewer
    than [2^32] elements. *)
Lemma cap_keeps_last (l : list Particle) (m : nat) (cap : Q) :
  cap == inject_Z (Z.of_nat m) ->
  (Z.of_nat (length l) < 2 ^ 32)%Z ->
  (let len := inject_Z (Z.of_nat (length l)) in
   if Qltb cap len then slice_from (sub64 len cap) l else l)
  = drop (length l - m) l.
Proof.
  intros E B. cbv zeta. destruct (Qltb _ _) eqn:C.
  - unfold slice_from. f_equal.
    apply Qltb_lt in C. rewrite E, <- Zlt_Qlt in C.
    assert (inject_Z (Z.of_nat (length l)) - cap
            == inject_Z (Z.of_nat (length l) - Z.of_nat m)) as D.
    { rewrite E. unfold Zminus. rewrite inject_Z_plus, inject_Z_opp. ring. }
    unfold sub64. rewrite (round64_comp _ _ D).
    assert (is_double (inject_Z (Z.of_nat (length l) - Z.of_nat m))) as R
      by (apply is_double_Z; lia).
    rewrite (Math_trunc_comp _ _ R), Math_trunc_Z. lia.
  - apply Qltb_ge in C. rewrite E, <- Zle_Qle in C.
    replace (length l - m)%nat with 0%nat by lia. reflexivity.
Qed.

(** C4, amended: one tick of a particles node.  Every existing particle is
    aged by [dt], moved by its velocity and pulled by the first emitter's
    gravity, and dropped once [age >= lifetime]; each emitter then adds
    [Math.floor(rate * (dt / 1000))] particles, the quotient and the
    product rounded to doubles, and none when that number is negative;
    each of them has a speed and a direction angle inside the emitter's
    range when the range is ordered; when the total exceeds a whole number
    [maxParticles] (200 by default) only the last [maxParticles] stay, so
    the oldest go first. *)
Theorem tick_particle_node_spec (node : ParticlesNode) (dt : Q) (i : nat) (m : nat) :
  default 200 (maxParticles node) == inject_Z (Z.of_nat m) ->
  let g := default 0 (head (emitters node) ≫= gravity) in
  let survivors :=
    filter (fun p => Qltb (age p) (lifetime p) = true)
      (map (fun p => mkParticle (x p + vx p * (dt / 1000)) (y p + vy p * (dt / 1000))
                                (vx p) (vy p + g * (dt / 1000))
                                (add64 (age p) dt) (lifetime p) (size p) (color p))
           (default [] (_particles node))) in
  exists spawned : list (list Particle),
    Forall2 (fun e sp =>
               length sp = Z.to_nat (Qfloor (mul64 (rate e) (div64 dt 1000))) /\
               Forall (spawned_by e) sp)
            (emitters node) spawned /\
    let all := survivors ++ concat spawned in
    ((Z.of_nat (length all) < 2 ^ 32)%Z ->
     (tickParticleNode node dt random i).1 = drop (length all - m) all /\
     (length (tickParticleNode node dt random i).1 <= m)%nat).
Proof.
  intros Hm g survivors.
  destruct (spawnAll_spec (emitters node) dt i) as (spawned & E & F).
  exists spawned. split; [exact F |]. cbv zeta. intros B.
  assert ((tickParticleNode node dt random i).1
          = drop (length (survivors ++ concat spawned) - m) (survivors ++ concat spawned)) as R.
  { unfold tickParticleNode. unfold mbind, rand_bind.
    destruct (spawnAll (emitters node) dt random i) as [sp j]. simpl in E. subst sp.
    unfold mret, rand_ret. cbv zeta. simpl fst.
    apply (cap_keeps_last _ m _ Hm B). }
  split; [exact R |]. rewrite R, length_drop. lia.
Qed.

End ParticleFacts.

(** An emitter of 10 particles per second and a node holding one particle
    near the end of its life and one with life left. *)
Definition sample_emitter : ParticleEmitter :=
  mkEmitter 5 5 10 1000 (mkRange 1 3) (mkRange 0 90) (Some 2) None None None None.

Definition sample_node : ParticlesNode :=
  mkParticlesNode [sample_emitter] (Some 2)
    (Some [ mkParticle 0 0 1 1 950 1000 4 (Some "#fff");
            mkParticle 0 0 1 1 100 1000 4 (Some "#fff") ]).

Lemma tick_particle_node_spec_witness :
  (length (tickParticleNode (M := sampleMath) sample_node 200 (fun _ => 1 # 2) 0).1 <= 2)%nat.
Proof.
  assert (unit_interval (fun _ => 1 # 2)) as U
    by (intros i; split; [discriminate | reflexivity]).
  destruct (tick_particle_node_spec (M := sampleMath) (fun _ => 1 # 2) U sample_node 200 0 2)
    as (spawned & F & L); [reflexivity |].
  apply L. rewrite length_app.
  assert (length (concat spawned) = 2%nat) as ->.
  { inversion F as [| e sp es sps [Hl _] F']; subst. inversion F'; subst.
    simpl. now rewrite app_nil_r, Hl. }
  vm_compute. reflexivity.
Defined.

(** An emitter of 100 particles per second, a reversed speed range, and a
    node of five young particles with room for two and a half. *)
Definition steady_emitter : ParticleEmitter :=
  mkEmitter 0 0 100 1000 (mkRange 1 3) (mkRange 0 90) None None None None None.

Definition crowded_node : ParticlesNode :=
  mkParticlesNode [] (Some 2.5)
    (Some (List.repeat (mkParticle 0 0 1 1 0 1000 4 (Some "#fff")) 5)).

(** C4 as stated fails.  At [rate = 100] and [dt = 290] the product
    [100 * (290 / 1000)] is the double 28.999999999999996, so 28 particles
    are spawned and not [floor(100 * 290 / 1000) = 29]; at a negative [dt]
    none is spawned, where the floor is negative; with [maxParticles = 2.5]
    three of five particles stay; and for the speed range from 5 down to 1
    the draw 0.5 gives the speed 3, which [[5, 1]] does not hold. *)
Lemma spawn_count_is_not_the_floor :
  (length (tickParticleNode (M := sampleMath) (mkParticlesNode [steady_emitter] None None)
             290 (fun _ => 1 # 2) 0%nat).1 = 28%nat /\
   Qfloor (100 * 290 / 1000) = 29%Z) /\
  (length (tickParticleNode (M := sampleMath) (mkParticlesNode [steady_emitter] None None)
             (-1000) (fun _ => 1 # 2) 0%nat).1 = 0%nat /\
   Qfloor (100 * (-1000) / 1000) = (-100)%Z) /\
  (length (tickParticleNode (M := sampleMath) crowded_node 16 (fun _ => 1 # 2) 0%nat).1
   = 3%nat /\ ~ 3 <= 2.5) /\
  ((rand 5 1 (fun _ => 1 # 2) 0%nat).1 == 3 /\ ~ (5 <= 3 <= 1)).
Proof.
  repeat split; try (vm_compute; reflexivity); intros H; vm_compute in H; tauto.
Qed.

(** *** Size and color of the spawned particles, and emitters that starve *)

(** The colors that an emitter draws from. *)
Definition colors_of (e : ParticleEmitter) : list string :=
  match ecolor e with
  | Some (ColorList cs) => cs
  | Some (OneColor c) => [c]
  | None => ["#ffffff"]
  end.

(** What the spawn loop promises of the look of a particle. *)
Definition styled_by (e : ParticleEmitter) (p : Particle) : Prop :=
  match esize e with
  | Some s => min s <= size p <= max s
  | None => size p = 4
  end /\
  match colors_of e with
  | [] => color p = None
  | _ :: _ => exists c, color p = Some c /\ c ∈ colors_of e
  end.

(** The frames of [useParticleTick] for one particles node: each frame at
    time [now] ticks the node with the particles of the frame before and
    [dt = Math.min(now - lastTime, 100)]. *)
Section Frames.
Context {M : MathLib}.

Definition frame (node : ParticlesNode) (dt : Q) (current : list Particle)
    : Rand (list Particle) :=
  tickParticleNode (mkParticlesNode (emitters node) (maxParticles node) (Some current)) dt.

Fixpoint frames (node : ParticlesNode) (lastTime : Q) (times : list Q)
    (current : list Particle) : Rand (list Particle) :=
  match times with
  | [] => mret current
  | now :: rest =>
      let dt := Math_min (sub64 now lastTime) 100 in
      updated ← frame node dt current;
      frames node now rest updated
  end.

End Frames.

Section LookFacts.
Context {M : MathLib}.
Variable random : nat -> Q.
Hypothesis random_unit : unit_interval random.

Lemma draw_index (n : nat) (r : Q) :
  0 <= r < 1 -> (0 < n)%nat ->
  (Z.to_nat (Qfloor (r * inject_Z (Z.of_nat n))) < n)%nat.
Proof.
  intros [R0 R1] N.
  assert (0 < inject_Z (Z.of_nat n)) as P.
  { change 0 with (inject_Z 0). rewrite <- Zlt_Qlt. lia. }
  assert (0 <= r * inject_Z (Z.of_nat n)) as A by nra.
  assert (r * inject_Z (Z.of_nat n) < inject_Z (Z.of_nat n)) as B by nra.
  apply Qfloor_resp_le in A. change (Qfloor 0) with 0%Z in A.
  pose proof (Qfloor_le (r * inject_Z (Z.of_nat n))) as C.
  assert (inject_Z (Qfloor (r * inject_Z (Z.of_nat n))) < inject_Z (Z.of_nat n)) as D by lra.
  rewrite <- Zlt_Qlt in D. lia.
Qed.

Lemma spawnOne_styled e i :
  (forall s, esize e = Some s -> min s <= max s) ->
  styled_by e (spawnOne e random i).1.
Proof.
  intros Hs. unfold spawnOne, styled_by, colors_of.
  unfold mbind, rand_bind.
  destruct (rand (min (direction e)) _ random i) as [deg j].
  destruct (rand (min (speed e)) _ random j) as [v k].
  set (colors := match ecolor e with
                 | Some (ColorList cs) => cs | Some (OneColor c) => [c] | None => ["#ffffff"]
                 end).
  assert (forall r, 0 <= r < 1 ->
            match colors with
            | [] => colors !! Z.to_nat (Qfloor (r * inject_Z (Z.of_nat (length colors)))) = None
            | _ :: _ => exists c,
                colors !! Z.to_nat (Qfloor (r * inject_Z (Z.of_nat (length colors)))) = Some c /\
                c ∈ colors
            end) as Hc.
  { intros r Hr. destruct colors as [| c0 cs] eqn:E; [reflexivity |]. rewrite <- E.
    assert (0 < length colors)%nat as L by (rewrite E; simpl; lia).
    destruct (lookup_lt_is_Some_2 colors _ (draw_index _ r Hr L)) as [c Hcl].
    exists c. split; [exact Hcl |]. now apply list_elem_of_lookup_2 in Hcl. }
  destruct (esize e) as [sz |] eqn:Es.
  - pose proof (rand_in_range random random_unit _ _ k (Hs sz eq_refl)) as B.
    destruct (rand (min sz) (max sz) random k) as [z l].
    unfold Math_random, mret, rand_ret. simpl. split; [exact B |].
    apply Hc, random_unit.
  - unfold Math_random, mret, rand_ret. simpl. split; [reflexivity |].
    apply Hc, random_unit.
Qed.

(** X14: the look of the spawned particles.  With [Math.random] in
    [[0, 1)] and an ordered size range, every particle that
    [spawnParticles] returns has a size within the emitter's size range,
    or the size 4 when the emitter has none, and a color that is one of
    the emitter's colors, or white when the emitter has none; only an
    empty list of colors leaves the color undefined. *)
Theorem spawned_look (e : ParticleEmitter) (dt : Q) (i : nat) :
  (forall s, esize e = Some s -> min s <= max s) ->
  Forall (styled_by e) (spawnParticles e dt random i).1.
Proof.
  intros Hs. unfold spawnParticles. cbv zeta.
  generalize (Z.to_nat (Qfloor (mul64 (rate e) (div64 dt 1000)))) as n. intros n.
  revert i. induction n as [| n IH]; intros i; simpl; [constructor |].
  unfold mbind, rand_bind.
  pose proof (spawnOne_styled e i Hs) as P.
  destruct (spawnOne e random i) as [p j].
  specialize (IH j). destruct (spawnLoop e n random j) as [ps k].
  now constructor.
Qed.

End LookFacts.

Section Starving.
Context {M : MathLib}.
Variable random : nat -> Q.

(** An emitter of fewer than ten particles per second; its rate is a
    double, as every number of JavaScript is. *)
Definition slow (e : ParticleEmitter) : Prop := is_double (rate e) /\ 0 <= rate e < 10.

(** The greatest double below 10. *)
Lemma double_below_10 r : is_double r -> r < 10 -> r <= 10 - (1 # 562949953421312).
Proof.
  intros D H. destruct (Qlt_le_dec r 8) as [S | L]; [lra |].
  destruct (double_grid r 3 D) as (j & E); [exact L | | lia |].
  - change (2 ^ (3 + 1)) with 16. lra.
  - change (2 ^ (3 - 52)) with (1 # 562949953421312) in E.
    assert (inject_Z j < inject_Z 5629499534213120) as J.
    { change (inject_Z 5629499534213120) with 5629499534213120. lra. }
    rewrite <- Zlt_Qlt in J.
    assert (inject_Z j <= inject_Z 5629499534213119) as J' by (rewrite <- Zle_Qle; lia).
    change (inject_Z 5629499534213119) with 5629499534213119 in J'. lra.
Qed.

Lemma slow_spawns_nothing e dt i :
  slow e -> dt <= 100 -> spawnParticles e dt random i = ([], i).
Proof.
  intros (D & R0 & R1) Hd. unfold spawnParticles. cbv zeta.
  pose proof (double_below_10 _ D R1) as R2.
  set (tenth := 3602879701896397 # 36028797018963968).
  assert (div64 dt 1000 <= tenth) as C.
  { apply round64_le; [vm_compute; reflexivity |].
    assert (dt / 1000 == dt * (1 # 1000)) as -> by field. unfold tenth. lra. }
  set (below_one := 9007199254740991 # 9007199254740992).
  assert (mul64 (rate e) (div64 dt 1000) <= below_one) as B.
  { apply round64_le; [vm_compute; reflexivity |].
    revert C. generalize (div64 dt 1000). intros c C. unfold tenth in C. unfold below_one.
    assert (0 <= rate e * (tenth - c)) as P
      by (apply Qmult_le_0_compat; unfold tenth; lra).
    unfold tenth in P. nra. }
  assert (Qfloor (mul64 (rate e) (div64 dt 1000)) <= 0)%Z as F.
  { pose proof (Qfloor_le (mul64 (rate e) (div64 dt 1000))) as L.
    assert (inject_Z (Qfloor (mul64 (rate e) (div64 dt 1000))) < inject_Z 1) as L'.
    { change (inject_Z 1) with 1. revert B L. generalize (mul64 (rate e) (div64 dt 1000)).
      intros q B L. unfold below_one in B. lra. }
    rewrite <- Zlt_Qlt in L'. lia. }
  replace (Z.to_nat _) with 0%nat by lia. reflexivity.
Qed.

Lemma slow_spawnAll es dt i :
  Forall slow es -> dt <= 100 -> spawnAll es dt random i = ([], i).
Proof.
  intros F D. induction F as [| e rest He _ IH]; simpl; [reflexivity |].
  unfold mbind, rand_bind. rewrite slow_spawns_nothing by assumption. now rewrite IH.
Qed.

Lemma min_100 q : Math_min q 100 <= 100.
Proof.
  unfold Math_min. destruct (Qle_bool q 100) eqn:E; [now apply Qle_bool_iff | lra].
Qed.

(** X15: emitters of fewer than ten particles per second never emit under
    [useParticleTick].  The hook caps [dt] at 100 ms and [spawnParticles]
    rounds [rate * (dt / 1000)] down in every frame without carrying the
    rest over, so a node whose emitters all have a rate below 10 (a
    double from 0 to below 10: [slow]) holds no particle after any number
    of frames, whatever the frame times are. *)
Theorem slow_emitters_starve (node : ParticlesNode) (lastTime : Q) (times : list Q) (i : nat) :
  Forall slow (emitters node) ->
  frames node lastTime times [] random i = ([], i).
Proof.
  intros F. revert lastTime. induction times as [| now rest IH]; intros lastTime; [reflexivity |].
  simpl. unfold mbind, rand_bind, frame, tickParticleNode. cbv zeta.
  unfold mbind, rand_bind. cbn [emitters maxParticles _particles].
  rewrite (slow_spawnAll _ _ _ F (min_100 _)).
  unfold mret, rand_ret. simpl. 
  replace (if Qltb _ _ then _ else _) with (@nil Particle).
  - apply IH.
  - destruct (Qltb _ _); [| reflexivity]. unfold slice_from. now rewrite drop_nil.
Qed.

End Starving.

(** *** The particle tick of the PixiJS renderer (renderer-pixi.ts)

    [tickParticlesInternal] updates the particle objects in place and
    returns them in a new array, which its caller stores as the node's
    [_particles]; the particles below are the values of that array. *)

Section Renderer.
Context {M : MathLib}.

(** The body of the loop over the existing particles: [None] for a
    particle that the loop splices out. *)
Definition age_and_move (gravity : Q) (dt : Q) (p : Particle) : option Particle :=
  let age' := add64 (age p) dt in
  if Qle_bool (lifetime p) age' then None
  else
    let vy' := vy p + gravity * (dt / 1000) in
    Some {| x := x p + vx p * (dt / 1000);
            y := y p + vy' * (dt / 1000);
            vx := vx p; vy := vy';
            age := age'; lifetime := lifetime p; size := size p; color := color p |}.

(** The body of the spawn loop. *)
Definition spawnOneInternal (emitter : ParticleEmitter) : Rand Particle :=
  r ← Math_random;
  let angle := min (direction emitter) + r * (max (direction emitter) - min (direction emitter)) in
  r ← Math_random;
  let speed := min (speed emitter) + r * (max (speed emitter) - min (speed emitter)) in
  let rad := angle * Math_PI / 180 in
  let colors := match ecolor emitter with
                | Some (ColorList cs) => cs
                | Some (OneColor c) => if String.eqb c "" then ["#ffffff"] else [c]
                | None => ["#ffffff"]
                end in
  size ← match esize emitter with
         | Some s => r ← Math_random; mret (min s + r * (max s - min s))
         | None => mret 4
         end;
  r ← Math_random;
  let color := colors !! Z.to_nat (Qfloor (r * inject_Z (Z.of_nat (length colors)))) in
  mret {| x := ex emitter; y := ey emitter;
          vx := Math_cos rad * speed; vy := Math_sin rad * speed;
          age := 0; lifetime := elifetime emitter;
          size := size; color := color |}.

(** [for (let i = 0; i < count && particles.length < maxParticles; i++)] *)
Fixpoint spawnWhile (emitter : ParticleEmitter) (count : nat) (maxParticles : Q)
    (particles : list Particle) : Rand (list Particle) :=
  match count with
  | O => mret particles
  | S n =>
      if Qltb (inject_Z (Z.of_nat (length particles))) maxParticles then
        p ← spawnOneInternal emitter;
        spawnWhile emitter n maxParticles (particles ++ [p])
      else mret particles
  end.

Fixpoint spawnEach (emitters : list ParticleEmitter) (dt : Q) (maxParticles : Q)
    (particles : list Particle) : Rand (list Particle) :=
  match emitters with
  | [] => mret particles
  | emitter :: rest =>
      let count := Qfloor (mul64 (rate emitter) (div64 dt 1000)) in
      particles ← spawnWhile emitter (Z.to_nat count) maxParticles particles;
      spawnEach rest dt maxParticles particles
  end.

Definition tickParticlesInternal (node : ParticlesNode) (dt : Q) : Rand (list Particle) :=
  let particles := default [] (_particles node) in
  let maxParticles := default 200 (maxParticles node) in
  let gravity := default 0 (head (emitters node) ≫= gravity) in
  let particles := omap (age_and_move gravity dt) particles in
  spawnEach (emitters node) dt maxParticles particles.

(** The particles that the spawn loops would add without the bound. *)
Fixpoint spawnLoopInternal (emitter : ParticleEmitter) (count : nat) : Rand (list Particle) :=
  match count with
  | O => mret []
  | S n => p ← spawnOneInternal emitter; ps ← spawnLoopInternal emitter n; mret (p :: ps)
  end.

Fixpoint spawnAllInternal (emitters : list ParticleEmitter) (dt : Q) : Rand (list Particle) :=
  match emitters with
  | [] => mret []
  | emitter :: rest =>
      spawned ← spawnLoopInternal emitter
                  (Z.to_nat (Qfloor (mul64 (rate emitter) (div64 dt 1000))));
      more ← spawnAllInternal rest dt;
      mret (spawned ++ more)
  end.

End Renderer.

Section RendererFacts.
Context {M : MathLib}.
Variable random : nat -> Q.

(** The two spawn loops build the same particle from the same draws,
    unless the emitter's color is the empty string. *)
Lemma spawnOneInternal_same e i :
  ecolor e <> Some (OneColor "") -> spawnOneInternal e random i = spawnOne e random i.
Proof.
  intros C. unfold spawnOneInternal, spawnOne, rand, degToRad, mbind, rand_bind, Math_random,
    mret, rand_ret.
  assert (match ecolor e with
          | Some (ColorList cs) => cs
          | Some (OneColor c) => if String.eqb c "" then ["#ffffff"] else [c]
          | None => ["#ffffff"]
          end = match ecolor e with
                | Some (ColorList cs) => cs
                | Some (OneColor c) => [c]
                | None => ["#ffffff"]
                end) as ->.
  { destruct (ecolor e) as [[c | cs] |]; try reflexivity.
    destruct (String.eqb_spec c ""); [subst; now destruct C | reflexivity]. }
  destruct (esize e); reflexivity.
Qed.

Definition room (m : nat) (particles : list Particle) : nat := m - length particles.

Lemma full_or_room (cap : Q) (m : nat) (l : list Particle) :
  cap == inject_Z (Z.of_nat m) ->
  Qltb (inject_Z (Z.of_nat (length l))) cap = negb (Nat.eqb (room m l) 0).
Proof.
  intros E. unfold room. destruct (Qltb _ _) eqn:C.
  - apply Qltb_lt in C. rewrite E, <- Zlt_Qlt in C. symmetry. apply negb_true_iff, Nat.eqb_neq. lia.
  - apply Qltb_ge in C. rewrite E, <- Zle_Qle in C. symmetry. apply negb_false_iff, Nat.eqb_eq. lia.
Qed.

(** The bounded loop adds the first particles of the unbounded loop, as
    many as there is room for, and draws no number for the others. *)
Lemma spawnWhile_prefix e cap m : cap == inject_Z (Z.of_nat m) ->
  forall n l i,
    (spawnWhile e n cap l random i).1
    = l ++ take (room m l) (spawnLoopInternal e n random i).1 /\
    ((n <= room m l)%nat ->
       (spawnWhile e n cap l random i).2 = (spawnLoopInternal e n random i).2).
Proof.
  intros E. induction n as [| n IH]; intros l i.
  - simpl. rewrite take_nil, app_nil_r. split; reflexivity.
  - simpl. rewrite (full_or_room cap m l E).
    destruct (Nat.eqb (room m l) 0) eqn:R; simpl.
    + apply Nat.eqb_eq in R. rewrite R. simpl. rewrite app_nil_r. split; [reflexivity | lia].
    + apply Nat.eqb_neq in R. unfold mbind, rand_bind.
      destruct (spawnOneInternal e random i) as [p j].
      specialize (IH (l ++ [p]) j).
      destruct (spawnLoopInternal e n random j) as [ps k]. simpl in *.
      destruct IH as [IH1 IH2].
      assert (room m (l ++ [p]) = room m l - 1)%nat as Rm.
      { unfold room. rewrite length_app. simpl. lia. }
      rewrite Rm in *. split.
      * rewrite IH1, <- app_assoc. simpl.
        destruct (room m l) as [| r]; [lia |]. simpl. now rewrite Nat.sub_0_r.
      * intros Hn. apply IH2. lia.
Qed.

Lemma spawnLoopInternal_length e n i : length (spawnLoopInternal e n random i).1 = n.
Proof.
  revert i. induction n as [| n IH]; intros i; simpl; [reflexivity |].
  unfold mbind, rand_bind. destruct (spawnOneInternal e random i) as [p j].
  specialize (IH j). destruct (spawnLoopInternal e n random j) as [ps k]. simpl in *.
  now rewrite IH.
Qed.

Lemma spawnEach_prefix es dt cap m : cap == inject_Z (Z.of_nat m) ->
  forall l i,
    (spawnEach es dt cap l random i).1
    = l ++ take (room m l) (spawnAllInternal es dt random i).1.
Proof.
  intros E. induction es as [| e rest IH]; intros l i.
  - simpl. now rewrite take_nil, app_nil_r.
  - cbn [spawnEach spawnAllInternal]. unfold mbind, rand_bind.
    cbv zeta. set (n := Z.to_nat (Qfloor (mul64 (rate e) (div64 dt 1000)))).
    destruct (spawnWhile_prefix e cap m E n l i) as [W1 W2].
    pose proof (spawnLoopInternal_length e n i) as L.
    destruct (spawnWhile e n cap l random i) as [l1 j].
    destruct (spawnLoopInternal e n random i) as [sp k]. simpl in *.
    rewrite IH. subst l1.
    destruct (le_lt_dec n (room m l)) as [Hle | Hgt].
    + rewrite (W2 Hle).
      destruct (spawnAllInternal rest dt random k) as [more k']. simpl.
      rewrite take_app, (take_ge sp) by lia. rewrite <- app_assoc. do 3 f_equal.
      unfold room. rewrite length_app. lia.
    + assert (room m (l ++ take (room m l) sp) = 0)%nat as ->.
      { unfold room in *. rewrite length_app, length_take. lia. }
      rewrite take_0, app_nil_r.
      destruct (spawnAllInternal rest dt random k) as [more k']. simpl.
      rewrite take_app. replace (room m l - length sp)%nat with 0%nat by lia.
      now rewrite take_0, app_nil_r.
Qed.

Lemma spawnAllInternal_same es dt i :
  Forall (fun e => ecolor e <> Some (OneColor "")) es ->
  spawnAllInternal es dt random i = spawnAll es dt random i.
Proof.
  intros F. revert i. induction F as [| e rest He _ IH]; intros i; [reflexivity |].
  cbn [spawnAllInternal spawnAll]. unfold mbind, rand_bind, spawnParticles.
  assert (forall n i, spawnLoopInternal e n random i = spawnLoop e n random i) as ->.
  { induction n as [| n IHn]; intros j; simpl; [reflexivity |].
    unfold mbind, rand_bind. rewrite (spawnOneInternal_same e j He).
    destruct (spawnOne e random j) as [p k]. now rewrite IHn. }
  destruct (spawnLoop e _ random i) as [sp j]. now rewrite IH.
Qed.

(** The draws of [Math.random] for one particle of the renderer's loop:
    the angle, the speed, the size when the emitter has a size range, and
    the color. *)
Definition draws_per_particle (e : ParticleEmitter) : nat :=
  match esize e with Some _ => 4%nat | None => 3%nat end.

(** The emitters in the order of the particles that the loops would add
    without the bound. *)
Definition spawn_schedule (es : list ParticleEmitter) (dt : Q) : list ParticleEmitter :=
  flat_map (fun e => List.repeat e (Z.to_nat (Qfloor (mul64 (rate e) (div64 dt 1000))))) es.

Lemma spawnOneInternal_draws e i :
  (spawnOneInternal e random i).2 = (draws_per_particle e + i)%nat.
Proof.
  unfold spawnOneInternal, draws_per_particle, mbind, rand_bind, Math_random, mret, rand_ret.
  destruct (esize e); reflexivity.
Qed.

Lemma spawnWhile_draws e cap m : cap == inject_Z (Z.of_nat m) ->
  forall n l i,
    (spawnWhile e n cap l random i).2
    = (list_sum (map draws_per_particle (take (room m l) (List.repeat e n))) + i)%nat.
Proof.
  intros E. induction n as [| n IH]; intros l i.
  - simpl. now rewrite take_nil.
  - cbn [spawnWhile List.repeat]. rewrite (full_or_room cap m l E).
    destruct (Nat.eqb (room m l) 0) eqn:R; cbn [negb].
    + apply Nat.eqb_eq in R. rewrite R. reflexivity.
    + apply Nat.eqb_neq in R. unfold mbind, rand_bind.
      pose proof (spawnOneInternal_draws e i) as D.
      destruct (spawnOneInternal e random i) as [p j]. cbn [snd] in D. subst j.
      rewrite IH.
      assert (room m (l ++ [p]) = room m l - 1)%nat as ->
        by (unfold room; rewrite length_app; simpl; lia).
      destruct (room m l) as [| r]; [lia |]. cbn [take map list_sum].
      replace (S r - 1)%nat with r by lia. unfold list_sum. cbn [fold_right]. lia.
Qed.

Lemma spawnWhile_length e cap m : cap == inject_Z (Z.of_nat m) ->
  forall n l i,
    room m (spawnWhile e n cap l random i).1 = (room m l - n)%nat.
Proof.
  intros E n l i. destruct (spawnWhile_prefix e cap m E n l i) as [-> _].
  unfold room. rewrite length_app, length_take, spawnLoopInternal_length. lia.
Qed.

Lemma spawnEach_draws es dt cap m : cap == inject_Z (Z.of_nat m) ->
  forall l i,
    (spawnEach es dt cap l random i).2
    = (list_sum (map draws_per_particle (take (room m l) (spawn_schedule es dt))) + i)%nat.
Proof.
  intros E. induction es as [| e rest IH]; intros l i.
  - simpl. now rewrite take_nil.
  - cbn [spawnEach spawn_schedule flat_map]. unfold mbind, rand_bind. cbv zeta.
    set (n := Z.to_nat (Qfloor (mul64 (rate e) (div64 dt 1000)))).
    pose proof (spawnWhile_draws e cap m E n l i) as D.
    pose proof (spawnWhile_length e cap m E n l i) as L.
    destruct (spawnWhile e n cap l random i) as [l1 j]. cbn [fst snd] in D, L.
    rewrite IH, L, D. fold (spawn_schedule rest dt).
    rewrite take_app, repeat_length, map_app, list_sum_app. lia.
Qed.

(** X18: the renderer's tick keeps the oldest particles.  For a whole
    number [maxParticles] (200 by default), [tickParticlesInternal] returns
    every surviving particle, in order and however many there are,
    followed by the first of the particles that the emitters would spawn
    without a bound, as many as fit below [maxParticles]; it draws no
    random number for the others: its draws are those of the particles it
    adds, three for each and four when the emitter has a size range.
    Unless an emitter's color is the empty string, the particles it spawns
    from the same draws are those of [spawnParticles] of particles.ts,
    whose [tickParticleNode] keeps the newest particles instead. *)
Theorem renderer_keeps_oldest (node : ParticlesNode) (dt : Q) (i : nat) (m : nat) :
  default 200 (maxParticles node) == inject_Z (Z.of_nat m) ->
  let g := default 0 (head (emitters node) ≫= gravity) in
  let survivors := omap (age_and_move g dt) (default [] (_particles node)) in
  let spawned := (spawnAllInternal (emitters node) dt random i).1 in
  (tickParticlesInternal node dt random i).1 = survivors ++ take (m - length survivors) spawned /\
  (length (tickParticlesInternal node dt random i).1 <= Nat.max m (length survivors))%nat /\
  (tickParticlesInternal node dt random i).2
  = (list_sum (map draws_per_particle
                 (take (m - length survivors) (spawn_schedule (emitters node) dt))) + i)%nat /\
  (Forall (fun e => ecolor e <> Some (OneColor "")) (emitters node) ->
   spawned = (spawnAll (emitters node) dt random i).1).
Proof.
  intros E g survivors spawned.
  assert ((tickParticlesInternal node dt random i).1
          = survivors ++ take (m - length survivors) spawned) as R.
  { unfold tickParticlesInternal. cbv zeta. fold g. fold survivors.
    apply (spawnEach_prefix _ _ _ m E). }
  split; [exact R |]. split; [| split].
  - rewrite R, length_app, length_take. lia.
  - unfold tickParticlesInternal. cbv zeta. fold g. fold survivors.
    apply (spawnEach_draws _ _ _ m E).
  - intros F. unfold spawned. now rewrite spawnAllInternal_same.
Qed.

(** The same particle but for [y]. *)
Definition same_but_y (p q : Particle) : Prop :=
  x p = x q /\ vx p = vx q /\ vy p = vy q /\ age p = age q /\
  lifetime p = lifetime q /\ size p = size q /\ color p = color q.

(** X19: the renderer moves a particle by its new speed.  The particles
    that survive a tick of [tickParticlesInternal] are those that survive
    [tickParticles] of particles.ts, with the same [x], speed, age, size
    and color, but [y] is ahead by [gravity * (dt / 1000)^2]: the renderer
    adds the gravity to [vy] before it moves the particle, [tickParticles]
    after. *)
Theorem renderer_moves_by_new_speed (particles : list Particle)
    (emitters : list ParticleEmitter) (dt : Q) :
  let g := default 0 (head emitters ≫= gravity) in
  Forall2 (fun p q => same_but_y p q /\ y p == y q + g * (dt / 1000) * (dt / 1000))
          (omap (age_and_move g dt) particles)
          (tickParticles particles emitters dt).
Proof.
  intros g. unfold tickParticles. cbv zeta. fold g.
  induction particles as [| p rest IH]; [constructor |].
  cbn [omap list_omap map]. rewrite filter_cons. unfold age_and_move at 1. cbn [age lifetime].
  unfold Qltb. destruct (Qle_bool (lifetime p) (add64 (age p) dt)) eqn:C; cbn [negb].
  - rewrite decide_False by discriminate. exact IH.
  - rewrite decide_True by reflexivity. constructor; [| exact IH].
    split; [repeat split |]. cbn [y vy]. ring.
Qed.

End RendererFacts.

(** An emitter with a size range and two colors, and one of five
    particles per second. *)
Definition confetti : ParticleEmitter :=
  mkEmitter 0 0 20 1000 (mkRange 1 3) (mkRange 0 90) None
            (Some (ColorList ["#f00"; "#0f0"])) (Some (mkRange 2 6)) None None.

Definition drizzle : ParticleEmitter :=
  mkEmitter 0 0 5 1000 (mkRange 1 3) (mkRange 0 90) None None None None None.

Lemma spawned_look_witness :
  Forall (styled_by confetti) (spawnParticles (M := sampleMath) confetti 100 (fun _ => 1 # 2) 0%nat).1.
Proof.
  apply (spawned_look (M := sampleMath) (fun _ => 1 # 2)).
  - intros i. split; [discriminate | reflexivity].
  - intros s [= <-]. discriminate.
Defined.

Lemma slow_emitters_starve_witness :
  frames (M := sampleMath) (mkParticlesNode [drizzle] None None) 0 [16; 33; 250]
         [] (fun _ => 1 # 2) 0%nat = ([], 0%nat).
Proof.
  apply (slow_emitters_starve (M := sampleMath)).
  repeat constructor; discriminate.
Defined.

Lemma renderer_keeps_oldest_witness :
  length (tickParticlesInternal (M := sampleMath) sample_node 200 (fun _ => 1 # 2) 0%nat).1
  = 2%nat.
Proof.
  destruct (renderer_keeps_oldest (M := sampleMath) (fun _ => 1 # 2) sample_node 200 0 2)
    as (R & _ & _); [reflexivity |].
  rewrite R. reflexivity.
Defined.

End Particles.

(** ** Scene document (src/scene/types.ts) and its helpers *)

Module Scene.
Import JS.
Local Open Scope Q_scope.

(** A JSON value: what [data], [style] and the variant fields may hold. *)
Inductive json :=
| JNull
| JBool (b : bool)
| JNum (q : Q)
| JStr (s : string)
| JArr (items : list json)
| JObj (fields : list (string * json)).

(** An object with arbitrary keys, in insertion order. *)
Definition object := list (string * json).

(** [o[k]] *)
Fixpoint get (k : string) (o : object) : option json :=
  match o with
  | [] => None
  | (k', v) :: rest => if String.eqb k' k then Some v else get k rest
  end.

(** [o[k] = v]: an existing key keeps its place, a new one goes last. *)
Fixpoint set (k : string) (v : json) (o : object) : object :=
  match o with
  | [] => [(k, v)]
  | (k', v') :: rest =>
      if String.eqb k' k then (k', v) :: rest else (k', v') :: set k v rest
  end.

(** [{...a, ...b}] *)
Definition spread (a b : object) : object :=
  fold_left (fun acc kv => set kv.1 kv.2 acc) b a.

(** [!!v] for a value that may be undefined. *)
Definition truthy (v : option json) : bool :=
  match v with
  | None | Some JNull => false
  | Some (JBool b) => b
  | Some (JNum q) => negb (Qeq_bool q 0)
  | Some (JStr s) => negb (String.eqb s "")
  | Some (JArr _) | Some (JObj _) => true
  end.

(** [a === b] where [b] is a JSON value built apart from [a]: primitives
    compare by value, while two distinct arrays or objects are never equal. *)
Definition strict_eq (a : option json) (b : json) : bool :=
  match a, b with
  | Some JNull, JNull => true
  | Some (JBool x), JBool y => Bool.eqb x y
  | Some (JNum x), JNum y => Qeq_bool x y
  | Some (JStr x), JStr y => String.eqb x y
  | _, _ => false
  end.

(** [String(v)] for a value that [+] turns into text: an array prints its
    items with commas between them, [null] among them as nothing, and an
    object prints as [[object Object]].  An object with a property
    [toString] of its own has nothing to call; the conversion throws a
    TypeError, which is [None]. *)
Fixpoint to_text (v : json) : option string :=
  match v with
  | JNull => Some "null"
  | JBool b => Some (if b then "true" else "false")
  | JNum q => Some (Number_toString q)
  | JStr s => Some s
  | JArr items =>
      (fix join (items : list json) : option string :=
         match items with
         | [] => Some ""
         | item :: rest =>
             match (match item with JNull => Some "" | _ => to_text item end), join rest with
             | Some t, Some ts =>
                 Some (match rest with [] => t | _ :: _ => t +:+ "," +:+ ts end)
             | _, _ => None
             end
         end) items
  | JObj fields =>
      if existsb (fun kv => String.eqb kv.1 "toString") fields then None
      else Some "[object Object]"
  end.

(** [cur + delta] for the value [cur] of a field, [undefined] and [null]
    standing for 0 as after [?? 0]: a sum for a number or a boolean, the
    text of [cur] followed by the text of [delta] for everything else. *)
Definition plus (cur : option json) (delta : Q) : option json :=
  match cur with
  | None | Some JNull => Some (JNum (0 + delta))
  | Some (JNum q) => Some (JNum (q + delta))
  | Some (JBool b) => Some (JNum ((if b then 1 else 0) + delta))
  | Some v => option_map (fun t => JStr (t +:+ Number_toString delta)) (to_text v)
  end.

(** ['3' + 1] is ['31']; an array is joined; an object whose [toString] is
    no function has no primitive value. *)
Lemma plus_on_text :
  plus (Some (JStr "3")) 1 = Some (JStr "31") /\
  plus (Some (JArr [JNum 1; JNull; JArr [JNum 2; JNum 3]])) (1 # 2)
  = Some (JStr "1,,2,30.5") /\
  plus (Some (JObj [("toString", JNull)])) 1 = None.
Proof. repeat split; vm_compute; reflexivity. Qed.

Record Transform := mkTransform {
  x : option Q;
  y : option Q;
  rotation : option Q;
  scaleX : option Q;
  scaleY : option Q;
  originX : option Q;
  originY : option Q
}.

Definition no_transform : Transform := mkTransform None None None None None None None.

(** A field of [{...old, ...new}]. *)
Definition override {A} (new old : option A) : option A :=
  match new with Some v => Some v | None => old end.

(** [{...a, ...b}] on transforms. *)
Definition spread_transform (a b : Transform) : Transform :=
  {| x := override (x b) (x a); y := override (y b) (y a);
     rotation := override (rotation b) (rotation a);
     scaleX := override (scaleX b) (scaleX a);
     scaleY := override (scaleY b) (scaleY a);
     originX := override (originX b) (originX a);
     originY := override (originY b) (originY a) |}.

(** The fields of [SceneNodeBase] and the variant tag; [props] holds the
    fields of the variant itself (width, radius, text, ...). *)
Record NodeFields := mkFields {
  id : string;
  type : string;
  name : option string;
  transform : option Transform;
  style : option object;
  interactive : option bool;
  data : option object;
  tween : option Tween.TweenDef;
  props : object
}.

(** A node of the document.  Only groups are meant to have children, but
    the field is read on any node. *)
Inductive SceneNode :=
| Node (fields : NodeFields) (children : option (list SceneNode)).

Definition fields_of (n : SceneNode) : NodeFields := let '(Node f _) := n in f.
Definition children (n : SceneNode) : option (list SceneNode) := let '(Node _ c) := n in c.
Definition node_id (n : SceneNode) : string := id (fields_of n).
Definition node_type (n : SceneNode) : string := type (fields_of n).
Definition is_group (n : SceneNode) : bool := String.eqb (node_type n) "group".

Record Camera := mkCamera {
  cam_x : Q; cam_y : Q; zoom : Q; cam_rotation : option Q; bounds : option object
}.

Record Gradient := mkGradient { gradient_id : string; gradient_def : object }.

Record SceneGraph := mkScene {
  _sceneVersion : Q;
  root : SceneNode;
  camera : option Camera;
  background : option string;
  gradients : option (list Gradient);
  filters : option (list json);
  width : option Q;
  height : option Q
}.

(** *** helpers.ts *)

(** [walkNodes(node, visitor)] with a visitor that collects: the nodes in
    the order they are visited. *)
Fixpoint walkNodes (node : SceneNode) : list SceneNode :=
  node ::
  (if is_group node then
     match children node with
     | Some cs => flat_map walkNodes cs
     | None => []
     end
   else []).

Definition allNodeIds (node : SceneNode) : list string := map node_id (walkNodes node).

(** [for (const child of children) { const found = f(child); if (found)
    return found; } return null;] *)
Definition first_found {A B} (f : A -> option B) : list A -> option B :=
  fix each (cs : list A) : option B :=
    match cs with
    | [] => None
    | child :: rest =>
        match f child with
        | Some found => Some found
        | None => each rest
        end
    end.

(** The number of node values in a tree; it bounds the depth of the tree. *)
Fixpoint size (node : SceneNode) : nat :=
  S (match children node with
     | Some cs => list_sum (map size cs)
     | None => 0
     end).

(** [findNodeInGroup] of helpers.ts, which is [findNode] of tools.ts. *)
Fixpoint findNode (node : SceneNode) (target : string) : option SceneNode :=
  if String.eqb (node_id node) target then Some node
  else if is_group node then
    match children node with
    | Some cs => first_found (fun child => findNode child target) cs
    | None => None
    end
  else None.

Definition findGroup (root : SceneNode) (target : string) : option SceneNode :=
  match findNode root target with
  | Some node => if is_group node then Some node else None
  | None => None
  end.

(** [cs.findIndex(c => c.id === id)] *)
Fixpoint findIndex (target : string) (cs : list SceneNode) : option nat :=
  match cs with
  | [] => None
  | c :: rest =>
      if String.eqb (node_id c) target then Some 0%nat
      else option_map S (findIndex target rest)
  end.

(** [for (const child of children) { if (child.type === 'group' && f(child))
    return true; } return false;] where [f] updates the child in place:
    the result, and the children as the loop leaves them. *)
Definition first_group_where (f : SceneNode -> bool * SceneNode)
    : list SceneNode -> bool * list SceneNode :=
  fix each (cs : list SceneNode) : bool * list SceneNode :=
    match cs with
    | [] => (false, [])
    | child :: rest =>
        if is_group child then
          let '(found, child') := f child in
          if found then (true, child' :: rest)
          else let '(found, rest') := each rest in (found, child' :: rest')
        else let '(found, rest') := each rest in (found, child :: rest')
    end.

(** [removeNode(root, id)] (tools.ts; [removeNodeById] in helpers.ts): the
    result of the call and the tree it leaves. *)
Fixpoint removeNode (root : SceneNode) (target : string) : bool * SceneNode :=
  let '(Node f ch) := root in
  match ch with
  | None => (false, root)
  | Some cs =>
      match findIndex target cs with
      | Some idx => (true, Node f (Some (delete idx cs)))
      | None =>
          let '(found, cs') :=
            first_group_where (fun child => removeNode child target) cs in
          (found, Node f (Some cs'))
      end
  end.

(** Induction on a node with the hypothesis for every child. *)
Section NodeInduction.
Variable P : SceneNode -> Prop.
Hypothesis leaf : forall f, P (Node f None).
Hypothesis inner : forall f cs, Forall P cs -> P (Node f (Some cs)).

Fixpoint SceneNode_rect_children (n : SceneNode) : P n :=
  match n with
  | Node f None => leaf f
  | Node f (Some cs) =>
      inner f cs
        ((fix each (cs : list SceneNode) : Forall P cs :=
            match cs with
            | [] => @List.Forall_nil _ P
            | c :: rest => @List.Forall_cons _ P c rest (SceneNode_rect_children c) (each rest)
            end) cs)
  end.
End NodeInduction.

End Scene.

(** ** Scene tools (src/scene/tools.ts) *)

Module Tools.
Import JS Scene.
Local Open Scope Q_scope.

(** The double quote character. *)
Definition dq : string := String (ascii_of_nat 34) EmptyString.

(** What a handler may throw: [new Error(message)], or the TypeError the
    engine raises on [undefined.push] with a message of its own. *)
Inductive exn :=
| Error (message : string)
| TypeError.

Definition default_scene : SceneGraph :=
  {| _sceneVersion := 1;
     root := Node (mkFields "root" "group" None None None None None None []) (Some []);
     camera := Some (mkCamera 400 300 1 None None);
     background := Some "#1a1a2e";
     gradients := Some [];
     filters := Some [];
     width := Some 800;
     height := Some 600 |}.

(** [ctx.state._scene ?? { ... }] *)
Definition getScene (state_scene : option SceneGraph) : SceneGraph :=
  default default_scene state_scene.

(** [JSON.parse(JSON.stringify(scene))]: a private copy with the same
    content.  The handlers reach their copy through one reference only, so
    their in-place updates are written as updates of the value. *)
Definition cloneScene (scene : SceneGraph) : SceneGraph := scene.

Definition with_root (scene : SceneGraph) (r : SceneNode) : SceneGraph :=
  mkScene (_sceneVersion scene) r (camera scene) (background scene)
          (gradients scene) (filters scene) (width scene) (height scene).

(** The children after an update, by [f], of the first child that [f]
    finds its target in. *)
Definition update_first_found {A} (f : A -> option A) : list A -> option (list A) :=
  fix each (cs : list A) : option (list A) :=
    match cs with
    | [] => None
    | child :: rest =>
        match f child with
        | Some child' => Some (child' :: rest)
        | None => option_map (cons child) (each rest)
        end
    end.

(** An in-place update [f] of the node that [findNode(node, target)]
    returns; [None] when [findNode] returns null. *)
Fixpoint modifyNode (f : SceneNode -> SceneNode) (node : SceneNode) (target : string)
    : option SceneNode :=
  if String.eqb (node_id node) target then Some (f node)
  else if is_group node then
    match children node with
    | Some cs =>
        option_map (fun cs' => Node (fields_of node) (Some cs'))
          (update_first_found (fun child => modifyNode f child target) cs)
    | None => None
    end
  else None.

(** [{ ...node, id: nodeId }], then [children = []] for a group without. *)
Definition prepare_node (node : SceneNode) (nodeId : string) : SceneNode :=
  let f := fields_of node in
  let f' := mkFields nodeId (type f) (name f) (transform f) (style f)
                     (interactive f) (data f) (tween f) (props f) in
  Node f' (if String.eqb (type f) "group"
           then Some (default [] (children node)) else children node).

(** [parent.children.push(node)] *)
Definition push_child (node parent : SceneNode) : SceneNode :=
  Node (fields_of parent) (option_map (fun cs => cs ++ [node]) (children parent)).

(** The fields an update may carry besides [nodeId]. *)
Record Patch := mkPatch {
  p_transform : option Transform;
  p_style : option object;
  p_tween : option Tween.TweenDef;
  p_name : option string;
  p_interactive : option bool;
  p_data : option object;
  p_children : option (list SceneNode);
  p_props : object
}.

Definition start_tween (tw : Tween.TweenDef) (timestamp : Q) : Tween.TweenDef :=
  Tween.mkTween (Tween.property tw) (Tween.from tw) (Tween.to tw) (Tween.duration tw)
                (Tween.easing tw) (Tween.delay tw) (Tween.repeat tw) (Tween.yoyo tw)
                (Some timestamp).

(** The body of an update once the node is found: merge [transform] and
    [style], arm the tween, then [Object.assign] the rest. *)
Definition apply_patch (p : Patch) (timestamp : Q) (node : SceneNode) : SceneNode :=
  let f := fields_of node in
  Node
    {| id := id f;
       type := type f;
       name := override (p_name p) (name f);
       transform :=
         match p_transform p with
         | Some t => Some (spread_transform (default no_transform (transform f)) t)
         | None => transform f
         end;
       style :=
         match p_style p with
         | Some s => Some (spread (default [] (style f)) s)
         | None => style f
         end;
       interactive := override (p_interactive p) (interactive f);
       data := override (p_data p) (data f);
       tween :=
         match p_tween p with
         | Some tw => Some (start_tween tw timestamp)
         | None => tween f
         end;
       props := spread (props f) (p_props p) |}
    (override (p_children p) (children node)).

Record CameraPatch := mkCameraPatch {
  cp_x : option Q; cp_y : option Q; cp_zoom : option Q; cp_rotation : option Q
}.

Definition spread_camera (c : Camera) (p : CameraPatch) : Camera :=
  {| cam_x := default (cam_x c) (cp_x p);
     cam_y := default (cam_y c) (cp_y p);
     zoom := default (zoom c) (cp_zoom p);
     cam_rotation := override (cp_rotation p) (cam_rotation c);
     bounds := bounds c |}.

(** Gradient upsert, keyed by the gradient's id. *)
Fixpoint upsert_gradient (g : Gradient) (gs : list Gradient) : list Gradient :=
  match gs with
  | [] => [g]
  | g' :: rest =>
      if String.eqb (gradient_id g') (gradient_id g) then g :: rest
      else g' :: upsert_gradient g rest
  end.

Record Settings := mkSettings {
  s_background : option string;
  s_width : option Q;
  s_height : option Q;
  s_camera : option CameraPatch;
  s_gradient : option Gradient
}.

Definition apply_settings (s : Settings) (scene : SceneGraph) : SceneGraph :=
  {| _sceneVersion := _sceneVersion scene;
     root := root scene;
     camera :=
       match s_camera s with
       | Some p => Some (spread_camera (default (mkCamera 400 300 1 None None) (camera scene)) p)
       | None => camera scene
       end;
     background := override (s_background s) (background scene);
     gradients :=
       match s_gradient s with
       | Some g => Some (upsert_gradient g (default [] (gradients scene)))
       | None => gradients scene
       end;
     filters := filters scene;
     width := override (s_width s) (width scene);
     height := override (s_height s) (height scene) |}.

(** [for (const id of nodeIds) removeNode(scene.root, id)], with the ids
    for which [removeNode] returned true. *)
Fixpoint remove_each (r : SceneNode) (nodeIds : list string) : SceneNode * list string :=
  match nodeIds with
  | [] => (r, [])
  | target :: rest =>
      let '(found, r') := removeNode r target in
      let '(r'', removed) := remove_each r' rest in
      (r'', if found then target :: removed else removed)
  end.

Definition clear_children (r : SceneNode) : SceneNode := Node (fields_of r) (Some []).

(** *** scene.remove *)

Record RemoveInput := mkRemoveInput {
  ri_nodeIds : option (list string);
  ri_clear : option bool
}.

Inductive RemoveOutput :=
| RemovedAll                        (* { removed: 'all' } *)
| Removed (ids : list string).      (* { removed } *)

(** The handler of [scene.remove]: the scene it stores and what it returns. *)
Definition scene_remove (state_scene : option SceneGraph) (input : RemoveInput)
    : SceneGraph * RemoveOutput :=
  let scene := cloneScene (getScene state_scene) in
  if default false (ri_clear input) then
    (with_root scene (clear_children (root scene)), RemovedAll)
  else
    let '(r, removed) := remove_each (root scene) (default [] (ri_nodeIds input)) in
    (with_root scene r, Removed removed).

(** *** scene.batch *)

(** One operation of a batch, by its [op] field. *)
Inductive Op :=
| OpAdd (node : SceneNode) (node_id : option string) (op_id : option string)
        (parentId : option string)
    (* [node_id] is [op.node.id]; the [id] inside [node] is overwritten *)
| OpUpdate (nodeId : string) (patch : Patch)
| OpRemove (clear : option bool) (nodeIds : option (list string)) (nodeId : option string)
| OpSet (settings : Settings)
| OpOther (op : string).

Definition op_name (o : Op) : string :=
  match o with
  | OpAdd _ _ _ _ => "add"
  | OpUpdate _ _ => "update"
  | OpRemove _ _ _ => "remove"
  | OpSet _ => "set"
  | OpOther name => name
  end.

(** The [error] field of a result: a message text, or the text the engine
    gives its TypeError. *)
Inductive Entry :=
| AddResult (nodeId : string)
| UpdateResult (nodeId : string)
| RemoveCleared
| RemoveIds (nodeIds : list string)
| RemoveId (nodeId : string)
| SetResult
| ErrorResult (op : string) (error : exn).

(** A non-empty string is truthy. *)
Definition nonempty (s : option string) : option string :=
  match s with
  | Some EmptyString | None => None
  | Some s => Some s
  end.

(** The working state of a batch: the copy of the scene, and how many ids
    [uid()] has handed out. *)
Record Working := mkWorking { scene : SceneGraph; uids_used : nat }.

Section Batch.
Variable uid : nat -> string.   (* the i-th id that [uid()] returns *)
Variable timestamp : Q.         (* [ctx.timestamp] *)

(** The body of the [try] for one operation: the working state it leaves,
    and the exception it throws or the result it pushes (if any).  An
    operation that throws has not touched the scene, but an [add] has
    called [uid()] by then when its node came without an id. *)
Definition exec_op (w : Working) (o : Op) : Working * (exn + option Entry) :=
  let sc := scene w in
  match o with
  | OpAdd node node_id op_id parentId =>
      let '(nodeId, used) :=
        match override node_id op_id with
        | Some i => (i, uids_used w)
        | None => (uid (uids_used w), S (uids_used w))
        end in
      let node := prepare_node node nodeId in
      match nonempty parentId with
      | Some pid =>
          match findGroup (root sc) pid with
          | None =>
              (mkWorking sc used, inl (Error ("Parent " ++ dq ++ pid ++ dq ++ " not found")))
          | Some parent =>
              match children parent, modifyNode (push_child node) (root sc) pid with
              | Some _, Some r =>
                  (mkWorking (with_root sc r) used, inr (Some (AddResult nodeId)))
              | _, _ => (mkWorking sc used, inl TypeError)
              end
          end
      | None =>
          match children (root sc) with
          | Some _ =>
              (mkWorking (with_root sc (push_child node (root sc))) used,
               inr (Some (AddResult nodeId)))
          | None => (mkWorking sc used, inl TypeError)
          end
      end
  | OpUpdate nodeId patch =>
      match modifyNode (apply_patch patch timestamp) (root sc) nodeId with
      | None => (w, inl (Error ("Node " ++ dq ++ nodeId ++ dq ++ " not found")))
      | Some r => (mkWorking (with_root sc r) (uids_used w), inr (Some (UpdateResult nodeId)))
      end
  | OpRemove clear nodeIds nodeId =>
      if default false clear then
        (mkWorking (with_root sc (clear_children (root sc))) (uids_used w),
         inr (Some RemoveCleared))
      else
        match nodeIds, nonempty nodeId with
        | Some ids, _ =>
            (mkWorking (with_root sc (remove_each (root sc) ids).1) (uids_used w),
             inr (Some (RemoveIds ids)))
        | None, Some i =>
            (mkWorking (with_root sc (removeNode (root sc) i).2) (uids_used w),
             inr (Some (RemoveId i)))
        | None, None => (w, inr None)
        end
  | OpSet settings =>
      (mkWorking (apply_settings settings sc) (uids_used w), inr (Some SetResult))
  | OpOther name =>
      (w, inr (Some (ErrorResult name (Error ("Unknown operation: " ++ name)))))
  end.

(** The entry that an outcome leaves in [results]. *)
Definition pushed (o : Op) (outcome : exn + option Entry) : list Entry :=
  match outcome with
  | inr (Some r) => [r]
  | inr None => []
  | inl err => [ErrorResult (op_name o) err]
  end.

(** The loop over the operations, each in its own [try]/[catch]. *)
Fixpoint run_ops (w : Working) (results : list Entry) (ops : list Op)
    : Working * list Entry :=
  match ops with
  | [] => (w, results)
  | o :: rest =>
      let '(w', outcome) := exec_op w o in
      run_ops w' (results ++ pushed o outcome) rest
  end.

(** The handler of [scene.batch]: the scene it stores, and
    [{ applied: results.length, results }]. *)
Definition scene_batch (state_scene : option SceneGraph) (operations : list Op)
    : SceneGraph * (nat * list Entry) :=
  let w := mkWorking (cloneScene (getScene state_scene)) 0 in
  let '(w', results) := run_ops w [] operations in
  (scene w', (length results, results)).

End Batch.

(** *** Properties of the batch handler *)

(** [modifyNode] misses exactly when [findNode] does. *)
Lemma modifyNode_missing f node target :
  findNode node target = None -> modifyNode f node target = None.
Proof.
  induction node as [fs | fs cs IH] using SceneNode_rect_children; simpl.
  - destruct (String.eqb _ _); [discriminate |]. destruct (is_group _); reflexivity.
  - destruct (String.eqb _ _); [discriminate |].
    destruct (is_group _); [| reflexivity].
    intros H.
    cut (update_first_found (fun child => modifyNode f child target) cs = None);
      [ intros ->; reflexivity |].
    induction IH as [| c rest Hc _ IHrest]; [reflexivity |].
    simpl in H |- *.
    destruct (findNode c target) eqn:E; [discriminate |].
    rewrite (Hc eq_refl), (IHrest H). reflexivity.
Qed.

Section BatchFacts.
Variable uid : nat -> string.
Variable timestamp : Q.

Lemma run_ops_app w results ops1 ops2 :
  run_ops uid timestamp w results (ops1 ++ ops2) =
  let '(w1, results1) := run_ops uid timestamp w results ops1 in
  run_ops uid timestamp w1 results1 ops2.
Proof.
  revert w results. induction ops1 as [| o ops1 IH]; intros w results; simpl.
  - reflexivity.
  - destruct (exec_op uid timestamp w o) as [w' outcome]. apply IH.
Qed.

(** The results so far only stand in front of the new ones. *)
Lemma run_ops_results w results ops :
  run_ops uid timestamp w results ops
  = ((run_ops uid timestamp w [] ops).1, results ++ (run_ops uid timestamp w [] ops).2).
Proof.
  revert w results. induction ops as [| o ops IH]; intros w results; simpl.
  - now rewrite app_nil_r.
  - destruct (exec_op uid timestamp w o) as [w' outcome].
    rewrite (IH w' (results ++ _)), (IH w' (pushed o outcome)). simpl.
    now rewrite app_assoc.
Qed.

End BatchFacts.

(** *** Properties of removal *)

(** The ids of the nodes below [n]. *)
Definition inner_ids (n : SceneNode) : list string :=
  match children n with
  | Some cs => flat_map allNodeIds cs
  | None => []
  end.

(** The ids of the node that [target] addresses and of all nodes below it. *)
Definition subtree_ids (r : SceneNode) (target : string) : list string :=
  match findNode r target with
  | Some n => allNodeIds n
  | None => []
  end.

(** Specification of removal: [n] without the nodes below it whose id
    satisfies [P], each with its whole subtree. *)
Fixpoint prune (P : string -> bool) (n : SceneNode) : SceneNode :=
  let '(Node f ch) := n in
  Node f (option_map
            (flat_map (fun c => if P (node_id c) then []
                                else [if is_group c then prune P c else c]))
            ch).

Lemma allNodeIds_unfold n :
  allNodeIds n = node_id n :: (if is_group n then inner_ids n else []).
Proof.
  destruct n as [f [cs |]]; unfold allNodeIds, inner_ids; simpl;
    destruct (is_group _); try reflexivity.
  f_equal. induction cs as [| c cs IH]; simpl; [reflexivity |].
  now rewrite map_app, IH.
Qed.

Lemma elem_of_flat_map {A B} (f : A -> list B) (l : list A) (y : B) :
  y ∈ flat_map f l <-> exists x, x ∈ l /\ y ∈ f x.
Proof.
  rewrite list_elem_of_In, in_flat_map.
  split; intros (x & H1 & H2); exists x; rewrite !list_elem_of_In in *; auto.
Qed.

Lemma own_id_elem n : node_id n ∈ allNodeIds n.
Proof. rewrite allNodeIds_unfold. left. Qed.

Lemma inner_ids_elem n x : is_group n = true -> x ∈ inner_ids n -> x ∈ allNodeIds n.
Proof. intros G H. rewrite allNodeIds_unfold, G. now right. Qed.

Lemma prune_fields P n : fields_of (prune P n) = fields_of n.
Proof. destruct n; reflexivity. Qed.

Lemma prune_id P n : node_id (prune P n) = node_id n.
Proof. unfold node_id. now rewrite prune_fields. Qed.

Lemma prune_is_group P n : is_group (prune P n) = is_group n.
Proof. unfold is_group, node_type. now rewrite prune_fields. Qed.

(** Nothing is pruned from a node with no selected id below it. *)
Lemma prune_nothing P n :
  (forall x, x ∈ inner_ids n -> P x = false) -> prune P n = n.
Proof.
  induction n as [f | f cs IH] using SceneNode_rect_children; [reflexivity |].
  unfold inner_ids. simpl. intros H. do 2 f_equal.
  induction IH as [| c rest Hc _ IHrest]; [reflexivity |]. simpl in *.
  rewrite (H (node_id c)) by (apply elem_of_app; left; apply own_id_elem).
  simpl. f_equal.
  - destruct (is_group c) eqn:G; [| reflexivity].
    apply Hc. intros x Hx. apply H, elem_of_app. left. now apply inner_ids_elem.
  - apply IHrest. intros x Hx. apply H, elem_of_app. now right.
Qed.

(** Pruning only takes ids away. *)
Lemma prune_sublist P n : allNodeIds (prune P n) `sublist_of` allNodeIds n.
Proof.
  induction n as [f | f cs IH] using SceneNode_rect_children; [reflexivity |].
  rewrite !allNodeIds_unfold, prune_is_group, prune_id.
  apply sublist_skip. destruct (is_group _); [| reflexivity].
  unfold inner_ids. simpl.
  induction IH as [| c rest Hc _ IHrest]; [reflexivity |]. simpl.
  destruct (P (node_id c)); simpl.
  - now apply sublist_inserts_l.
  - apply sublist_app; [| exact IHrest].
    destruct (is_group c); [exact Hc | reflexivity].
Qed.

Lemma prune_NoDup P n : NoDup (allNodeIds n) -> NoDup (allNodeIds (prune P n)).
Proof. intros H. eapply sublist_NoDup; [exact H | apply prune_sublist]. Qed.

Lemma prune_ext P Q n : (forall x, P x = Q x) -> prune P n = prune Q n.
Proof.
  intros E. induction n as [f | f cs IH] using SceneNode_rect_children; [reflexivity |].
  simpl. do 2 f_equal.
  induction IH as [| c rest Hc _ IHrest]; [reflexivity |]. simpl.
  rewrite E, Hc, IHrest. reflexivity.
Qed.

(** Pruning twice is pruning once by either predicate. *)
Lemma prune_prune P Q n :
  prune Q (prune P n) = prune (fun x => P x || Q x) n.
Proof.
  induction n as [f | f cs IH] using SceneNode_rect_children; [reflexivity |].
  simpl. do 2 f_equal.
  induction IH as [| c rest Hc _ IHrest]; [reflexivity |]. simpl.
  destruct (P (node_id c)) eqn:Ep; simpl; [exact IHrest |].
  destruct (is_group c) eqn:G.
  - rewrite prune_id, prune_is_group, G.
    destruct (Q (node_id c)); simpl; [exact IHrest |]. now rewrite Hc, IHrest.
  - rewrite G. destruct (Q (node_id c)); simpl; [exact IHrest |]. now rewrite IHrest.
Qed.

Lemma findIndex_None target cs :
  findIndex target cs = None <-> forall c, c ∈ cs -> node_id c <> target.
Proof.
  induction cs as [| c rest IH]; simpl.
  - split; [ intros _ c H; inversion H | reflexivity ].
  - destruct (String.eqb_spec (node_id c) target) as [E | E].
    + split; [discriminate |]. intros H. exfalso. apply (H c); [left | exact E].
    + destruct (findIndex target rest); simpl.
      * split; [discriminate |]. intros H.
        assert (Some n = None) as F by (apply IH; intros c' Hc'; apply H; now right).
        discriminate F.
      * split; [| reflexivity]. intros _ c' Hc'.
        apply elem_of_cons in Hc' as [-> | Hc']; [exact E |]. now apply IH.
Qed.

Lemma findIndex_Some target cs idx :
  findIndex target cs = Some idx ->
  exists l1 c l2, cs = l1 ++ c :: l2 /\ node_id c = target /\ delete idx cs = l1 ++ l2.
Proof.
  revert idx. induction cs as [| c rest IH]; simpl; intros idx; [discriminate |].
  destruct (String.eqb_spec (node_id c) target) as [E | E].
  - intros [= <-]. exists [], c, rest. auto.
  - destruct (findIndex target rest) as [i |]; simpl; [| discriminate].
    intros [= <-]. destruct (IH i eq_refl) as (l1 & c' & l2 & -> & Hc & Hd).
    exists (c :: l1), c', l2. simpl. rewrite Hd. auto.
Qed.

(** The loop over the group children reports a removal only from below one
    of them, and without one it leaves the children as they were. *)
Lemma first_group_where_found target cs :
  Forall (fun c =>
            ((removeNode c target).1 = true -> target ∈ inner_ids c) /\
            ((removeNode c target).1 = false ->
               (removeNode c target).2 = c /\ target ∉ inner_ids c)) cs ->
  let r := first_group_where (fun c => removeNode c target) cs in
  (r.1 = true -> exists c, c ∈ cs /\ is_group c = true /\ target ∈ inner_ids c) /\
  (r.1 = false ->
     r.2 = cs /\ forall c, c ∈ cs -> is_group c = true -> target ∉ inner_ids c).
Proof.
  intros IH. induction IH as [| c rest [Ht Hf] _ IHrest]; simpl.
  - split; [discriminate |]. intros _. split; [reflexivity |]. intros c H. inversion H.
  - destruct IHrest as [It If].
    destruct (is_group c) eqn:G.
    + destruct (removeNode c target) as [found c'] eqn:R. simpl in Ht, Hf.
      destruct found; simpl.
      * split; [| discriminate]. intros _. exists c. split; [left | auto].
      * destruct (Hf eq_refl) as [-> Hn].
        destruct (first_group_where _ rest) as [found rest'] eqn:F. simpl in *.
        split.
        -- intros Hfound. destruct (It Hfound) as (c0 & H0 & H1).
           exists c0. split; [now right | exact H1].
        -- intros Hfound. destruct (If Hfound) as [-> Hall]. split; [reflexivity |].
           intros c0 H0 G0. apply elem_of_cons in H0 as [-> | H0]; [exact Hn | now apply Hall].
    + destruct (first_group_where _ rest) as [found rest'] eqn:F. simpl in *.
      split.
      * intros Hfound. destruct (It Hfound) as (c0 & H0 & H1).
        exists c0. split; [now right | exact H1].
      * intros Hfound. destruct (If Hfound) as [-> Hall]. split; [reflexivity |].
        intros c0 H0 G0. apply elem_of_cons in H0 as [-> | H0]; [congruence | now apply Hall].
Qed.

(** [removeNode] returns true only for an id below the node, and when it
    returns false the tree is as it was and the id is not below the node. *)
Lemma removeNode_found n target :
  ((removeNode n target).1 = true -> target ∈ inner_ids n) /\
  ((removeNode n target).1 = false ->
     (removeNode n target).2 = n /\ target ∉ inner_ids n).
Proof.
  induction n as [f | f cs IH] using SceneNode_rect_children.
  - simpl. split; [discriminate |]. intros _. split; [reflexivity |].
    unfold inner_ids. simpl. intros H. inversion H.
  - simpl. destruct (findIndex target cs) as [idx |] eqn:E.
    + simpl. split; [| discriminate]. intros _.
      destruct (findIndex_Some _ _ _ E) as (l1 & c & l2 & -> & Hc & _).
      unfold inner_ids. simpl. apply elem_of_flat_map. exists c. split.
      * apply elem_of_app. right. left.
      * rewrite <- Hc. apply own_id_elem.
    + pose proof (first_group_where_found target cs IH) as [Ht Hf].
      destruct (first_group_where _ cs) as [found cs'] eqn:F. simpl in *.
      rewrite findIndex_None in E.
      split.
      * intros Hfound. destruct (Ht Hfound) as (c & Hc & G & Hin).
        unfold inner_ids. simpl. apply elem_of_flat_map. exists c. split; [exact Hc |].
        now apply inner_ids_elem.
      * intros Hfound. destruct (Hf Hfound) as [-> Hall]. split; [reflexivity |].
        unfold inner_ids. simpl. intros Hin.
        apply elem_of_flat_map in Hin as (c & Hc & Hin).
        rewrite allNodeIds_unfold in Hin. apply elem_of_cons in Hin as [Hin | Hin].
        -- now apply (E c Hc).
        -- destruct (is_group c) eqn:G; [ now apply (Hall c Hc G) | inversion Hin ].
Qed.

(** The predicate that selects one id. *)
Definition is_id (target : string) : string -> bool := fun x => String.eqb x target.

Lemma NoDup_inner n : is_group n = true -> NoDup (allNodeIds n) -> NoDup (inner_ids n).
Proof. intros G. rewrite allNodeIds_unfold, G. intros H. now apply NoDup_cons in H. Qed.

(** Children that do not hold the target stay as they are. *)
Lemma prune_children_nothing target (l : list SceneNode) :
  (forall c, c ∈ l -> target ∉ allNodeIds c) ->
  flat_map (fun c => if is_id target (node_id c) then []
                     else [if is_group c then prune (is_id target) c else c]) l = l.
Proof.
  induction l as [| c rest IH]; intros H; simpl; [reflexivity |].
  assert (target ∉ allNodeIds c) as Hc by (apply H; left).
  unfold is_id at 1. destruct (String.eqb_spec (node_id c) target) as [E | E].
  - exfalso. apply Hc. rewrite <- E. apply own_id_elem.
  - simpl. f_equal; [| apply IH; intros c' Hc'; apply H; now right ].
    destruct (is_group c) eqn:G; [| reflexivity].
    apply prune_nothing. intros x Hx. unfold is_id.
    destruct (String.eqb_spec x target) as [-> |]; [| reflexivity].
    exfalso. apply Hc. now apply inner_ids_elem.
Qed.

Lemma first_group_where_prune target cs :
  Forall (fun c => NoDup (inner_ids c) ->
                   (removeNode c target).2 = prune (is_id target) c) cs ->
  (forall c, c ∈ cs -> node_id c <> target) ->
  NoDup (flat_map allNodeIds cs) ->
  (first_group_where (fun c => removeNode c target) cs).2 =
  flat_map (fun c => if is_id target (node_id c) then []
                     else [if is_group c then prune (is_id target) c else c]) cs.
Proof.
  intros IH. induction IH as [| c rest Hc _ IHrest]; intros Hid Hnd; simpl; [reflexivity |].
  apply NoDup_app in Hnd as (Hnd1 & Hdisj & Hnd2).
  assert (is_id target (node_id c) = false) as Ec.
  { unfold is_id. apply String.eqb_neq. apply Hid. left. }
  rewrite Ec. simpl.
  assert (forall c', c' ∈ rest -> node_id c' <> target) as Hid'
    by (intros c' H'; apply Hid; now right).
  specialize (IHrest Hid' Hnd2).
  destruct (is_group c) eqn:G.
  - pose proof (removeNode_found c target) as [Ht Hf].
    specialize (Hc (NoDup_inner c G Hnd1)).
    destruct (removeNode c target) as [found c'] eqn:R. simpl in *. subst c'.
    destruct found; simpl.
    + f_equal. symmetry. apply prune_children_nothing.
      intros c' Hc' Hin. apply (Hdisj target).
      * apply inner_ids_elem; auto.
      * apply elem_of_flat_map. eauto.
    + destruct (first_group_where _ rest) as [found rest']. simpl in *. now rewrite IHrest.
  - destruct (first_group_where _ rest) as [found rest']. simpl in *. now rewrite IHrest.
Qed.

(** With unique ids below the node, [removeNode] is the pruning of the one
    node that carries the id. *)
Lemma removeNode_prune n target :
  NoDup (inner_ids n) -> (removeNode n target).2 = prune (is_id target) n.
Proof.
  induction n as [f | f cs IH] using SceneNode_rect_children; [reflexivity |].
  unfold inner_ids. simpl. intros Hnd.
  destruct (findIndex target cs) as [idx |] eqn:E.
  - destruct (findIndex_Some _ _ _ E) as (l1 & c & l2 & -> & Hc & ->). simpl.
    do 2 f_equal. rewrite flat_map_app in Hnd |- *. simpl in Hnd |- *.
    apply NoDup_app in Hnd as (_ & D1 & Hnd). apply NoDup_app in Hnd as (_ & D2 & _).
    assert (target ∈ allNodeIds c) as Hin by (rewrite <- Hc; apply own_id_elem).
    assert (is_id target (node_id c) = true) as ->
      by (unfold is_id; rewrite Hc; apply String.eqb_refl).
    simpl. rewrite !prune_children_nothing; [reflexivity | |].
    + intros c' Hc' Hin'. apply (D2 target Hin). apply elem_of_flat_map. eauto.
    + intros c' Hc' Hin'. apply (D1 target).
      * apply elem_of_flat_map. eauto.
      * apply elem_of_app. now left.
  - rewrite findIndex_None in E.
    pose proof (first_group_where_prune target cs IH E Hnd) as F.
    destruct (first_group_where _ cs) as [found cs']. simpl in *. now rewrite F.
Qed.

Lemma remove_each_prune r ids :
  is_group r = true -> NoDup (allNodeIds r) ->
  (remove_each r ids).1 = prune (fun x => existsb (String.eqb x) ids) r.
Proof.
  revert r. induction ids as [| target rest IH]; intros r G Hnd; simpl.
  - symmetry. now apply prune_nothing.
  - pose proof (removeNode_prune r target (NoDup_inner r G Hnd)) as R.
    destruct (removeNode r target) as [found r']. simpl in R. subst r'.
    specialize (IH (prune (is_id target) r)).
    rewrite prune_is_group in IH. specialize (IH G (prune_NoDup _ _ Hnd)).
    destruct (remove_each _ rest) as [r'' removed]. simpl in *. subst r''.
    rewrite prune_prune. apply prune_ext. intros x. reflexivity.
Qed.

Lemma first_found_Some {A B} (f : A -> option B) cs m :
  first_found f cs = Some m -> exists c, c ∈ cs /\ f c = Some m.
Proof.
  induction cs as [| c rest IH]; simpl; [discriminate |].
  destruct (f c) eqn:E.
  - intros [= <-]. exists c. split; [left | exact E].
  - intros H. destruct (IH H) as (c' & H1 & H2). exists c'. split; [now right | exact H2].
Qed.

(** What [findNode] returns carries the id and lies inside the searched tree. *)
Lemma findNode_inside n target m :
  findNode n target = Some m ->
  node_id m = target /\ forall x, x ∈ allNodeIds m -> x ∈ allNodeIds n.
Proof.
  induction n as [f | f cs IH] using SceneNode_rect_children; simpl.
  - destruct (String.eqb_spec (node_id (Node f None)) target) as [E | E].
    + intros [= <-]. auto.
    + destruct (is_group _); discriminate.
  - destruct (String.eqb_spec (node_id (Node f (Some cs))) target) as [E | E].
    + intros [= <-]. auto.
    + destruct (is_group (Node f (Some cs))) eqn:G; [| discriminate].
      intros H. apply first_found_Some in H as (c & Hc & Hf).
      rewrite Forall_forall in IH. destruct (IH c Hc Hf) as [Hid Hsub].
      split; [exact Hid |]. intros x Hx.
      apply inner_ids_elem; [exact G |].
      unfold inner_ids. simpl. apply elem_of_flat_map. eauto.
Qed.

Lemma NoDup_flat_map_same {A B} (f : A -> list B) l c c' x :
  NoDup (flat_map f l) -> c ∈ l -> c' ∈ l -> x ∈ f c -> x ∈ f c' -> c = c'.
Proof.
  induction l as [| a rest IH]; simpl; intros Hnd Hc Hc' Hx Hx'; [inversion Hc |].
  apply NoDup_app in Hnd as (_ & D & Hnd).
  apply elem_of_cons in Hc as [-> | Hc]; apply elem_of_cons in Hc' as [-> | Hc'].
  - reflexivity.
  - exfalso. apply (D x Hx). apply elem_of_flat_map. eauto.
  - exfalso. apply (D x Hx'). apply elem_of_flat_map. eauto.
  - now apply IH.
Qed.

(** A selected node other than the root is gone after pruning, with
    everything below it. *)
Lemma pruned_unreachable P n target x :
  NoDup (allNodeIds n) ->
  P target = true ->
  target <> node_id n ->
  x ∈ subtree_ids n target ->
  x ∉ allNodeIds (prune P n).
Proof.
  intros Hnd HP. revert Hnd.
  induction n as [f | f cs IH] using SceneNode_rect_children; intros Hnd Hne;
    unfold subtree_ids; simpl.
  - destruct (String.eqb_spec (node_id (Node f None)) target) as [E | E]; [ now symmetry in E |].
    destruct (is_group _); intros H; inversion H.
  - destruct (String.eqb_spec (node_id (Node f (Some cs))) target) as [E | E]; [ now symmetry in E |].
    destruct (is_group (Node f (Some cs))) eqn:G; [| intros H; inversion H].
    destruct (first_found _ cs) as [m |] eqn:F; [| intros H; inversion H].
    intros Hx. apply first_found_Some in F as (c & Hc & Hf).
    destruct (findNode_inside _ _ _ Hf) as [Hm Hsub].
    assert (x ∈ allNodeIds c) as Hxc by auto.
    rewrite allNodeIds_unfold in Hnd. rewrite G in Hnd.
    apply NoDup_cons in Hnd as [Hroot Hnd]. unfold inner_ids in Hroot, Hnd. simpl in *.
    rewrite allNodeIds_unfold.
    match goal with
    | |- _ ∉ _ :: (if ?b then _ else _) => change b with (is_group (Node f (Some cs)))
    end.
    rewrite G. unfold inner_ids. simpl. intros Hin.
    apply elem_of_cons in Hin as [-> | Hin].
    { apply Hroot. apply elem_of_flat_map. eauto. }
    apply elem_of_flat_map in Hin as (c'' & Hc'' & Hin).
    apply elem_of_flat_map in Hc'' as (c' & Hc' & Hstep).
    destruct (P (node_id c')) eqn:Pc'; [inversion Hstep |].
    apply list_elem_of_singleton in Hstep. subst c''.
    assert (x ∈ allNodeIds c') as Hxc'.
    { destruct (is_group c'); [| exact Hin].
      eapply elem_of_sublist; [exact Hin | apply prune_sublist]. }
    assert (c = c') as <- by (eapply NoDup_flat_map_same; eauto).
    assert (target <> node_id c) as Hne' by (intros ->; congruence).
    assert (is_group c = true) as Gc.
    { destruct c as [fc chc]. simpl in Hf.
      destruct (String.eqb_spec (node_id (Node fc chc)) target); [congruence |].
      destruct (is_group (Node fc chc)); [reflexivity | discriminate]. }
    rewrite Gc in Hin.
    rewrite Forall_forall in IH.
    apply (IH c Hc); auto.
    + clear -Hnd Hc. induction cs as [| a rest IHl]; [inversion Hc |].
      simpl in Hnd. apply NoDup_app in Hnd as (H1 & _ & H2).
      apply elem_of_cons in Hc as [-> | Hc]; auto.
    + unfold subtree_ids. now rewrite Hf.
Qed.

Lemma remove_each_nothing r ids :
  (forall target, target ∈ ids -> target ∉ inner_ids r) ->
  remove_each r ids = (r, []).
Proof.
  induction ids as [| target rest IH]; intros H; simpl; [reflexivity |].
  pose proof (removeNode_found r target) as [Ht Hf].
  destruct (removeNode r target) as [found r'] eqn:R. simpl in *.
  destruct found.
  - exfalso. apply (H target); [left | now apply Ht].
  - destruct (Hf eq_refl) as [-> _].
    rewrite IH; [reflexivity |]. intros t Ht'. apply H. now right.
Qed.

Lemma with_root_same sc : with_root sc (root sc) = sc.
Proof. destruct sc; reflexivity. Qed.

(** C10, amended: on a scene whose root is a group and whose ids are unique,
    [scene.remove] leaves no listed node other than the root reachable from
    the root, nor any node of its subtree; [clear: true] empties the
    children of the root; and ids absent from the tree, like the id of the
    root itself, remove nothing. *)
Theorem remove_unlinks_subtrees (state_scene : option SceneGraph) :
  let r := root (getScene state_scene) in
  is_group r = true ->
  NoDup (allNodeIds r) ->
  (forall ids target x,
     target ∈ ids -> target <> node_id r -> x ∈ subtree_ids r target ->
     x ∉ allNodeIds (root (scene_remove state_scene (mkRemoveInput (Some ids) None)).1)) /\
  (forall ids,
     children (root (scene_remove state_scene (mkRemoveInput ids (Some true))).1) = Some []) /\
  (forall ids,
     (forall target, target ∈ ids -> target ∉ allNodeIds r \/ target = node_id r) ->
     scene_remove state_scene (mkRemoveInput (Some ids) None)
     = (getScene state_scene, Removed [])).
Proof.
  intros r G Hnd. split; [| split].
  - intros ids target x Hin Hne Hx. unfold scene_remove, cloneScene. simpl.
    pose proof (remove_each_prune r ids G Hnd) as E. fold r.
    destruct (remove_each r ids) as [r' removed]. simpl in *. subst r'.
    apply (pruned_unreachable _ r target x Hnd); auto.
    apply existsb_exists. exists target. split.
    + now apply list_elem_of_In.
    + apply String.eqb_refl.
  - intros ids. reflexivity.
  - intros ids H. unfold scene_remove, cloneScene. simpl. fold r.
    rewrite remove_each_nothing.
    + now rewrite with_root_same.
    + intros target Hin Hinner. destruct (H target Hin) as [Habs | ->].
      * apply Habs. now apply inner_ids_elem.
      * rewrite allNodeIds_unfold, G in Hnd. apply NoDup_cons in Hnd as [Hroot _].
        contradiction.
Qed.

(** A scene whose root holds a group ["a"] that holds a circle ["b"]. *)
Definition scene_a_b : SceneGraph :=
  with_root default_scene
    (Node (mkFields "root" "group" None None None None None None [])
       (Some [ Node (mkFields "a" "group" None None None None None None [])
                 (Some [ Node (mkFields "b" "circle" None None None None None None
                                        [("radius", JNum 3)]) None ]) ])).

Lemma remove_unlinks_subtrees_witness :
  ("a" ∉ allNodeIds (root (scene_remove (Some scene_a_b) (mkRemoveInput (Some ["a"]) None)).1)) /\
  ("b" ∉ allNodeIds (root (scene_remove (Some scene_a_b) (mkRemoveInput (Some ["a"]) None)).1)).
Proof.
  assert (NoDup (allNodeIds (root (getScene (Some scene_a_b))))) as Hnd
    by (apply (bool_decide_unpack _); vm_compute; exact I).
  destruct (remove_unlinks_subtrees (Some scene_a_b) eq_refl Hnd) as (H & _).
  split; apply (H ["a"] "a"); try (apply (bool_decide_unpack _); vm_compute; exact I).
Defined.

(** C10 as stated fails for the root: it is a node of the tree, but listing
    its id removes nothing, and the root and all below it stay reachable. *)
Lemma root_is_never_removed :
  scene_remove (Some scene_a_b) (mkRemoveInput (Some ["root"]) None)
    = (scene_a_b, Removed []) /\
  allNodeIds (root (scene_remove (Some scene_a_b) (mkRemoveInput (Some ["root"]) None)).1)
    = ["root"; "a"; "b"].
Proof. split; reflexivity. Qed.

(** *** scene.add, scene.update and scene.set *)

(** The handler of [scene.add]: what it throws, or the scene it stores and
    the id it returns.  [node_id] is [input.node.id], and [fresh] is the id
    that [uid()] would return. *)
Definition scene_add (state_scene : option SceneGraph) (node : SceneNode)
    (node_id : option string) (parentId : option string) (fresh : string)
    : exn + SceneGraph * string :=
  let scene := cloneScene (getScene state_scene) in
  let nodeId := default fresh node_id in
  let node := prepare_node node nodeId in
  match nonempty parentId with
  | Some pid =>
      match findGroup (root scene) pid with
      | None => inl (Error ("Parent group " ++ dq ++ pid ++ dq ++ " not found"))
      | Some parent =>
          match children parent, modifyNode (push_child node) (root scene) pid with
          | Some _, Some r => inr (with_root scene r, nodeId)
          | _, _ => inl TypeError
          end
      end
  | None =>
      match children (root scene) with
      | Some _ => inr (with_root scene (push_child node (root scene)), nodeId)
      | None => inl TypeError
      end
  end.

(** The handler of [scene.update]. *)
Definition scene_update (state_scene : option SceneGraph) (nodeId : string)
    (patch : Patch) (timestamp : Q) : exn + SceneGraph :=
  let scene := cloneScene (getScene state_scene) in
  match modifyNode (apply_patch patch timestamp) (root scene) nodeId with
  | None => inl (Error ("Node " ++ dq ++ nodeId ++ dq ++ " not found"))
  | Some r => inr (with_root scene r)
  end.

(** The handler of [scene.set]. *)
Definition scene_set (state_scene : option SceneGraph) (settings : Settings) : SceneGraph :=
  apply_settings settings (cloneScene (getScene state_scene)).

(** [gradients.find(g => g.id === id)], the way a fill [url(#id)] is
    resolved. *)
Definition find_gradient (i : string) (gs : list Gradient) : option Gradient :=
  List.find (fun g => String.eqb (gradient_id g) i) gs.

(** *** Lookup after an update *)

Lemma findNode_unlisted n x : x ∉ allNodeIds n -> findNode n x = None.
Proof.
  intros H. destruct (findNode n x) as [m |] eqn:E; [| reflexivity].
  apply findNode_inside in E as (<- & E). destruct H. apply E, own_id_elem.
Qed.

Lemma first_found_unlisted cs x :
  x ∉ flat_map allNodeIds cs -> first_found (fun c => findNode c x) cs = None.
Proof.
  induction cs as [| c rest IH]; simpl; [reflexivity |].
  rewrite elem_of_app. intros H.
  rewrite findNode_unlisted by tauto. apply IH. tauto.
Qed.

(** [modifyNode] changes the node that [findNode] returns. *)
Lemma modifyNode_found f n target p :
  findNode n target = Some p -> exists n', modifyNode f n target = Some n'.
Proof.
  revert p. induction n as [fs | fs cs IH] using SceneNode_rect_children; intros p; simpl.
  - destruct (String.eqb _ _); [eauto |]. destruct (is_group _); discriminate.
  - destruct (String.eqb _ _); [eauto |].
    destruct (is_group _); [| discriminate].
    intros H.
    assert (exists cs', update_first_found (fun child => modifyNode f child target) cs
                        = Some cs') as (cs' & ->); [| simpl; eauto].
    induction IH as [| c rest Hc _ IHrest]; [discriminate |].
    simpl in H |- *.
    destruct (findNode c target) as [q |] eqn:E.
    + destruct (Hc q eq_refl) as (c' & ->). eauto.
    + rewrite (modifyNode_missing f c target E).
      destruct (IHrest H) as (cs' & ->). simpl. eauto.
Qed.

(** What [update_first_found] does to a list of children: it changes the
    first child that holds the target and leaves the others. *)
Lemma update_first_found_split f target cs cs' :
  update_first_found (fun child => modifyNode f child target) cs = Some cs' ->
  exists pre c c' post,
    cs = pre ++ c :: post /\ cs' = pre ++ c' :: post /\
    modifyNode f c target = Some c' /\
    Forall (fun d => findNode d target = None) pre.
Proof.
  revert cs'. induction cs as [| c rest IH]; intros cs'; simpl; [discriminate |].
  destruct (modifyNode f c target) as [c' |] eqn:E.
  - intros [= <-]. exists [], c, c', rest. repeat split; auto.
  - destruct (update_first_found _ rest) as [rest' |]; [| discriminate].
    intros [= <-]. destruct (IH rest' eq_refl) as (pre & d & d' & post & -> & -> & H & F).
    exists (c :: pre), d, d', post. repeat split; auto. constructor; [| exact F].
    destruct (findNode c target) as [q |] eqn:Q; [| reflexivity].
    destruct (modifyNode_found f c target q Q) as (x & Hx). congruence.
Qed.

Lemma first_found_app {A B} (g : A -> option B) (l1 l2 : list A) :
  first_found g (l1 ++ l2) =
  match first_found g l1 with Some b => Some b | None => first_found g l2 end.
Proof.
  induction l1 as [| a rest IH]; simpl; [reflexivity |].
  destruct (g a); [reflexivity | exact IH].
Qed.

Lemma first_found_none {A B} (g : A -> option B) (l : list A) :
  Forall (fun a => g a = None) l -> first_found g l = None.
Proof. induction 1 as [| a rest Ha _ IH]; simpl; [reflexivity |]. now rewrite Ha. Qed.

Lemma findNode_self n : findNode n (node_id n) = Some n.
Proof. destruct n as [f ch]. simpl. now rewrite String.eqb_refl. Qed.

(** After an update that keeps the id, [findNode] returns the updated node. *)
Lemma findNode_modified f n target p n' :
  findNode n target = Some p ->
  modifyNode f n target = Some n' ->
  node_id (f p) = target ->
  findNode n' target = Some (f p).
Proof.
  intros Hp Hm Hid. revert p n' Hp Hm Hid.
  induction n as [fs | fs cs IH] using SceneNode_rect_children; intros p n'; simpl.
  - destruct (String.eqb_spec (node_id (Node fs None)) target) as [E | E].
    + intros [= <-] [= <-] Hid. rewrite <- Hid. apply findNode_self.
    + destruct (is_group _); discriminate.
  - destruct (String.eqb_spec (node_id (Node fs (Some cs))) target) as [E | E].
    + intros [= <-] [= <-] Hid. rewrite <- Hid. apply findNode_self.
    + destruct (is_group (Node fs (Some cs))) eqn:G; [| discriminate].
      intros Hp Hm Hid.
      destruct (update_first_found _ cs) as [cs' |] eqn:U; [| discriminate].
      injection Hm as <-.
      destruct (update_first_found_split _ _ _ _ U) as (pre & c & c' & post & -> & -> & Hc & F).
      simpl. apply String.eqb_neq in E. unfold node_id in *. simpl in *. rewrite E.
      change (is_group (Node fs (Some (pre ++ c' :: post)))) with
        (is_group (Node fs (Some (pre ++ c :: post)))). rewrite G.
      rewrite first_found_app, (first_found_none _ _ F) in Hp |- *. simpl in Hp |- *.
      destruct (findNode c target) as [q |] eqn:Q.
      * injection Hp as <-. rewrite Forall_forall in IH.
        rewrite (IH c ltac:(rewrite elem_of_app; right; left) q c' Q Hc Hid).
        reflexivity.
      * rewrite (modifyNode_missing f c target Q) in Hc. discriminate.
Qed.

(** The lookup of an id that the tree does not hold, after an update. *)
Lemma findNode_elsewhere f n target p n' x :
  findNode n target = Some p ->
  modifyNode f n target = Some n' ->
  x ∉ allNodeIds n ->
  findNode n' x = findNode (f p) x.
Proof.
  intros Hp Hm Hx. revert p n' Hp Hm Hx.
  induction n as [fs | fs cs IH] using SceneNode_rect_children; intros p n'; simpl.
  - destruct (String.eqb_spec (node_id (Node fs None)) target) as [E | E].
    + now intros [= <-] [= <-] _.
    + destruct (is_group _); discriminate.
  - destruct (String.eqb_spec (node_id (Node fs (Some cs))) target) as [E | E].
    + now intros [= <-] [= <-] _.
    + destruct (is_group (Node fs (Some cs))) eqn:G; [| discriminate].
      intros Hp Hm Hx.
      destruct (update_first_found _ cs) as [cs' |] eqn:U; [| discriminate].
      injection Hm as <-.
      destruct (update_first_found_split _ _ _ _ U) as (pre & c & c' & post & -> & -> & Hc & F).
      rewrite allNodeIds_unfold, G in Hx. unfold inner_ids in Hx. simpl in Hx.
      apply not_elem_of_cons in Hx as (Hx0 & Hx).
      rewrite flat_map_app in Hx. simpl in Hx. rewrite !elem_of_app in Hx.
      assert (String.eqb (id fs) x = false) as Ex
        by (apply String.eqb_neq; intros <-; now apply Hx0).
      simpl. unfold node_id in *. simpl in *. rewrite Ex.
      change (is_group (Node fs (Some (pre ++ c' :: post)))) with
        (is_group (Node fs (Some (pre ++ c :: post)))). rewrite G.
      rewrite first_found_app, (first_found_none _ _ F) in Hp. simpl in Hp.
      rewrite first_found_app, first_found_unlisted by tauto. simpl.
      destruct (findNode c target) as [q |] eqn:Q.
      * injection Hp as <-. rewrite Forall_forall in IH.
        rewrite (IH c ltac:(rewrite elem_of_app; right; left) q c' Q Hc) by tauto.
        destruct (findNode (f q) x); [reflexivity |].
        apply first_found_unlisted. tauto.
      * rewrite (modifyNode_missing f c target Q) in Hc. discriminate.
Qed.

(** The ids of the tree after an update of the node [p]: those of [p] give
    way to those of the updated node, in place. *)
Lemma modify_ids f n target p n' :
  findNode n target = Some p ->
  modifyNode f n target = Some n' ->
  exists l r, allNodeIds n = l ++ allNodeIds p ++ r /\
              allNodeIds n' = l ++ allNodeIds (f p) ++ r.
Proof.
  revert p n'. induction n as [fs | fs cs IH] using SceneNode_rect_children; intros p n'.
  - simpl. destruct (String.eqb _ _).
    + intros [= <-] [= <-]. exists [], []. now rewrite !app_nil_r.
    + destruct (is_group _); discriminate.
  - simpl findNode. simpl modifyNode.
    destruct (String.eqb _ _).
    + intros [= <-] [= <-]. exists [], []. now rewrite !app_nil_r.
    + destruct (is_group (Node fs (Some cs))) eqn:G; [| discriminate].
      intros Hp Hm.
      destruct (update_first_found _ cs) as [cs' |] eqn:U; [| discriminate].
      injection Hm as <-.
      destruct (update_first_found_split _ _ _ _ U) as (pre & c & c' & post & -> & -> & Hc & F).
      simpl in Hp. rewrite first_found_app, (first_found_none _ _ F) in Hp. simpl in Hp.
      destruct (findNode c target) as [q |] eqn:Q;
        [| rewrite (modifyNode_missing f c target Q) in Hc; discriminate].
      injection Hp as <-. rewrite Forall_forall in IH.
      destruct (IH c ltac:(rewrite elem_of_app; right; left) q c' Q Hc) as (l & r & E1 & E2).
      exists (id fs :: flat_map allNodeIds pre ++ l), (r ++ flat_map allNodeIds post).
      rewrite !allNodeIds_unfold with (n := Node fs _).
      change (is_group (Node fs (Some (pre ++ c' :: post)))) with
        (is_group (Node fs (Some (pre ++ c :: post)))). rewrite G.
      unfold inner_ids, node_id. simpl. rewrite !flat_map_app. simpl.
      rewrite E1, E2, <- !app_assoc. split; reflexivity.
Qed.

Lemma apply_patch_ids patch ts p :
  p_children patch = None -> allNodeIds (apply_patch patch ts p) = allNodeIds p.
Proof.
  intros H. rewrite !allNodeIds_unfold. destruct p as [f ch].
  unfold apply_patch, inner_ids, is_group, node_type, node_id. simpl. now rewrite H.
Qed.

(** X4: [scene.update] and the lookup after it.  When [findNode] finds no
    node with the id, the handler throws [Node "<id>" not found]; otherwise
    it stores a scene in which [findNode] returns the patched node under
    the same id, in which the ids of all nodes are the same and in the same
    order (unless the patch carries [children]), and in which nothing but
    the tree differs from the scene before. *)
Theorem update_then_find (state_scene : option SceneGraph) (nodeId : string)
    (patch : Patch) (timestamp : Q) :
  let scene := getScene state_scene in
  match findNode (root scene) nodeId with
  | None =>
      scene_update state_scene nodeId patch timestamp
      = inl (Error ("Node " ++ dq ++ nodeId ++ dq ++ " not found"))
  | Some p =>
      exists scene',
        scene_update state_scene nodeId patch timestamp = inr scene' /\
        findNode (root scene') nodeId = Some (apply_patch patch timestamp p) /\
        (p_children patch = None -> allNodeIds (root scene') = allNodeIds (root scene)) /\
        with_root scene' (root scene) = scene
  end.
Proof.
  intros scene. unfold scene_update, cloneScene. fold scene.
  destruct (findNode (root scene) nodeId) as [p |] eqn:E.
  - destruct (modifyNode_found (apply_patch patch timestamp) _ _ _ E) as (r & Hr).
    rewrite Hr. exists (with_root scene r). split; [reflexivity |].
    split; [| split].
    + apply (findNode_modified _ _ _ _ _ E Hr).
      apply findNode_inside in E as (E & _). rewrite <- E. now destruct p.
    + intros Hc. destruct (modify_ids _ _ _ _ _ E Hr) as (l & r' & E1 & E2).
      simpl. rewrite E1, E2, (apply_patch_ids _ _ _ Hc). reflexivity.
    + now destruct scene.
  - now rewrite (modifyNode_missing _ _ _ E).
Qed.

Lemma push_child_ids node p cs :
  is_group p = true -> children p = Some cs ->
  allNodeIds (push_child node p) = allNodeIds p ++ allNodeIds node.
Proof.
  destruct p as [f ch]. intros G Hc. simpl in Hc. subst ch.
  change (push_child node (Node f (Some cs))) with (Node f (Some (cs ++ [node]))).
  rewrite (allNodeIds_unfold (Node f (Some (cs ++ [node])))),
          (allNodeIds_unfold (Node f (Some cs))).
  change (is_group (Node f (Some (cs ++ [node])))) with (is_group (Node f (Some cs))).
  rewrite G. unfold inner_ids, node_id. cbn [children fields_of].
  rewrite flat_map_app. cbn [flat_map]. now rewrite app_nil_r.
Qed.

Lemma push_child_finds node p cs :
  is_group p = true -> children p = Some cs ->
  node_id node ∉ allNodeIds p ->
  findNode (push_child node p) (node_id node) = Some node.
Proof.
  destruct p as [f ch]. intros G Hc H. simpl in Hc. subst ch.
  rewrite allNodeIds_unfold, G in H. unfold inner_ids in H. cbn [children] in H.
  apply not_elem_of_cons in H as (H0 & H).
  assert (String.eqb (node_id (Node f (Some (cs ++ [node])))) (node_id node) = false) as E
    by (apply String.eqb_neq; intros E; now apply H0).
  change (push_child node (Node f (Some cs))) with (Node f (Some (cs ++ [node]))).
  cbn [findNode]. rewrite E.
  change (is_group (Node f (Some (cs ++ [node])))) with (is_group (Node f (Some cs))).
  rewrite G. cbn [children].
  rewrite first_found_app, first_found_unlisted by exact H.
  cbn [first_found]. now rewrite findNode_self.
Qed.

Lemma prepare_node_id node i : node_id (prepare_node node i) = i.
Proof. reflexivity. Qed.

(** X5: [scene.add] and the lookup after it.  On a scene whose root is a
    group, with an id that no node of the tree carries: when the handler
    returns, it returns that id, [findNode] finds the added node under it,
    the ids of the tree are those it had and those of the added node, and
    nothing but the tree differs from the scene before; and the handler
    throws [Parent group "<id>" not found] exactly when the parent id is a
    non-empty string that addresses no group. *)
Theorem add_then_find (state_scene : option SceneGraph) (node : SceneNode)
    (node_id : option string) (parentId : option string) (fresh : string) :
  let scene := getScene state_scene in
  let nodeId := default fresh node_id in
  is_group (root scene) = true ->
  nodeId ∉ allNodeIds (root scene) ->
  (forall scene' i,
     scene_add state_scene node node_id parentId fresh = inr (scene', i) ->
     i = nodeId /\
     findNode (root scene') nodeId = Some (prepare_node node nodeId) /\
     allNodeIds (root scene') ≡ₚ allNodeIds (root scene) ++ allNodeIds (prepare_node node nodeId) /\
     with_root scene' (root scene) = scene) /\
  (forall message,
     scene_add state_scene node node_id parentId fresh = inl (Error message) <->
     exists pid, nonempty parentId = Some pid /\ findGroup (root scene) pid = None /\
                 message = ("Parent group " ++ dq ++ pid ++ dq ++ " not found")%string).
Proof.
  intros scene nodeId G Hfresh. unfold scene_add, cloneScene. fold scene. fold nodeId.
  set (node' := prepare_node node nodeId).
  split.
  - intros scene' i. destruct (nonempty parentId) as [pid |].
    + destruct (findGroup (root scene) pid) as [parent |] eqn:Fg; [| discriminate].
      unfold findGroup in Fg.
      destruct (findNode (root scene) pid) as [p |] eqn:Fp; [| discriminate].
      destruct (is_group p) eqn:Gp; [| discriminate]. injection Fg as <-.
      destruct (children p) as [cs |] eqn:Cp; [| discriminate].
      destruct (modifyNode (push_child node') (root scene) pid) as [r |] eqn:Hm;
        [| discriminate].
      intros [= <- <-]. split; [reflexivity |].
      assert (nodeId ∉ allNodeIds p) as Hp.
      { intros Hin. apply Hfresh. apply findNode_inside in Fp as (_ & Fp). now apply Fp. }
      split; [| split].
      * simpl. rewrite (findNode_elsewhere _ _ _ _ _ nodeId Fp Hm Hfresh).
        apply (push_child_finds node' p cs Gp Cp Hp).
      * destruct (modify_ids _ _ _ _ _ Fp Hm) as (l & r' & E1 & E2).
        simpl. rewrite E1, E2, (push_child_ids node' p cs Gp Cp).
        rewrite <- !app_assoc. apply Permutation_app_head, Permutation_app_head.
        apply Permutation_app_comm.
      * now destruct scene.
    + destruct (children (root scene)) as [cs |] eqn:Cr; [| discriminate].
      intros [= <- <-]. split; [reflexivity |]. split; [| split].
      * apply (push_child_finds node' (root scene) cs G Cr Hfresh).
      * simpl. now rewrite (push_child_ids node' (root scene) cs G Cr).
      * now destruct scene.
  - intros message. split.
    + destruct (nonempty parentId) as [pid |].
      * destruct (findGroup (root scene) pid) as [parent |] eqn:Fg.
        -- destruct (children parent), (modifyNode (push_child node') (root scene) pid);
             discriminate.
        -- intros [= <-]. eauto.
      * destruct (children (root scene)); discriminate.
    + intros (pid & -> & -> & ->). reflexivity.
Qed.

(** *** Gradients *)

Lemma upsert_finds g gs : find_gradient (gradient_id g) (upsert_gradient g gs) = Some g.
Proof.
  unfold find_gradient. induction gs as [| g' rest IH]; simpl.
  - now rewrite String.eqb_refl.
  - destruct (String.eqb (gradient_id g') (gradient_id g)) eqn:E; simpl.
    + now rewrite String.eqb_refl.
    + now rewrite E.
Qed.

Lemma upsert_keeps g gs i :
  i <> gradient_id g -> find_gradient i (upsert_gradient g gs) = find_gradient i gs.
Proof.
  intros Hi. unfold find_gradient.
  assert (String.eqb (gradient_id g) i = false) as Eg
    by (apply String.eqb_neq; congruence).
  induction gs as [| g' rest IH]; simpl.
  - now rewrite Eg.
  - destruct (String.eqb_spec (gradient_id g') (gradient_id g)) as [E | E]; simpl.
    + now rewrite Eg, E, Eg.
    + now rewrite IH.
Qed.

Lemma upsert_ids g gs :
  map gradient_id (upsert_gradient g gs) =
  if existsb (fun g' => String.eqb (gradient_id g') (gradient_id g)) gs
  then map gradient_id gs else map gradient_id gs ++ [gradient_id g].
Proof.
  induction gs as [| g' rest IH]; simpl; [reflexivity |].
  destruct (String.eqb_spec (gradient_id g') (gradient_id g)) as [E | E]; simpl.
  - now rewrite E.
  - rewrite IH. now destruct (existsb _ rest).
Qed.

Lemma upsert_again g gs : upsert_gradient g (upsert_gradient g gs) = upsert_gradient g gs.
Proof.
  induction gs as [| g' rest IH]; simpl.
  - now rewrite String.eqb_refl.
  - destruct (String.eqb (gradient_id g') (gradient_id g)) eqn:E; simpl.
    + now rewrite String.eqb_refl.
    + now rewrite E, IH.
Qed.

(** X6: [scene.set] with a gradient is an upsert keyed by the gradient's
    id.  Afterwards the lookup [gradients.find(g => g.id === id)] returns
    the given gradient for its id and what it returned before for every
    other id; ids that were unique stay unique; the list grows by at most
    one entry; and setting the same gradient again changes nothing. *)
Theorem gradient_upsert (state_scene : option SceneGraph) (bg : option string)
    (w h : option Q) (cam : option CameraPatch) (g : Gradient) :
  let settings := mkSettings bg w h cam (Some g) in
  let gs := default [] (gradients (getScene state_scene)) in
  let scene' := scene_set state_scene settings in
  let gs' := default [] (gradients scene') in
  find_gradient (gradient_id g) gs' = Some g /\
  (forall i, i <> gradient_id g -> find_gradient i gs' = find_gradient i gs) /\
  (NoDup (map gradient_id gs) -> NoDup (map gradient_id gs')) /\
  (length gs <= length gs' <= S (length gs))%nat /\
  gradients (scene_set (Some scene') settings) = gradients scene'.
Proof.
  intros settings gs scene' gs'.
  assert (gs' = upsert_gradient g gs) as -> by reflexivity.
  split; [apply upsert_finds |]. split; [intros i; apply upsert_keeps |].
  assert (Hids := upsert_ids g gs).
  split; [| split].
  - intros N. rewrite Hids.
    destruct (existsb _ gs) eqn:X; [exact N |].
    apply NoDup_app. split; [exact N |]. split; [| apply NoDup_singleton].
    intros i Hi Hg. apply list_elem_of_singleton in Hg. subst i.
    apply list_elem_of_In, in_map_iff in Hi as (g' & E & Hin).
    assert (existsb (fun g' => String.eqb (gradient_id g') (gradient_id g)) gs = true) as Y
      by (apply existsb_exists; exists g'; split; [exact Hin | now apply String.eqb_eq]).
    congruence.
  - apply (f_equal (@length string)) in Hids. rewrite length_map in Hids. rewrite Hids.
    destruct (existsb _ gs); rewrite ?length_app, length_map; simpl; lia.
  - unfold scene', scene_set, cloneScene, apply_settings, getScene. simpl.
    fold (getScene state_scene). fold gs. now rewrite upsert_again.
Qed.

(** *** A batch and the calls it stands for *)

(** A call of one of the four tools; an added node comes with its id. *)
Inductive Call :=
| CallAdd (node : SceneNode) (nodeId : string) (parentId : option string)
| CallUpdate (nodeId : string) (patch : Patch)
| CallRemove (input : RemoveInput)
| CallSet (settings : Settings).

(** The state [_scene] after a call: the scene the handler stores, or the
    state as it was when the handler throws before [ctx.setState]. *)
Definition perform (timestamp : Q) (state_scene : option SceneGraph) (c : Call)
    : option SceneGraph :=
  match c with
  | CallAdd node i parentId =>
      match scene_add state_scene node (Some i) parentId i with
      | inr (sc, _) => Some sc
      | inl _ => state_scene
      end
  | CallUpdate i patch =>
      match scene_update state_scene i patch timestamp with
      | inr sc => Some sc
      | inl _ => state_scene
      end
  | CallRemove input => Some (scene_remove state_scene input).1
  | CallSet settings => Some (scene_set state_scene settings)
  end.

(** The operation of a batch with the input of the call. *)
Definition as_op (c : Call) : Op :=
  match c with
  | CallAdd node i parentId => OpAdd node (Some i) None parentId
  | CallUpdate i patch => OpUpdate i patch
  | CallRemove input => OpRemove (ri_clear input) (ri_nodeIds input) None
  | CallSet settings => OpSet settings
  end.

Section BatchAsCalls.
Variable uid : nat -> string.
Variable timestamp : Q.

Lemma exec_op_as_call w st c :
  scene w = getScene st ->
  scene (exec_op uid timestamp w (as_op c)).1 = getScene (perform timestamp st c).
Proof.
  intros E. destruct c as [node i pid | i patch | [ids clear] | settings]; simpl.
  - unfold scene_add, cloneScene. rewrite <- E.
    destruct (nonempty pid) as [p |].
    + destruct (findGroup (root (scene w)) p) as [parent |]; [| exact E].
      destruct (children parent); [| exact E].
      destruct (modifyNode _ (root (scene w)) p); [reflexivity | exact E].
    + destruct (children (root (scene w))); [reflexivity | exact E].
  - unfold scene_update, cloneScene. rewrite <- E.
    destruct (modifyNode _ (root (scene w)) i); [reflexivity | exact E].
  - unfold scene_remove, cloneScene. rewrite <- E. simpl.
    destruct (default false clear); [reflexivity |].
    destruct ids as [ids |]; simpl.
    + now destruct (remove_each (root (scene w)) ids).
    + now rewrite with_root_same.
  - unfold scene_set, cloneScene. now rewrite <- E.
Qed.

Lemma run_ops_as_calls calls : forall w results st,
  scene w = getScene st ->
  scene (run_ops uid timestamp w results (map as_op calls)).1
  = getScene (fold_left (perform timestamp) calls st).
Proof.
  induction calls as [| c rest IH]; intros w results st E; simpl; [exact E |].
  pose proof (exec_op_as_call w st c E) as H.
  destruct (exec_op uid timestamp w (as_op c)) as [w' outcome]. now apply IH.
Qed.

(** X7: a batch stores the scene that the same operations, made as single
    tool calls one after the other, leave behind: each operation of the
    batch does what the handler of [scene.add] (for a node that comes with
    its id), [scene.update], [scene.remove] or [scene.set] does, and an
    operation that throws leaves the scene as a call that throws leaves
    the state. *)
Theorem batch_is_calls (state_scene : option SceneGraph) (calls : list Call) :
  (scene_batch uid timestamp state_scene (map as_op calls)).1
  = getScene (fold_left (perform timestamp) calls state_scene).
Proof.
  unfold scene_batch.
  pose proof (run_ops_as_calls calls (mkWorking (cloneScene (getScene state_scene)) 0) []
                state_scene eq_refl) as H.
  now destruct (run_ops uid timestamp _ [] (map as_op calls)).
Qed.

End BatchAsCalls.

(** *** A batch, operation by operation *)

Section BatchOneByOne.
Variable uid : nat -> string.
Variable timestamp : Q.

(** One operation made through the handler of its single tool, on the
    state [_scene] that the operations before it left: the state it
    leaves, the ids that [uid()] has handed out by then, and the result
    entries.  A handler that throws leaves the state as it was, and the
    error becomes the entry of the operation.  A removal by [nodeId] is a
    removal of the one id. *)
Definition single (st : option SceneGraph) (used : nat) (o : Op)
    : option SceneGraph * nat * list Entry :=
  match o with
  | OpAdd node node_id op_id parentId =>
      let given := override node_id op_id in
      let used' := match given with Some _ => used | None => S used end in
      match scene_add st node given parentId (uid used) with
      | inr (sc, nodeId) => (Some sc, used', [AddResult nodeId])
      | inl TypeError => (st, used', [ErrorResult "add" TypeError])
      | inl (Error _) =>
          (st, used',
           [ErrorResult "add"
              (Error ("Parent " ++ dq ++ default "" parentId ++ dq ++ " not found"))])
      end
  | OpUpdate nodeId patch =>
      match scene_update st nodeId patch timestamp with
      | inr sc => (Some sc, used, [UpdateResult nodeId])
      | inl err => (st, used, [ErrorResult "update" err])
      end
  | OpRemove clear nodeIds nodeId =>
      if default false clear then
        (Some (scene_remove st (mkRemoveInput None clear)).1, used, [RemoveCleared])
      else
        match nodeIds, nonempty nodeId with
        | Some ids, _ =>
            (Some (scene_remove st (mkRemoveInput (Some ids) None)).1, used, [RemoveIds ids])
        | None, Some i =>
            (Some (scene_remove st (mkRemoveInput (Some [i]) None)).1, used, [RemoveId i])
        | None, None => (st, used, [])
        end
  | OpSet settings => (Some (scene_set st settings), used, [SetResult])
  | OpOther name =>
      (st, used, [ErrorResult name (Error ("Unknown operation: " ++ name))])
  end.

(** The operations made one after the other, each on the state the one
    before it left. *)
Fixpoint one_by_one (st : option SceneGraph) (used : nat) (ops : list Op)
    : option SceneGraph * list Entry :=
  match ops with
  | [] => (st, [])
  | o :: rest =>
      let '(st', used', entries) := single st used o in
      let '(final, more) := one_by_one st' used' rest in
      (final, entries ++ more)
  end.

Lemma nonempty_default (s : option string) i : nonempty s = Some i -> default "" s = i.
Proof. destruct s as [[| a r] |]; simpl; congruence. Qed.

Lemma exec_op_single w st o :
  scene w = getScene st ->
  let '(w', outcome) := exec_op uid timestamp w o in
  let '(st', used', entries) := single st (uids_used w) o in
  scene w' = getScene st' /\ uids_used w' = used' /\ pushed o outcome = entries.
Proof.
  intros E.
  assert (forall (w' : Working) st' used' outcome entries,
            scene w' = getScene st' -> uids_used w' = used' -> pushed o outcome = entries ->
            scene w' = getScene st' /\ uids_used w' = used' /\ pushed o outcome = entries)
    as Done by (intros; repeat split; assumption).
  destruct o as [node node_id op_id pid | i patch | clear ids i | settings | name];
    cbn [exec_op single].
  - unfold scene_add, cloneScene. rewrite <- E.
    destruct (override node_id op_id) as [given |]; cbn [default];
      (destruct (nonempty pid) as [p |] eqn:Np;
       [ rewrite (nonempty_default _ _ Np);
         destruct (findGroup (root (scene w)) p) as [parent |];
           [| apply Done; [exact E | reflexivity | reflexivity]];
         destruct (children parent);
           [| apply Done; [exact E | reflexivity | reflexivity]];
         destruct (modifyNode _ (root (scene w)) p);
           apply Done; first [exact E | reflexivity]
       | destruct (children (root (scene w)));
           apply Done; first [exact E | reflexivity] ]).
  - unfold scene_update, cloneScene. rewrite <- E.
    destruct (modifyNode _ (root (scene w)) i); apply Done; first [exact E | reflexivity].
  - unfold scene_remove, cloneScene. rewrite <- E. cbn [ri_clear ri_nodeIds default].
    destruct (default false clear) eqn:C; [apply Done; reflexivity |].
    destruct ids as [ids |]; simpl.
    + destruct (remove_each (root (scene w)) ids) as [r removed].
      split; [reflexivity | split; reflexivity].
    + destruct (nonempty i) as [j |]; [| split; [exact E | split; reflexivity]].
      simpl. destruct (removeNode (root (scene w)) j) as [found r].
      split; [reflexivity | split; reflexivity].
  - unfold scene_set, cloneScene. rewrite <- E. apply Done; reflexivity.
  - apply Done; first [exact E | reflexivity].
Qed.

Lemma run_ops_one_by_one ops : forall w st,
  scene w = getScene st ->
  scene (run_ops uid timestamp w [] ops).1 = getScene (one_by_one st (uids_used w) ops).1 /\
  (run_ops uid timestamp w [] ops).2 = (one_by_one st (uids_used w) ops).2.
Proof.
  induction ops as [| o rest IH]; intros w st E; [now split |].
  cbn [run_ops one_by_one]. pose proof (exec_op_single w st o E) as H.
  destruct (exec_op uid timestamp w o) as [w' outcome].
  destruct (single st (uids_used w) o) as [[st' used'] entries].
  destruct H as (E' & <- & ->).
  destruct (IH w' st' E') as [I1 I2].
  rewrite run_ops_results. cbn [fst snd app].
  destruct (one_by_one st' (uids_used w') rest) as [final more]. cbn [fst snd] in *.
  now rewrite I1, I2.
Qed.

(** C6: the batch handler runs the operations in array order on one working
    copy.  The scene it stores and the results it returns are those of the
    operations made one after the other through the handlers of
    [scene.add], [scene.update], [scene.remove] and [scene.set], each on
    the scene that the one before it left: an operation whose handler
    throws leaves the scene as it was, its error becomes a result entry of
    its own, and the operations after it are applied all the same.  So an
    update of a node that the working copy does not hold changes nothing
    but the results, wherever it stands in the batch; and a batch of an
    update of a missing node and a change of background returns the error
    for the first and applies the second. *)
Theorem batch_isolates_failures :
  (forall state_scene ops,
     scene_batch uid timestamp state_scene ops
     = let '(final, results) := one_by_one state_scene 0 ops in
       (getScene final, (length results, results))) /\
  (forall state_scene ops1 i patch ops2,
     findNode (root (scene_batch uid timestamp state_scene ops1).1) i = None ->
     let without := scene_batch uid timestamp state_scene (ops1 ++ ops2) in
     let before := (scene_batch uid timestamp state_scene ops1).2.2 in
     (scene_batch uid timestamp state_scene (ops1 ++ OpUpdate i patch :: ops2)).1
     = without.1 /\
     (scene_batch uid timestamp state_scene (ops1 ++ OpUpdate i patch :: ops2)).2.2
     = before
       ++ ErrorResult "update" (Error ("Node " ++ dq ++ i ++ dq ++ " not found"))
       :: drop (length before) without.2.2) /\
  (forall state_scene patch,
     findNode (root (getScene state_scene)) "missing" = None ->
     scene_batch uid timestamp state_scene
       [ OpUpdate "missing" patch;
         OpSet (mkSettings (Some "#000") None None None None) ] =
     (apply_settings (mkSettings (Some "#000") None None None None) (getScene state_scene),
      (2%nat,
       [ ErrorResult "update" (Error ("Node " ++ dq ++ "missing" ++ dq ++ " not found"));
         SetResult ])) /\
     background (scene_batch uid timestamp state_scene
       [ OpUpdate "missing" patch;
         OpSet (mkSettings (Some "#000") None None None None) ]).1 = Some "#000").
Proof.
  split; [| split].
  - intros state_scene ops. unfold scene_batch, cloneScene.
    destruct (run_ops_one_by_one ops (mkWorking (getScene state_scene) 0) state_scene eq_refl)
      as [H1 H2]. cbn [uids_used] in *.
    destruct (run_ops uid timestamp _ [] ops) as [w' results].
    destruct (one_by_one state_scene 0 ops) as [final rs]. cbn [fst snd] in *.
    now rewrite H1, H2.
  - intros state_scene ops1 i patch ops2 Hmiss without before.
    unfold without, before, scene_batch, cloneScene in *. clear without before.
    set (w0 := mkWorking (getScene state_scene) 0) in *.
    rewrite !run_ops_app.
    destruct (run_ops uid timestamp w0 [] ops1) as [w1 r1] eqn:R1. cbn [fst snd] in Hmiss.
    cbn [run_ops exec_op]. rewrite (modifyNode_missing _ _ _ Hmiss). cbn [pushed op_name].
    rewrite (run_ops_results _ _ w1 (r1 ++ _) ops2), (run_ops_results _ _ w1 r1 ops2).
    destruct (run_ops uid timestamp w1 [] ops2) as [w2 r2]. cbn [fst snd].
    split; [reflexivity |]. rewrite drop_app_length. now rewrite <- app_assoc.
  - intros state_scene patch H.
    assert (scene_batch uid timestamp state_scene
       [ OpUpdate "missing" patch;
         OpSet (mkSettings (Some "#000") None None None None) ] =
     (apply_settings (mkSettings (Some "#000") None None None None) (getScene state_scene),
      (2%nat,
       [ ErrorResult "update" (Error ("Node " ++ dq ++ "missing" ++ dq ++ " not found"));
         SetResult ]))) as E.
    { unfold scene_batch, cloneScene. simpl.
      rewrite (modifyNode_missing _ _ _ H). reflexivity. }
    split; [exact E |]. rewrite E. reflexivity.
Qed.

End BatchOneByOne.

(** A circle to add. *)
Definition dot : SceneNode :=
  Node (mkFields "" "circle" None None None None None None [("radius", JNum 5)]) None.

Lemma add_then_find_witness :
  findNode (root (with_root default_scene
                    (push_child (prepare_node dot "c1") (root default_scene)))) "c1"
  = Some (prepare_node dot "c1").
Proof.
  refine (proj1 (proj2 (proj1 (add_then_find None dot (Some "c1") None "u" eq_refl _)
                          _ _ eq_refl))).
  apply (bool_decide_unpack _). vm_compute. exact I.
Defined.

End Tools.

(** ** Scene helpers (src/scene/helpers.ts) *)

Module Helpers.
Import JS Scene Tools.
Local Open Scope Q_scope.

(** [createScene(opts)] *)
Definition createScene (width height : option Q) (background : option string) : SceneGraph :=
  let w := default 800 width in
  let h := default 600 height in
  {| _sceneVersion := 1;
     root := Node (mkFields "root" "group" None None None None None None []) (Some []);
     camera := Some (mkCamera (w / 2) (h / 2) 1 None None);
     background := Some (default "#1a1a2e" background);
     gradients := Some [];
     filters := Some [];
     width := Some w;
     height := Some h |}.

(** [nodeById(scene, id)]; [findNodeInGroup] is [findNode]. *)
Definition nodeById (scene : SceneGraph) (i : string) : option SceneNode :=
  findNode (root scene) i.

(** [findNodes(scene, predicate)] *)
Definition findNodes (scene : SceneGraph) (predicate : SceneNode -> bool) : list SceneNode :=
  List.filter predicate (walkNodes (root scene)).

(** [allNodeIds(scene)] *)
Definition allNodeIds (scene : SceneGraph) : list string := Scene.allNodeIds (root scene).

(** [nodeCount(scene)] *)
Definition nodeCount (scene : SceneGraph) : nat := length (walkNodes (root scene)).

(** [findParent(root, nodeId)] *)
Fixpoint findParent (root : SceneNode) (nodeId : string) : option SceneNode :=
  match children root with
  | None => None
  | Some cs =>
      first_found
        (fun child =>
           if String.eqb (node_id child) nodeId then Some root
           else if is_group child then findParent child nodeId
           else None) cs
  end.

(** [removeNodeById(root, id)] is [removeNode]. *)
Definition removeNodeById (root : SceneNode) (i : string) : bool * SceneNode :=
  removeNode root i.

(** *** Properties *)

Lemma find_flat_map {A B} (p : B -> bool) (g : A -> list B) (l : list A) :
  List.find p (flat_map g l) = first_found (fun a => List.find p (g a)) l.
Proof.
  induction l as [| a rest IH]; simpl; [reflexivity |].
  induction (g a) as [| b bs IHb]; simpl; [exact IH |].
  destruct (p b); [reflexivity | exact IHb].
Qed.

Lemma first_found_ext {A B} (g h : A -> option B) (l : list A) :
  Forall (fun a => g a = h a) l -> first_found g l = first_found h l.
Proof. induction 1 as [| a rest Ha _ IH]; simpl; [reflexivity |]. now rewrite Ha, IH. Qed.

(** [findNode] returns the first node of the walk that carries the id. *)
Lemma findNode_first n i :
  findNode n i = List.find (fun m => String.eqb (node_id m) i) (walkNodes n).
Proof.
  induction n as [f | f cs IH] using SceneNode_rect_children.
  - simpl. destruct (String.eqb _ i); [reflexivity |].
    now destruct (is_group _).
  - simpl. destruct (String.eqb _ i); [reflexivity |].
    destruct (is_group _); [| reflexivity].
    rewrite find_flat_map. now apply first_found_ext.
Qed.

(** X8: [nodeById] returns the first node, in the order of [walkNodes],
    that carries the id: the head of what [findNodes] returns for the
    predicate [n.id === id].  It returns [null] exactly when [allNodeIds]
    does not list the id, and [nodeCount] is the length of [allNodeIds],
    which is at least 1. *)
Theorem nodeById_first (scene : SceneGraph) (i : string) :
  nodeById scene i = head (findNodes scene (fun n => String.eqb (node_id n) i)) /\
  (nodeById scene i = None <-> i ∉ allNodeIds scene) /\
  (forall n, nodeById scene i = Some n -> node_id n = i /\ n ∈ walkNodes (root scene)) /\
  nodeCount scene = length (allNodeIds scene) /\ (1 <= nodeCount scene)%nat.
Proof.
  unfold nodeById, findNodes, allNodeIds, nodeCount, Scene.allNodeIds.
  rewrite findNode_first.
  set (p := fun m => String.eqb (node_id m) i). set (l := walkNodes (root scene)).
  split; [| split; [| split; [| split]]].
  - induction l as [| a rest IH]; simpl; [reflexivity |]. now destruct (p a).
  - split.
    + intros H Hin. apply list_elem_of_In, in_map_iff in Hin as (m & E & Hm).
      apply (find_none _ _ H) in Hm. unfold p in Hm. rewrite E, String.eqb_refl in Hm.
      discriminate.
    + intros H. destruct (List.find p l) as [m |] eqn:F; [| reflexivity].
      apply find_some in F as [Hm E]. unfold p in E. apply String.eqb_eq in E.
      destruct H. rewrite <- E. now apply list_elem_of_In, in_map.
  - intros n F. apply find_some in F as [Hm E]. unfold p in E. apply String.eqb_eq in E.
    split; [exact E | now apply list_elem_of_In].
  - now rewrite length_map.
  - unfold l. destruct (root scene). simpl. lia.
Qed.

Lemma findParent_none n i : findParent n i = None <-> i ∉ inner_ids n.
Proof.
  induction n as [f | f cs IH] using SceneNode_rect_children.
  - simpl. split; [intros _; apply not_elem_of_nil | reflexivity].
  - unfold inner_ids. cbn [children findParent].
    generalize (Node f (Some cs)) as r. intros r.
    induction IH as [| c rest Hc _ IHrest]; simpl.
    + split; [intros _; apply not_elem_of_nil | reflexivity].
    + rewrite allNodeIds_unfold, elem_of_app, elem_of_cons.
      destruct (String.eqb (node_id c) i) eqn:E.
      * apply String.eqb_eq in E. split; [discriminate |]. intros H. destruct H. now left; left.
      * apply String.eqb_neq in E. destruct (is_group c).
        -- destruct (findParent c i) as [g |] eqn:F.
           ++ split; [discriminate |]. intros H. exfalso.
              assert (i ∈ inner_ids c) as Hin.
              { destruct (decide (i ∈ inner_ids c)) as [Y | N]; [exact Y |].
                apply Hc in N. discriminate. }
              apply H. left. now right.
           ++ rewrite IHrest. split.
              ** intros H [[Hi | Hi] | Hi]; [now apply E | | now apply H].
                 revert Hi. now apply Hc.
              ** intros H Hi. apply H. now right.
        -- rewrite IHrest. split.
           ++ intros H [[Hi | Hi] | Hi]; [now apply E | | now apply H].
              now apply not_elem_of_nil in Hi.
           ++ intros H Hi. apply H. now right.
Qed.

Lemma findParent_some n i g :
  findParent n i = Some g ->
  (g = n \/ is_group g = true) /\
  exists cs c, children g = Some cs /\ c ∈ cs /\ node_id c = i.
Proof.
  induction n as [f | f cs IH] using SceneNode_rect_children; [discriminate |].
  cbn [children findParent].
  assert (children (Node f (Some cs)) = Some cs) as K by reflexivity.
  revert K. generalize (Node f (Some cs)) as r. intros r K.
  assert (forall l, (forall c, c ∈ l -> c ∈ cs) ->
            Forall (fun n => findParent n i = Some g ->
                      (g = n \/ is_group g = true) /\
                      exists cs c, children g = Some cs /\ c ∈ cs /\ node_id c = i) l ->
            first_found (fun child => if String.eqb (node_id child) i then Some r
                           else if is_group child then findParent child i else None) l = Some g ->
            (g = r \/ is_group g = true) /\
            exists cs c, children g = Some cs /\ c ∈ cs /\ node_id c = i) as Gen.
  { induction l as [| c rest IHrest]; intros Sub Hl; [discriminate |].
    apply Forall_cons in Hl as [Hc Hrest]. simpl.
    destruct (String.eqb (node_id c) i) eqn:E.
    - apply String.eqb_eq in E. intros [= <-]. split; [now left |].
      exists cs, c. repeat split; [exact K | | exact E]. apply Sub. left.
    - destruct (is_group c) eqn:G.
      + destruct (findParent c i) as [g' |] eqn:F.
        * intros [= <-]. destruct (Hc eq_refl) as [[-> | G'] Hkid]; split; auto.
        * apply IHrest; [| exact Hrest]. intros c' Hc'. apply Sub. now right.
      + apply IHrest; [| exact Hrest]. intros c' Hc'. apply Sub. now right. }
  now apply Gen.
Qed.

(** X9: [findParent] and [removeNodeById] agree on whether the id is below
    the root.  [findParent] returns [null] exactly when [removeNodeById]
    returns false, and then the tree is left as it was; what [findParent]
    returns otherwise is the root or a group, and one of its children
    carries the id. *)
Theorem findParent_agrees (root : SceneNode) (i : string) :
  (findParent root i = None <-> (removeNodeById root i).1 = false) /\
  (findParent root i = None -> (removeNodeById root i).2 = root) /\
  (forall g, findParent root i = Some g ->
     (g = root \/ is_group g = true) /\
     exists cs c, children g = Some cs /\ c ∈ cs /\ node_id c = i).
Proof.
  unfold removeNodeById.
  destruct (removeNode_found root i) as [T F].
  split; [| split].
  - rewrite findParent_none. split.
    + intros N. destruct (removeNode root i).1; [| reflexivity]. now destruct N; apply T.
    + intros E. now apply F.
  - intros N. apply findParent_none in N.
    destruct (removeNode root i).1 eqn:E; [now destruct N; apply T | now apply F].
  - intros g. apply findParent_some.
Qed.

End Helpers.

(** ** Interaction hooks (src/scene/hooks.ts) *)

Module Hooks.
Import JS Scene Tools.
Local Open Scope Q_scope.

(** *** useSceneSelection *)

(** [prev.includes(nodeId)] *)
Definition includes (nodeId : string) (prev : list string) : bool :=
  existsb (String.eqb nodeId) prev.

(** The state updates that the callbacks of the hook pass to
    [setSelectedIds]. *)
Definition select (nodeId : string) (prev : list string) : list string :=
  if includes nodeId prev then prev else prev ++ [nodeId].

Definition deselect (nodeId : string) (prev : list string) : list string :=
  List.filter (fun i => negb (String.eqb i nodeId)) prev.

Definition toggle (nodeId : string) (prev : list string) : list string :=
  if includes nodeId prev
  then List.filter (fun i => negb (String.eqb i nodeId)) prev
  else prev ++ [nodeId].

Definition clear (prev : list string) : list string := [].

Definition isSelected (selectedIds : list string) (nodeId : string) : bool :=
  includes nodeId selectedIds.

(** What a component does with the hook. *)
Inductive SelectionCall :=
| Select (nodeId : string)
| Deselect (nodeId : string)
| Toggle (nodeId : string)
| Clear.

Definition selection_step (selectedIds : list string) (c : SelectionCall) : list string :=
  match c with
  | Select i => select i selectedIds
  | Deselect i => deselect i selectedIds
  | Toggle i => toggle i selectedIds
  | Clear => clear selectedIds
  end.

(** The selection after a series of calls, from the initial [useState([])]. *)
Definition selection_after (calls : list SelectionCall) : list string :=
  fold_left selection_step calls [].

Lemma includes_elem i l : includes i l = true <-> i ∈ l.
Proof.
  unfold includes. rewrite existsb_exists. split.
  - intros (x & Hx & E). apply String.eqb_eq in E. subst. now apply list_elem_of_In.
  - intros H. exists i. split; [now apply list_elem_of_In | apply String.eqb_refl].
Qed.

Lemma includes_app i l l' : includes i (l ++ l') = includes i l || includes i l'.
Proof. apply existsb_app. Qed.

Lemma includes_filter_out i j l :
  includes j (List.filter (fun k => negb (String.eqb k i)) l)
  = negb (String.eqb j i) && includes j l.
Proof.
  induction l as [| a rest IH]; simpl; [now rewrite andb_false_r |].
  destruct (String.eqb a i) eqn:E; simpl; rewrite IH.
  - apply String.eqb_eq in E. rewrite E.
    now destruct (String.eqb j i).
  - destruct (String.eqb j a) eqn:F; simpl; [| reflexivity].
    apply String.eqb_eq in F. rewrite F. now rewrite E.
Qed.

Lemma selection_step_NoDup l c : NoDup l -> NoDup (selection_step l c).
Proof.
  intros N. destruct c as [i | i | i |]; simpl.
  - unfold select. destruct (includes i l) eqn:E; [exact N |].
    apply NoDup_app. repeat split; [exact N | | apply NoDup_singleton].
    intros x Hx ->%list_elem_of_singleton. apply includes_elem in Hx. congruence.
  - unfold deselect. now apply NoDup_ListNoDup, List.NoDup_filter, NoDup_ListNoDup.
  - unfold toggle. destruct (includes i l) eqn:E; [now apply NoDup_ListNoDup, List.NoDup_filter, NoDup_ListNoDup |].
    apply NoDup_app. repeat split; [exact N | | apply NoDup_singleton].
    intros x Hx ->%list_elem_of_singleton. apply includes_elem in Hx. congruence.
  - apply NoDup_nil_2.
Qed.

(** X10: the selection is a set.  After any series of calls of [select],
    [deselect], [toggle] and [clear] no id is listed twice, and one more
    call changes [isSelected] as it should: [select] adds its id,
    [deselect] takes its id away, [toggle] flips its id, each leaving all
    other ids as they were, and [clear] leaves nothing selected. *)
Theorem selection_is_a_set (calls : list SelectionCall) :
  NoDup (selection_after calls) /\
  forall (c : SelectionCall) (j : string),
    isSelected (selection_after (calls ++ [c])) j =
    match c with
    | Select i => String.eqb j i || isSelected (selection_after calls) j
    | Deselect i => negb (String.eqb j i) && isSelected (selection_after calls) j
    | Toggle i =>
        if String.eqb j i then negb (isSelected (selection_after calls) j)
        else isSelected (selection_after calls) j
    | Clear => false
    end.
Proof.
  unfold selection_after. split.
  - generalize (NoDup_nil_2 (A := string)). generalize (@nil string) as l.
    induction calls as [| c rest IH]; intros l N; simpl; [exact N |].
    apply IH. now apply selection_step_NoDup.
  - intros c j. rewrite fold_left_app. simpl.
    generalize (fold_left selection_step calls []) as l. intros l.
    unfold isSelected. destruct c as [i | i | i |]; simpl.
    + unfold select. destruct (includes i l) eqn:E.
      * destruct (String.eqb j i) eqn:F; [| reflexivity].
        apply String.eqb_eq in F. subst. now rewrite E.
      * rewrite includes_app. simpl. rewrite orb_false_r. apply orb_comm.
    + apply includes_filter_out.
    + unfold toggle. destruct (includes i l) eqn:E.
      * rewrite includes_filter_out. destruct (String.eqb j i) eqn:F; [| reflexivity].
        apply String.eqb_eq in F. subst. now rewrite E.
      * rewrite includes_app. simpl. rewrite orb_false_r.
        destruct (String.eqb j i) eqn:F.
        -- apply String.eqb_eq in F. subst. now rewrite E.
        -- apply orb_false_r.
    + reflexivity.
Qed.

(** *** getPath and setPath *)

(** [path.split('.')] *)
Fixpoint split_dots (path : string) : list string :=
  match path with
  | EmptyString => [EmptyString]
  | String c rest =>
      if Ascii.eqb c "." then EmptyString :: split_dots rest
      else match split_dots rest with
           | part :: parts => String c part :: parts
           | [] => [String c EmptyString]
           end
  end.

(** [parts.join('.')] *)
Fixpoint join_dots (parts : list string) : string :=
  match parts with
  | [] => EmptyString
  | [part] => part
  | part :: rest => (part ++ String "." (join_dots rest))%string
  end.

(** What [current[part]] finds on an object that came from JSON. *)
Inductive member :=
| Own (v : json)   (* an own property *)
| Proto            (* a member inherited from Object.prototype *)
| Missing.         (* undefined *)

Definition member_of (o : object) (part : string) : member :=
  match get part o with
  | Some v => Own v
  | None =>
      if existsb (String.eqb part) Tween.Object_prototype_members then Proto else Missing
  end.

(** The loop of [getPath] over the parts of the path.  A value that may be
    undefined is an [option json]; the result is [None] where the loop
    leaves JSON data: it read a property of a string, an array, a number
    or a boolean, or a member of [Object.prototype]. *)
Fixpoint getPath_parts (current : option json) (parts : list string) : option (option json) :=
  match parts with
  | [] => Some current
  | part :: rest =>
      match current with
      | None | Some JNull => Some None
      | Some (JObj o) =>
          match member_of o part with
          | Own v => getPath_parts (Some v) rest
          | Missing => getPath_parts None rest
          | Proto => None
          end
      | Some _ => None
      end
  end.

Definition getPath (obj : option json) (path : string) : option (option json) :=
  getPath_parts obj (split_dots path).

(** [{...obj}]: a string or an array spreads into index keys, which is
    outside of this model. *)
Definition spread_of (obj : option json) : option object :=
  match obj with
  | None | Some JNull => Some []
  | Some (JObj o) => Some o
  | Some (JNum _) | Some (JBool _) => Some []
  | Some (JStr _) | Some (JArr _) => None
  end.

(** [obj?.[head]] *)
Definition child_of (obj : option json) (head : string) : option (option json) :=
  match obj with
  | None | Some JNull => Some None
  | Some (JObj o) =>
      match member_of o head with
      | Own v => Some (Some v)
      | Missing => Some None
      | Proto => None
      end
  | Some _ => None
  end.

(** [v ?? {}] *)
Definition or_empty (v : option json) : json :=
  match v with
  | None | Some JNull => JObj []
  | Some v => v
  end.

(** [setPath] on the parts of the path: [rest.join('.')] splits back into
    [rest] (lemma [split_join] below). *)
Fixpoint setPath_parts (obj : option json) (parts : list string) (value : json)
    : option object :=
  match parts with
  | [] => None
  | [part] => o ← spread_of obj; Some (set part value o)
  | head :: rest =>
      o ← spread_of obj;
      sub ← child_of obj head;
      r ← setPath_parts (Some (or_empty sub)) rest value;
      Some (set head (JObj r) o)
  end.

Definition setPath (obj : option json) (path : string) (value : json) : option object :=
  setPath_parts obj (split_dots path) value.

Definition no_dot (part : string) : Prop := ~ In "."%char (list_ascii_of_string part).

Lemma split_dots_parts path : split_dots path <> [] /\ Forall no_dot (split_dots path).
Proof.
  induction path as [| c rest [N F]]; simpl.
  - split; [discriminate |]. constructor; [| constructor]. intros [].
  - destruct (Ascii.eqb c ".") eqn:E.
    + split; [discriminate |]. constructor; [intros [] | exact F].
    + apply Ascii.eqb_neq in E. destruct (split_dots rest) as [| part parts]; [now destruct N |].
      split; [discriminate |]. apply Forall_cons in F as [Hp Hps].
      constructor; [| exact Hps]. intros [H | H]; [now apply E | now apply Hp].
Qed.

Lemma split_dots_plain part : no_dot part -> split_dots part = [part].
Proof.
  induction part as [| c rest IH]; intros N; simpl; [reflexivity |].
  destruct (Ascii.eqb c ".") eqn:E.
  - apply Ascii.eqb_eq in E. destruct N. now left.
  - rewrite IH; [reflexivity |]. intros H. apply N. now right.
Qed.

Lemma split_dots_app part rest :
  no_dot part -> split_dots (part ++ String "." rest) = part :: split_dots rest.
Proof.
  induction part as [| c p IH]; intros N; simpl; [reflexivity |].
  destruct (Ascii.eqb c ".") eqn:E.
  - apply Ascii.eqb_eq in E. destruct N. now left.
  - rewrite IH; [reflexivity |]. intros H. apply N. now right.
Qed.

(** Joining parts that hold no dot and splitting again gives the parts. *)
Lemma split_join parts :
  parts <> [] -> Forall no_dot parts -> split_dots (join_dots parts) = parts.
Proof.
  induction parts as [| part rest IH]; intros N F; [now destruct N |].
  apply Forall_cons in F as [Hp Hr]. destruct rest as [| part' rest'].
  - simpl. now apply split_dots_plain.
  - change (join_dots (part :: part' :: rest'))
      with (part ++ String "." (join_dots (part' :: rest')))%string.
    rewrite split_dots_app by exact Hp. f_equal. now apply IH.
Qed.

Lemma get_set_same k v o : get k (set k v o) = Some v.
Proof.
  induction o as [| [k' v'] rest IH]; simpl.
  - now rewrite String.eqb_refl.
  - destruct (String.eqb k' k) eqn:E; simpl; rewrite E; [reflexivity | exact IH].
Qed.

Lemma get_set_other k k' v o : k <> k' -> get k (set k' v o) = get k o.
Proof.
  intros N. induction o as [| [k0 v0] rest IH]; simpl.
  - apply String.eqb_neq in N. rewrite String.eqb_sym in N. now rewrite N.
  - destruct (String.eqb k0 k') eqn:E; simpl.
    + apply String.eqb_eq in E. subst k0.
      apply String.eqb_neq in N. rewrite String.eqb_sym in N. now rewrite N.
    + now rewrite IH.
Qed.

Lemma setPath_parts_reads obj parts value o' :
  setPath_parts obj parts value = Some o' ->
  getPath_parts (Some (JObj o')) parts = Some (Some value) /\
  forall k o, spread_of obj = Some o -> k <> hd EmptyString parts -> get k o' = get k o.
Proof.
  revert obj o'. induction parts as [| part rest IH]; intros obj o'; [discriminate |].
  destruct rest as [| part' rest'].
  - simpl. destruct (spread_of obj) as [o |]; [| discriminate]. intros [= <-]. split.
    + unfold member_of. now rewrite get_set_same.
    + intros k o0 [= <-] N. now apply get_set_other.
  - change (setPath_parts obj (part :: part' :: rest') value)
      with (o ← spread_of obj; sub ← child_of obj part;
            r ← setPath_parts (Some (or_empty sub)) (part' :: rest') value;
            Some (set part (JObj r) o)).
    destruct (spread_of obj) as [o |]; [| discriminate].
    destruct (child_of obj part) as [sub |]; [| discriminate]. cbn [mbind option_bind].
    destruct (setPath_parts (Some (or_empty sub)) (part' :: rest') value) as [r |] eqn:R;
      [| discriminate].
    cbn [mbind option_bind]. intros [= <-]. split.
    + cbn [getPath_parts]. unfold member_of. rewrite get_set_same.
      now apply (IH _ _ R).
    + intros k o0 [= <-] N. now apply get_set_other.
Qed.

(** [obj] and the values that the path walks through are objects, null
    or undefined; the value at the end of the path may be anything. *)
Fixpoint objects_along (obj : option json) (parts : list string) : bool :=
  match parts with
  | [] => true
  | part :: rest =>
      match obj with
      | None | Some JNull => true
      | Some (JObj o) => objects_along (get part o) rest
      | Some _ => false
      end
  end.

Definition own_name (part : string) : Prop := ~ In part Tween.Object_prototype_members.

Lemma member_of_own o part :
  own_name part ->
  member_of o part = match get part o with Some v => Own v | None => Missing end.
Proof.
  intros N. unfold member_of. destruct (get part o); [reflexivity |].
  destruct (existsb _ _) eqn:E; [| reflexivity].
  apply existsb_exists in E as (x & Hx & ->%String.eqb_eq). now destruct N.
Qed.

Lemma objects_along_empty parts : objects_along (Some (JObj [])) parts = true.
Proof. destruct parts as [| part [| part' rest]]; reflexivity. Qed.

Lemma setPath_parts_defined obj parts value :
  parts <> [] -> Forall own_name parts -> objects_along obj parts = true ->
  exists result, setPath_parts obj parts value = Some result.
Proof.
  revert obj. induction parts as [| part rest IH]; intros obj N F A; [now destruct N |].
  apply Forall_cons in F as [Hp Hr].
  assert (exists o, spread_of obj = Some o) as [o So].
  { simpl in A. destruct obj as [[| | | | |] |]; try discriminate; simpl; eauto. }
  destruct rest as [| part' rest'].
  - simpl. rewrite So. simpl. eauto.
  - change (setPath_parts obj (part :: part' :: rest') value)
      with (o ← spread_of obj; sub ← child_of obj part;
            r ← setPath_parts (Some (or_empty sub)) (part' :: rest') value;
            Some (set part (JObj r) o)).
    rewrite So. cbn [mbind option_bind].
    assert (exists sub, child_of obj part = Some sub /\
              objects_along (Some (or_empty sub)) (part' :: rest') = true) as (sub & Cs & As).
    { cbn [objects_along] in A. unfold child_of.
      destruct obj as [[| | | | | o0] |]; try discriminate;
        try (exists None; split; [reflexivity | apply objects_along_empty]).
      rewrite member_of_own by exact Hp.
      destruct (get part o0) as [v |] eqn:G.
      - exists (Some v). split; [reflexivity |].
        destruct v; try discriminate; try exact A. apply objects_along_empty.
      - exists None. split; [reflexivity | apply objects_along_empty]. }
    rewrite Cs. cbn [mbind option_bind].
    destruct (IH (Some (or_empty sub))) as [r R]; [discriminate | exact Hr | exact As |].
    rewrite R. simpl. eauto.
Qed.

(** X11: [getPath] reads what [setPath] wrote.  When [obj] and the values
    that the path walks through are objects, null or undefined, and no
    part of the path names a member of [Object.prototype], [setPath]
    returns an object from which [getPath] at the same path returns the
    value, and whose other top-level properties are those of [obj]. *)
Theorem setPath_then_getPath (obj : option json) (path : string) (value : json) :
  Forall own_name (split_dots path) ->
  objects_along obj (split_dots path) = true ->
  exists result,
    setPath obj path value = Some result /\
    getPath (Some (JObj result)) path = Some (Some value) /\
    forall k, k <> hd EmptyString (split_dots path) ->
      get k result = match obj with Some (JObj o) => get k o | _ => None end.
Proof.
  intros F A. unfold setPath, getPath.
  destruct (setPath_parts_defined obj (split_dots path) value) as [result R];
    [apply split_dots_parts | exact F | exact A |].
  exists result. split; [exact R |].
  destruct (setPath_parts_reads _ _ _ _ R) as [G K]. split; [exact G |].
  intros k N. destruct (split_dots path) as [| part rest] eqn:S; [now apply split_dots_parts in S |].
  simpl in A. destruct obj as [[| | | | | o] |]; try discriminate;
    now rewrite (K k _ eq_refl N).
Qed.

(** *** useSceneDrag *)

Record Vec2 := mkVec2 { vx : Q; vy : Q }.

(** The state of the hook: [dragging], [dragOffset] and [startRef.current]. *)
Record Drag := mkDrag {
  dragging : option string;
  dragOffset : option Vec2;
  startRef : option Vec2
}.

Definition drag_idle : Drag := mkDrag None None None.

Definition onNodeDragStart (nodeId : string) (pos : Vec2) (d : Drag) : Drag :=
  mkDrag (Some nodeId) (Some (mkVec2 0 0)) (Some pos).

Definition onNodeDrag (nodeId : string) (pos : Vec2) (d : Drag) : Drag :=
  match startRef d with
  | None => d
  | Some start =>
      mkDrag (dragging d) (Some (mkVec2 (vx pos - vx start) (vy pos - vy start))) (startRef d)
  end.

(** A patch that holds [transform: { x, y }] only. *)
Definition transform_patch (x y : Q) : Patch :=
  mkPatch (Some (mkTransform (Some x) (Some y) None None None None None))
          None None None None None None [].

(** [onNodeDragEnd]: the state it leaves and the input of the update tool
    that it calls, if it calls it. *)
Definition onNodeDragEnd (nodeId : string) (pos : Vec2) (d : Drag)
    : Drag * option (string * Patch) :=
  match startRef d with
  | None => (d, None)
  | Some start =>
      let dx := vx pos - vx start in
      let dy := vy pos - vy start in
      (mkDrag None None None, Some (nodeId, transform_patch dx dy))
  end.

(** *** useSceneViewport *)

Definition view_camera (scene : SceneGraph) : Camera :=
  default (mkCamera 400 300 1 None None) (camera scene).

(** The camera that [onViewportPan] and [onViewportZoom] hand to
    [commitCamera], which sends it to the set tool. *)
Definition onViewportPan (scene : SceneGraph) (delta : Vec2) : CameraPatch :=
  mkCameraPatch (Some (cam_x (view_camera scene) + vx delta))
                (Some (cam_y (view_camera scene) + vy delta)) None None.

Definition onViewportZoom (newZoom : Q) : CameraPatch :=
  mkCameraPatch None None (Some (Math_max (1 # 10) (Math_min 10 newZoom))) None.

Definition camera_settings (p : CameraPatch) : Settings :=
  mkSettings None None None (Some p) None.

(** A drag of node [nodeId] from [start] over [moves] to [pos]. *)
Definition drag_to (nodeId : string) (start : Vec2) (moves : list Vec2) (pos : Vec2)
    : Drag * option (string * Patch) :=
  onNodeDragEnd nodeId pos
    (fold_left (fun d p => onNodeDrag nodeId p d) moves (onNodeDragStart nodeId start drag_idle)).

Lemma drag_keeps_start nodeId moves d :
  startRef (fold_left (fun d p => onNodeDrag nodeId p d) moves d) = startRef d.
Proof.
  revert d. induction moves as [| p rest IH]; intros d; simpl; [reflexivity |].
  rewrite IH. unfold onNodeDrag. destruct (startRef d) eqn:E; [reflexivity | exact E].
Qed.

(** X12: what a drag commits.  A drag of a node that [findNode] finds,
    from [start] over any moves to [pos], ends with the hook idle and with
    a call of the update tool after which the node's [transform.x] and
    [transform.y] are the offsets [pos.x - start.x] and [pos.y - start.y]
    of the drag, whatever they were before; the rest of the transform, the
    children, style, data and own properties of the node stay. *)
Theorem drag_commits_offset (state_scene : option SceneGraph) (nodeId : string)
    (start pos : Vec2) (moves : list Vec2) (timestamp : Q) (p : SceneNode) :
  findNode (root (getScene state_scene)) nodeId = Some p ->
  exists patch scene' p',
    drag_to nodeId start moves pos = (drag_idle, Some (nodeId, patch)) /\
    scene_update state_scene nodeId patch timestamp = inr scene' /\
    findNode (root scene') nodeId = Some p' /\
    (transform (fields_of p') ≫= x) = Some (vx pos - vx start) /\
    (transform (fields_of p') ≫= y) = Some (vy pos - vy start) /\
    (forall t, transform (fields_of p) = Some t ->
       transform (fields_of p')
       = Some (mkTransform (Some (vx pos - vx start)) (Some (vy pos - vy start))
                 (rotation t) (scaleX t) (scaleY t) (originX t) (originY t))) /\
    children p' = children p /\
    style (fields_of p') = style (fields_of p) /\
    data (fields_of p') = data (fields_of p) /\
    props (fields_of p') = props (fields_of p).
Proof.
  intros F.
  set (patch := transform_patch (vx pos - vx start) (vy pos - vy start)).
  destruct (modifyNode_found (apply_patch patch timestamp) _ _ _ F) as [r R].
  exists patch, (with_root (cloneScene (getScene state_scene)) r), (apply_patch patch timestamp p).
  split; [| split; [| split]].
  - unfold drag_to, onNodeDragEnd. rewrite drag_keeps_start. reflexivity.
  - unfold scene_update. cbv zeta. unfold cloneScene at 1. now rewrite R.
  - apply (findNode_modified _ _ _ _ _ F R).
    apply findNode_inside in F as [E _]. exact E.
  - repeat split; try reflexivity.
    intros t T. simpl. now rewrite T.
Qed.

Lemma clamp_zoom z :
  (1 # 10) <= Math_max (1 # 10) (Math_min 10 z) <= 10 /\
  ((1 # 10) <= z <= 10 -> Math_max (1 # 10) (Math_min 10 z) == z).
Proof.
  unfold Math_max, Math_min.
  destruct (Qle_bool 10 z) eqn:A.
  - apply Qle_bool_iff in A. simpl. split; [lra | intros H; lra].
  - assert (z < 10) as A'.
    { apply Qnot_le_lt. intros H. apply Qle_bool_iff in H. congruence. }
    destruct (Qle_bool (1 # 10) z) eqn:B.
    + apply Qle_bool_iff in B. split; [lra | intros _; reflexivity].
    + assert (z < 1 # 10) as B'.
      { apply Qnot_le_lt. intros H. apply Qle_bool_iff in H. congruence. }
      split; [lra | intros H; lra].
Qed.

(** X13: what the viewport commits.  After the set tool stored the camera
    of [onViewportZoom], the zoom lies between 0.1 and 10, it is [newZoom]
    when that lies in this range, and position, rotation and bounds of the
    camera are those of the camera before (the default camera when the
    scene had none); after it stored the camera of [onViewportPan], the
    position has moved by [delta] and the zoom is as before.  Neither
    changes the tree, the gradients or the background. *)
Theorem viewport_commits (state_scene : option SceneGraph) (newZoom : Q) (delta : Vec2) :
  let scene := getScene state_scene in
  let zoomed := scene_set state_scene (camera_settings (onViewportZoom newZoom)) in
  let panned := scene_set state_scene (camera_settings (onViewportPan scene delta)) in
  (exists cam,
     camera zoomed = Some cam /\
     (1 # 10) <= zoom cam <= 10 /\
     ((1 # 10) <= newZoom <= 10 -> zoom cam == newZoom) /\
     cam_x cam = cam_x (view_camera scene) /\
     cam_y cam = cam_y (view_camera scene) /\
     cam_rotation cam = cam_rotation (view_camera scene) /\
     bounds cam = bounds (view_camera scene)) /\
  camera panned
  = Some (mkCamera (cam_x (view_camera scene) + vx delta) (cam_y (view_camera scene) + vy delta)
            (zoom (view_camera scene)) (cam_rotation (view_camera scene))
            (bounds (view_camera scene))) /\
  root zoomed = root scene /\ root panned = root scene /\
  gradients zoomed = gradients scene /\ gradients panned = gradients scene /\
  background zoomed = background scene /\ background panned = background scene.
Proof.
  cbv zeta. split.
  - eexists. split; [reflexivity |].
    destruct (clamp_zoom newZoom) as [B I]. simpl.
    repeat split; try apply B; try exact I.
  - repeat split.
Qed.

Lemma drag_commits_offset_witness :
  exists patch scene' p',
    drag_to "b" (mkVec2 1 1) [mkVec2 2 2] (mkVec2 4 5) = (drag_idle, Some ("b", patch)) /\
    scene_update (Some scene_a_b) "b" patch 0 = inr scene' /\
    findNode (root scene') "b" = Some p' /\
    (transform (fields_of p') ≫= x) = Some (4 - 1).
Proof.
  destruct (drag_commits_offset (Some scene_a_b) "b" (mkVec2 1 1) (mkVec2 4 5) [mkVec2 2 2] 0 _
              eq_refl) as (patch & scene' & p' & A & B & C & D & _).
  exists patch, scene', p'. auto.
Defined.

Lemma setPath_then_getPath_witness :
  exists result,
    setPath
      (Some (JObj [("id", JStr "a");
                         ("transform", JObj [("x", JNum 10)])]))
      "transform.x" (JNum 20) = Some result /\
    getPath (Some (JObj result)) "transform.x" = Some (Some (JNum 20)) /\
    forall k, k <> hd EmptyString (split_dots "transform.x") ->
      get k result =
      get k [("id", JStr "a"); ("transform", JObj [("x", JNum 10)])].
Proof.
  apply (setPath_then_getPath
           (Some (JObj [("id", JStr "a");
                              ("transform", JObj [("x", JNum 10)])]))
           "transform.x" (JNum 20)).
  - repeat constructor; unfold own_name; simpl; intuition discriminate.
  - reflexivity.
Defined.


End Hooks.

(** ** Strings *)

Module Str.

(** The white space and line terminators of JavaScript among the code
    units U+0000 to U+00FF: TAB, LF, VT, FF, CR, SP and NBSP. *)
Definition is_whitespace (c : ascii) : bool :=
  existsb (N.eqb (N_of_ascii c)) [9; 10; 11; 12; 13; 32; 160]%N.

Fixpoint trimStart (s : string) : string :=
  match s with
  | EmptyString => EmptyString
  | String a rest => if is_whitespace a then trimStart rest else s
  end.

Fixpoint trimEnd (s : string) : string :=
  match s with
  | EmptyString => EmptyString
  | String a rest =>
      let rest' := trimEnd rest in
      if is_whitespace a && String.eqb rest' "" then EmptyString else String a rest'
  end.

(** [s.trim()] *)
Definition trim (s : string) : string := trimEnd (trimStart s).

(** [s.indexOf(c)], with [None] for -1. *)
Fixpoint indexOf (c : ascii) (s : string) : option nat :=
  match s with
  | EmptyString => None
  | String a rest => if Ascii.eqb a c then Some 0%nat else option_map S (indexOf c rest)
  end.

(** [s.slice(0, n)] *)
Fixpoint slice_to (n : nat) (s : string) {struct s} : string :=
  match s, n with
  | String a rest, S n' => String a (slice_to n' rest)
  | _, _ => EmptyString
  end.

(** [s.slice(n)] *)
Fixpoint slice_from (n : nat) (s : string) {struct s} : string :=
  match s, n with
  | String a rest, S n' => slice_from n' rest
  | _, _ => s
  end.

Lemma slice_from_0 s : slice_from 0 s = s.
Proof. destruct s; reflexivity. Qed.

Lemma indexOf_split c s n :
  indexOf c s = Some n ->
  s = (slice_to n s ++ String c (slice_from (S n) s))%string /\
  indexOf c (slice_to n s) = None /\
  String.length (slice_to n s) = n.
Proof.
  revert n. induction s as [| a rest IH]; simpl; intros n; [discriminate |].
  destruct (Ascii.eqb_spec a c) as [-> | Hne].
  - intros [= <-]. simpl. rewrite slice_from_0. auto.
  - destruct (indexOf c rest) as [i |]; simpl; [| discriminate].
    intros [= <-]. destruct (IH i eq_refl) as (E & N & L). simpl.
    destruct (Ascii.eqb_spec a c); [contradiction |].
    rewrite N, L. repeat split.
    change (String a rest = String a (slice_to i rest ++ String c (slice_from (S i) rest))%string).
    f_equal. exact E.
Qed.

Lemma indexOf_app c p v :
  indexOf c p = None ->
  indexOf c (p ++ String c v)%string = Some (String.length p) /\
  slice_to (String.length p) (p ++ String c v)%string = p /\
  slice_from (S (String.length p)) (p ++ String c v)%string = v.
Proof.
  induction p as [| a rest IH]; simpl.
  - intros _. rewrite Ascii.eqb_refl, slice_from_0. auto.
  - destruct (Ascii.eqb a c); [discriminate |].
    destruct (indexOf c rest); [discriminate |]. intros _.
    destruct (IH eq_refl) as (E1 & E2 & E3). rewrite E1, E2. simpl. repeat split.
    exact E3.
Qed.

End Str.

(** ** Stateful code that may fail *)

Module State.

(** A computation on a state [S]: it may change the state, and it may fail
    ([None]), which stands for a thrown exception or for a step that the
    embedding does not cover. *)
Definition Stateful (S A : Type) : Type := S -> option (A * S).

#[export] Instance stateful_ret {S} : MRet (Stateful S) := fun A a s => Some (a, s).
#[export] Instance stateful_bind {S} : MBind (Stateful S) :=
  fun A B f c s => match c s with Some (a, s') => f a s' | None => None end.

Definition fail {S A} : Stateful S A := fun _ => None.

(** [for (const x of xs) f(x)], collecting the results. *)
Fixpoint for_each {S A B} (f : A -> Stateful S B) (xs : list A) : Stateful S (list B) :=
  match xs with
  | [] => mret []
  | x :: rest => b ← f x; bs ← for_each f rest; mret (b :: bs)
  end.

End State.

(** ** Rule engine (src/scene/rules.ts) *)

Module Rules.
Import JS Scene Str State.
Local Open Scope Q_scope.

(** *** Types *)

Record Vec2 := mkVec2 { vx : Q; vy : Q }.

Inductive Trigger := Tick | Interaction | Proximity | Timer.

Record ProximityCond := mkProximity { target : string; distance : Q }.

Record Condition := mkCondition {
  selector : string;
  proximity : option ProximityCond;
  state : option object;
  cooldownMs : option Q;
  probability : option Q
}.

Inductive EffectType :=
| Etransform | Estyle | Edata | Ecounter | Espawn | Eremove | Etween.

Record Effect := mkEffect {
  etype : EffectType;
  dx : option Q;
  dy : option Q;
  dRotation : option Q;
  styleUpdates : option object;
  dataUpdates : option object;
  field : option string;
  delta : option Q;
  spawnNode : option object;
  spawnOffset : option Vec2;
  etween : option Tween.TweenDef;
  variance : option Q;
  eprobability : option Q
}.

Record Rule := mkRule {
  rule_id : string;
  rule_name : string;
  description : string;
  enabled : bool;
  trigger : Trigger;
  condition : Condition;
  effect : Effect
}.

Record RuleStats := mkStats {
  rulesEvaluated : nat;
  rulesFired : nat;
  nodesAffected : nat
}.

Inductive PendingOp :=
| PSpawn (node : object) (parentPos : Vec2)
| PRemove (nodeId : string).

Definition is_Some_b {A} (o : option A) : bool :=
  match o with Some _ => true | None => false end.

(** A field name that is truthy: present and not the empty string. *)
Definition nonempty_field (s : option string) : option string :=
  match s with
  | Some EmptyString | None => None
  | Some s => Some s
  end.

(** *** Selector matching *)

Definition entityType (node : NodeFields) : option json := data node ≫= get "entityType".

Definition nodeMatchesSelector (node : NodeFields) (selector : string) : bool :=
  let s := trim selector in
  if String.eqb s "*" then truthy (entityType node)
  else
    match indexOf ":" s with
    | None => false
    | Some colon =>
        let prefix := slice_to colon s in
        let value := slice_from (colon + 1) s in
        if String.eqb prefix "entityType" then strict_eq (entityType node) (JStr value)
        else if String.eqb prefix "tag" then
          match data node ≫= get "tags" with
          | Some (JArr tags) => existsb (fun t => strict_eq (Some t) (JStr value)) tags
          | _ => false
          end
        else if String.eqb prefix "name" then
          match name node with
          | Some n => String.eqb n value
          | None => false
          end
        else if String.eqb prefix "type" then String.eqb (type node) value
        else false
    end.

(** *** The objects of a tick

    During a tick the engine holds [allNodes], references to the node
    objects of the working copy, while it replaces nodes in the children
    arrays of that copy.  The objects therefore live in a store: a node
    object refers to its children array, and a children array holds
    references to node objects. *)

Definition ref := nat.

Record NodeObj := mkObj {
  fields : NodeFields;
  kids : option ref        (* the children array, when the node has one *)
}.

Record World := mkWorld {
  nodes : list NodeObj;                   (* node objects, by address *)
  arrays : list (list ref);               (* children arrays, by address *)
  pending : list PendingOp;               (* the tick's [pending] array *)
  cooldowns : gmap string (gmap string Q);  (* [cooldownsRef.current] *)
  draws : nat                             (* calls of [Math.random] so far *)
}.

(** A step of the engine: it may change the world, and it fails on a
    dangling reference, when the recursion budget runs out, or on a
    coercion that the embedding does not cover. *)
Abbreviation Step := (Stateful World).

Definition read_node (l : ref) : Step NodeObj :=
  fun w => match nodes w !! l with Some n => Some (n, w) | None => None end.

Definition read_array (a : ref) : Step (list ref) :=
  fun w => match arrays w !! a with Some cs => Some (cs, w) | None => None end.

(** A new node object. *)
Definition new_node (n : NodeObj) : Step ref :=
  fun w => Some (length (nodes w),
                 mkWorld (nodes w ++ [n]) (arrays w) (pending w) (cooldowns w) (draws w)).

(** A new array. *)
Definition new_array (cs : list ref) : Step ref :=
  fun w => Some (length (arrays w),
                 mkWorld (nodes w) (arrays w ++ [cs]) (pending w) (cooldowns w) (draws w)).

(** [array[i] = l] for an index inside the array. *)
Definition write_array (a : ref) (i : nat) (l : ref) : Step unit :=
  fun w => match arrays w !! a with
           | Some cs =>
               Some (tt, mkWorld (nodes w) (<[a := <[i := l]> cs]> (arrays w))
                                 (pending w) (cooldowns w) (draws w))
           | None => None
           end.

(** [pending.push(op)] *)
Definition push_pending (op : PendingOp) : Step unit :=
  fun w => Some (tt, mkWorld (nodes w) (arrays w) (pending w ++ [op]) (cooldowns w) (draws w)).

Definition get_cooldowns : Step (gmap string (gmap string Q)) :=
  fun w => Some (cooldowns w, w).

Definition set_cooldowns (c : gmap string (gmap string Q)) : Step unit :=
  fun w => Some (tt, mkWorld (nodes w) (arrays w) (pending w) c (draws w)).

Section Engine.
Variable random : nat -> Q.   (* the i-th value [Math.random()] returns *)
Variable dateNow : Q.         (* [Date.now()] during the tick *)

Definition Math_random : Step Q :=
  fun w => Some (random (draws w),
                 mkWorld (nodes w) (arrays w) (pending w) (cooldowns w) (S (draws w))).

(** [cloneScene]: the JSON round trip builds the tree out of new objects. *)
Fixpoint clone (node : SceneNode) : Step ref :=
  let '(Node f ch) := node in
  match ch with
  | None => new_node (mkObj f None)
  | Some cs =>
      refs ← for_each clone cs;
      a ← new_array refs;
      new_node (mkObj f (Some a))
  end.

(** What [JSON.stringify] sees from a node object: the tree below it. *)
Fixpoint snapshot (fuel : nat) (l : ref) : Step SceneNode :=
  match fuel with
  | O => fail
  | S fuel =>
      n ← read_node l;
      match kids n with
      | None => mret (Node (fields n) None)
      | Some a =>
          cs ← read_array a;
          children ← for_each (snapshot fuel) cs;
          mret (Node (fields n) (Some children))
      end
  end.

(** *** Internal utilities *)

(** [dist(a, b)], every operation rounded to a double. *)
Definition dist (a b : Vec2) : Q :=
  let dx := sub64 (vx a) (vx b) in
  let dy := sub64 (vy a) (vy b) in
  sqrt64 (add64 (mul64 dx dx) (mul64 dy dy)).

(** The rounding shows: the points (0, 0) and (4.5, 10.8) are 11.7 apart
    on paper and 11.700000000000001 apart in doubles. *)
Lemma dist_is_rounded :
  let a := {| vx := 0; vy := 0 |} in
  let b := {| vx := round64 4.5; vy := round64 10.8 |} in
  Number_toString (dist a b) = "11.700000000000001" /\
  Qle_bool (dist a b) (round64 11.7) = false.
Proof. split; vm_compute; reflexivity. Qed.

Definition nodePos (node : NodeFields) : Vec2 :=
  {| vx := default 0 (transform node ≫= x);
     vy := default 0 (transform node ≫= y) |}.

Definition applyVariance (v variance : Q) : Step Q :=
  if Qle_bool variance 0 then mret v
  else r ← Math_random; mret (v * (1 + (r * 2 - 1) * variance)).

(** [collectNodes(root)]: [walkNodes] with a visitor that pushes. *)
Fixpoint walkNodes (fuel : nat) (node : ref) : Step (list ref) :=
  match fuel with
  | O => fail
  | S fuel =>
      n ← read_node node;
      match String.eqb (type (fields n)) "group", kids n with
      | true, Some a =>
          cs ← read_array a;
          below ← for_each (walkNodes fuel) cs;
          mret (node :: concat below)
      | _, _ => mret [node]
      end
  end.

Definition collectNodes (fuel : nat) (root : ref) : Step (list ref) := walkNodes fuel root.

(** *** Condition check *)

(** [allNodes.some(n => n.id !== node.id && matches(n) && dist <= distance)] *)
Fixpoint some_in_range (node : NodeFields) (p : ProximityCond) (allNodes : list ref)
    : Step bool :=
  match allNodes with
  | [] => mret false
  | l :: rest =>
      n ← read_node l;
      if negb (String.eqb (id (fields n)) (id node))
         && nodeMatchesSelector (fields n) (target p)
         && Qle_bool (dist (nodePos node) (nodePos (fields n))) (distance p)
      then mret true
      else some_in_range node p rest
  end.

Definition checkCondition (rule : Rule) (node : ref) (allNodes : list ref) (now : Q)
    : Step bool :=
  let cond := condition rule in
  n ← read_node node;
  let node := fields n in
  if negb (nodeMatchesSelector node (selector cond)) then mret false
  else if negb (forallb (fun kv => strict_eq (data node ≫= get kv.1) kv.2)
                        (default [] (state cond))) then mret false
  else
    inRange ← match proximity cond with
              | Some p => some_in_range node p allNodes
              | None => mret true
              end;
    if negb inRange then mret false
    else
      cds ← get_cooldowns;
      let cooling :=
        match cooldownMs cond with
        | Some ms =>
            if Qeq_bool ms 0 then false
            else
              let last := default 0 (cds !! rule_id rule ≫= (fun perNode => perNode !! id node)) in
              Qltb (sub64 now last) ms
        | None => false
        end in
      if cooling then mret false
      else
        match probability cond with
        | Some p => r ← Math_random; mret (negb (Qltb p r))
        | None => mret true
        end.

(** *** Apply effect *)

Definition with_transform (f : NodeFields) (t : Transform) : NodeFields :=
  mkFields (id f) (type f) (name f) (Some t) (style f) (interactive f) (data f)
           (tween f) (props f).

Definition with_style (f : NodeFields) (s : object) : NodeFields :=
  mkFields (id f) (type f) (name f) (transform f) (Some s) (interactive f) (data f)
           (tween f) (props f).

Definition with_data (f : NodeFields) (d : object) : NodeFields :=
  mkFields (id f) (type f) (name f) (transform f) (style f) (interactive f) (Some d)
           (tween f) (props f).

Definition with_tween (f : NodeFields) (tw : Tween.TweenDef) : NodeFields :=
  mkFields (id f) (type f) (name f) (transform f) (style f) (interactive f) (data f)
           (Some tw) (props f).

(** The value of [modified] in [applyEffect(rule, node, pending)]: the
    content of the object literal [{ ...node, ... }] that the effect builds,
    if it builds one. *)
Definition replacement (rule : Rule) (node : ref) : Step (option NodeObj) :=
  let eff := effect rule in
  skip ← match eprobability eff with
         | Some p => r ← Math_random; mret (Qltb p r)
         | None => mret false
         end;
  if skip : bool then mret None
  else
    let variance := default 0 (variance eff) in
    n ← read_node node;
    let f := fields n in
    match etype eff with
    | Etransform =>
        let t := default no_transform (transform f) in
        tx ← match dx eff with
             | Some d => v ← applyVariance d variance; mret (Some (default 0 (x t) + v))
             | None => mret (x t)
             end;
        ty ← match dy eff with
             | Some d => v ← applyVariance d variance; mret (Some (default 0 (y t) + v))
             | None => mret (y t)
             end;
        tr ← match dRotation eff with
             | Some d => v ← applyVariance d variance; mret (Some (default 0 (rotation t) + v))
             | None => mret (rotation t)
             end;
        if is_Some_b (dx eff) || is_Some_b (dy eff) || is_Some_b (dRotation eff) then
          let t' := mkTransform tx ty tr (scaleX t) (scaleY t) (originX t) (originY t) in
          mret (Some (mkObj (with_transform f t') (kids n)))
        else mret None
    | Estyle =>
        match styleUpdates eff with
        | Some u =>
            mret (Some (mkObj (with_style f (spread (default [] (style f)) u)) (kids n)))
        | None => mret None
        end
    | Edata =>
        match dataUpdates eff with
        | Some u =>
            mret (Some (mkObj (with_data f (spread (default [] (data f)) u)) (kids n)))
        | None => mret None
        end
    | Ecounter =>
        match nonempty_field (field eff), delta eff with
        | Some fld, Some d =>
            let cur := data f ≫= get fld in
            delta ← applyVariance d variance;
            match plus cur delta with
            | Some sum =>
                mret (Some (mkObj (with_data f (set fld sum (default [] (data f))))
                                  (kids n)))
            | None => fail   (* TypeError: cannot convert object to primitive value *)
            end
        | _, _ => mret None
        end
    | Etween =>
        match etween eff with
        | Some tw =>
            mret (Some (mkObj (with_tween f (Tools.start_tween tw dateNow)) (kids n)))
        | None => mret None
        end
    | Espawn =>
        match spawnNode eff with
        | Some template => _ ← push_pending (PSpawn template (nodePos f)); mret None
        | None => mret None
        end
    | Eremove =>
        _ ← push_pending (PRemove (id f)); mret None
    end.

(** [applyEffect(rule, node, pending)]: a reference to the new node object
    [modified], or null. *)
Definition applyEffect (rule : Rule) (node : ref) : Step (option ref) :=
  modified ← replacement rule node;
  match modified with
  | Some obj => l ← new_node obj; mret (Some l)
  | None => mret None
  end.

(** *** Scene mutation helpers *)

(** The loop of [replaceNode] over the children array [a] from index [i]
    on, with [descend] for the recursive call. *)
Definition replace_loop (descend : ref -> Step bool) (a : ref) (target : string)
    (replacement : ref) : nat -> list ref -> Step bool :=
  fix loop (i : nat) (cs : list ref) : Step bool :=
    match cs with
    | [] => mret false
    | child :: rest =>
        c ← read_node child;
        if String.eqb (id (fields c)) target then
          _ ← write_array a i replacement; mret true
        else if String.eqb (type (fields c)) "group" then
          found ← descend child;
          if found : bool then mret true else loop (S i) rest
        else loop (S i) rest
    end.

Fixpoint replaceNode (fuel : nat) (group : ref) (target : string) (replacement : ref)
    : Step bool :=
  match fuel with
  | O => fail
  | S fuel =>
      g ← read_node group;
      match kids g with
      | None => mret false
      | Some a =>
          cs ← read_array a;
          replace_loop (fun child => replaceNode fuel child target replacement)
            a target replacement 0%nat cs
      end
  end.

(** *** The tick of [useRuleTick] *)

(** [cd[node.id] = now] for [cd = cooldowns.get(rule.id)]. *)
Definition stamp_cooldown (ruleId nodeId : string) (now : Q) : Step unit :=
  cds ← get_cooldowns;
  set_cooldowns (<[ruleId := <[nodeId := now]> (default ∅ (cds !! ruleId))]> cds).

(** The body of the loop over [allNodes] for one node: whether the rule
    fired on it, and whether it was counted as affected. *)
Definition visit (fuel : nat) (rule : Rule) (root : ref) (allNodes : list ref) (now : Q)
    (node : ref) : Step (bool * bool) :=
  ok ← checkCondition rule node allNodes now;
  if ok : bool then
    modified ← applyEffect rule node;
    match modified with
    | Some m =>
        n ← read_node node;
        _ ← replaceNode fuel root (id (fields n)) m;
        _ ← stamp_cooldown (rule_id rule) (id (fields n)) now;
        mret (true, true)
    | None =>
        match etype (effect rule) with
        | Espawn | Eremove => mret (true, false)
        | _ => mret (false, false)
        end
    end
  else mret (false, false).

(** The body of the loop over the tick rules for one rule. *)
Definition evaluate (fuel : nat) (root : ref) (allNodes : list ref) (now : Q)
    (stats : RuleStats) (rule : Rule) : Step RuleStats :=
  cds ← get_cooldowns;
  _ ← match cds !! rule_id rule with
      | Some _ => mret tt
      | None => set_cooldowns (<[rule_id rule := ∅]> cds)
      end;
  outcomes ← for_each (visit fuel rule root allNodes now) allNodes;
  let fired := existsb fst outcomes in
  let affected := length (List.filter snd outcomes) in
  mret (mkStats (S (rulesEvaluated stats))
                (if fired then S (rulesFired stats) else rulesFired stats)
                (nodesAffected stats + affected)).

Fixpoint evaluate_all (fuel : nat) (root : ref) (allNodes : list ref) (now : Q)
    (stats : RuleStats) (rules : list Rule) : Step RuleStats :=
  match rules with
  | [] => mret stats
  | rule :: rest =>
      stats' ← evaluate fuel root allNodes now stats rule;
      evaluate_all fuel root allNodes now stats' rest
  end.

Definition is_tick (r : Rule) : bool :=
  enabled r && match trigger r with Tick => true | _ => false end.

(** The state update of one tick that is due: the root of the working copy
    and the statistics. *)
Definition tick (fuel : nat) (rules : list Rule) (now : Q) (prevScene : SceneGraph)
    : Step (ref * RuleStats) :=
  let tickRules := List.filter is_tick rules in
  working ← clone (root prevScene);
  allNodes ← collectNodes fuel working;
  stats ← evaluate_all fuel working allNodes now (mkStats 0 0 0) tickRules;
  mret (working, stats).

(** What one tick leaves behind. *)
Record TickResult := mkTickResult {
  simulatedScene : SceneGraph;
  stats : RuleStats;
  queued : list PendingOp;                      (* appended to [pendingOpsRef] *)
  cooldowns_after : gmap string (gmap string Q)
}.

(** One tick from the previous scene and the cooldown map; the recursion
    budget is the size of the scene, which bounds its depth. *)
Definition run_tick (rules : list Rule) (now : Q) (cds : gmap string (gmap string Q))
    (prevScene : SceneGraph) : option TickResult :=
  let fuel := S (size (root prevScene)) in
  match (r ← tick fuel rules now prevScene;
         tree ← snapshot fuel r.1;
         mret (tree, r.2)) (mkWorld [] [] [] cds 0) with
  | Some ((tree, stats), w) =>
      Some (mkTickResult (Tools.with_root prevScene tree) stats (pending w) (cooldowns w))
  | None => None
  end.

End Engine.

(** *** Properties of selector matching *)

Lemma strict_eq_string (a : option json) (v : string) :
  strict_eq a (JStr v) = true <-> a = Some (JStr v).
Proof.
  destruct a as [[| b | q | s | l | o] |]; simpl; try (split; discriminate).
  rewrite String.eqb_eq. split; [ intros ->; reflexivity | intros [= ->]; reflexivity ].
Qed.

Lemma includes_string (tags : list json) (v : string) :
  existsb (fun t => strict_eq (Some t) (JStr v)) tags = true <-> In (JStr v) tags.
Proof.
  rewrite existsb_exists. split.
  - intros (t & Hin & E). apply strict_eq_string in E. now injection E as ->.
  - intros Hin. exists (JStr v). split; [exact Hin | now apply strict_eq_string].
Qed.

Lemma prefixed_is_not_star p v : (p ++ String ":" v)%string <> "*".
Proof. destruct p as [| a [| b p]]; simpl; discriminate. Qed.

(** How a trimmed selector of the form [prefix:value] is taken apart. *)
Lemma selector_parts node selector p v :
  trim selector = (p ++ String ":" v)%string ->
  indexOf ":" p = None ->
  nodeMatchesSelector node selector =
    if String.eqb p "entityType" then strict_eq (entityType node) (JStr v)
    else if String.eqb p "tag" then
      match data node ≫= get "tags" with
      | Some (JArr tags) => existsb (fun t => strict_eq (Some t) (JStr v)) tags
      | _ => false
      end
    else if String.eqb p "name" then
      match name node with Some n => String.eqb n v | None => false end
    else if String.eqb p "type" then String.eqb (type node) v
    else false.
Proof.
  intros E N. unfold nodeMatchesSelector. rewrite E.
  destruct (String.eqb_spec (p ++ String ":" v) "*") as [F | _];
    [ now apply prefixed_is_not_star in F |].
  destruct (indexOf_app ":" p v N) as (-> & E2 & E3).
  rewrite Nat.add_1_r, E2, E3. reflexivity.
Qed.

(** C5, amended: the selector is first trimmed of surrounding white space;
    then ["*"] matches iff [data.entityType] is truthy (neither absent nor
    null, false, 0 or the empty string), ["entityType:v"] iff
    [data.entityType] is the string [v], ["tag:v"] iff [data.tags] is an
    array that contains [v], ["name:v"] iff the name is [v], ["type:v"] iff
    the variant tag is [v]; any other prefix, and a string with no colon
    that is not ["*"], match nothing.  The function is total. *)
Theorem selector_grammar (node : NodeFields) (selector : string) :
  let s := trim selector in
  let matches := nodeMatchesSelector node selector = true in
  (s = "*" -> (matches <-> truthy (entityType node) = true)) /\
  (forall v, s = ("entityType:" ++ v)%string ->
     (matches <-> entityType node = Some (JStr v))) /\
  (forall v, s = ("tag:" ++ v)%string ->
     (matches <-> exists tags, data node ≫= get "tags" = Some (JArr tags) /\
                               In (JStr v) tags)) /\
  (forall v, s = ("name:" ++ v)%string -> (matches <-> name node = Some v)) /\
  (forall v, s = ("type:" ++ v)%string -> (matches <-> type node = v)) /\
  (forall p v, s = (p ++ ":" ++ v)%string -> indexOf ":" p = None ->
     ~ In p ["entityType"; "tag"; "name"; "type"] -> ~ matches) /\
  (s <> "*" -> indexOf ":" s = None -> ~ matches).
Proof.
  intros s matches. unfold matches. clear matches.
  refine (conj _ (conj _ (conj _ (conj _ (conj _ (conj _ _)))))).
  - intros E. unfold nodeMatchesSelector. fold s. rewrite E. reflexivity.
  - intros v E. rewrite (selector_parts node selector "entityType" v E eq_refl).
    apply strict_eq_string.
  - intros v E. rewrite (selector_parts node selector "tag" v E eq_refl).
    cbn [String.eqb Ascii.eqb Bool.eqb].
    destruct (data node ≫= get "tags") as [[| b | q | t | tags | o] |];
      try (split; [discriminate | intros (tags' & [=] & _)]).
    rewrite includes_string. split.
    + intros Hin. exists tags. auto.
    + intros (tags' & [= ->] & Hin). exact Hin.
  - intros v E. rewrite (selector_parts node selector "name" v E eq_refl).
    cbn [String.eqb Ascii.eqb Bool.eqb].
    destruct (name node) as [n |]; [| split; discriminate].
    rewrite String.eqb_eq. split; [ intros ->; reflexivity | intros [= ->]; reflexivity ].
  - intros v E. rewrite (selector_parts node selector "type" v E eq_refl).
    apply String.eqb_eq.
  - intros p v E N Hp. rewrite (selector_parts node selector p v E N).
    simpl in Hp.
    destruct (String.eqb_spec p "entityType"); [exfalso; apply Hp; subst; auto 10 |].
    destruct (String.eqb_spec p "tag"); [exfalso; apply Hp; subst; auto 10 |].
    destruct (String.eqb_spec p "name"); [exfalso; apply Hp; subst; auto 10 |].
    destruct (String.eqb_spec p "type"); [exfalso; apply Hp; subst; auto 10 |]. discriminate.
  - intros Hs N. unfold nodeMatchesSelector. fold s.
    destruct (String.eqb_spec s "*"); [contradiction |]. rewrite N. discriminate.
Qed.

(** A node with [data.entityType = "fish"], and one whose [entityType] is
    the empty string. *)
Definition fish_fields (i : string) : NodeFields :=
  mkFields i "circle" None (Some (mkTransform (Some 0) None None None None None None))
           None None (Some [("entityType", JStr "fish")]) None [].

Definition blank_fields : NodeFields :=
  mkFields "n" "circle" None None None None (Some [("entityType", JStr "")]) None [].

(** C5 as stated fails twice: [" *"] has no colon and is not ["*"], yet it
    matches; and ["*"] does not match a node whose [data.entityType] is the
    empty string, which is not null. *)
Lemma selector_is_trimmed_and_truthy :
  (" *" <> "*" /\ indexOf ":" " *" = None /\
   nodeMatchesSelector (fish_fields "f1") " *" = true) /\
  (entityType blank_fields = Some (JStr "") /\
   nodeMatchesSelector blank_fields "*" = false) /\
  (entityType (fish_fields "f1") <> Some (JStr "fish ") /\
   nodeMatchesSelector (fish_fields "f1") "entityType:fish " = true).
Proof. repeat split; discriminate. Qed.

(** *** What the steps of a tick leave untouched

    [c] relates every world it starts from to the world it ends in by [R]. *)

Definition leaves {A} (R : World -> World -> Prop) (c : Step A) : Prop :=
  forall w a w', c w = Some (a, w') -> R w w'.

Section Leaves.
Variable R : World -> World -> Prop.
Hypothesis R_refl : forall w, R w w.
Hypothesis R_trans : forall w1 w2 w3, R w1 w2 -> R w2 w3 -> R w1 w3.

Lemma leaves_ret {A} (a : A) : leaves R (mret a).
Proof. intros w a' w' [= _ <-]. apply R_refl. Qed.

Lemma leaves_fail {A} : leaves R (@fail World A).
Proof. intros w a w' [=]. Qed.

Lemma leaves_bind {A B} (c : Step A) (f : A -> Step B) :
  leaves R c -> (forall a, leaves R (f a)) -> leaves R (c ≫= f).
Proof.
  intros Hc Hf w b w'. unfold mbind, stateful_bind.
  destruct (c w) as [[a w1] |] eqn:E; [| discriminate].
  intros H. eapply R_trans; [ eapply Hc, E | eapply Hf, H ].
Qed.

Lemma leaves_read_node l : leaves R (read_node l).
Proof. intros w a w'. unfold read_node. destruct (_ !! _); intros [= _ <-]. apply R_refl. Qed.

Lemma leaves_read_array a : leaves R (read_array a).
Proof. intros w x w'. unfold read_array. destruct (_ !! _); intros [= _ <-]. apply R_refl. Qed.

Lemma leaves_get_cooldowns : leaves R get_cooldowns.
Proof. intros w x w' [= _ <-]. apply R_refl. Qed.

Lemma leaves_for_each {A B} (f : A -> Step B) xs :
  (forall x, leaves R (f x)) -> leaves R (for_each f xs).
Proof.
  intros Hf. induction xs as [| x rest IH]; simpl.
  - apply leaves_ret.
  - apply leaves_bind; [apply Hf |]. intros b.
    apply leaves_bind; [apply IH |]. intros bs. apply leaves_ret.
Qed.

End Leaves.

Create HintDb leaves.

#[local] Hint Resolve leaves_ret leaves_fail leaves_read_node leaves_read_array
  leaves_get_cooldowns : leaves.

(** Takes a goal [leaves R c] apart along the binds and the case
    distinctions of [c]. *)
Ltac leaves_side := first [assumption | solve [eauto with leaves]].

Ltac leaves_step :=
  match goal with
  | |- leaves _ (mret _) => apply leaves_ret; leaves_side
  | |- leaves _ fail => apply leaves_fail
  | |- leaves _ (read_node _) => apply leaves_read_node; leaves_side
  | |- leaves _ (read_array _) => apply leaves_read_array; leaves_side
  | |- leaves _ get_cooldowns => apply leaves_get_cooldowns; leaves_side
  | |- leaves _ (_ ≫= _) => apply leaves_bind; [leaves_side | | intros ?]
  | |- leaves _ (for_each _ _) =>
      apply leaves_for_each; [leaves_side | leaves_side | intros ?]
  | |- leaves _ (match ?x with _ => _ end) => destruct x
  | |- leaves _ (let _ := _ in _) => cbv zeta
  | |- leaves _ _ => leaves_side
  end.

Ltac leaves_auto := repeat leaves_step.

(** No step changes a node object that exists: the node store only grows. *)
Definition nodes_grow (w w' : World) : Prop := nodes w `prefix_of` nodes w'.

(** No step but the stamping of a cooldown changes the cooldown map. *)
Definition same_cooldowns (w w' : World) : Prop := cooldowns w' = cooldowns w.

(** The node store is the same. *)
Definition same_nodes (w w' : World) : Prop := nodes w' = nodes w.

Lemma nodes_grow_refl w : nodes_grow w w.
Proof. unfold nodes_grow. reflexivity. Qed.

Lemma nodes_grow_trans w1 w2 w3 : nodes_grow w1 w2 -> nodes_grow w2 w3 -> nodes_grow w1 w3.
Proof. unfold nodes_grow. intros. etransitivity; eauto. Qed.

Lemma same_cooldowns_refl w : same_cooldowns w w.
Proof. reflexivity. Qed.

Lemma same_cooldowns_trans w1 w2 w3 :
  same_cooldowns w1 w2 -> same_cooldowns w2 w3 -> same_cooldowns w1 w3.
Proof. unfold same_cooldowns. congruence. Qed.

#[local] Hint Resolve nodes_grow_refl nodes_grow_trans same_cooldowns_refl
  same_cooldowns_trans : core.

Section Frames.
Variable random : nat -> Q.
Variable dateNow : Q.

(** Goals about one primitive step. *)
Ltac primitive :=
  intros ? ? ?; unfold write_array;
  repeat match goal with |- context [match ?o with _ => _ end] => destruct o end;
  intros [= _ <-]; unfold nodes_grow, same_cooldowns, same_nodes; simpl; auto.

Lemma new_node_grows n : leaves nodes_grow (new_node n).
Proof. intros w a w' [= _ <-]. unfold nodes_grow. simpl. now apply prefix_app_r. Qed.

Lemma new_array_grows cs : leaves nodes_grow (new_array cs).
Proof. primitive. Qed.

Lemma write_array_grows a i l : leaves nodes_grow (write_array a i l).
Proof. primitive. Qed.

Lemma push_pending_grows op : leaves nodes_grow (push_pending op).
Proof. primitive. Qed.

Lemma set_cooldowns_grows c : leaves nodes_grow (set_cooldowns c).
Proof. primitive. Qed.

Lemma Math_random_grows : leaves nodes_grow (Math_random random).
Proof. primitive. Qed.

Lemma new_node_cooldowns n : leaves same_cooldowns (new_node n).
Proof. primitive. Qed.

Lemma new_array_cooldowns cs : leaves same_cooldowns (new_array cs).
Proof. primitive. Qed.

Lemma write_array_cooldowns a i l : leaves same_cooldowns (write_array a i l).
Proof. primitive. Qed.

Lemma push_pending_cooldowns op : leaves same_cooldowns (push_pending op).
Proof. primitive. Qed.

Lemma Math_random_cooldowns : leaves same_cooldowns (Math_random random).
Proof. primitive. Qed.

Hint Resolve new_node_grows new_array_grows write_array_grows push_pending_grows
  set_cooldowns_grows Math_random_grows new_node_cooldowns new_array_cooldowns
  write_array_cooldowns push_pending_cooldowns Math_random_cooldowns : leaves.

(** A relation that holds across the steps which neither allocate a node
    nor write an array nor stamp a cooldown. *)
Definition quiet (R : World -> World -> Prop) : Prop :=
  (forall w, R w w) /\
  (forall w1 w2 w3, R w1 w2 -> R w2 w3 -> R w1 w3) /\
  leaves R (Math_random random) /\
  (forall op, leaves R (push_pending op)).

Lemma quiet_nodes_grow : quiet nodes_grow.
Proof. repeat split; eauto with leaves. Qed.

Lemma quiet_same_cooldowns : quiet same_cooldowns.
Proof. repeat split; eauto with leaves. Qed.

Lemma quiet_same_nodes : quiet same_nodes.
Proof.
  unfold same_nodes. repeat split; try congruence; intros; primitive.
Qed.

Lemma applyVariance_leaves R v variance :
  quiet R -> leaves R (applyVariance random v variance).
Proof. intros (? & ? & ? & ?). unfold applyVariance. leaves_auto. Qed.

Lemma some_in_range_leaves R node p allNodes :
  quiet R -> leaves R (some_in_range node p allNodes).
Proof.
  intros (? & ? & ? & ?). induction allNodes as [| l rest IH]; simpl; leaves_auto.
Qed.

Lemma checkCondition_leaves R rule node allNodes now :
  quiet R -> leaves R (checkCondition random rule node allNodes now).
Proof.
  intros Q. pose proof (some_in_range_leaves R) as S.
  destruct Q as (? & ? & ? & ?) eqn:E. unfold checkCondition.
  leaves_auto.
Qed.

(** Building the replacement allocates nothing. *)
Lemma replacement_leaves R rule node :
  quiet R -> leaves R (replacement random dateNow rule node).
Proof.
  intros Q. pose proof (applyVariance_leaves R) as V.
  destruct Q as (? & ? & ? & ?) eqn:E. unfold replacement.
  leaves_auto.
Qed.

Lemma applyEffect_leaves R rule node :
  quiet R -> (forall n, leaves R (new_node n)) ->
  leaves R (applyEffect random dateNow rule node).
Proof.
  intros Q N. pose proof (replacement_leaves R rule node Q).
  destruct Q as (? & ? & ? & ?). unfold applyEffect. leaves_auto.
Qed.

Lemma replaceNode_leaves R fuel group target replacement :
  quiet R -> (forall a i l, leaves R (write_array a i l)) ->
  leaves R (replaceNode fuel group target replacement).
Proof.
  intros (? & ? & ? & ?) Hw. revert group.
  induction fuel as [| fuel IH]; intros group; simpl; [apply leaves_fail |].
  leaves_auto.
  generalize 0%nat.
  match goal with |- forall i, leaves _ (replace_loop _ _ _ _ i ?cs) =>
    induction cs as [| child rest IHl]
  end; intros i; simpl; leaves_auto; first [apply IH | apply IHl].
Qed.

(** The immutable replacement, in general: when [applyEffect] returns a
    node it is a new object, and every node object that existed, the
    matched node among them, is as it was. *)
Lemma applyEffect_allocates rule node w m w' :
  applyEffect random dateNow rule node w = Some (Some m, w') ->
  nodes w !! m = None /\
  exists obj, nodes w' = nodes w ++ [obj] /\ nodes w' !! m = Some obj.
Proof.
  unfold applyEffect, mbind, stateful_bind.
  destruct (replacement random dateNow rule node w) as [[[obj |] w1] |] eqn:E;
    [| discriminate | discriminate].
  apply (replacement_leaves same_nodes _ _ quiet_same_nodes) in E.
  unfold same_nodes in E. unfold new_node, mret, stateful_ret. simpl.
  intros [= <- <-]. simpl. rewrite E. split.
  - apply lookup_ge_None. lia.
  - exists obj. split; [reflexivity |]. apply list_lookup_middle. reflexivity.
Qed.

Lemma stamp_cooldown_spec ruleId nodeId now w :
  stamp_cooldown ruleId nodeId now w =
  Some (tt, mkWorld (nodes w) (arrays w) (pending w)
              (<[ruleId := <[nodeId := now]> (default ∅ (cooldowns w !! ruleId))]> (cooldowns w))
              (draws w)).
Proof. reflexivity. Qed.

(** The cooldown of (rule, node) in general: visiting a node stamps it
    exactly when the effect produced a replacement, the case counted as
    affected; a visit that only queued a spawn or a removal reports the
    rule as fired and leaves the cooldown map as it was. *)
Lemma visit_cooldowns fuel rule root allNodes now node w fired affected w' :
  visit random dateNow fuel rule root allNodes now node w = Some ((fired, affected), w') ->
  (affected = true ->
     fired = true /\
     exists n, nodes w' !! node = Some n /\
       cooldowns w' =
       <[rule_id rule := <[id (fields n) := now]> (default ∅ (cooldowns w !! rule_id rule))]>
         (cooldowns w)) /\
  (affected = false -> cooldowns w' = cooldowns w) /\
  (affected = false -> fired = true ->
     etype (effect rule) = Espawn \/ etype (effect rule) = Eremove).
Proof.
  unfold visit, mbind, stateful_bind.
  destruct (checkCondition random rule node allNodes now w) as [[ok w1] |] eqn:E1;
    [| discriminate].
  apply (checkCondition_leaves same_cooldowns _ _ _ _ quiet_same_cooldowns) in E1.
  destruct ok.
  2:{ intros [= <- <- <-]. repeat split; try discriminate. intros _. exact E1. }
  destruct (applyEffect random dateNow rule node w1) as [[[m |] w2] |] eqn:E2;
    [| | discriminate].
  - apply (applyEffect_leaves same_cooldowns _ _ quiet_same_cooldowns) in E2;
      [| intros; apply new_node_cooldowns].
    destruct (read_node node w2) as [[n w3] |] eqn:E3; [| discriminate].
    assert (w3 = w2 /\ nodes w2 !! node = Some n) as [-> Hn].
    { unfold read_node in E3. destruct (nodes w2 !! node); [| discriminate].
      now injection E3 as -> ->. }
    destruct (replaceNode fuel root (id (fields n)) m w2) as [[b w4] |] eqn:E4;
      [| discriminate].
    pose proof E4 as E5.
    apply (replaceNode_leaves same_cooldowns _ _ _ _ quiet_same_cooldowns) in E4;
      [| intros; apply write_array_cooldowns].
    apply (replaceNode_leaves same_nodes _ _ _ _ quiet_same_nodes) in E5;
      [| intros; primitive].
    rewrite stamp_cooldown_spec. unfold mret, stateful_ret.
    intros [= <- <- <-]. simpl. split; [| split; discriminate].
    intros _. split; [reflexivity |]. exists n. split.
    + unfold same_nodes in E5. now rewrite E5.
    + unfold same_cooldowns in *. now rewrite E4, E2, E1.
  - apply (applyEffect_leaves same_cooldowns _ _ quiet_same_cooldowns) in E2;
      [| intros; apply new_node_cooldowns].
    unfold same_cooldowns in *.
    destruct (etype (effect rule)); intros [= <- <- <-];
      (split; [discriminate | split; [ intros _; congruence | auto ] ]);
      intros _; discriminate.
Qed.

End Frames.

(** *** The working copy as a tree of addresses

    The tree of node objects that a reference leads to, with the address
    of every node object and of every children array.  It describes the
    working copy while [replaceNode] rewires it: which arrays a step may
    write, and what [JSON.stringify] sees afterwards. *)

Inductive Shape :=
| At (l : ref) (f : NodeFields) (below : option (ref * list Shape)).

Definition at_ref (s : Shape) : ref := let '(At l _ _) := s in l.
Definition at_fields (s : Shape) : NodeFields := let '(At _ f _) := s in f.
Definition at_below (s : Shape) : option (ref * list Shape) := let '(At _ _ b) := s in b.
Definition at_kids (s : Shape) : option ref := option_map fst (at_below s).
Definition at_object (s : Shape) : NodeObj := mkObj (at_fields s) (at_kids s).

(** Induction on a shape with the hypothesis for every child. *)
Section ShapeInduction.
Variable P : Shape -> Prop.
Hypothesis leaf : forall l f, P (At l f None).
Hypothesis inner : forall l f a cs, Forall P cs -> P (At l f (Some (a, cs))).

Fixpoint Shape_rect_children (s : Shape) : P s :=
  match s with
  | At l f None => leaf l f
  | At l f (Some (a, cs)) =>
      inner l f a cs
        ((fix each (cs : list Shape) : Forall P cs :=
            match cs with
            | [] => @List.Forall_nil _ P
            | c :: rest => @List.Forall_cons _ P c rest (Shape_rect_children c) (each rest)
            end) cs)
  end.
End ShapeInduction.

(** The node value that the shape stands for. *)
Fixpoint erase (s : Shape) : SceneNode :=
  match s with
  | At _ f (Some (_, cs)) => Node f (Some (map erase cs))
  | At _ f None => Node f None
  end.

(** The addresses of the children arrays of the shape. *)
Fixpoint arrays_of (s : Shape) : list ref :=
  match s with
  | At _ _ (Some (a, cs)) => a :: flat_map arrays_of cs
  | At _ _ None => []
  end.

(** The recursion budget that a walk over the shape needs. *)
Fixpoint depth (s : Shape) : nat :=
  match s with
  | At _ _ (Some (_, cs)) => S (list_max (map depth cs))
  | At _ _ None => 1
  end.

(** The world holds the objects of the shape. *)
Fixpoint holds (w : World) (s : Shape) : Prop :=
  match s with
  | At l f (Some (a, cs)) =>
      nodes w !! l = Some (mkObj f (Some a)) /\
      arrays w !! a = Some (map at_ref cs) /\
      (fix all (cs : list Shape) : Prop :=
         match cs with
         | [] => True
         | c :: rest => holds w c /\ all rest
         end) cs
  | At l f None => nodes w !! l = Some (mkObj f None)
  end.

Lemma holds_inner w l f a cs :
  holds w (At l f (Some (a, cs))) <->
  nodes w !! l = Some (mkObj f (Some a)) /\
  arrays w !! a = Some (map at_ref cs) /\ Forall (holds w) cs.
Proof.
  simpl.
  assert ((fix all (cs : list Shape) : Prop :=
             match cs with [] => True | c :: rest => holds w c /\ all rest end) cs
          <-> Forall (holds w) cs) as E.
  { induction cs as [| c rest IH]; [ split; auto |].
    rewrite Forall_cons. tauto. }
  tauto.
Qed.

Lemma holds_object w s : holds w s -> nodes w !! at_ref s = Some (at_object s).
Proof.
  destruct s as [l f [[a cs] |]]; [ rewrite holds_inner; intros (H & _); exact H |].
  simpl. auto.
Qed.

(** A shape that the world holds stays held when only other arrays change. *)
Lemma holds_frame w w' s :
  holds w s ->
  nodes w `prefix_of` nodes w' ->
  (forall a, a ∈ arrays_of s -> arrays w' !! a = arrays w !! a) ->
  holds w' s.
Proof.
  intros H Hn. revert H.
  induction s as [l f | l f a cs IH] using Shape_rect_children; intros H Ha.
  - simpl in *. eapply prefix_lookup_Some; eauto.
  - apply holds_inner in H as (H1 & H2 & H3). apply holds_inner. split; [| split].
    + eapply prefix_lookup_Some; eauto.
    + rewrite Ha; [exact H2 |]. simpl. left.
    + rewrite Forall_forall in *. intros c Hc. apply IH; auto.
      intros a' Ha'. apply Ha. simpl. right.
      apply list_elem_of_In, in_flat_map. exists c. split; apply list_elem_of_In; auto.
Qed.

Lemma for_each_same {S A B C} (f : A -> Stateful S B) (h : C -> A) (g : C -> B)
    (xs : list C) (st : S) :
  Forall (fun x => f (h x) st = Some (g x, st)) xs ->
  for_each f (map h xs) st = Some (map g xs, st).
Proof.
  induction 1 as [| x rest Hx _ IH]; [reflexivity |].
  simpl. unfold mbind, stateful_bind. rewrite Hx, IH. reflexivity.
Qed.

Lemma for_each_app {S A B} (f : A -> Stateful S B) (xs ys : list A) (st : S) :
  for_each f (xs ++ ys) st =
  match for_each f xs st with
  | Some (bs, st') =>
      match for_each f ys st' with
      | Some (bs', st'') => Some (bs ++ bs', st'')
      | None => None
      end
  | None => None
  end.
Proof.
  revert st. induction xs as [| x rest IH]; intros st; simpl.
  - unfold mret, stateful_ret. destruct (for_each f ys st) as [[? ?] |]; reflexivity.
  - unfold mbind, stateful_bind. destruct (f x st) as [[b st1] |]; [| reflexivity].
    rewrite IH. destruct (for_each f rest st1) as [[bs st2] |]; [| reflexivity].
    unfold mret, stateful_ret.
    destruct (for_each f ys st2) as [[bs' st3] |]; reflexivity.
Qed.

Lemma depth_child c cs : c ∈ cs -> (depth c <= list_max (map depth cs))%nat.
Proof.
  intros H. apply list_elem_of_In in H.
  induction cs as [| c' rest IH]; [inversion H |]. simpl.
  destruct H as [-> | H]; [lia |]. specialize (IH H). lia.
Qed.

(** [JSON.stringify] of a working copy gives the tree it stands for. *)
Lemma snapshot_shape s : forall w fuel,
  holds w s -> (depth s <= fuel)%nat -> snapshot fuel (at_ref s) w = Some (erase s, w).
Proof.
  induction s as [l f | l f a cs IH] using Shape_rect_children;
    intros w fuel H D; (destruct fuel as [| fuel]; [ simpl in D; lia |]).
  - simpl in *. unfold mbind, stateful_bind, read_node. rewrite H. reflexivity.
  - apply holds_inner in H as (H1 & H2 & H3).
    simpl. unfold mbind, stateful_bind, read_node, read_array. rewrite H1. simpl. rewrite H2.
    rewrite (for_each_same _ at_ref erase); [reflexivity |].
    rewrite Forall_forall in *. intros c Hc. apply IH; auto.
    simpl in D. pose proof (depth_child c cs Hc). lia.
Qed.

(** The shapes that [walkNodes] visits. *)
Fixpoint visited (s : Shape) : list Shape :=
  s :: match s with
       | At _ f (Some (_, cs)) =>
           if String.eqb (type f) "group" then flat_map visited cs else []
       | At _ _ None => []
       end.

Lemma visited_erase s : map erase (visited s) = Scene.walkNodes (erase s).
Proof.
  induction s as [l f | l f a cs IH] using Shape_rect_children.
  - simpl. destruct (is_group _); reflexivity.
  - simpl. unfold is_group, node_type. simpl. f_equal.
    destruct (String.eqb (type f) "group"); [| reflexivity].
    induction IH as [| c rest Hc _ IHl]; [reflexivity |].
    simpl. rewrite map_app, Hc. f_equal. exact IHl.
Qed.

(** [collectNodes] returns the node objects of the copy in walk order. *)
Lemma walkNodes_shape s : forall w fuel,
  holds w s -> (depth s <= fuel)%nat ->
  walkNodes fuel (at_ref s) w = Some (map at_ref (visited s), w).
Proof.
  induction s as [l f | l f a cs IH] using Shape_rect_children;
    intros w fuel H D; (destruct fuel as [| fuel]; [ simpl in D; lia |]).
  - simpl in *. unfold mbind, stateful_bind, read_node. rewrite H. simpl.
    destruct (String.eqb (type f) "group"); reflexivity.
  - apply holds_inner in H as (H1 & H2 & H3).
    simpl. unfold mbind, stateful_bind, read_node, read_array. rewrite H1. simpl.
    destruct (String.eqb (type f) "group"); [| reflexivity].
    rewrite H2.
    rewrite (for_each_same _ at_ref (fun c => map at_ref (visited c))).
    + unfold mret, stateful_ret. do 3 f_equal.
      clear. induction cs as [| c rest IHl]; [reflexivity |].
      simpl. rewrite map_app, IHl. reflexivity.
    + rewrite Forall_forall in *. intros c Hc. apply IH; auto.
      simpl in D. pose proof (depth_child c cs Hc). lia.
Qed.

(** *** The working copy that [clone] builds *)

(** [w'] has the objects of [w], and new ones. *)
Definition extends (w w' : World) : Prop :=
  nodes w `prefix_of` nodes w' /\ arrays w `prefix_of` arrays w' /\
  pending w' = pending w /\ cooldowns w' = cooldowns w /\ draws w' = draws w.

(** The arrays of [s] were made between [w] and [w']. *)
Definition made_between (w w' : World) (s : Shape) : Prop :=
  Forall (fun a => (length (arrays w) <= a < length (arrays w'))%nat) (arrays_of s).

Lemma extends_refl w : extends w w.
Proof. repeat split; reflexivity. Qed.

Lemma extends_trans w1 w2 w3 : extends w1 w2 -> extends w2 w3 -> extends w1 w3.
Proof.
  intros (? & ? & ? & ? & ?) (? & ? & ? & ? & ?).
  repeat split; try congruence; etransitivity; eauto.
Qed.

Lemma extends_arrays w w' : extends w w' -> (length (arrays w) <= length (arrays w'))%nat.
Proof. intros (_ & H & _). now apply prefix_length. Qed.

Lemma prefix_lookup_inside {A} (l1 l2 : list A) (i : nat) :
  l1 `prefix_of` l2 -> (i < length l1)%nat -> l2 !! i = l1 !! i.
Proof. intros [k ->] H. now rewrite lookup_app_l. Qed.

Lemma holds_extends w w1 w2 s :
  holds w1 s -> made_between w w1 s -> extends w1 w2 -> holds w2 s.
Proof.
  intros H M (Hn & Ha & _). apply (holds_frame w1); auto.
  intros a Hin. apply prefix_lookup_inside; auto.
  unfold made_between in M. rewrite Forall_forall in M. apply M in Hin. lia.
Qed.

Lemma made_between_wider w0 w1 w2 w3 s :
  made_between w1 w2 s -> extends w0 w1 -> extends w2 w3 -> made_between w0 w3 s.
Proof.
  unfold made_between. intros M E1 E2.
  apply extends_arrays in E1, E2.
  eapply Forall_impl; [exact M |]. simpl. intros. lia.
Qed.

(** The worlds that [new_node] and [new_array] leave. *)
Definition add_node (n : NodeObj) (w : World) : World :=
  mkWorld (nodes w ++ [n]) (arrays w) (pending w) (cooldowns w) (draws w).

Definition add_array (cs : list ref) (w : World) : World :=
  mkWorld (nodes w) (arrays w ++ [cs]) (pending w) (cooldowns w) (draws w).

Lemma add_node_extends n w : extends w (add_node n w).
Proof. repeat split; try reflexivity. now apply prefix_app_r. Qed.

Lemma add_array_extends cs w : extends w (add_array cs w).
Proof. repeat split; try reflexivity. now apply prefix_app_r. Qed.

(** [s] is a copy of [t] made of objects that are new in [w']. *)
Definition cloned (w : World) (t : SceneNode) (s : Shape) (w' : World) : Prop :=
  erase s = t /\ holds w' s /\ extends w w' /\ made_between w w' s /\ NoDup (arrays_of s).

Lemma clone_children cs :
  Forall (fun t => forall w, exists s w', clone t w = Some (at_ref s, w') /\ cloned w t s w') cs ->
  forall w, exists ss w',
    for_each clone cs w = Some (map at_ref ss, w') /\
    map erase ss = cs /\ Forall (holds w') ss /\ extends w w' /\
    Forall (made_between w w') ss /\ NoDup (flat_map arrays_of ss).
Proof.
  induction 1 as [| t rest Ht _ IH]; intros w.
  - exists [], w. repeat split; auto using extends_refl; constructor.
  - destruct (Ht w) as (s & w1 & E1 & Hs & H1 & X1 & M1 & N1).
    destruct (IH w1) as (ss & w2 & E2 & Hss & H2 & X2 & M2 & N2).
    exists (s :: ss), w2. simpl. unfold mbind, stateful_bind. rewrite E1, E2.
    split; [reflexivity |]. split; [ now rewrite Hs, Hss |].
    split; [| split; [| split]].
    + constructor; [| exact H2]. eapply holds_extends; eauto.
    + eapply extends_trans; eauto.
    + constructor.
      * eapply made_between_wider; eauto using extends_refl.
      * eapply Forall_impl; [exact M2 |]. intros c Mc.
        eapply made_between_wider; eauto using extends_refl.
    + apply NoDup_app. split; [exact N1 |]. split; [| exact N2].
      intros a Ha Hb. unfold made_between in M1. rewrite Forall_forall in M1.
      apply M1 in Ha. apply list_elem_of_In, in_flat_map in Hb as (c & Hc & Hb).
      rewrite Forall_forall in M2. apply list_elem_of_In in Hc, Hb.
      specialize (M2 c Hc). unfold made_between in M2. rewrite Forall_forall in M2.
      apply M2 in Hb. lia.
Qed.

(** [clone] builds a tree of new objects, each array in one place. *)
Lemma clone_shape t : forall w, exists s w',
  clone t w = Some (at_ref s, w') /\ cloned w t s w'.
Proof.
  induction t as [f | f cs IH] using SceneNode_rect_children; intros w.
  - exists (At (length (nodes w)) f None), (add_node (mkObj f None) w).
    split; [reflexivity |]. split; [reflexivity |]. split; [| split; [| split]].
    + simpl. now apply list_lookup_middle.
    + apply add_node_extends.
    + constructor.
    + constructor.
  - destruct (clone_children cs IH w) as (ss & w1 & E & Hss & H1 & X1 & M1 & N1).
    set (a := length (arrays w1)).
    set (w2 := add_array (map at_ref ss) w1).
    set (l := length (nodes w2)).
    exists (At l f (Some (a, ss))), (add_node (mkObj f (Some a)) w2).
    assert (extends w1 w2) as X2 by apply add_array_extends.
    assert (extends w2 (add_node (mkObj f (Some a)) w2)) as X3 by apply add_node_extends.
    split; [| split; [| split; [| split; [| split]]]].
    + simpl. unfold mbind, stateful_bind. rewrite E. reflexivity.
    + simpl. now rewrite Hss.
    + apply holds_inner. split; [| split].
      * simpl. now apply list_lookup_middle.
      * simpl. now apply list_lookup_middle.
      * rewrite Forall_forall in *. intros c Hc.
        eapply holds_extends; [ apply H1, Hc | apply M1, Hc |].
        eapply extends_trans; eauto.
    + eapply extends_trans; [exact X1 |]. eapply extends_trans; eauto.
    + unfold made_between. simpl. constructor.
      * apply extends_arrays in X1. simpl. rewrite length_app. simpl. fold a. lia.
      * apply Forall_forall. intros b Hb.
        apply list_elem_of_In, in_flat_map in Hb as (c & Hc & Hb).
        apply list_elem_of_In in Hc, Hb.
        rewrite Forall_forall in M1. specialize (M1 c Hc).
        unfold made_between in M1. rewrite Forall_forall in M1. apply M1 in Hb.
        rewrite length_app. simpl. lia.
    + simpl. constructor; [| exact N1].
      intros Hb. apply list_elem_of_In, in_flat_map in Hb as (c & Hc & Hb).
      apply list_elem_of_In in Hc, Hb.
      rewrite Forall_forall in M1. specialize (M1 c Hc).
      unfold made_between in M1. rewrite Forall_forall in M1. apply M1 in Hb.
      unfold a in Hb. lia.
Qed.

(** *** [replaceNode] on the working copy *)

(** The node object [m] with fields [f'] in the place of [c]; it has the
    children array of [c]. *)
Definition swap (m : ref) (f' : NodeFields) (c : Shape) : Shape := At m f' (at_below c).

Definition replace_among (descend : Shape -> bool * Shape) (target : string) (m : ref)
    (f' : NodeFields) : list Shape -> bool * list Shape :=
  fix loop (cs : list Shape) : bool * list Shape :=
    match cs with
    | [] => (false, [])
    | c :: rest =>
        if String.eqb (id (at_fields c)) target then (true, swap m f' c :: rest)
        else if String.eqb (type (at_fields c)) "group" then
          let '(found, c') := descend c in
          if found then (true, c' :: rest)
          else let '(found, rest') := loop rest in (found, c :: rest')
        else let '(found, rest') := loop rest in (found, c :: rest')
    end.

(** What [replaceNode(s, target, m)] returns, and the tree it leaves. *)
Fixpoint replace_shape (target : string) (m : ref) (f' : NodeFields) (s : Shape)
    : bool * Shape :=
  match s with
  | At l f (Some (a, cs)) =>
      let '(found, cs') := replace_among (replace_shape target m f') target m f' cs in
      (found, At l f (Some (a, cs')))
  | At l f None => (false, s)
  end.

(** The nodes that [replaceNode(s, ...)] may look at. *)
Fixpoint examined (s : Shape) : list Shape :=
  match s with
  | At _ _ (Some (_, cs)) =>
      flat_map (fun c => c :: if String.eqb (type (at_fields c)) "group"
                              then examined c else []) cs
  | At _ _ None => []
  end.

Lemma visited_examined s :
  visited s = s :: if String.eqb (type (at_fields s)) "group" then examined s else [].
Proof.
  induction s as [l f | l f a cs IH] using Shape_rect_children; simpl.
  - now destruct (String.eqb _ _).
  - destruct (String.eqb (type f) "group"); [| reflexivity]. f_equal.
    induction IH as [| c rest Hc _ IHl]; [reflexivity |].
    simpl. rewrite Hc, IHl. reflexivity.
Qed.

(** [w'] differs from [w] in the arrays [S] at most. *)
Definition rewired (S : list ref) (w w' : World) : Prop :=
  nodes w' = nodes w /\ pending w' = pending w /\ cooldowns w' = cooldowns w /\
  draws w' = draws w /\ forall a, a ∉ S -> arrays w' !! a = arrays w !! a.

Lemma rewired_refl S w : rewired S w w.
Proof. repeat split; reflexivity. Qed.

Lemma rewired_mono S S' w w' : rewired S w w' -> S ⊆ S' -> rewired S' w w'.
Proof.
  intros (? & ? & ? & ? & H) Hs. do 4 (split; [assumption |]).
  intros a Ha. apply H. intros Hin. apply Ha, Hs, Hin.
Qed.

Lemma holds_rewired S w w' s :
  holds w s -> rewired S w w' -> (forall a, a ∈ arrays_of s -> a ∉ S) -> holds w' s.
Proof.
  intros H (Hn & _ & _ & _ & Ha) D. apply (holds_frame w); auto.
  now rewrite Hn.
Qed.

Lemma holds_swap w m f' c :
  holds w c -> nodes w !! m = Some (mkObj f' (at_kids c)) -> holds w (swap m f' c).
Proof.
  destruct c as [l f [[a cs] |]]; unfold swap; simpl at_below.
  - rewrite !holds_inner. intros (_ & ? & ?) ?. auto.
  - simpl. auto.
Qed.

Lemma replace_shape_ref target m f' s : at_ref (replace_shape target m f' s).2 = at_ref s.
Proof.
  destruct s as [l f [[a cs] |]]; simpl; [| reflexivity].
  now destruct (replace_among _ _ _ _ _).
Qed.

(** The world that [write_array] leaves. *)
Definition set_array (a : ref) (cs : list ref) (w : World) : World :=
  mkWorld (nodes w) (<[a := cs]> (arrays w)) (pending w) (cooldowns w) (draws w).

Lemma write_array_spec a i l w cs :
  arrays w !! a = Some cs ->
  write_array a i l w = Some (tt, set_array a (<[i := l]> cs) w).
Proof. intros H. unfold write_array. now rewrite H. Qed.

Lemma set_array_rewired a cs w : rewired [a] w (set_array a cs w).
Proof.
  do 4 (split; [reflexivity |]). intros b Hb. simpl.
  apply list_lookup_insert_ne. intros ->. apply Hb. left.
Qed.

Lemma set_array_lookup a cs cs' w :
  arrays w !! a = Some cs -> arrays (set_array a cs' w) !! a = Some cs'.
Proof.
  intros H. simpl. apply list_lookup_insert_eq. now apply lookup_lt_Some in H.
Qed.

Lemma NoDup_flat_map_split {A B} (f : A -> list B) (pre : list A) (c : A) (rest : list A) :
  NoDup (flat_map f (pre ++ c :: rest)) ->
  NoDup (f c) /\
  forall x, x ∈ f c -> (x ∉ flat_map f pre) /\ (x ∉ flat_map f rest).
Proof.
  rewrite flat_map_app. simpl.
  intros N. apply NoDup_app in N as (_ & D1 & N). apply NoDup_app in N as (N & D2 & _).
  split; [exact N |]. intros x Hx. split.
  - intros Hp. apply (D1 x Hp). apply elem_of_app. now left.
  - now apply D2.
Qed.

(** [replaceNode] on a working copy whose arrays are each in one place: it
    returns what [replace_shape] says and leaves the copy that
    [replace_shape] describes, writing no array outside the copy and no
    node object at all; when it finds nothing it changes nothing.  The
    replacement [m] must be an object with the fields [f'] and the children
    array of the node it replaces, as [applyEffect] builds it. *)
Lemma replaceNode_shape target m f' s : forall w fuel,
  holds w s -> NoDup (arrays_of s) -> (depth s <= fuel)%nat ->
  Forall (fun c => id (at_fields c) = target ->
                   nodes w !! m = Some (mkObj f' (at_kids c))) (examined s) ->
  exists w',
    replaceNode fuel (at_ref s) target m w = Some ((replace_shape target m f' s).1, w') /\
    holds w' (replace_shape target m f' s).2 /\
    rewired (arrays_of s) w w' /\
    ((replace_shape target m f' s).1 = false -> w' = w).
Proof.
  induction s as [l f | l f a cs IH] using Shape_rect_children; intros w fuel H N D E;
    (destruct fuel as [| fuel]; [ simpl in D; lia |]).
  - exists w. simpl in *. unfold mbind, stateful_bind, read_node. rewrite H.
    repeat split; auto.
  - pose proof H as H0. apply holds_inner in H as (H1 & H2 & H3).
    assert (forall rest pre, cs = pre ++ rest -> exists w',
              replace_loop (fun child => replaceNode fuel child target m) a target m
                (length pre) (map at_ref rest) w
              = Some ((replace_among (replace_shape target m f') target m f' rest).1, w') /\
              arrays w' !! a =
                Some (map at_ref
                        (pre ++ (replace_among (replace_shape target m f') target m f' rest).2)) /\
              Forall (holds w')
                (pre ++ (replace_among (replace_shape target m f') target m f' rest).2) /\
              rewired (a :: flat_map arrays_of cs) w w' /\
              ((replace_among (replace_shape target m f') target m f' rest).1 = false ->
               w' = w)) as L.
    { simpl in N. apply NoDup_cons in N as (Na & N).
      assert (forall c, c ∈ cs -> forall b, b ∈ arrays_of c -> b <> a) as Ha.
      { intros c Hc b Hb ->. apply Na, Tools.elem_of_flat_map. eauto. }
      induction rest as [| c rest IHl]; intros pre Hcs.
      - exists w. simpl. rewrite <- Hcs. repeat split; auto.
      - assert (cs = (pre ++ [c]) ++ rest) as Hcs' by now rewrite <- app_assoc.
        destruct (IHl _ Hcs') as (w' & L1 & L2 & L3 & L4 & L5). clear IHl.
        rewrite length_app, Nat.add_1_r, <- app_assoc in *. simpl in L2, L3.
        assert (c ∈ cs) as Hc by (rewrite Hcs, elem_of_app; right; left).
        rewrite Forall_forall in H3.
        pose proof (H3 c Hc) as Hw.
        pose proof (holds_object _ _ Hw) as Ho.
        pose proof N as N'. rewrite Hcs in N'.
        apply NoDup_flat_map_split in N' as (Nc & Dc).
        simpl in E. rewrite Hcs, flat_map_app in E. simpl in E.
        apply Forall_app in E as (_ & E). apply Forall_cons in E as (Ec & E).
        apply Forall_app in E as (Eg & _).
        assert (forall S, S ⊆ arrays_of c -> forall w1, rewired S w w1 ->
                  forall d, d ∈ pre ++ rest -> holds w1 d) as Sib.
        { intros S HS w1 R d Hd. apply (holds_rewired S w); auto.
          - apply H3. rewrite Hcs. rewrite !elem_of_app in *. rewrite elem_of_cons. tauto.
          - intros b Hb Hin. apply HS, Dc in Hin as (D1 & D2).
            apply elem_of_app in Hd as [Hd | Hd]; [apply D1 | apply D2];
              apply Tools.elem_of_flat_map; eauto. }
        simpl. unfold mbind at 1, stateful_bind at 1, read_node. rewrite Ho.
        change (fields (at_object c)) with (at_fields c).
        destruct (String.eqb_spec (id (at_fields c)) target) as [Hid | Hid].
        + exists (set_array a (<[length pre := m]> (map at_ref cs)) w).
          unfold mbind, stateful_bind. rewrite (write_array_spec _ _ _ _ _ H2).
          assert (rewired [a] w (set_array a (<[length pre := m]> (map at_ref cs)) w)) as R
            by apply set_array_rewired.
          split; [reflexivity |]. split; [| split; [| split; [| discriminate]]].
          * rewrite (set_array_lookup _ _ _ _ H2), Hcs, !map_app. f_equal.
            rewrite insert_app_r_alt; rewrite length_map; [| lia].
            now rewrite Nat.sub_diag.
          * assert (forall d, d ∈ cs -> holds (set_array a (<[length pre := m]> (map at_ref cs)) w) d) as Hd.
            { intros d Hd. apply (holds_rewired [a] w); auto.
              intros b Hb Hin. apply list_elem_of_singleton in Hin. now apply (Ha d Hd b). }
            apply Forall_app. split; [| constructor].
            -- apply Forall_forall. intros d Hd'. apply Hd. rewrite Hcs, elem_of_app. now left.
            -- apply holds_swap; [now apply Hd |]. simpl. now apply Ec.
            -- apply Forall_forall. intros d Hd'. apply Hd. rewrite Hcs, elem_of_app.
               right. now right.
          * eapply rewired_mono; [exact R |]. intros b Hb.
            apply list_elem_of_singleton in Hb as ->. left.
        + destruct (replace_among (replace_shape target m f') target m f' rest)
            as [found rest'] eqn:Er.
          simpl in L1, L2, L3, L5.
          destruct (String.eqb (type (at_fields c)) "group") eqn:Et.
          2:{ exists w'. simpl. auto. }
          assert (depth c <= fuel)%nat as Dc'.
          { simpl in D. pose proof (depth_child c cs Hc). lia. }
          rewrite Forall_forall in IH.
          destruct (IH c Hc w fuel Hw Nc Dc' Eg) as (w1 & R1 & R2 & R3 & R4).
          unfold mbind, stateful_bind. rewrite R1.
          pose proof (replace_shape_ref target m f' c) as Hr.
          destruct (replace_shape target m f' c) as [[|] c']; simpl in *.
          * exists w1. split; [reflexivity |]. split; [| split; [| split; [| discriminate]]].
            -- destruct R3 as (_ & _ & _ & _ & Hfr).
               rewrite Hfr by (intros Hin; now apply (Ha c Hc a)).
               rewrite H2, Hcs, !map_app. simpl. now rewrite Hr.
            -- apply Forall_app. split; [| constructor; [exact R2 |]];
                 apply Forall_forall; intros d Hd;
                 apply (Sib (arrays_of c) (fun _ H => H) w1 R3);
                 rewrite elem_of_app; auto.
            -- eapply rewired_mono; [exact R3 |]. intros b Hb. right.
               apply Tools.elem_of_flat_map. eauto.
          * specialize (R4 eq_refl). subst w1. exists w'. rewrite L1. auto. }
    destruct (L cs [] eq_refl) as (w' & L1 & L2 & L3 & L4 & L5).
    exists w'. simpl. unfold mbind, stateful_bind, read_node, read_array.
    rewrite H1. simpl. rewrite H2. simpl in L1. rewrite L1.
    destruct (replace_among _ _ _ _ cs) as [found cs']. simpl in *.
    split; [reflexivity |]. split; [| split; [exact L4 | exact L5]].
    apply holds_inner. destruct L4 as (Hn & _). rewrite Hn. auto.
Qed.

Lemma replace_shape_depth target m f' s : depth (replace_shape target m f' s).2 = depth s.
Proof.
  induction s as [l f | l f a cs IH] using Shape_rect_children; [reflexivity |].
  simpl.
  assert (map depth (replace_among (replace_shape target m f') target m f' cs).2
          = map depth cs) as E.
  { induction IH as [| c rest Hc _ IHl]; simpl; [reflexivity |].
    destruct (String.eqb _ target); [ destruct c as [? ? [[? ?] |]]; reflexivity |].
    destruct (replace_among _ _ _ _ rest) as [found rest']. simpl in IHl.
    destruct (String.eqb _ "group"); [| simpl; now rewrite IHl].
    destruct (replace_shape target m f' c) as [[|] c']; simpl in *; congruence. }
  destruct (replace_among _ _ _ _ cs) as [found cs']. simpl in *. now rewrite E.
Qed.

(** *** The tree that [replaceNode] leaves *)

(** The node value with fields [f'] and the children of [c]. *)
Definition put (f' : NodeFields) (c : SceneNode) : SceneNode := Node f' (children c).

Definition replace_first (descend : SceneNode -> bool * SceneNode) (target : string)
    (f' : NodeFields) : list SceneNode -> bool * list SceneNode :=
  fix loop (cs : list SceneNode) : bool * list SceneNode :=
    match cs with
    | [] => (false, [])
    | c :: rest =>
        if String.eqb (node_id c) target then (true, put f' c :: rest)
        else if is_group c then
          let '(found, c') := descend c in
          if found then (true, c' :: rest)
          else let '(found, rest') := loop rest in (found, c :: rest')
        else let '(found, rest') := loop rest in (found, c :: rest')
    end.

Fixpoint replace_tree (target : string) (f' : NodeFields) (t : SceneNode)
    : bool * SceneNode :=
  match t with
  | Node f (Some cs) =>
      let '(found, cs') := replace_first (replace_tree target f') target f' cs in
      (found, Node f (Some cs'))
  | Node f None => (false, t)
  end.

Lemma erase_fields s : fields_of (erase s) = at_fields s.
Proof. now destruct s as [l f [[a cs] |]]. Qed.

Lemma erase_swap m f' c : erase (swap m f' c) = put f' (erase c).
Proof. now destruct c as [l f [[a cs] |]]. Qed.

(** The copy that [replaceNode] leaves stands for the tree that
    [replace_tree] computes. *)
Lemma erase_replace target m f' s :
  ((replace_shape target m f' s).1, erase (replace_shape target m f' s).2)
  = replace_tree target f' (erase s).
Proof.
  induction s as [l f | l f a cs IH] using Shape_rect_children; [reflexivity |].
  simpl.
  assert (((replace_among (replace_shape target m f') target m f' cs).1,
           map erase (replace_among (replace_shape target m f') target m f' cs).2)
          = replace_first (replace_tree target f') target f' (map erase cs)) as E.
  { induction IH as [| c rest Hc _ IHl]; simpl; [reflexivity |].
    unfold node_id, is_group, node_type. rewrite erase_fields.
    destruct (String.eqb _ target); [ cbn [fst snd map]; now rewrite erase_swap |].
    rewrite <- IHl, <- Hc.
    destruct (replace_among _ _ _ _ rest) as [found rest'].
    destruct (String.eqb _ "group"); [| reflexivity].
    destruct (replace_shape target m f' c) as [[|] c']; reflexivity. }
  rewrite <- E. now destruct (replace_among _ _ _ _ cs).
Qed.

Lemma walked_id n t : n ∈ Scene.walkNodes t -> node_id n ∈ allNodeIds t.
Proof. rewrite !list_elem_of_In. apply in_map. Qed.

Lemma walked_ids n cs :
  n ∈ flat_map Scene.walkNodes cs -> node_id n ∈ flat_map allNodeIds cs.
Proof.
  rewrite !Tools.elem_of_flat_map. intros (c & Hc & Hn). eauto using walked_id.
Qed.

Lemma findNode_absent t target : target ∉ allNodeIds t -> findNode t target = None.
Proof.
  intros H. destruct (findNode t target) as [m |] eqn:E; [| reflexivity].
  apply Tools.findNode_inside in E as (<- & E). destruct H. apply E, Tools.own_id_elem.
Qed.

Lemma replace_tree_missed target f' t :
  is_group t = true -> target ∉ allNodeIds t -> replace_tree target f' t = (false, t).
Proof.
  induction t as [f | f cs IH] using SceneNode_rect_children; [reflexivity |].
  intros G H. rewrite Tools.allNodeIds_unfold, G in H. unfold Tools.inner_ids in H.
  simpl in *. apply not_elem_of_cons in H as (_ & H).
  assert (replace_first (replace_tree target f') target f' cs = (false, cs)) as ->;
    [| reflexivity].
  induction IH as [| c rest Hc _ IHl]; simpl; [reflexivity |].
  simpl in H. rewrite elem_of_app in H.
  assert (target ∉ allNodeIds c) as Hn by tauto.
  destruct (String.eqb_spec (node_id c) target) as [E | _].
  { destruct Hn. rewrite <- E. apply Tools.own_id_elem. }
  rewrite IHl by tauto.
  destruct (is_group c) eqn:Gc; [| reflexivity].
  now rewrite Hc.
Qed.

Lemma walked_same_id n c :
  NoDup (allNodeIds c) -> n ∈ Scene.walkNodes c -> node_id n = node_id c -> n = c.
Proof.
  unfold allNodeIds. destruct c as [f ch]. simpl.
  intros N W E. apply NoDup_cons in N as (N & _).
  apply elem_of_cons in W as [W | W]; [exact W |].
  destruct N. rewrite <- E.
  apply list_elem_of_In, in_map, list_elem_of_In, W.
Qed.

(** With unique ids, [replaceNode] puts the replacement where the node with
    the target id was, and [findNode] finds it there. *)
Lemma replace_tree_found target f' fish t :
  is_group t = true -> NoDup (allNodeIds t) -> fish ∈ Scene.walkNodes t ->
  node_id fish = target -> node_id t <> target -> id f' = target ->
  (replace_tree target f' t).1 = true /\
  findNode (replace_tree target f' t).2 target = Some (put f' fish).
Proof.
  intros G N W Hfish Ht Hf'. revert G N W Ht.
  induction t as [f | f cs IH] using SceneNode_rect_children; intros G N W Ht.
  - simpl in W. rewrite G in W. apply list_elem_of_singleton in W. congruence.
  - apply Tools.NoDup_inner in N; [| exact G]. unfold Tools.inner_ids in N.
    simpl in W, N. rewrite G in W.
    apply elem_of_cons in W as [W | W]; [congruence |].
    assert ((replace_first (replace_tree target f') target f' cs).1 = true /\
            first_found (fun c => findNode c target)
              (replace_first (replace_tree target f') target f' cs).2
            = Some (put f' fish)) as [L1 L2].
    { clear G Ht. induction IH as [| c rest Hc _ IHl]; [inversion W |].
      simpl in W, N. apply NoDup_app in N as (Nc & D & Nr).
      apply elem_of_app in W. simpl.
      destruct (String.eqb_spec (node_id c) target) as [E | E].
      - assert (fish = c) as ->.
        { destruct W as [W | W]; [ apply walked_same_id; auto; congruence |].
          exfalso. apply (D target); [ rewrite <- E; apply Tools.own_id_elem |].
          rewrite <- Hfish. now apply walked_ids. }
        simpl. split; [reflexivity |].
        unfold put at 1. unfold node_id. simpl. rewrite Hf', String.eqb_refl. reflexivity.
      - destruct W as [W | W].
        + assert (is_group c = true) as Gc.
          { destruct c as [fc ch]. simpl in W. destruct (is_group _); [reflexivity |].
            apply list_elem_of_singleton in W. congruence. }
          rewrite Gc. destruct (Hc Gc Nc W E) as [R1 R2].
          destruct (replace_tree target f' c) as [found c']. simpl in *. subst found.
          simpl. rewrite R2. split; reflexivity.
        + assert (target ∉ allNodeIds c) as Hn.
          { intros Hin. apply (D target Hin). rewrite <- Hfish. now apply walked_ids. }
          destruct (IHl Nr W) as [R1 R2].
          assert ((if is_group c
                   then let '(found, c') := replace_tree target f' c in
                        if found then (true, c' :: rest)
                        else let '(found, rest') :=
                               replace_first (replace_tree target f') target f' rest in
                             (found, c :: rest')
                   else let '(found, rest') :=
                          replace_first (replace_tree target f') target f' rest in
                        (found, c :: rest'))
                  = (let '(found, rest') :=
                       replace_first (replace_tree target f') target f' rest in
                     (found, c :: rest'))) as ->.
          { destruct (is_group c) eqn:Gc; [| reflexivity].
            now rewrite replace_tree_missed. }
          destruct (replace_first _ _ _ rest) as [found rest']. simpl in *.
          rewrite findNode_absent by exact Hn. auto. }
    simpl. destruct (replace_first _ _ _ cs) as [found cs']. simpl in *.
    split; [exact L1 |].
    unfold node_id in Ht. simpl in Ht.
    destruct (String.eqb_spec (node_id (Node f (Some cs'))) target) as [E' | _];
      [ now destruct Ht |].
    change (is_group (Node f (Some cs'))) with (is_group (Node f (Some cs))).
    rewrite G. exact L2.
Qed.

Lemma holds_visited w s c : holds w s -> c ∈ visited s -> holds w c.
Proof.
  induction s as [l f | l f a cs IH] using Shape_rect_children; intros H Hc.
  - simpl in Hc. apply list_elem_of_singleton in Hc. now subst.
  - simpl in Hc. apply elem_of_cons in Hc as [-> | Hc]; [exact H |].
    destruct (String.eqb (type f) "group"); [| inversion Hc].
    apply holds_inner in H as (_ & _ & H).
    apply Tools.elem_of_flat_map in Hc as (d & Hd & Hc).
    rewrite Forall_forall in IH, H. eauto.
Qed.

Lemma holds_same w w' s :
  nodes w' = nodes w -> arrays w' = arrays w -> holds w s -> holds w' s.
Proof.
  intros Hn Ha H. apply (holds_frame w); auto; [ now rewrite Hn | now rewrite Ha ].
Qed.

Lemma depth_size s : (depth s <= size (erase s))%nat.
Proof.
  induction s as [l f | l f a cs IH] using Shape_rect_children; simpl; [lia |].
  apply le_n_S. induction IH as [| c rest Hc _ IHl]; simpl; lia.
Qed.

Lemma NoDup_map_same {A B} (g : A -> B) (l : list A) (x y : A) :
  NoDup (map g l) -> x ∈ l -> y ∈ l -> g x = g y -> x = y.
Proof.
  induction l as [| a rest IH]; simpl; intros N Hx Hy E; [inversion Hx |].
  apply NoDup_cons in N as (Na & N).
  assert (forall z, z ∈ rest -> g z <> g a) as D.
  { intros z Hz Ez. apply Na. rewrite <- Ez. now apply list_elem_of_In, in_map, list_elem_of_In. }
  apply elem_of_cons in Hx as [-> | Hx]; apply elem_of_cons in Hy as [-> | Hy]; auto.
  - now destruct (D y Hy).
  - now destruct (D x Hx).
Qed.

Lemma filter_snd_passed {A} (l : list A) :
  List.filter snd (map (fun _ => (false, false)) l) = [].
Proof. induction l; auto. Qed.

(** *** The tick on examples *)

Definition group_fields (i : string) : NodeFields :=
  mkFields i "group" None None None None None None [].

(** The rule of the scenario: fish drift right by 2, no variance. *)
Definition swim : Rule :=
  mkRule "fish-swim" "Fish Swim" "Fish drift right" true Tick
    (mkCondition "entityType:fish" None None None None)
    (mkEffect Etransform (Some 2) None None None None None None None None None None None).

(** A scene with one fish below the root. *)
Definition pond : SceneGraph :=
  Tools.with_root Tools.default_scene
    (Node (group_fields "root") (Some [Node (fish_fields "f1") None])).

(** A scene whose root group is itself the fish. *)
Definition fish_root : SceneGraph :=
  Tools.with_root Tools.default_scene
    (Node (mkFields "root" "group" None
             (Some (mkTransform (Some 0) None None None None None None))
             None None (Some [("entityType", JStr "fish")]) None [])
          (Some [])).

Definition x_of (n : SceneNode) : option Q := transform (fields_of n) ≫= x.

Section Scenario.
Variable random : nat -> Q.
Variable dateNow : Q.

(** A node that the selector of the rule does not match is passed over. *)
Lemma visit_unmatched fuel rule root allNodes now l w obj :
  nodes w !! l = Some obj ->
  nodeMatchesSelector (fields obj) (selector (condition rule)) = false ->
  visit random dateNow fuel rule root allNodes now l w = Some ((false, false), w).
Proof.
  intros Hn Hm. unfold visit, checkCondition, mbind, stateful_bind, read_node.
  rewrite Hn, Hm. reflexivity.
Qed.

(** The fields of a node that [swim] has moved. *)
Definition moved (f : NodeFields) : NodeFields :=
  let t := default no_transform (transform f) in
  with_transform f
    (mkTransform (Some (default 0 (x t) + 2)) (y t) (rotation t)
                 (scaleX t) (scaleY t) (originX t) (originY t)).

Lemma moved_x f :
  transform (moved f) ≫= x = Some (default 0 (transform f ≫= x) + 2).
Proof. unfold moved. now destruct (transform f). Qed.

Lemma checkCondition_swim allNodes now l w obj :
  nodes w !! l = Some obj ->
  checkCondition random swim l allNodes now w
  = Some (nodeMatchesSelector (fields obj) "entityType:fish", w).
Proof.
  intros Hn. unfold checkCondition, mbind, stateful_bind, read_node. rewrite Hn.
  change (selector (condition swim)) with "entityType:fish".
  now destruct (nodeMatchesSelector (fields obj) "entityType:fish").
Qed.

Lemma applyEffect_swim l w f k :
  nodes w !! l = Some (mkObj f k) ->
  applyEffect random dateNow swim l w
  = Some (Some (length (nodes w)), add_node (mkObj (moved f) k) w).
Proof.
  intros Hn. unfold applyEffect, replacement, mbind, stateful_bind, read_node.
  simpl. rewrite Hn. reflexivity.
Qed.

Lemma visit_swim fuel root allNodes now l w f k :
  nodes w !! l = Some (mkObj f k) ->
  nodeMatchesSelector f "entityType:fish" = true ->
  visit random dateNow fuel swim root allNodes now l w =
  (_ ← replaceNode fuel root (id f) (length (nodes w));
   _ ← stamp_cooldown "fish-swim" (id f) now;
   mret (true, true)) (add_node (mkObj (moved f) k) w).
Proof.
  intros Hn Hm. unfold visit, mbind, stateful_bind.
  rewrite (checkCondition_swim _ _ _ _ _ Hn). cbn [fields]. rewrite Hm.
  rewrite (applyEffect_swim _ _ _ _ Hn).
  unfold read_node. simpl nodes. rewrite (lookup_app_l_Some _ _ _ _ Hn).
  reflexivity.
Qed.

(** One round of [swim] over a working copy with one fish [fs]. *)
Lemma evaluate_swim fuel s pre fs post now stats w :
  holds w s -> NoDup (arrays_of s) -> (depth s <= fuel)%nat ->
  String.eqb (type (at_fields s)) "group" = true ->
  visited s = pre ++ fs :: post ->
  NoDup (map (fun c => id (at_fields c)) (visited s)) ->
  Forall (fun c => nodeMatchesSelector (at_fields c) "entityType:fish" = false)
         (pre ++ post) ->
  nodeMatchesSelector (at_fields fs) "entityType:fish" = true ->
  exists w',
    evaluate random dateNow fuel (at_ref s) (map at_ref (visited s)) now stats swim w
    = Some (mkStats (S (rulesEvaluated stats)) (S (rulesFired stats))
                    (nodesAffected stats + 1), w') /\
    holds w' (replace_shape (id (at_fields fs)) (length (nodes w))
                (moved (at_fields fs)) s).2.
Proof.
  intros H N D G Hv Nid Hothers Hfish.
  set (all := map at_ref (visited s)).
  assert (exists w0,
            (match cooldowns w !! rule_id swim with
             | Some _ => mret tt
             | None => set_cooldowns (<[rule_id swim := ∅]> (cooldowns w))
             end) w = Some (tt, w0) /\ nodes w0 = nodes w /\ arrays w0 = arrays w)
    as (w0 & E0 & Hn0 & Ha0).
  { destruct (cooldowns w !! rule_id swim); eexists; (split; [reflexivity |]); auto. }
  pose proof (holds_same w w0 s Hn0 Ha0 H) as H0.
  assert (forall c, c ∈ visited s -> nodes w0 !! at_ref c = Some (at_object c)) as Hobj.
  { intros c Hc. apply holds_object. eapply holds_visited; eauto. }
  apply Forall_app in Hothers as (Hpre & Hpost).
  set (m := length (nodes w)).
  set (w1 := add_node (mkObj (moved (at_fields fs)) (at_kids fs)) w0).
  destruct (replaceNode_shape (id (at_fields fs)) m (moved (at_fields fs)) s w1 fuel)
    as (w2 & R1 & R2 & R3 & _); auto.
  { apply (holds_frame w0); auto. simpl. now apply prefix_app_r. }
  { apply Forall_forall. intros c Hc Hid.
    assert (c = fs) as ->.
    { apply (NoDup_map_same (fun c => id (at_fields c)) (visited s)); auto.
      - rewrite visited_examined, G. now right.
      - rewrite Hv, elem_of_app. right. left. }
    simpl. unfold m. rewrite <- Hn0. now apply list_lookup_middle. }
  set (w3 := mkWorld (nodes w2) (arrays w2) (pending w2)
               (<["fish-swim" := <[id (at_fields fs) := now]>
                    (default ∅ (cooldowns w2 !! "fish-swim"))]> (cooldowns w2))
               (draws w2)).
  exists w3. split; [| now apply (holds_same w2 w3)].
  unfold evaluate, mbind at 1, stateful_bind at 1, get_cooldowns.
  unfold mbind at 1, stateful_bind at 1. rewrite E0.
  unfold mbind at 1, stateful_bind at 1.
  assert (for_each (visit random dateNow fuel swim (at_ref s) all now) all w0
          = Some (map (fun _ => (false, false)) pre ++
                  (true, true) :: map (fun _ => (false, false)) post, w3)) as ->.
  { unfold all at 2. rewrite Hv, map_app, for_each_app.
    rewrite (for_each_same _ at_ref (fun _ => (false, false))).
    2:{ rewrite Forall_forall in *. intros c Hc.
        apply (visit_unmatched _ _ _ _ _ _ _ (at_object c)); [| now apply Hpre].
        apply Hobj. rewrite Hv, elem_of_app. now left. }
    simpl. unfold mbind at 1, stateful_bind at 1.
    rewrite (visit_swim fuel (at_ref s) all now (at_ref fs) w0 (at_fields fs) (at_kids fs)).
    2:{ apply Hobj. rewrite Hv, elem_of_app. right. left. }
    2:{ exact Hfish. }
    unfold mbind at 1, stateful_bind at 1. fold w1. rewrite Hn0. fold m. rewrite R1.
    unfold mbind at 1, stateful_bind at 1. rewrite stamp_cooldown_spec. fold w3.
    unfold mret at 1, stateful_ret at 1.
    unfold mbind at 1, stateful_bind at 1.
    rewrite (for_each_same _ at_ref (fun _ => (false, false))); [reflexivity |].
    rewrite Forall_forall in *. intros c Hc.
    apply (visit_unmatched _ _ _ _ _ _ _ (at_object c)); [| now apply Hpost].
    simpl. destruct R3 as (-> & _). simpl.
    apply lookup_app_l_Some, Hobj. rewrite Hv, elem_of_app. right. now right. }
  unfold mret, stateful_ret. do 2 f_equal.
  rewrite existsb_app, List.filter_app, length_app. simpl.
  rewrite !filter_snd_passed, orb_true_r. reflexivity.
Qed.

(** The scenario in general: in a document with unique ids whose one fish
    lies below the root, one tick of [swim] replaces the fish by a node that
    is 2 further right and has the same children. *)
Lemma one_fish_below_root_moves (doc : SceneGraph) (fish : SceneNode) (now : Q)
    (cds : gmap string (gmap string Q)) :
  NoDup (allNodeIds (root doc)) ->
  fish ∈ Scene.walkNodes (root doc) ->
  fish <> root doc ->
  nodeMatchesSelector (fields_of fish) "entityType:fish" = true ->
  (forall n, n ∈ Scene.walkNodes (root doc) ->
             nodeMatchesSelector (fields_of n) "entityType:fish" = true -> n = fish) ->
  exists res,
    run_tick random dateNow [swim] now cds doc = Some res /\
    findNode (root (simulatedScene res)) (node_id fish)
    = Some (put (moved (fields_of fish)) fish) /\
    x_of (put (moved (fields_of fish)) fish) = Some (default 0 (x_of fish) + 2) /\
    nodesAffected (stats res) = 1%nat.
Proof.
  intros Nid W Hroot Hfish Honly.
  destruct (clone_shape (root doc) (mkWorld [] [] [] cds 0))
    as (s & w1 & Ec & Hs & Hh & _ & _ & Na).
  pose proof (visited_erase s) as Hv. rewrite Hs in Hv.
  assert (is_group (root doc) = true) as G.
  { destruct (root doc) as [f ch] eqn:Er. simpl in W.
    destruct (is_group (Node f ch)); [reflexivity |].
    apply list_elem_of_singleton in W. congruence. }
  assert (String.eqb (type (at_fields s)) "group" = true) as Gs.
  { rewrite <- erase_fields, Hs. exact G. }
  assert (map (fun c => id (at_fields c)) (visited s) = allNodeIds (root doc)) as Hids.
  { unfold allNodeIds. rewrite <- Hv, map_map. apply map_ext. intros c.
    unfold node_id. now rewrite erase_fields. }
  assert (exists fs, fs ∈ visited s /\ erase fs = fish) as (fs & Hfs & Efs).
  { rewrite <- Hv in W. apply list_elem_of_In, in_map_iff in W as (fs & E & Hin).
    exists fs. split; [ now apply list_elem_of_In | exact E ]. }
  destruct (list_elem_of_split _ _ Hfs) as (pre & post & Hsplit).
  assert (Forall (fun c => nodeMatchesSelector (at_fields c) "entityType:fish" = false)
                 (pre ++ post)) as Hothers.
  { apply Forall_forall. intros c Hc.
    destruct (nodeMatchesSelector (at_fields c) "entityType:fish") eqn:Ec'; [| reflexivity].
    exfalso.
    assert (c ∈ visited s) as Hcv.
    { rewrite Hsplit. rewrite !elem_of_app in *. rewrite elem_of_cons. tauto. }
    assert (erase c = fish) as Ecf.
    { apply Honly; [| now rewrite erase_fields].
      rewrite <- Hv. now apply list_elem_of_In, in_map, list_elem_of_In. }
    assert (c = fs) as ->.
    { apply (NoDup_map_same (fun c => id (at_fields c)) (visited s)); auto.
      - now rewrite Hids.
      - rewrite <- !erase_fields. congruence. }
    rewrite <- Hids, Hsplit, map_app in Nid. simpl in Nid.
    apply NoDup_app in Nid as (_ & D1 & D2). apply NoDup_cons in D2 as (D2 & _).
    apply elem_of_app in Hc as [Hc | Hc].
    - apply (D1 (id (at_fields fs))); [| left].
      now apply list_elem_of_In, (in_map (fun c => id (at_fields c))), list_elem_of_In.
    - apply D2.
      now apply list_elem_of_In, (in_map (fun c => id (at_fields c))), list_elem_of_In. }
  assert (depth s <= S (size (root doc)))%nat as D.
  { pose proof (depth_size s). rewrite Hs in *. lia. }
  destruct (evaluate_swim (S (size (root doc))) s pre fs post now (mkStats 0 0 0) w1)
    as (w2 & Ev & Hh2); auto.
  { now rewrite Hids. }
  { now rewrite <- erase_fields, Efs. }
  set (target := id (at_fields fs)) in *.
  set (f' := moved (at_fields fs)) in *.
  set (m := length (nodes w1)) in *.
  assert (snapshot (S (size (root doc))) (at_ref s) w2
          = Some ((replace_tree target f' (root doc)).2, w2)) as Sn.
  { rewrite <- (replace_shape_ref target m f' s).
    rewrite snapshot_shape; [| exact Hh2 | now rewrite replace_shape_depth].
    pose proof (erase_replace target m f' s) as Er. rewrite Hs in Er.
    now rewrite <- Er. }
  eexists. split.
  - unfold run_tick, tick, collectNodes, mbind at 1, stateful_bind at 1.
    unfold mbind at 1, stateful_bind at 1. rewrite Ec.
    unfold mbind at 1, stateful_bind at 1. rewrite (walkNodes_shape s w1 _ Hh D).
    unfold mbind at 1, stateful_bind at 1. simpl List.filter. simpl evaluate_all.
    unfold mbind at 1, stateful_bind at 1. rewrite Ev.
    unfold mret, stateful_ret, mbind, stateful_bind. cbv beta iota. cbn [fst snd].
    rewrite Sn. reflexivity.
  - simpl. split; [| split; [apply moved_x | reflexivity]].
    assert (node_id fish = target) as Ht.
    { unfold target, node_id. now rewrite <- Efs, erase_fields. }
    rewrite Ht, <- Efs, erase_fields, Efs. fold f'.
    apply replace_tree_found; auto.
    intros E. apply Hroot. apply walked_same_id; auto. congruence.
Qed.

End Scenario.

(** A scene with the fish two groups down, among nodes that are no fish. *)
Definition lake : SceneGraph :=
  Tools.with_root Tools.default_scene
    (Node (group_fields "root")
       (Some [ Node (group_fields "reeds")
                 (Some [Node (mkFields "r1" "rect" None None None None None None []) None]);
               Node (group_fields "shoal")
                 (Some [ Node (fish_fields "f1") None;
                         Node (mkFields "rock" "circle" None None None None None None [])
                              None ]) ])).

(** The general statement applies to [lake], at any time and with any
    cooldown map. *)
Example fish_in_lake_moves (random : nat -> Q) (dateNow : Q) (now : Q)
    (cds : gmap string (gmap string Q)) :
  exists res,
    run_tick random dateNow [swim] now cds lake = Some res /\
    (findNode (root (simulatedScene res)) "f1" ≫= x_of) = Some 2.
Proof.
  destruct (one_fish_below_root_moves random dateNow lake (Node (fish_fields "f1") None)
              now cds) as (res & Hres & Hfound & Hx & _).
  - apply (bool_decide_unpack _). vm_compute. exact I.
  - simpl. rewrite !elem_of_cons. auto 10.
  - discriminate.
  - reflexivity.
  - intros n Hn. simpl in Hn. rewrite !elem_of_cons in Hn.
    destruct Hn as [-> | [-> | [-> | [-> | [-> | [-> | Hn]]]]]];
      try discriminate; [ reflexivity | inversion Hn ].
  - exists res. split; [exact Hres |].
    change (node_id (Node (fish_fields "f1") None)) with "f1" in Hfound.
    rewrite Hfound. exact Hx.
Qed.

(** The scenario of C1 on a fish below the root: after one tick its
    [transform.x] is 2. *)
Example fish_below_root_moves (random : nat -> Q) (dateNow : Q) :
  exists res,
    run_tick random dateNow [swim] 100 ∅ pond = Some res /\
    (findNode (root (simulatedScene res)) "f1" ≫= x_of) = Some 2 /\
    nodesAffected (stats res) = 1%nat.
Proof. eexists. split; [ vm_compute; reflexivity | split; reflexivity ]. Qed.

(** C1 fails when the matched node is the root: [replaceNode] looks only
    below the root, so the replacement with [x = 2] is dropped and the root
    keeps [x = 0], although the tick counts the node as affected and stamps
    its cooldown. *)
Theorem fish_root_does_not_move (random : nat -> Q) (dateNow : Q) :
  exists res,
    run_tick random dateNow [swim] 100 ∅ fish_root = Some res /\
    entityType (fields_of (root fish_root)) = Some (JStr "fish") /\
    x_of (root fish_root) = Some 0 /\
    x_of (root (simulatedScene res)) = Some 0 /\
    nodesAffected (stats res) = 1%nat /\
    (cooldowns_after res !! "fish-swim" ≫= (fun perNode => perNode !! "root")) = Some 100.
Proof. eexists. split; [ vm_compute; reflexivity | repeat split; reflexivity ]. Qed.

(** A rule that removes fish, at most once per second and fish. *)
Definition cull : Rule :=
  mkRule "cull" "Cull" "Remove fish" true Tick
    (mkCondition "entityType:fish" None None (Some 1000) None)
    (mkEffect Eremove None None None None None None None None None None None None).

(** The same cooldown on the rule that moves fish. *)
Definition slow_swim : Rule :=
  mkRule "slow-swim" "Slow Swim" "Fish drift right" true Tick
    (mkCondition "entityType:fish" None None (Some 1000) None)
    (mkEffect Etransform (Some 2) None None None None None None None None None None None).

(** C7 fails for the queued effects: a tick at 5000 on which [cull] queues
    the removal of fish [f1] counts the rule as fired but leaves the
    cooldown of ([cull], [f1]) unset, and the tick at 5100 queues the
    removal again, inside the rule's cooldown of 1000 ms. *)
Theorem queued_effect_leaves_cooldown_unset (random : nat -> Q) (dateNow : Q) :
  exists first second,
    run_tick random dateNow [cull] 5000 ∅ pond = Some first /\
    queued first = [PRemove "f1"] /\
    rulesFired (stats first) = 1%nat /\
    (cooldowns_after first !! "cull" ≫= (fun perNode => perNode !! "f1")) = None /\
    run_tick random dateNow [cull] 5100 (cooldowns_after first) (simulatedScene first)
      = Some second /\
    queued second = [PRemove "f1"].
Proof.
  do 2 eexists. split; [ vm_compute; reflexivity |].
  do 3 (split; [reflexivity |]).
  split; [ vm_compute; reflexivity | reflexivity ].
Qed.

(** For contrast, the effect that replaces the node stamps the cooldown,
    and the rule stays quiet on the next tick. *)
Example replacing_effect_stamps_cooldown (random : nat -> Q) (dateNow : Q) :
  exists first second,
    run_tick random dateNow [slow_swim] 5000 ∅ pond = Some first /\
    (cooldowns_after first !! "slow-swim" ≫= (fun perNode => perNode !! "f1")) = Some 5000 /\
    run_tick random dateNow [slow_swim] 5100 (cooldowns_after first) (simulatedScene first)
      = Some second /\
    nodesAffected (stats second) = 0%nat /\
    (findNode (root (simulatedScene second)) "f1" ≫= x_of) = Some 2.
Proof.
  do 2 eexists. split; [ vm_compute; reflexivity |].
  split; [reflexivity |].
  split; [ vm_compute; reflexivity | split; reflexivity ].
Qed.

(** *** The tick of rules that draw no random number

    A rule is plain when neither its condition nor its effect carries a
    probability, its condition has no cooldown, and its effect has no
    variance: the check and the effect then draw no random number and read
    no cooldown, and what a tick does is a function of the scene. *)

Definition plain (r : Rule) : bool :=
  negb (is_Some_b (probability (condition r))) &&
  negb (is_Some_b (cooldownMs (condition r))) &&
  negb (is_Some_b (eprobability (effect r))) &&
  Qle_bool (default 0 (variance (effect r))) 0.

(** [allNodes.some(...)] of the proximity check, on the fields of the nodes. *)
Definition in_range (f : NodeFields) (p : ProximityCond) (all : list NodeFields) : bool :=
  existsb (fun g => negb (String.eqb (id g) (id f))
                    && nodeMatchesSelector g (target p)
                    && Qle_bool (dist (nodePos f) (nodePos g)) (distance p)) all.

(** What [checkCondition] returns for a plain rule on a node with the
    fields [f], among nodes with the fields [all]. *)
Definition fires (rule : Rule) (all : list NodeFields) (f : NodeFields) : bool :=
  let cond := condition rule in
  nodeMatchesSelector f (selector cond)
  && forallb (fun kv => strict_eq (data f ≫= get kv.1) kv.2) (default [] (state cond))
  && match proximity cond with
     | Some p => in_range f p all
     | None => true
     end.

(** The counter effect of the rule, if it has one, counts on a field that
    [+] can add to: the field holds no object with a [toString] of its
    own, alone or in an array, for which [+] throws a TypeError. *)
Definition countable (rule : Rule) (f : NodeFields) : bool :=
  match etype (effect rule), nonempty_field (field (effect rule)), delta (effect rule) with
  | Ecounter, Some fld, Some d => is_Some_b (plus (data f ≫= get fld) d)
  | _, _, _ => true
  end.

Section PlainEffect.
Variable dateNow : Q.

(** The fields of [modified] that the effect of a plain rule builds from a
    node with the fields [f], if it builds one. *)
Definition new_fields (rule : Rule) (f : NodeFields) : option NodeFields :=
  let eff := effect rule in
  match etype eff with
  | Etransform =>
      let t := default no_transform (transform f) in
      let moved (d : option Q) (v : option Q) :=
        match d with Some d => Some (default 0 v + d) | None => v end in
      if is_Some_b (dx eff) || is_Some_b (dy eff) || is_Some_b (dRotation eff) then
        Some (with_transform f
                (mkTransform (moved (dx eff) (x t)) (moved (dy eff) (y t))
                             (moved (dRotation eff) (rotation t))
                             (scaleX t) (scaleY t) (originX t) (originY t)))
      else None
  | Estyle =>
      match styleUpdates eff with
      | Some u => Some (with_style f (spread (default [] (style f)) u))
      | None => None
      end
  | Edata =>
      match dataUpdates eff with
      | Some u => Some (with_data f (spread (default [] (data f)) u))
      | None => None
      end
  | Ecounter =>
      match nonempty_field (field eff), delta eff with
      | Some fld, Some d =>
          match plus (data f ≫= get fld) d with
          | Some sum => Some (with_data f (set fld sum (default [] (data f))))
          | None => None
          end
      | _, _ => None
      end
  | Etween =>
      match etween eff with
      | Some tw => Some (with_tween f (Tools.start_tween tw dateNow))
      | None => None
      end
  | Espawn | Eremove => None
  end.

(** What the effect pushes to [pending]. *)
Definition queued_by (rule : Rule) (f : NodeFields) : list PendingOp :=
  match etype (effect rule) with
  | Espawn =>
      match spawnNode (effect rule) with
      | Some template => [PSpawn template (nodePos f)]
      | None => []
      end
  | Eremove => [PRemove (id f)]
  | _ => []
  end.

Definition structural (rule : Rule) : bool :=
  match etype (effect rule) with Espawn | Eremove => true | _ => false end.

(** The outcome of the visit of a node: whether the rule fired on it and
    whether the node counts as affected. *)
Definition outcome (rule : Rule) (all : list NodeFields) (f : NodeFields) : bool * bool :=
  if fires rule all f then
    match new_fields rule f with
    | Some _ => (true, true)
    | None => (structural rule, false)
    end
  else (false, false).

Lemma new_fields_id rule f f' : new_fields rule f = Some f' -> id f' = id f /\ type f' = type f.
Proof.
  unfold new_fields. destruct (etype (effect rule)).
  - destruct (_ || _); [| discriminate]. now intros [= <-].
  - destruct (styleUpdates _); [| discriminate]. now intros [= <-].
  - destruct (dataUpdates _); [| discriminate]. now intros [= <-].
  - destruct (nonempty_field _); [| discriminate]. destruct (delta _); [| discriminate].
    destruct (plus _ _); [| discriminate]. now intros [= <-].
  - discriminate.
  - discriminate.
  - destruct (etween _); [| discriminate]. now intros [= <-].
Qed.

Lemma new_fields_quiet rule f f' : new_fields rule f = Some f' -> queued_by rule f = [].
Proof.
  unfold new_fields, queued_by. destruct (etype (effect rule)); try reflexivity; discriminate.
Qed.

Variable random : nat -> Q.

Definition push_all (ops : list PendingOp) (w : World) : World :=
  mkWorld (nodes w) (arrays w) (pending w ++ ops) (cooldowns w) (draws w).

Lemma push_all_nil w : push_all [] w = w.
Proof. unfold push_all. rewrite app_nil_r. now destruct w. Qed.

Lemma some_in_range_plain f p (cs : list Shape) w :
  Forall (fun c => nodes w !! at_ref c = Some (at_object c)) cs ->
  some_in_range f p (map at_ref cs) w = Some (in_range f p (map at_fields cs), w).
Proof.
  induction 1 as [| c rest Hc _ IH]; [reflexivity |].
  simpl. unfold mbind, stateful_bind, read_node. rewrite Hc. cbn [fields at_object].
  destruct (_ && _ && _); [reflexivity | exact IH].
Qed.

Lemma checkCondition_plain rule l (cs : list Shape) now w f k :
  plain rule = true ->
  nodes w !! l = Some (mkObj f k) ->
  Forall (fun c => nodes w !! at_ref c = Some (at_object c)) cs ->
  checkCondition random rule l (map at_ref cs) now w
  = Some (fires rule (map at_fields cs) f, w).
Proof.
  intros P Hn Hcs. unfold plain in P. apply andb_prop in P as [P _].
  apply andb_prop in P as [P _]. apply andb_prop in P as [P1 P2].
  unfold checkCondition, fires, mbind, stateful_bind, read_node. rewrite Hn. cbn [fields].
  destruct (nodeMatchesSelector f _); [| reflexivity]. cbn [negb andb].
  destruct (forallb _ _); [| reflexivity]. cbn [negb andb].
  destruct (cooldownMs (condition rule)); [discriminate |].
  destruct (probability (condition rule)); [discriminate |].
  destruct (proximity (condition rule)) as [p |].
  - rewrite (some_in_range_plain _ _ _ _ Hcs).
    now destruct (in_range f p _).
  - reflexivity.
Qed.

Lemma applyVariance_plain v variance w :
  Qle_bool variance 0 = true -> applyVariance random v variance w = Some (v, w).
Proof. intros E. unfold applyVariance. now rewrite E. Qed.

Lemma replacement_plain rule l w f k :
  plain rule = true -> countable rule f = true ->
  nodes w !! l = Some (mkObj f k) ->
  replacement random dateNow rule l w
  = Some (option_map (fun f' => mkObj f' k) (new_fields rule f), push_all (queued_by rule f) w).
Proof.
  intros P C Hn. unfold plain in P. apply andb_prop in P as [P V].
  apply andb_prop in P as [_ P].
  unfold replacement, new_fields, queued_by, countable in *.
  destruct (eprobability (effect rule)); [discriminate |].
  unfold mbind, stateful_bind, mret, stateful_ret, read_node. rewrite Hn. cbn [fields kids].
  destruct (etype (effect rule)).
  - rewrite push_all_nil.
    destruct (dx (effect rule)), (dy (effect rule)), (dRotation (effect rule));
      rewrite ?(applyVariance_plain _ _ _ V); reflexivity.
  - rewrite push_all_nil. now destruct (styleUpdates _).
  - rewrite push_all_nil. now destruct (dataUpdates _).
  - rewrite push_all_nil.
    destruct (nonempty_field _) as [fld |]; [| reflexivity].
    destruct (delta _) as [d |]; [| reflexivity].
    rewrite (applyVariance_plain _ _ _ V). unfold mbind in C.
    destruct (plus _ d); [reflexivity | discriminate].
  - destruct (spawnNode _); [reflexivity | now rewrite push_all_nil].
  - reflexivity.
  - rewrite push_all_nil. now destruct (etween _).
Qed.

End PlainEffect.

(** What of a node object the replacement of a node keeps: the id, the
    type and the children array. *)
Definition key (c : Shape) : string * string * option ref :=
  (id (at_fields c), type (at_fields c), at_kids c).

Lemma replace_shape_arrays target m f' s :
  arrays_of (replace_shape target m f' s).2 = arrays_of s.
Proof.
  induction s as [l f | l f a cs IH] using Shape_rect_children; [reflexivity |].
  simpl.
  assert (flat_map arrays_of (replace_among (replace_shape target m f') target m f' cs).2
          = flat_map arrays_of cs) as E.
  { induction IH as [| c rest Hc _ IHl]; simpl; [reflexivity |].
    destruct (String.eqb _ target); [ destruct c as [? ? [[? ?] |]]; reflexivity |].
    destruct (replace_among _ _ _ _ rest) as [found rest']. simpl in IHl.
    destruct (String.eqb _ "group"); [| simpl; now rewrite IHl].
    destruct (replace_shape target m f' c) as [[|] c']; simpl in *; congruence. }
  destruct (replace_among _ _ _ _ cs) as [found cs']. simpl in *. now rewrite E.
Qed.

Lemma visited_swap m f' c :
  type f' = type (at_fields c) -> id f' = id (at_fields c) ->
  map key (visited (swap m f' c)) = map key (visited c).
Proof.
  intros T I. destruct c as [l f [[a cs] |]]; simpl in *; unfold key; simpl.
  - rewrite T, I. reflexivity.
  - rewrite T, I. reflexivity.
Qed.

Lemma replace_shape_keys target m f' s :
  id f' = target ->
  Forall (fun c => id (at_fields c) = target -> type f' = type (at_fields c)) (examined s) ->
  map key (visited (replace_shape target m f' s).2) = map key (visited s).
Proof.
  intros I.
  induction s as [l f | l f a cs IH] using Shape_rect_children; [reflexivity |].
  intros T. simpl in T. simpl.
  assert (map key (flat_map visited
                     (replace_among (replace_shape target m f') target m f' cs).2)
          = map key (flat_map visited cs)) as E.
  { induction IH as [| c rest Hc _ IHl]; simpl; [reflexivity |].
    simpl in T. apply Forall_cons in T as [Tc T]. apply Forall_app in T as [Tin Trest].
    destruct (String.eqb_spec (id (at_fields c)) target) as [Ec | _].
    { cbn [snd flat_map]. rewrite !map_app. f_equal.
      apply visited_swap; [now apply Tc | congruence]. }
    destruct (replace_among _ _ _ _ rest) as [found rest'] eqn:R. simpl in IHl.
    destruct (String.eqb (type (at_fields c)) "group") eqn:G.
    - specialize (Hc Tin).
      destruct (replace_shape target m f' c) as [[|] c'] eqn:Rc; simpl in *.
      + rewrite !map_app. f_equal. exact Hc.
      + rewrite !map_app. f_equal. now apply IHl.
    - simpl. rewrite !map_app. f_equal. now apply IHl. }
  destruct (replace_among _ _ _ _ cs) as [found cs'] eqn:R. simpl in *.
  unfold key at 1 3. simpl. f_equal.
  destruct (String.eqb (type f) "group"); [exact E | reflexivity].
Qed.

Lemma replace_shape_fields target m f' s :
  at_fields (replace_shape target m f' s).2 = at_fields s.
Proof.
  destruct s as [l f [[a cs] |]]; [| reflexivity]. simpl.
  now destruct (replace_among _ _ _ _ cs).
Qed.

(** *** Replacing fields all over a tree *)

(** [g] on the fields of a node and of every node below it that a walk
    reaches. *)
Fixpoint touch (g : NodeFields -> NodeFields) (n : SceneNode) : SceneNode :=
  let '(Node f ch) := n in
  Node (g f) (if String.eqb (type f) "group" then option_map (map (touch g)) ch else ch).

(** [g] on the fields of every node below the root that a walk reaches. *)
Definition below (g : NodeFields -> NodeFields) (t : SceneNode) : SceneNode :=
  Node (fields_of t) (option_map (map (touch g)) (children t)).












Section PlainRun.
Variable random : nat -> Q.
Variable dateNow : Q.

(** The working copy [s] in the world [w] during a tick on the clone [s0]:
    it is the clone but for the node objects that replaced others, and the
    node objects of the clone, which [allNodes] refers to, are as they
    were. *)
Definition tracks (s0 s : Shape) (fuel : nat) (w : World) : Prop :=
  holds w s /\ NoDup (arrays_of s) /\ (depth s <= fuel)%nat /\
  map key (visited s) = map key (visited s0) /\
  at_ref s = at_ref s0 /\
  String.eqb (type (at_fields s)) "group" = true /\
  Forall (fun c => nodes w !! at_ref c = Some (at_object c)) (visited s0).

(** What the visit of a node with the fields [f] makes of the tree [t]. *)
Definition step_tree (rule : Rule) (all : list NodeFields) (t : SceneNode) (f : NodeFields)
    : SceneNode :=
  if fires rule all f then
    match new_fields dateNow rule f with
    | Some f' => (replace_tree (id f) f' t).2
    | None => t
    end
  else t.

Definition queued_at (rule : Rule) (all : list NodeFields) (f : NodeFields) : list PendingOp :=
  if fires rule all f then queued_by rule f else [].

Lemma key_of_visited s0 s c c0 :
  map key (visited s) = map key (visited s0) ->
  NoDup (map (fun c => id (at_fields c)) (visited s0)) ->
  c ∈ visited s -> c0 ∈ visited s0 ->
  id (at_fields c) = id (at_fields c0) -> key c = key c0.
Proof.
  intros K N Hc Hc0 E.
  assert (key c ∈ map key (visited s0)) as Hk.
  { rewrite <- K. now apply list_elem_of_In, in_map, list_elem_of_In. }
  apply list_elem_of_In, in_map_iff in Hk as (c1 & E1 & H1). apply list_elem_of_In in H1.
  assert (c1 = c0) as ->; [| now symmetry].
  apply (NoDup_map_same (fun c => id (at_fields c)) (visited s0)); auto.
  unfold key in E1. congruence.
Qed.

Lemma tracks_same s0 s fuel w w' :
  nodes w' = nodes w -> arrays w' = arrays w -> tracks s0 s fuel w -> tracks s0 s fuel w'.
Proof.
  intros En Ea (H & N & D & K & R & G & O).
  repeat split; auto; [now apply (holds_same w w') | now rewrite En].
Qed.

Lemma visit_plain fuel rule s0 s now c0 w :
  tracks s0 s fuel w ->
  NoDup (map (fun c => id (at_fields c)) (visited s0)) ->
  c0 ∈ visited s0 -> plain rule = true -> countable rule (at_fields c0) = true ->
  exists w' s',
    visit random dateNow fuel rule (at_ref s0) (map at_ref (visited s0)) now (at_ref c0) w
    = Some (outcome dateNow rule (map at_fields (visited s0)) (at_fields c0), w') /\
    tracks s0 s' fuel w' /\
    erase s' = step_tree rule (map at_fields (visited s0)) (erase s) (at_fields c0) /\
    pending w' = pending w ++ queued_at rule (map at_fields (visited s0)) (at_fields c0).
Proof.
  intros T Nid Hc0 P C. pose proof T as (H & N & D & K & R & G & O).
  set (all := map at_fields (visited s0)).
  assert (nodes w !! at_ref c0 = Some (mkObj (at_fields c0) (at_kids c0))) as Hn.
  { rewrite Forall_forall in O. now apply O. }
  pose proof (checkCondition_plain random rule _ _ now w _ _ P Hn O) as E1. fold all in E1.
  assert (applyEffect random dateNow rule (at_ref c0) w
          = match new_fields dateNow rule (at_fields c0) with
            | Some f' => Some (Some (length (nodes w)), add_node (mkObj f' (at_kids c0)) w)
            | None => Some (None, push_all (queued_by rule (at_fields c0)) w)
            end) as E2.
  { unfold applyEffect, mbind, stateful_bind.
    rewrite (replacement_plain dateNow random rule _ w _ _ P C Hn).
    destruct (new_fields dateNow rule (at_fields c0)) as [f' |] eqn:Nf; [| reflexivity].
    now rewrite (new_fields_quiet _ _ _ _ Nf), push_all_nil. }
  unfold visit, outcome, step_tree, queued_at, mbind, stateful_bind. rewrite E1.
  destruct (fires rule all (at_fields c0)) eqn:F.
  2:{ exists w, s. rewrite app_nil_r. repeat split; auto. }
  rewrite E2.
  destruct (new_fields dateNow rule (at_fields c0)) as [f' |] eqn:Nf.
  2:{ exists (push_all (queued_by rule (at_fields c0)) w), s.
      split; [| split; [now apply (tracks_same s0 s fuel w) | split; reflexivity]].
      unfold mret, stateful_ret, structural. now destruct (etype (effect rule)). }
  rewrite (new_fields_quiet _ _ _ _ Nf), app_nil_r.
  destruct (new_fields_id _ _ _ _ Nf) as [Ei Et].
  set (m := length (nodes w)).
  set (w1 := add_node (mkObj f' (at_kids c0)) w).
  assert (holds w1 s) as H1.
  { apply (holds_frame w); auto. simpl. now apply prefix_app_r. }
  destruct (replaceNode_shape (id (at_fields c0)) m f' s w1 fuel) as (w2 & R1 & R2 & R3 & _);
    auto.
  { apply Forall_forall. intros c Hc Hid.
    assert (key c = key c0) as Ek.
    { apply (key_of_visited s0 s); auto. rewrite visited_examined, G. now right. }
    unfold key in Ek. injection Ek as _ _ ->.
    simpl. unfold m. now apply list_lookup_middle. }
  set (s' := (replace_shape (id (at_fields c0)) m f' s).2) in *.
  set (w3 := mkWorld (nodes w2) (arrays w2) (pending w2)
               (<[rule_id rule := <[id (at_fields c0) := now]>
                    (default ∅ (cooldowns w2 !! rule_id rule))]> (cooldowns w2))
               (draws w2)).
  exists w3, s'.
  destruct R3 as (Rn & Rp & _).
  split; [| split; [| split]].
  - unfold read_node.
    assert (nodes w1 !! at_ref c0 = Some (mkObj (at_fields c0) (at_kids c0))) as ->
      by apply (lookup_app_l_Some _ _ _ _ Hn).
    cbn [fields]. rewrite <- R, R1. rewrite stamp_cooldown_spec. reflexivity.
  - apply (tracks_same s0 s' fuel w2 w3); [reflexivity | reflexivity |].
    unfold s'. repeat split.
    + exact R2.
    + now rewrite replace_shape_arrays.
    + now rewrite replace_shape_depth.
    + rewrite <- K. apply replace_shape_keys; [exact Ei |].
      apply Forall_forall. intros c Hc Hid.
      assert (key c = key c0) as Ek.
      { apply (key_of_visited s0 s); auto. rewrite visited_examined, G. now right. }
      unfold key in Ek. injection Ek as _ -> _. exact Et.
    + now rewrite replace_shape_ref.
    + now rewrite replace_shape_fields.
    + rewrite Rn. simpl. rewrite Forall_forall in *. intros c Hc.
      now apply lookup_app_l_Some, O.
  - unfold s'. pose proof (erase_replace (id (at_fields c0)) m f' s) as E.
    now rewrite <- E.
  - simpl. exact Rp.
Qed.

(** The statistics after one rule, from the outcomes of its visits. *)
Definition stats_after (rule : Rule) (all : list NodeFields) (stats : RuleStats) : RuleStats :=
  let outcomes := map (outcome dateNow rule all) all in
  mkStats (S (rulesEvaluated stats))
          (if existsb fst outcomes then S (rulesFired stats) else rulesFired stats)
          (nodesAffected stats + length (List.filter snd outcomes)).

(** The tree, the statistics and the queue of a tick, rule by rule and
    node by node. *)
Definition tick_tree (rules : list Rule) (all : list NodeFields) (t : SceneNode) : SceneNode :=
  fold_left (fun t rule => fold_left (step_tree rule all) all t) rules t.

Definition tick_stats (rules : list Rule) (all : list NodeFields) (stats : RuleStats)
    : RuleStats :=
  fold_left (fun stats rule => stats_after rule all stats) rules stats.

Definition tick_queue (rules : list Rule) (all : list NodeFields) : list PendingOp :=
  flat_map (fun rule => flat_map (queued_at rule all) all) rules.

Lemma visits_plain fuel rule s0 now (cs : list Shape) :
  NoDup (map (fun c => id (at_fields c)) (visited s0)) ->
  plain rule = true ->
  Forall (fun c => c ∈ visited s0 /\ countable rule (at_fields c) = true) cs ->
  forall s w, tracks s0 s fuel w ->
  exists w' s',
    for_each (visit random dateNow fuel rule (at_ref s0) (map at_ref (visited s0)) now)
             (map at_ref cs) w
    = Some (map (fun c => outcome dateNow rule (map at_fields (visited s0)) (at_fields c)) cs,
            w') /\
    tracks s0 s' fuel w' /\
    erase s' = fold_left (step_tree rule (map at_fields (visited s0)))
                         (map at_fields cs) (erase s) /\
    pending w' = pending w ++
                 flat_map (queued_at rule (map at_fields (visited s0))) (map at_fields cs).
Proof.
  intros Nid P. induction 1 as [| c rest [Hc Cc] _ IH]; intros s w T.
  - exists w, s. rewrite app_nil_r. split; [reflexivity | split; [exact T | split; reflexivity]].
  - destruct (visit_plain fuel rule s0 s now c w T Nid Hc P Cc) as (w1 & s1 & E1 & T1 & Er1 & P1).
    destruct (IH s1 w1 T1) as (w2 & s2 & E2 & T2 & Er2 & P2).
    exists w2, s2. split; [| split; [exact T2 | split]].
    + simpl. unfold mbind, stateful_bind. rewrite E1, E2. reflexivity.
    + simpl. now rewrite Er2, Er1.
    + simpl. now rewrite P2, P1, app_assoc.
Qed.

Lemma evaluate_plain fuel rule s0 s now stats w :
  NoDup (map (fun c => id (at_fields c)) (visited s0)) ->
  plain rule = true ->
  Forall (fun c => countable rule (at_fields c) = true) (visited s0) ->
  tracks s0 s fuel w ->
  exists w' s',
    evaluate random dateNow fuel (at_ref s0) (map at_ref (visited s0)) now stats rule w
    = Some (stats_after rule (map at_fields (visited s0)) stats, w') /\
    tracks s0 s' fuel w' /\
    erase s' = fold_left (step_tree rule (map at_fields (visited s0)))
                         (map at_fields (visited s0)) (erase s) /\
    pending w' = pending w ++
                 flat_map (queued_at rule (map at_fields (visited s0)))
                          (map at_fields (visited s0)).
Proof.
  intros Nid P C T.
  assert (exists w0,
            (match cooldowns w !! rule_id rule with
             | Some _ => mret tt
             | None => set_cooldowns (<[rule_id rule := ∅]> (cooldowns w))
             end) w = Some (tt, w0) /\ nodes w0 = nodes w /\ arrays w0 = arrays w /\
            pending w0 = pending w)
    as (w0 & E0 & Hn0 & Ha0 & Hp0).
  { destruct (cooldowns w !! rule_id rule); eexists; (split; [reflexivity |]); auto. }
  destruct (visits_plain fuel rule s0 now (visited s0) Nid P) with (s := s) (w := w0)
    as (w1 & s1 & E1 & T1 & Er1 & P1).
  { apply Forall_forall. intros c Hc. split; [exact Hc |].
    rewrite Forall_forall in C. now apply C. }
  { now apply (tracks_same s0 s fuel w). }
  exists w1, s1. split; [| split; [exact T1 | split; [exact Er1 | now rewrite P1, Hp0]]].
  unfold evaluate, mbind, stateful_bind, get_cooldowns. rewrite E0, E1.
  unfold mret, stateful_ret, stats_after. now rewrite map_map.
Qed.

Lemma evaluate_all_plain fuel s0 now (rules : list Rule) :
  NoDup (map (fun c => id (at_fields c)) (visited s0)) ->
  Forall (fun rule => plain rule = true /\
            Forall (fun c => countable rule (at_fields c) = true) (visited s0)) rules ->
  forall s stats w, tracks s0 s fuel w ->
  exists w' s',
    evaluate_all random dateNow fuel (at_ref s0) (map at_ref (visited s0)) now stats rules w
    = Some (tick_stats rules (map at_fields (visited s0)) stats, w') /\
    tracks s0 s' fuel w' /\
    erase s' = tick_tree rules (map at_fields (visited s0)) (erase s) /\
    pending w' = pending w ++ tick_queue rules (map at_fields (visited s0)).
Proof.
  intros Nid. induction 1 as [| rule rest [P C] _ IH]; intros s stats w T.
  - exists w, s. rewrite app_nil_r. split; [reflexivity | split; [exact T | split; reflexivity]].
  - destruct (evaluate_plain fuel rule s0 s now stats w Nid P C T)
      as (w1 & s1 & E1 & T1 & Er1 & P1).
    destruct (IH s1 (stats_after rule (map at_fields (visited s0)) stats) w1 T1)
      as (w2 & s2 & E2 & T2 & Er2 & P2).
    exists w2, s2. split; [| split; [exact T2 | split]].
    + simpl. unfold mbind, stateful_bind. rewrite E1. exact E2.
    + simpl. now rewrite Er2, Er1.
    + simpl. now rewrite P2, P1, app_assoc.
Qed.

(** One tick of plain rules on a document with unique ids whose root is a
    group, as a function of the document. *)
Lemma run_tick_plain (rules : list Rule) (now : Q) (cds : gmap string (gmap string Q))
    (doc : SceneGraph) :
  let tickRules := List.filter is_tick rules in
  let all := map fields_of (Scene.walkNodes (root doc)) in
  NoDup (allNodeIds (root doc)) ->
  is_group (root doc) = true ->
  Forall (fun rule => plain rule = true /\
            Forall (fun f => countable rule f = true) all) tickRules ->
  exists cds',
    run_tick random dateNow rules now cds doc
    = Some (mkTickResult (Tools.with_root doc (tick_tree tickRules all (root doc)))
                         (tick_stats tickRules all (mkStats 0 0 0))
                         (tick_queue tickRules all) cds').
Proof.
  intros tickRules all Nid G PC.
  destruct (clone_shape (root doc) (mkWorld [] [] [] cds 0))
    as (s0 & w1 & Ec & Hs & Hh & Hx & _ & Na).
  pose proof (visited_erase s0) as Hv. rewrite Hs in Hv.
  assert (map at_fields (visited s0) = all) as Hall.
  { unfold all. rewrite <- Hv, map_map. apply map_ext. intros c. now rewrite erase_fields. }
  assert (map (fun c => id (at_fields c)) (visited s0) = allNodeIds (root doc)) as Hids.
  { unfold allNodeIds. rewrite <- Hv, map_map. apply map_ext. intros c.
    unfold node_id. now rewrite erase_fields. }
  assert (depth s0 <= S (size (root doc)))%nat as D.
  { pose proof (depth_size s0). rewrite Hs in *. lia. }
  assert (tracks s0 s0 (S (size (root doc))) w1) as T.
  { repeat split; auto.
    - rewrite <- erase_fields, Hs. exact G.
    - apply Forall_forall. intros c Hc. apply holds_object. eapply holds_visited; eauto. }
  destruct (evaluate_all_plain (S (size (root doc))) s0 now tickRules) with
    (s := s0) (stats := mkStats 0 0 0) (w := w1) as (w2 & s2 & Ev & T2 & Er & Pq); auto.
  { now rewrite Hids. }
  { rewrite Forall_forall in *. intros rule Hr. destruct (PC rule Hr) as [P C].
    split; [exact P |]. apply Forall_forall. intros c Hc.
    rewrite Forall_forall in C. apply C. rewrite <- Hall.
    now apply list_elem_of_In, in_map, list_elem_of_In. }
  destruct T2 as (H2 & _ & D2 & _ & R2 & _ & _).
  exists (cooldowns w2).
  unfold run_tick, tick, collectNodes, mbind, stateful_bind. rewrite Ec.
  rewrite (walkNodes_shape s0 w1 _ Hh D). fold tickRules. rewrite Ev.
  unfold mret, stateful_ret. cbn [fst snd]. rewrite <- R2.
  rewrite (snapshot_shape s2 w2 _ H2 D2).
  destruct Hx as (_ & _ & Hp & _). rewrite Er, Pq, Hp, Hs, Hall. reflexivity.
Qed.






Lemma walk_head t : Scene.walkNodes t = t :: tl (Scene.walkNodes t).
Proof. now destruct t. Qed.










Lemma new_fields_structural rule f :
  structural rule = true -> new_fields dateNow rule f = None.
Proof.
  unfold structural, new_fields. destruct (etype (effect rule)); try discriminate; reflexivity.
Qed.

(** Rules that spawn or remove leave the tree as it is. *)
Lemma tick_tree_structural rules all t :
  Forall (fun rule => structural rule = true) rules -> tick_tree rules all t = t.
Proof.
  unfold tick_tree. induction 1 as [| rule rest S _ IH]; [reflexivity |].
  simpl. rewrite <- IH at 2. f_equal. generalize all at 2 as l.
  induction l as [| f l IHl]; [reflexivity |]. simpl. rewrite <- IHl at 2. f_equal.
  unfold step_tree. rewrite (new_fields_structural rule f S). now destruct (fires rule all f).
Qed.

Lemma tick_stats_structural rules all stats :
  Forall (fun rule => structural rule = true) rules ->
  nodesAffected (tick_stats rules all stats) = nodesAffected stats /\
  rulesEvaluated (tick_stats rules all stats) = (rulesEvaluated stats + length rules)%nat.
Proof.
  unfold tick_stats. intros F. revert stats.
  induction F as [| rule rest S _ IH]; intros stats; [simpl; lia |].
  simpl. destruct (IH (stats_after rule all stats)) as [-> ->].
  unfold stats_after. simpl. split; [| lia].
  assert (List.filter snd (map (outcome dateNow rule all) all) = []) as ->; [| simpl; lia].
  generalize all at 2 as l.
  induction l as [| f l IHl]; [reflexivity |]. simpl.
  unfold outcome at 1. rewrite (new_fields_structural rule f S).
  now destruct (fires rule all f).
Qed.

Lemma countable_structural rule f : structural rule = true -> countable rule f = true.
Proof.
  unfold structural, countable. destruct (etype (effect rule)); try discriminate; reflexivity.
Qed.

(** X17: spawn and remove rules only queue.  On a document with unique ids
    whose root is a group, a tick of [plain] rules (no probability, no
    cooldown, no variance) that all spawn or remove
    returns the scene unchanged and counts no node as affected; it queues
    one operation for every node that a rule fires on (none for a spawn
    rule without a template), rule by rule in the order of the rules, and
    for each rule in the order of the walk. *)
Theorem spawn_and_remove_only_queue (rules : list Rule) (now : Q)
    (cds : gmap string (gmap string Q)) (doc : SceneGraph) :
  let tickRules := List.filter is_tick rules in
  let all := map fields_of (Scene.walkNodes (root doc)) in
  NoDup (allNodeIds (root doc)) ->
  is_group (root doc) = true ->
  Forall (fun rule => plain rule = true /\ structural rule = true) tickRules ->
  exists res,
    run_tick random dateNow rules now cds doc = Some res /\
    simulatedScene res = doc /\
    queued res
    = flat_map (fun rule =>
                  flat_map (fun f => if fires rule all f then queued_by rule f else []) all)
               tickRules /\
    nodesAffected (stats res) = 0%nat /\
    rulesEvaluated (stats res) = length tickRules.
Proof.
  intros tickRules all N G PS.
  destruct (run_tick_plain rules now cds doc N G) as (cds' & E).
  { rewrite Forall_forall in *. intros rule Hr. destruct (PS rule Hr) as [P S].
    split; [exact P |]. apply Forall_forall. intros f _. now apply countable_structural. }
  assert (Forall (fun rule => structural rule = true) tickRules) as S.
  { rewrite Forall_forall in *. intros rule Hr. now apply PS. }
  eexists. split; [exact E |]. cbn [simulatedScene queued stats]. fold tickRules all.
  rewrite (tick_tree_structural _ _ _ S).
  split; [apply Tools.with_root_same |]. split; [reflexivity |].
  destruct (tick_stats_structural tickRules all (mkStats 0 0 0) S) as [-> ->].
  split; reflexivity.
Qed.

End PlainRun.

(** *** The flush of the queue, and the removal from end to end *)

Import (hints) Random.

(** An operation that [flushPending] hands to [scene.batch]: an [add]
    with its node, or a [remove] with its [nodeIds]. *)
Inductive BatchOp :=
| BatchAdd (node : object)
| BatchRemove (nodeIds : list string).

(** [const { spawnOffset: _so, ...nodeProps } = node] *)
Definition without (k : string) (o : object) : object :=
  List.filter (fun kv => negb (String.eqb kv.1 k)) o.

Section Flush.
Variable dateNow : Q.
(** [r.toString(36).slice(2, 10) + now.toString(36)] for the value [r] of
    [Math.random()] and the value [now] of [Date.now()]. *)
Variable spawn_id : Q -> Q -> string.

(** [node.spawnOffset?.x] and [node.spawnOffset?.y] *)
Definition offset_of (node : object) (axis : string) : option json :=
  match get "spawnOffset" node with
  | Some (JObj o) => get axis o
  | _ => None
  end.

(** [pos + (offset ?? (Math.random() - 0.5) * 60)], where it is a sum of
    numbers; [None] where [+] concatenates. *)
Definition spawn_coord (pos : Q) (offset : option json) : Random.Rand (option Q) :=
  match offset with
  | None | Some JNull => r ← Random.Math_random; mret (Some (pos + (r - (1 # 2)) * 60))
  | Some (JNum q) => mret (Some (pos + q))
  | Some (JBool b) => mret (Some (pos + (if b then 1 else 0)))
  | Some (JStr _) | Some (JArr _) | Some (JObj _) => mret None
  end.

(** [{ ...(t ?? {}) }] for a transform [t] that is an object or no object
    at all; a string or an array would spread into index keys. *)
Definition spread_transform_of (t : option json) : option object :=
  match t with
  | None | Some JNull | Some (JNum _) | Some (JBool _) => Some []
  | Some (JObj o) => Some o
  | Some (JStr _) | Some (JArr _) => None
  end.

(** The batch operation for one pending operation. *)
Definition flush_one (op : PendingOp) : Random.Rand (option BatchOp) :=
  match op with
  | PSpawn node parentPos =>
      r ← Random.Math_random;
      let i := spawn_id r dateNow in
      spawnX ← spawn_coord (vx parentPos) (offset_of node "x");
      spawnY ← spawn_coord (vy parentPos) (offset_of node "y");
      let nodeProps := without "spawnOffset" node in
      mret (match spawnX, spawnY, spread_transform_of (get "transform" nodeProps) with
            | Some sx, Some sy, Some t =>
                Some (BatchAdd (set "transform" (JObj (set "y" (JNum sy) (set "x" (JNum sx) t)))
                                    (set "id" (JStr i) nodeProps)))
            | _, _, _ => None
            end)
  | PRemove nodeId => mret (Some (BatchRemove [nodeId]))
  end.

(** [flushPending]: the operations of the batch, in the order of the
    queue.  The tool is called when there is one at least. *)
Fixpoint flushPending (ops : list PendingOp) : Random.Rand (option (list BatchOp)) :=
  match ops with
  | [] => mret (Some [])
  | op :: rest =>
      b ← flush_one op;
      bs ← flushPending rest;
      mret (match b, bs with
            | Some b, Some bs => Some (b :: bs)
            | _, _ => None
            end)
  end.

End Flush.

(** The [remove] operation as the handler of [scene.batch] reads it. *)
Definition as_remove (nodeId : string) : Tools.Op := Tools.OpRemove None (Some [nodeId]) None.

(** The ids of the nodes that the rules fire on, rule by rule. *)
Definition fired_ids (rules : list Rule) (all : list NodeFields) : list string :=
  flat_map (fun rule => map id (List.filter (fires rule all) all)) rules.

Lemma tick_queue_removes (rules : list Rule) (all : list NodeFields) :
  Forall (fun rule => etype (effect rule) = Eremove) rules ->
  tick_queue rules all = map PRemove (fired_ids rules all).
Proof.
  unfold tick_queue, fired_ids. induction 1 as [| rule rest E _ IH]; [reflexivity |].
  simpl. rewrite map_app, IH. f_equal.
  assert (forall l, flat_map (queued_at rule all) l
                    = map PRemove (map id (List.filter (fires rule all) l))) as Gen;
    [| apply Gen].
  induction l as [| f l IHl]; [reflexivity |].
  simpl. unfold queued_at at 1, queued_by. rewrite E.
  destruct (fires rule all f); simpl; now rewrite IHl.
Qed.

Lemma flush_removes dateNow spawn_id (ids : list string) random i :
  flushPending dateNow spawn_id (map PRemove ids) random i
  = (Some (map (fun x => BatchRemove [x]) ids), i).
Proof.
  induction ids as [| x rest IH]; [reflexivity |].
  simpl. unfold mbind, Random.rand_bind, mret, Random.rand_ret in *. simpl. now rewrite IH.
Qed.

Lemma listed_is_found n x : x ∈ allNodeIds n -> exists m, findNode n x = Some m.
Proof.
  intros H. destruct (findNode n x) as [m |] eqn:F; [eauto |].
  rewrite Helpers.findNode_first in F.
  apply list_elem_of_In, in_map_iff in H as (m & E & Hm).
  apply (find_none _ _ F) in Hm. rewrite E, String.eqb_refl in Hm. discriminate.
Qed.

Section Removal.
Variable uid : nat -> string.
Variable timestamp : Q.

Lemma run_removes (ids : list string) :
  forall w results,
    is_group (root (Tools.scene w)) = true ->
    NoDup (allNodeIds (root (Tools.scene w))) ->
    Tools.scene (Tools.run_ops uid timestamp w results (map as_remove ids)).1
    = Tools.with_root (Tools.scene w)
        (Tools.prune (fun x => existsb (String.eqb x) ids) (root (Tools.scene w))).
Proof.
  induction ids as [| i rest IH]; intros w results G N.
  - simpl. rewrite Tools.prune_nothing by reflexivity. now rewrite Tools.with_root_same.
  - assert (Tools.exec_op uid timestamp w (as_remove i)
            = (Tools.mkWorking
                 (Tools.with_root (Tools.scene w)
                    (Tools.remove_each (root (Tools.scene w)) [i]).1)
                 (Tools.uids_used w), inr (Some (Tools.RemoveIds [i])))) as X by reflexivity.
    rewrite (Tools.remove_each_prune _ _ G N) in X.
    cbn [map Tools.run_ops]. rewrite X.
    rewrite IH; cbn [Tools.scene Tools.with_root root].
    + rewrite Tools.prune_prune. f_equal. apply Tools.prune_ext.
      intros x. simpl. now rewrite orb_false_r.
    + now rewrite Tools.prune_is_group.
    + now apply Tools.prune_NoDup.
Qed.

Variable random : nat -> Q.
Variable dateNow : Q.
Variable spawn_id : Q -> Q -> string.

(** X20: a remove rule removes, from end to end.  On a document with
    unique ids whose root is a group, a tick of [plain] remove rules (no
    probability, no cooldown, no variance) leaves
    the simulated scene as it is and queues the removal of every node that
    a rule fires on; [flushPending] turns the queue into one [remove]
    operation per entry without drawing a random number; and the batch of
    these operations, run on the document, stores the document without
    those nodes and all below them.  A node that a rule fired on is gone
    unless it is the root. *)
Theorem remove_rules_remove (rules : list Rule) (now : Q)
    (cds : gmap string (gmap string Q)) (doc : SceneGraph) (draws : nat -> Q) (i : nat) :
  let tickRules := List.filter is_tick rules in
  let all := map fields_of (Scene.walkNodes (root doc)) in
  let ids := fired_ids tickRules all in
  NoDup (allNodeIds (root doc)) ->
  is_group (root doc) = true ->
  Forall (fun rule => plain rule = true /\ etype (effect rule) = Eremove) tickRules ->
  exists res,
    run_tick random dateNow rules now cds doc = Some res /\
    simulatedScene res = doc /\
    flushPending dateNow spawn_id (queued res) draws i
    = (Some (map (fun x => BatchRemove [x]) ids), i) /\
    (Tools.scene_batch uid timestamp (Some doc) (map as_remove ids)).1
    = Tools.with_root doc (Tools.prune (fun x => existsb (String.eqb x) ids) (root doc)) /\
    forall x, x ∈ ids -> x <> node_id (root doc) ->
      x ∉ allNodeIds (root (Tools.scene_batch uid timestamp (Some doc) (map as_remove ids)).1).
Proof.
  intros tickRules all ids N G PR.
  assert (Forall (fun rule => structural rule = true) tickRules) as S.
  { rewrite Forall_forall in *. intros rule Hr. destruct (PR rule Hr) as [_ E].
    unfold structural. now rewrite E. }
  destruct (run_tick_plain random dateNow rules now cds doc N G) as (cds' & E).
  { rewrite Forall_forall in *. intros rule Hr. destruct (PR rule Hr) as [P _].
    split; [exact P |]. apply Forall_forall. intros f _. apply countable_structural.
    now apply S. }
  assert ((Tools.scene_batch uid timestamp (Some doc) (map as_remove ids)).1
          = Tools.with_root doc
              (Tools.prune (fun x => existsb (String.eqb x) ids) (root doc))) as B.
  { unfold Tools.scene_batch. cbv zeta.
    pose proof (run_removes ids (Tools.mkWorking (Tools.cloneScene (Tools.getScene (Some doc))) 0)
                  [] G N) as R.
    destruct (Tools.run_ops _ _ _ _ _) as [w' results]. exact R. }
  eexists. split; [exact E |]. cbn [simulatedScene queued]. fold tickRules all.
  rewrite (tick_tree_structural dateNow _ _ _ S).
  split; [apply Tools.with_root_same |]. split; [| split; [exact B |]].
  - rewrite tick_queue_removes; [apply flush_removes |].
    rewrite Forall_forall in *. intros rule Hr. now apply PR.
  - intros x Hx Hroot. rewrite B. cbn [Tools.with_root root].
    assert (x ∈ allNodeIds (root doc)) as Hin.
    { unfold ids, fired_ids in Hx. apply Tools.elem_of_flat_map in Hx as (rule & _ & Hx).
      apply list_elem_of_In, in_map_iff in Hx as (f & <- & Hf).
      apply filter_In in Hf as [Hf _]. unfold all in Hf.
      apply in_map_iff in Hf as (n & <- & Hn).
      apply (walked_id _ _). now apply list_elem_of_In. }
    destruct (listed_is_found _ _ Hin) as [m F].
    apply (Tools.pruned_unreachable _ _ x x N); auto.
    + apply existsb_exists. exists x. split; [now apply list_elem_of_In | apply String.eqb_refl].
    + unfold Tools.subtree_ids. rewrite F.
      destruct (Tools.findNode_inside _ _ _ F) as [<- _]. apply Tools.own_id_elem.
Qed.

End Removal.

(** *** The rule tools *)

(** The input of [_rules.set]. *)
Record RuleInput := mkRuleInput {
  in_id : string;
  in_name : string;
  in_description : option string;
  in_enabled : option bool;
  in_trigger : option Trigger;
  in_condition : Condition;
  in_effect : Effect
}.

Definition rule_of (input : RuleInput) : Rule :=
  mkRule (in_id input) (in_name input) (default "" (in_description input))
         (default true (in_enabled input)) (default Tick (in_trigger input))
         (in_condition input) (in_effect input).

(** [rules.findIndex(r => r.id === id)] *)
Fixpoint rule_index (i : string) (rules : list Rule) : option nat :=
  match rules with
  | [] => None
  | r :: rest =>
      if String.eqb (rule_id r) i then Some 0%nat else option_map S (rule_index i rest)
  end.

Record SetOutput := mkSetOutput { ruleId : string; total : nat; action : string }.

(** The handler of [_rules.set]: the rules it stores and what it returns. *)
Definition rules_set (state_rules : option (list Rule)) (input : RuleInput)
    : list Rule * SetOutput :=
  let rules := default [] state_rules in
  let rule := rule_of input in
  match rule_index (in_id input) rules with
  | Some idx =>
      let rules := <[idx := rule]> rules in
      (rules, mkSetOutput (rule_id rule) (length rules) "updated")
  | None =>
      let rules := rules ++ [rule] in
      (rules, mkSetOutput (rule_id rule) (length rules) "created")
  end.

(** The handler of [_rules.remove]: the rules it stores and [remaining]. *)
Definition rules_remove (state_rules : option (list Rule)) (i : string) : list Rule * nat :=
  let rules := List.filter (fun r => negb (String.eqb (rule_id r) i)) (default [] state_rules) in
  (rules, length rules).

(** [rules.find(r => r.id === id)] *)
Definition find_rule (i : string) (rules : list Rule) : option Rule :=
  List.find (fun r => String.eqb (rule_id r) i) rules.

(** The stored list, by recursion on the list before. *)
Fixpoint upsert_rule (rule : Rule) (rules : list Rule) : list Rule :=
  match rules with
  | [] => [rule]
  | r :: rest =>
      if String.eqb (rule_id r) (rule_id rule) then rule :: rest
      else r :: upsert_rule rule rest
  end.

Lemma rules_set_upsert st input :
  (rules_set st input).1 = upsert_rule (rule_of input) (default [] st) /\
  (action (rules_set st input).2 = "updated" <->
     in_id input ∈ map rule_id (default [] st)) /\
  (action (rules_set st input).2 = "created" <->
     in_id input ∉ map rule_id (default [] st)) /\
  total (rules_set st input).2 = length (rules_set st input).1 /\
  ruleId (rules_set st input).2 = in_id input.
Proof.
  unfold rules_set. cbv zeta. generalize (default [] st) as rules. intros rules.
  change (rule_id (rule_of input)) with (in_id input).
  assert (match rule_index (in_id input) rules with
          | Some idx => <[idx := rule_of input]> rules = upsert_rule (rule_of input) rules /\
                        in_id input ∈ map rule_id rules
          | None => rules ++ [rule_of input] = upsert_rule (rule_of input) rules /\
                    in_id input ∉ map rule_id rules
          end) as H.
  { induction rules as [| r rest IH]; simpl.
    - split; [reflexivity | apply not_elem_of_nil].
    - change (rule_id (rule_of input)) with (in_id input).
      destruct (String.eqb_spec (rule_id r) (in_id input)) as [E | E].
      + simpl. split; [reflexivity | rewrite E; left].
      + destruct (rule_index (in_id input) rest) as [idx |]; simpl; destruct IH as [IH1 IH2].
        * split; [now rewrite IH1 | now right].
        * split; [now rewrite IH1 |]. apply not_elem_of_cons. split; [congruence | exact IH2]. }
  destruct (rule_index (in_id input) rules) as [idx |]; destruct H as [H1 H2]; simpl.
  - repeat split; auto; try discriminate. intros H. contradiction.
  - repeat split; auto; try discriminate. intros H. contradiction.
Qed.

Lemma upsert_rule_finds rule rules j :
  find_rule j (upsert_rule rule rules)
  = if String.eqb (rule_id rule) j then Some rule else find_rule j rules.
Proof.
  unfold find_rule. induction rules as [| r rest IH]; simpl.
  - now destruct (String.eqb (rule_id rule) j).
  - destruct (String.eqb_spec (rule_id r) (rule_id rule)) as [E | E]; simpl.
    + rewrite E. now destruct (String.eqb (rule_id rule) j).
    + destruct (String.eqb_spec (rule_id r) j) as [F | F].
      * destruct (String.eqb_spec (rule_id rule) j); [congruence | reflexivity].
      * exact IH.
Qed.

Lemma upsert_rule_ids rule rules :
  NoDup (map rule_id rules) -> NoDup (map rule_id (upsert_rule rule rules)) /\
  forall x, x ∈ map rule_id (upsert_rule rule rules) <->
            x = rule_id rule \/ x ∈ map rule_id rules.
Proof.
  induction rules as [| r rest IH]; simpl; intros N.
  - split; [apply NoDup_singleton |]. intros x. rewrite list_elem_of_singleton.
    split; [now left | intros [H | H]; [exact H | now apply not_elem_of_nil in H]].
  - apply NoDup_cons in N as [N0 N]. destruct (IH N) as [IH1 IH2].
    destruct (String.eqb_spec (rule_id r) (rule_id rule)) as [E | E]; simpl.
    + split; [apply NoDup_cons; split; [now rewrite <- E | exact N] |].
      intros x. rewrite !elem_of_cons, E. tauto.
    + split.
      * apply NoDup_cons. split; [| exact IH1]. rewrite IH2. intros [H | H]; [congruence | auto].
      * intros x. rewrite !elem_of_cons, IH2. tauto.
Qed.

Lemma remove_upsert rule rules i :
  i = rule_id rule ->
  List.filter (fun r => negb (String.eqb (rule_id r) i)) (upsert_rule rule rules)
  = List.filter (fun r => negb (String.eqb (rule_id r) i)) rules.
Proof.
  intros ->. induction rules as [| r rest IH]; simpl.
  - now rewrite String.eqb_refl.
  - destruct (String.eqb (rule_id r) (rule_id rule)) eqn:E; simpl.
    + now rewrite String.eqb_refl.
    + now rewrite E, IH.
Qed.

(** X21: [_rules.set] is an upsert keyed by the rule's id, and
    [_rules.remove] undoes it.  After [_rules.set] the lookup by the id
    returns the rule of the input, with description [""], enabled and
    trigger [tick] where the input leaves them out, so that a rule set
    with neither is a tick rule; every other id finds what it found; the
    action is [updated] exactly when the id was listed and [created]
    otherwise; [total] is the length of the list; ids that were unique
    stay unique.  [_rules.remove] of the id then stores what it would have
    stored before the set: no rule with the id, and the others as they
    were. *)
Theorem rule_tools_upsert (state_rules : option (list Rule)) (input : RuleInput) :
  let before := default [] state_rules in
  let stored := (rules_set state_rules input).1 in
  let out := (rules_set state_rules input).2 in
  find_rule (in_id input) stored = Some (rule_of input) /\
  (forall j, j <> in_id input -> find_rule j stored = find_rule j before) /\
  (action out = "updated" <-> in_id input ∈ map rule_id before) /\
  (action out = "created" <-> in_id input ∉ map rule_id before) /\
  total out = length stored /\
  (NoDup (map rule_id before) -> NoDup (map rule_id stored)) /\
  (in_enabled input = None -> in_trigger input = None -> is_tick (rule_of input) = true) /\
  (rules_remove (Some stored) (in_id input)).1 = (rules_remove state_rules (in_id input)).1 /\
  find_rule (in_id input) (rules_remove (Some stored) (in_id input)).1 = None /\
  (forall j, j <> in_id input ->
     find_rule j (rules_remove (Some stored) (in_id input)).1 = find_rule j before).
Proof.
  cbv zeta. destruct (rules_set_upsert state_rules input) as (E & U & C & T & _).
  rewrite E.
  change (rules_remove (Some (upsert_rule (rule_of input) (default [] state_rules)))
            (in_id input)).1
    with (List.filter (fun r => negb (String.eqb (rule_id r) (in_id input)))
            (upsert_rule (rule_of input) (default [] state_rules))).
  change (rules_remove state_rules (in_id input)).1
    with (List.filter (fun r => negb (String.eqb (rule_id r) (in_id input)))
            (default [] state_rules)).
  rewrite remove_upsert by reflexivity.
  revert U C T. rewrite E. generalize (default [] state_rules) as rules.
  intros rules U C T.
  split; [| split; [| split; [exact U | split; [exact C | split; [exact T |]]]]].
  - rewrite upsert_rule_finds. cbn [rule_id rule_of]. now rewrite String.eqb_refl.
  - intros j Hj. rewrite upsert_rule_finds. cbn [rule_id rule_of].
    destruct (String.eqb_spec (in_id input) j) as [F | _]; [| reflexivity].
    now destruct Hj.
  - split; [intros N; now apply upsert_rule_ids |].
    split; [intros He Ht; unfold is_tick, rule_of; simpl; now rewrite He, Ht |].
    split; [reflexivity |]. unfold find_rule. clear U C T. split.
    + induction rules as [| r rest IH]; [reflexivity |]. simpl.
      destruct (String.eqb (rule_id r) (in_id input)) eqn:F; simpl;
        [exact IH | now rewrite F].
    + intros j Hj. induction rules as [| r rest IH]; [reflexivity |]. simpl.
      destruct (String.eqb_spec (rule_id r) (in_id input)) as [F | F]; simpl.
      * rewrite IH. destruct (String.eqb_spec (rule_id r) j) as [F' | _]; [| reflexivity].
        destruct Hj. now rewrite <- F', F.
      * now rewrite IH.
Qed.


Definition reap : Rule :=
  mkRule "reap" "Reap" "Remove fish" true Tick
    (mkCondition "entityType:fish" None None None None)
    (mkEffect Eremove None None None None None None None None None None None None).


Lemma spawn_and_remove_only_queue_witness :
  exists res,
    run_tick (fun _ => 0) 0 [reap] 100 ∅ lake = Some res /\
    simulatedScene res = lake /\ queued res = [PRemove "f1"].
Proof.
  destruct (spawn_and_remove_only_queue (fun _ => 0) 0 [reap] 100 ∅ lake)
    as (res & E & S & Q & _).
  - apply (bool_decide_unpack _). vm_compute. exact I.
  - reflexivity.
  - repeat constructor.
  - exists res. split; [exact E | split; [exact S | exact Q]].
Defined.

Lemma remove_rules_remove_witness :
  exists res,
    run_tick (fun _ => 0) 0 [reap] 100 ∅ lake = Some res /\
    "f1" ∉ allNodeIds
             (root (Tools.scene_batch (fun _ => "u") 0 (Some lake)
                      (map as_remove (fired_ids [reap]
                                        (map fields_of (Scene.walkNodes (root lake)))))).1).
Proof.
  destruct (remove_rules_remove (fun _ => "u") 0 (fun _ => 0) 0 (fun _ _ => "s") [reap] 100 ∅
              lake (fun _ => 0) 0%nat) as (res & E & _ & _ & _ & U).
  - apply (bool_decide_unpack _). vm_compute. exact I.
  - reflexivity.
  - repeat constructor.
  - exists res. split; [exact E |]. apply U; [| discriminate].
    apply (bool_decide_unpack _). vm_compute. exact I.
Defined.

End Rules.

(** ** Reconciler (src/scene/renderer-pixi.ts)

    The display objects of the backend are kept in a store.  Of a display
    object the embedding keeps what the reconciler reads and writes: the
    metadata [__vv], the parent, the children and whether it was destroyed.
    Drawing, transforms, styles and listeners leave these alone and are
    left out, and so are the children a backend object draws for itself
    (tiles, particles), which carry no metadata. *)

Module Reconciler.
Import JS Scene State.
Local Open Scope Q_scope.

(** *** Snapshots *)

Definition option_eqb {A} (eqb : A -> A -> bool) (a b : option A) : bool :=
  match a, b with
  | Some x, Some y => eqb x y
  | None, None => true
  | _, _ => false
  end.

Definition list_eqb {A} (eqb : A -> A -> bool) : list A -> list A -> bool :=
  fix each (xs ys : list A) : bool :=
    match xs, ys with
    | [], [] => true
    | x :: xs, y :: ys => eqb x y && each xs ys
    | _, _ => false
    end.

(** Two JSON values print the same text. *)
Fixpoint json_eqb (a b : json) : bool :=
  match a, b with
  | JNull, JNull => true
  | JBool x, JBool y => Bool.eqb x y
  | JNum x, JNum y => Qeq_bool x y
  | JStr x, JStr y => String.eqb x y
  | JArr xs, JArr ys => list_eqb json_eqb xs ys
  | JObj xs, JObj ys =>
      list_eqb (fun kx ky => String.eqb kx.1 ky.1 && json_eqb kx.2 ky.2) xs ys
  | _, _ => false
  end.

Definition object_eqb (a b : object) : bool := json_eqb (JObj a) (JObj b).

Definition transform_eqb (a b : Transform) : bool :=
  option_eqb Qeq_bool (x a) (x b) && option_eqb Qeq_bool (y a) (y b)
  && option_eqb Qeq_bool (rotation a) (rotation b)
  && option_eqb Qeq_bool (scaleX a) (scaleX b) && option_eqb Qeq_bool (scaleY a) (scaleY b)
  && option_eqb Qeq_bool (originX a) (originX b) && option_eqb Qeq_bool (originY a) (originY b).

Definition tween_eqb (a b : Tween.TweenDef) : bool :=
  String.eqb (Tween.property a) (Tween.property b)
  && Qeq_bool (Tween.from a) (Tween.from b) && Qeq_bool (Tween.to a) (Tween.to b)
  && Qeq_bool (Tween.duration a) (Tween.duration b)
  && option_eqb String.eqb (Tween.easing a) (Tween.easing b)
  && option_eqb Qeq_bool (Tween.delay a) (Tween.delay b)
  && option_eqb Qeq_bool (Tween.repeat a) (Tween.repeat b)
  && option_eqb Bool.eqb (Tween.yoyo a) (Tween.yoyo b)
  && option_eqb Qeq_bool (Tween.startedAt a) (Tween.startedAt b).

Definition fields_eqb (a b : NodeFields) : bool :=
  String.eqb (id a) (id b) && String.eqb (type a) (type b)
  && option_eqb String.eqb (name a) (name b)
  && option_eqb transform_eqb (transform a) (transform b)
  && option_eqb object_eqb (style a) (style b)
  && option_eqb Bool.eqb (interactive a) (interactive b)
  && option_eqb object_eqb (data a) (data b)
  && option_eqb tween_eqb (tween a) (tween b)
  && object_eqb (props a) (props b).

Fixpoint node_eqb (a b : SceneNode) : bool :=
  let '(Node fa ca) := a in
  let '(Node fb cb) := b in
  fields_eqb fa fb
  && match ca, cb with
     | Some xs, Some ys => list_eqb node_eqb xs ys
     | None, None => true
     | _, _ => false
     end.

(** [nodeSnapshot(node)]: what [JSON.stringify] is applied to, a group
    without its children and any other node whole.  Two snapshots are the
    same string when the values agree field by field, in the order the
    fields are listed here. *)
Definition nodeSnapshot (node : SceneNode) : SceneNode :=
  if is_group node then Node (fields_of node) None else node.

(** *** Display objects *)

Definition ref := nat.

Record DisplayObjectMeta := mkMeta {
  nodeId : string;
  nodeType : string;
  snapshot : SceneNode
}.

Record DisplayObject := mkDisplay {
  meta : option DisplayObjectMeta;   (* [obj.__vv] *)
  parent : option ref;
  kids : list ref;                   (* [obj.children] *)
  destroyed : bool
}.

Record Ctx := mkCtx {
  objects : list DisplayObject;   (* the display objects, by address *)
  nodeMap : gmap string ref       (* [ctx.nodeMap] *)
}.

(** A step of the reconciler; it fails where the source throws. *)
Abbreviation Sync := (Stateful Ctx).

Definition get_obj (l : ref) : Sync DisplayObject :=
  fun c => match objects c !! l with Some o => Some (o, c) | None => None end.

Definition set_obj (l : ref) (o : DisplayObject) : Sync unit :=
  fun c => Some (tt, mkCtx (<[l := o]> (objects c)) (nodeMap c)).

(** [new PIXI.Graphics()], [new PIXI.Container()], ... *)
Definition new_obj : Sync ref :=
  fun c => Some (length (objects c),
                 mkCtx (objects c ++ [mkDisplay None None [] false]) (nodeMap c)).

Definition nodeMap_get (i : string) : Sync (option ref) :=
  fun c => Some (nodeMap c !! i, c).

Definition nodeMap_set (i : string) (l : ref) : Sync unit :=
  fun c => Some (tt, mkCtx (objects c) (<[i := l]> (nodeMap c))).

Definition nodeMap_delete (i : string) : Sync unit :=
  fun c => Some (tt, mkCtx (objects c) (delete i (nodeMap c))).

Definition setMeta (l : ref) (m : DisplayObjectMeta) : Sync unit :=
  o ← get_obj l; set_obj l (mkDisplay (Some m) (parent o) (kids o) (destroyed o)).

Definition remove_ref (l : ref) (ls : list ref) : list ref :=
  List.filter (fun k => negb (Nat.eqb k l)) ls.

(** [obj.removeFromParent()] *)
Definition removeFromParent (l : ref) : Sync unit :=
  o ← get_obj l;
  match parent o with
  | None => mret tt
  | Some p =>
      po ← get_obj p;
      _ ← set_obj p (mkDisplay (meta po) (parent po) (remove_ref l (kids po)) (destroyed po));
      o ← get_obj l;
      set_obj l (mkDisplay (meta o) None (kids o) (destroyed o))
  end.

(** [container.addChild(obj)]: the object leaves its former parent. *)
Definition addChild (container l : ref) : Sync unit :=
  _ ← removeFromParent l;
  co ← get_obj container;
  _ ← set_obj container (mkDisplay (meta co) (parent co) (kids co ++ [l]) (destroyed co));
  o ← get_obj l;
  set_obj l (mkDisplay (meta o) (Some container) (kids o) (destroyed o)).

(** [obj.destroy({ children: true })] *)
Fixpoint destroy (fuel : nat) (l : ref) : Sync unit :=
  match fuel with
  | O => fail
  | S fuel =>
      _ ← removeFromParent l;
      o ← get_obj l;
      _ ← for_each (destroy fuel) (kids o);
      o ← get_obj l;
      set_obj l (mkDisplay (meta o) None [] true)
  end.

(** [container.setChildIndex(child, index)] *)
Definition setChildIndex (container l : ref) (index : nat) : Sync unit :=
  co ← get_obj container;
  let others := remove_ref l (kids co) in
  set_obj container
    (mkDisplay (meta co) (parent co) (take index others ++ l :: drop index others)
               (destroyed co)).

(** [container.getChildIndex(child)]; it throws for a stranger. *)
Fixpoint index_of (l : ref) (ls : list ref) : option nat :=
  match ls with
  | [] => None
  | k :: rest => if Nat.eqb k l then Some 0%nat else option_map S (index_of l rest)
  end.

(** The variant tags that [createDisplayObject] draws. *)
Definition drawable : list string :=
  [ "rect"; "circle"; "ellipse"; "line"; "polyline"; "polygon"; "path"; "text";
    "image"; "sprite"; "tilemap"; "particles" ].

(** The reads of a variant's own fields in [createDisplayObject] that
    throw a TypeError on a missing value.  A field is read at the type
    that types.ts declares for it and is absent where the schema lets it
    be; the calls into PIXI are taken to return.

    - polyline and polygon: [n.points.length], then [p.x] of every point;
    - path: [d.split(re)] in [parseSvgPath];
    - tilemap: [n.data[row]], reached when [n.height] and [n.width] are
      positive;
    - particles: [n.emitters[0]] and [p.age], for every particle. *)
Definition is_null (v : json) : bool :=
  match v with JNull => true | _ => false end.

Definition an_array (v : option json) : bool :=
  match v with Some (JArr vs) => forallb (fun v => negb (is_null v)) vs | _ => false end.

Definition a_string (v : option json) : bool :=
  match v with Some (JStr _) => true | _ => false end.

Definition above_zero (v : option json) : bool :=
  match v with Some (JNum q) => Qltb 0 q | _ => false end.

Definition draws (f : NodeFields) : bool :=
  if String.eqb (type f) "polyline" || String.eqb (type f) "polygon" then
    an_array (get "points" (props f))
  else if String.eqb (type f) "path" then a_string (get "d" (props f))
  else if String.eqb (type f) "tilemap" then
    if above_zero (get "height" (props f)) && above_zero (get "width" (props f))
    then match data f with Some _ => true | None => false end
    else true
  else if String.eqb (type f) "particles" then
    match get "_particles" (props f) with
    | Some (JArr (p :: ps)) =>
        match get "emitters" (props f) with
        | Some (JArr _) => forallb (fun v => negb (is_null v)) (p :: ps)
        | _ => false
        end
    | _ => true
    end
  else true.

(** [createDisplayObject(node, ctx)]: the new object, or null for an
    unknown variant.  A group creates, registers and attaches the objects
    of its children. *)
Fixpoint createDisplayObject (node : SceneNode) : Sync (option ref) :=
  if is_group node then
    match children node with
    | None => fail     (* [for (const child of undefined)] throws *)
    | Some cs =>
        container ← new_obj;
        _ ← for_each
              (fun child =>
                 childObj ← createDisplayObject child;
                 match childObj with
                 | Some o =>
                     _ ← setMeta o (mkMeta (node_id child) (node_type child)
                                           (nodeSnapshot child));
                     _ ← nodeMap_set (node_id child) o;
                     addChild container o
                 | None => mret tt
                 end) cs;
        mret (Some container)
    end
  else if existsb (String.eqb (node_type node)) drawable then
    if draws (fields_of node) then obj ← new_obj; mret (Some obj) else fail
  else mret None.

(** [removeDisplayObject(obj, nodeId, ctx)] for an object that is there. *)
Fixpoint removeDisplayObject_rec (fuel : nat) (obj : ref) (nodeId_ : string) : Sync unit :=
  match fuel with
  | O => fail
  | S fuel =>
      o ← get_obj obj;
      _ ← for_each
            (fun child =>
               c ← get_obj child;
               match meta c with
               | Some m => removeDisplayObject_rec fuel child (nodeId m)
               | None => mret tt
               end) (rev (kids o));
      _ ← removeFromParent obj;
      _ ← destroy (S fuel) obj;
      nodeMap_delete nodeId_
  end.

(** [removeDisplayObject(obj, nodeId, ctx)]; the recursion budget is the
    number of display objects, which bounds the depth of their tree. *)
Definition removeDisplayObject (obj : option ref) (nodeId_ : string) : Sync unit :=
  match obj with
  | None => mret tt
  | Some l => fun c => removeDisplayObject_rec (S (length (objects c))) l nodeId_ c
  end.

(** The body of [syncGroupChildren(groupNode, container, ctx)], given the
    function that syncs one child. *)
Definition syncChildrenWith (sync : SceneNode -> ref -> Sync unit)
    (groupNode : SceneNode) (container : ref) : Sync unit :=
  match children groupNode with
  | None => fail     (* [undefined.map] throws *)
  | Some cs =>
      let childIds := map node_id cs in
      co ← get_obj container;
      metas ← for_each (fun child => c ← get_obj child; mret (meta c)) (rev (kids co));
      let toRemove :=
        flat_map (fun m => match m with
                           | Some m =>
                               if existsb (String.eqb (nodeId m)) childIds then []
                               else [nodeId m]
                           | None => []
                           end) metas in
      _ ← for_each (fun i => obj ← nodeMap_get i; removeDisplayObject obj i) toRemove;
      _ ← (fix each (i : nat) (cs : list SceneNode) : Sync unit :=
             match cs with
             | [] => mret tt
             | childNode :: rest =>
                 _ ← sync childNode container;
                 childObj ← nodeMap_get (node_id childNode);
                 _ ← match childObj with
                     | Some l =>
                         o ← get_obj l;
                         if option_eqb Nat.eqb (parent o) (Some container) then
                           co ← get_obj container;
                           match index_of l (kids co) with
                           | None => fail
                           | Some currentIndex =>
                               if negb (Nat.eqb currentIndex i)
                                  && Nat.ltb i (length (kids co))
                               then setChildIndex container l
                                      (Nat.min i (length (kids co) - 1))
                               else mret tt
                           end
                         else mret tt
                     | None => mret tt
                     end;
                 each (S i) rest
             end) 0%nat cs;
      mret tt
  end.

Fixpoint syncNode (node : SceneNode) (parent_ : ref) : Sync unit :=
  existing ← nodeMap_get (node_id node);
  let snap := nodeSnapshot node in
  let create : Sync unit :=
    obj ← createDisplayObject node;
    match obj with
    | None => mret tt
    | Some o =>
        _ ← setMeta o (mkMeta (node_id node) (node_type node) snap);
        _ ← nodeMap_set (node_id node) o;
        addChild parent_ o
    end in
  match existing with
  | None => create
  | Some e =>
      eo ← get_obj e;
      let m := meta eo in
      if match m with
         | Some m => node_eqb (snapshot m) snap && negb (is_group node)
         | None => false
         end
      then mret tt
      else if match m with
              | Some m => negb (String.eqb (nodeType m) (node_type node))
              | None => false
              end
      then _ ← removeDisplayObject (Some e) (node_id node); create
      else if is_group node then
        _ ← setMeta e (mkMeta (node_id node) (node_type node) snap);
        syncChildrenWith syncNode node e
      else _ ← removeDisplayObject (Some e) (node_id node); create
  end.

Definition syncGroupChildren (groupNode : SceneNode) (container : ref) : Sync unit :=
  syncChildrenWith syncNode groupNode container.

(** The root container before the first pass, and nothing else. *)
Definition rootContainer : ref := 0%nat.

Definition initial : Ctx := mkCtx [mkDisplay None None [] false] ∅.

(** The part of [syncScene] that reconciles: one pass over a document. *)
Definition syncScene (scene : SceneGraph) : Sync unit :=
  syncGroupChildren (root scene) rootContainer.

(** What a pass did: the display objects it created and destroyed. *)
Definition live (c : Ctx) : nat := length (List.filter (fun o => negb (destroyed o)) (objects c)).
Definition created (before after : Ctx) : nat := length (objects after) - length (objects before).
Definition destroyed_by (before after : Ctx) : nat :=
  length (List.filter destroyed (objects after)) - length (List.filter destroyed (objects before)).

(** *** The reconciler on examples *)

Definition group_node (i : string) (cs : list SceneNode) : SceneNode :=
  Node (mkFields i "group" None None None None None None []) (Some cs).

Definition rect_a : SceneNode :=
  Node (mkFields "a" "rect" None None None None None None
                 [("width", JNum 10); ("height", JNum 10)]) None.

(** Two documents with unique ids that differ in the group that holds the
    rectangle ["a"]: first the later group ["X"], then the earlier group
    ["Y"]. *)
Definition a_in_X : SceneGraph :=
  Tools.with_root Tools.default_scene
    (group_node "root" [group_node "Y" []; group_node "X" [rect_a]]).

Definition a_in_Y : SceneGraph :=
  Tools.with_root Tools.default_scene
    (group_node "root" [group_node "Y" [rect_a]; group_node "X" []]).

(** On an unchanged document the second pass creates and destroys nothing. *)
Example unchanged_document_is_stable :
  exists c1 c2,
    syncScene a_in_X initial = Some (tt, c1) /\
    syncScene a_in_X c1 = Some (tt, c2) /\
    c2 = c1 /\ created c1 c2 = 0%nat /\ destroyed_by c1 c2 = 0%nat.
Proof.
  do 2 eexists. split; [ vm_compute; reflexivity |].
  split; [ vm_compute; reflexivity |]. repeat split; reflexivity.
Qed.

(** C3 fails for a node that moves to an earlier group.  With the object
    map left by [a_in_X], the first pass over [a_in_Y] skips ["a"] under
    ["Y"], because the map still holds its object, and then destroys that
    object when it cleans up ["X"]; ["a"] is left without a display object.
    The second pass over the same document creates one. *)
Theorem second_pass_creates_moved_node :
  exists c0 c1 c2,
    syncScene a_in_X initial = Some (tt, c0) /\
    syncScene a_in_Y c0 = Some (tt, c1) /\
    syncScene a_in_Y c1 = Some (tt, c2) /\
    destroyed_by c0 c1 = 1%nat /\
    nodeMap c1 !! "a" = None /\
    created c1 c2 = 1%nat /\
    nodeMap c2 !! "a" = Some 4%nat.
Proof.
  do 3 eexists. split; [ vm_compute; reflexivity |].
  split; [ vm_compute; reflexivity |].
  split; [ vm_compute; reflexivity |]. repeat split; reflexivity.
Qed.

(** *** A document on display

    The display shows a node when the object map holds a display object
    for the node's id that carries the node's metadata, hangs below the
    display object of its parent and has the display objects of the
    node's children as its children, in the order of the document. *)

Definition meta_of (n : SceneNode) : DisplayObjectMeta :=
  mkMeta (node_id n) (node_type n) (nodeSnapshot n).

(** The node [n] is shown below the display object [p], by display
    objects at the addresses from [lo] up to [hi]. *)
Fixpoint shown (c : Ctx) (lo hi : nat) (p : ref) (n : SceneNode) {struct n} : Prop :=
  match n with
  | Node f ch =>
      exists l ks,
        nodeMap c !! id f = Some l /\ (lo <= l < hi)%nat /\
        objects c !! l = Some (mkDisplay (Some (meta_of (Node f ch))) (Some p) ks false) /\
        if String.eqb (type f) "group" then
          match ch with
          | Some cs =>
              NoDup ks /\
              (fix all (cs : list SceneNode) (ks : list ref) : Prop :=
                 match cs, ks with
                 | [], [] => True
                 | child :: cs, k :: ks =>
                     nodeMap c !! node_id child = Some k /\ shown c lo hi l child /\ all cs ks
                 | _, _ => False
                 end) cs ks
          | None => False
          end
        else existsb (String.eqb (type f)) drawable = true /\ ks = []
  end.

(** The children [cs] are shown below [p], by its children [ks]. *)
Definition kids_shown (c : Ctx) (lo hi : nat) (p : ref) (cs : list SceneNode)
    (ks : list ref) : Prop :=
  Forall2 (fun child k => nodeMap c !! node_id child = Some k /\ shown c lo hi p child) cs ks.

Lemma shown_unfold c lo hi p n :
  shown c lo hi p n <->
  exists l ks,
    nodeMap c !! node_id n = Some l /\ (lo <= l < hi)%nat /\
    objects c !! l = Some (mkDisplay (Some (meta_of n)) (Some p) ks false) /\
    if is_group n then
      exists cs, children n = Some cs /\ NoDup ks /\ kids_shown c lo hi l cs ks
    else existsb (String.eqb (node_type n)) drawable = true /\ ks = [].
Proof.
  destruct n as [f ch]. unfold is_group, node_type, node_id. cbn [shown fields_of children].
  assert (forall l cs ks,
            (fix all (cs : list SceneNode) (ks : list ref) : Prop :=
               match cs, ks with
               | [], [] => True
               | child :: cs, k :: ks =>
                   nodeMap c !! node_id child = Some k /\ shown c lo hi l child /\ all cs ks
               | _, _ => False
               end) cs ks <-> kids_shown c lo hi l cs ks) as A.
  { intros l. induction cs as [| child cs IH]; intros [| k ks]; simpl.
    - split; [constructor | trivial].
    - split; [intros [] | inversion 1].
    - split; [intros [] | inversion 1].
    - rewrite IH. split.
      + intros (H1 & H2 & H3). now constructor.
      + inversion 1; subst. tauto. }
  split; intros (l & ks & H1 & H2 & H3 & H4); exists l, ks; (do 3 (split; [assumption |]));
    destruct (String.eqb (type f) "group"); try exact H4.
  - destruct ch as [cs |]; [| contradiction]. destruct H4 as [N H4].
    exists cs. split; [reflexivity | split; [exact N | now apply A]].
  - destruct H4 as (cs & -> & N & H4). split; [exact N | now apply A].
Qed.

(** The document is on display below the root container. *)
Definition displayed (c : Ctx) (doc : SceneGraph) : Prop :=
  exists cs o lo hi,
    children (root doc) = Some cs /\
    objects c !! rootContainer = Some o /\
    NoDup (kids o) /\ kids_shown c lo hi rootContainer cs (kids o).

(** *** A pass over a document on display *)

Lemma list_eqb_refl {A} (eqb : A -> A -> bool) (l : list A) :
  Forall (fun a => eqb a a = true) l -> list_eqb eqb l l = true.
Proof. induction 1 as [| a l Ha _ IH]; simpl; [reflexivity |]. now rewrite Ha, IH. Qed.

Lemma option_eqb_refl {A} (eqb : A -> A -> bool) (o : option A) :
  (forall a, eqb a a = true) -> option_eqb eqb o o = true.
Proof. intros H. destruct o; simpl; auto. Qed.

Lemma Qeq_bool_same q : Qeq_bool q q = true.
Proof. apply Qeq_bool_iff. reflexivity. Qed.

Lemma json_eqb_refl : forall a, json_eqb a a = true.
Proof.
  fix IH 1. intros [| b | q | s | items | fields]; simpl.
  - reflexivity.
  - now destruct b.
  - apply Qeq_bool_same.
  - apply String.eqb_refl.
  - induction items as [| a items IHl]; simpl; [reflexivity |]. now rewrite IH, IHl.
  - induction fields as [| [k v] fields IHl]; simpl; [reflexivity |].
    now rewrite String.eqb_refl, IH, IHl.
Qed.

Lemma object_eqb_refl o : object_eqb o o = true.
Proof. apply (json_eqb_refl (JObj o)). Qed.

Lemma fields_eqb_refl f : fields_eqb f f = true.
Proof.
  unfold fields_eqb. rewrite !String.eqb_refl, object_eqb_refl.
  rewrite !option_eqb_refl; try reflexivity.
  - intros tw. unfold tween_eqb. rewrite String.eqb_refl, !Qeq_bool_same.
    rewrite !option_eqb_refl; try reflexivity; intros;
      first [apply Qeq_bool_same | apply String.eqb_refl | now destruct a].
  - apply object_eqb_refl.
  - intros b. now destruct b.
  - apply object_eqb_refl.
  - intros t. unfold transform_eqb. rewrite !option_eqb_refl; try reflexivity;
      apply Qeq_bool_same.
  - apply String.eqb_refl.
Qed.

Lemma node_eqb_refl n : node_eqb n n = true.
Proof.
  induction n as [f | f cs IH] using SceneNode_rect_children; simpl.
  - now rewrite fields_eqb_refl.
  - rewrite fields_eqb_refl. simpl. now apply list_eqb_refl.
Qed.

Lemma index_of_lookup (ks : list ref) (i : nat) (k : ref) :
  NoDup ks -> ks !! i = Some k -> index_of k ks = Some i.
Proof.
  revert i. induction ks as [| k0 ks IH]; intros i N H; [discriminate |].
  apply NoDup_cons in N as [N0 N]. simpl. destruct i as [| i]; simpl in H.
  - injection H as ->. now rewrite Nat.eqb_refl.
  - destruct (Nat.eqb_spec k0 k) as [-> | _].
    + destruct N0. now apply list_elem_of_lookup_2 in H.
    + now rewrite (IH i N H).
Qed.

(** The loop of [syncGroupChildren] over the children, from the index [i]. *)
Definition place_loop (sync : SceneNode -> ref -> Sync unit) (container : ref)
    : nat -> list SceneNode -> Sync unit :=
  fix each (i : nat) (cs : list SceneNode) : Sync unit :=
    match cs with
    | [] => mret tt
    | childNode :: rest =>
        _ ← sync childNode container;
        childObj ← nodeMap_get (node_id childNode);
        _ ← match childObj with
            | Some l =>
                o ← get_obj l;
                if option_eqb Nat.eqb (parent o) (Some container) then
                  co ← get_obj container;
                  match index_of l (kids co) with
                  | None => fail
                  | Some currentIndex =>
                      if negb (Nat.eqb currentIndex i) && Nat.ltb i (length (kids co))
                      then setChildIndex container l (Nat.min i (length (kids co) - 1))
                      else mret tt
                  end
                else mret tt
            | None => mret tt
            end;
        each (S i) rest
    end.

Lemma syncChildrenWith_eq sync groupNode container :
  syncChildrenWith sync groupNode container
  = match children groupNode with
    | None => fail
    | Some cs =>
        let childIds := map node_id cs in
        co ← get_obj container;
        metas ← for_each (fun child => c ← get_obj child; mret (meta c)) (rev (kids co));
        let toRemove :=
          flat_map (fun m => match m with
                             | Some m =>
                                 if existsb (String.eqb (nodeId m)) childIds then []
                                 else [nodeId m]
                             | None => []
                             end) metas in
        _ ← for_each (fun i => obj ← nodeMap_get i; removeDisplayObject obj i) toRemove;
        _ ← place_loop sync container 0%nat cs;
        mret tt
    end.
Proof. reflexivity. Qed.

Lemma syncNode_eq node parent_ :
  syncNode node parent_
  = (existing ← nodeMap_get (node_id node);
     let snap := nodeSnapshot node in
     let create : Sync unit :=
       obj ← createDisplayObject node;
       match obj with
       | None => mret tt
       | Some o =>
           _ ← setMeta o (mkMeta (node_id node) (node_type node) snap);
           _ ← nodeMap_set (node_id node) o;
           addChild parent_ o
       end in
     match existing with
     | None => create
     | Some e =>
         eo ← get_obj e;
         let m := meta eo in
         if match m with
            | Some m => node_eqb (snapshot m) snap && negb (is_group node)
            | None => false
            end
         then mret tt
         else if match m with
                 | Some m => negb (String.eqb (nodeType m) (node_type node))
                 | None => false
                 end
         then _ ← removeDisplayObject (Some e) (node_id node); create
         else if is_group node then
           _ ← setMeta e (mkMeta (node_id node) (node_type node) snap);
           syncChildrenWith syncNode node e
         else _ ← removeDisplayObject (Some e) (node_id node); create
     end).
Proof. destruct node. reflexivity. Qed.

Lemma Forall2_zipped {A B} (R : A -> B -> Prop) (xs : list A) (ys : list B) :
  Forall2 R xs ys ->
  exists zs : list (A * B), xs = map fst zs /\ ys = map snd zs /\ Forall (fun z => R z.1 z.2) zs.
Proof.
  induction 1 as [| x y xs ys H _ (zs & -> & -> & F)].
  - exists []. repeat split. constructor.
  - exists ((x, y) :: zs). repeat split. now constructor.
Qed.

Lemma flat_map_nothing {A B} (f : A -> list B) (l : list A) :
  (forall x, In x l -> f x = []) -> flat_map f l = [].
Proof.
  induction l as [| a l IH]; intros H; [reflexivity |].
  simpl. rewrite (H a) by now left. apply IH. intros x Hx. apply H. now right.
Qed.

Lemma shown_object c lo hi p n k :
  nodeMap c !! node_id n = Some k -> shown c lo hi p n ->
  exists ks, objects c !! k = Some (mkDisplay (Some (meta_of n)) (Some p) ks false).
Proof.
  intros Hk H. apply shown_unfold in H as (l & ks & H1 & _ & H3 & _).
  pose proof (eq_trans (eq_sym Hk) H1) as E. injection E as ->. eauto.
Qed.

(** The loop leaves a display alone that shows the children in their
    places, when the pass over each child does. *)
Lemma place_loop_stable sync c lo hi l o (zs : list (SceneNode * ref)) :
  objects c !! l = Some o -> kids o = map snd zs -> NoDup (kids o) ->
  Forall (fun z => nodeMap c !! node_id z.1 = Some z.2 /\ shown c lo hi l z.1) zs ->
  Forall (fun z => sync z.1 l c = Some (tt, c)) zs ->
  forall done rest, zs = done ++ rest ->
    place_loop sync l (length done) (map fst rest) c = Some (tt, c).
Proof.
  intros Ho Hk N Hs Hsync done rest. revert done.
  induction rest as [| [child k] rest IH]; intros done E; [reflexivity |].
  cbn [map fst place_loop].
  assert ((child, k) ∈ zs) as Hin by (rewrite E, elem_of_app; right; left).
  rewrite Forall_forall in Hs, Hsync.
  destruct (Hs _ Hin) as [Hm Hsh]. pose proof (Hsync _ Hin) as Hc. cbn [fst snd] in *.
  destruct (shown_object _ _ _ _ _ _ Hm Hsh) as [ks Hobj].
  unfold mbind, stateful_bind. rewrite Hc. unfold nodeMap_get. rewrite Hm.
  unfold get_obj. rewrite Hobj. cbn [parent option_eqb]. rewrite Nat.eqb_refl, Ho.
  assert (kids o !! length done = Some k) as Hl.
  { rewrite Hk, E, map_app. cbn [map snd].
    rewrite lookup_app_r by (now rewrite length_map).
    now rewrite length_map, Nat.sub_diag. }
  rewrite (index_of_lookup _ _ _ N Hl), Nat.eqb_refl. cbn [negb andb].
  unfold mret, stateful_ret.
  specialize (IH (done ++ [(child, k)])). rewrite length_app, Nat.add_1_r in IH.
  apply IH. now rewrite <- app_assoc.
Qed.

Lemma syncChildrenWith_stable sync g c lo hi l o cs :
  children g = Some cs ->
  objects c !! l = Some o -> NoDup (kids o) -> kids_shown c lo hi l cs (kids o) ->
  Forall (fun child => sync child l c = Some (tt, c)) cs ->
  syncChildrenWith sync g l c = Some (tt, c).
Proof.
  intros Hc Ho N Hs Hsync. rewrite syncChildrenWith_eq, Hc. cbv zeta.
  destruct (Forall2_zipped _ _ _ Hs) as (zs & -> & Hk & Hz).
  unfold mbind at 1, stateful_bind at 1. unfold get_obj at 1. rewrite Ho.
  unfold mbind at 1, stateful_bind at 1.
  assert (for_each (fun child => c0 ← get_obj child; mret (meta c0)) (rev (kids o)) c
          = Some (map (fun z => Some (meta_of z.1)) (rev zs), c)) as ->.
  { rewrite Hk, <- map_rev. apply (Rules.for_each_same _ snd).
    apply Forall_forall. intros [child k] Hin.
    apply list_elem_of_In, in_rev, list_elem_of_In in Hin.
    rewrite Forall_forall in Hz. destruct (Hz _ Hin) as [Hm Hsh]. cbn [fst snd] in *.
    destruct (shown_object _ _ _ _ _ _ Hm Hsh) as [ks Hobj].
    unfold mbind, stateful_bind, get_obj. now rewrite Hobj. }
  assert (flat_map (fun m => match m with
                             | Some m =>
                                 if existsb (String.eqb (nodeId m)) (map node_id (map fst zs)) then []
                                 else [nodeId m]
                             | None => []
                             end) (map (fun z => Some (meta_of z.1)) (rev zs)) = []) as ->.
  { apply flat_map_nothing. intros m Hm.
    apply in_map_iff in Hm as ([child k] & <- & Hin). cbn [meta_of nodeId fst].
    replace (existsb _ _) with true; [reflexivity |]. symmetry. apply existsb_exists.
    exists (node_id child). split; [| apply String.eqb_refl].
    apply in_map, in_map_iff. exists (child, k). split; [reflexivity |]. now apply in_rev. }
  cbn [for_each]. unfold mbind at 1, stateful_bind at 1, mret at 1, stateful_ret at 1.
  unfold mbind at 1, stateful_bind at 1.
  pose proof (place_loop_stable sync c lo hi l o zs Ho Hk N Hz) as L.
  assert (place_loop sync l 0 (map fst zs) c = Some (tt, c)) as ->; [| reflexivity].
  apply (fun S => L S [] zs eq_refl).
  apply Forall_forall. intros [child k] Hin. rewrite Forall_forall in Hsync.
  apply Hsync. now apply list_elem_of_In, (in_map fst), list_elem_of_In.
Qed.

Lemma syncNode_stable n : forall c lo hi p,
  shown c lo hi p n -> syncNode n p c = Some (tt, c).
Proof.
  induction n as [f | f cs IH] using SceneNode_rect_children; intros c lo hi p H;
    pose proof H as H0; apply shown_unfold in H as (l & ks & Hm & _ & Ho & Hk).
  - assert (nodeMap_get (node_id (Node f None)) c = Some (Some l, c)) as E1
      by (unfold nodeMap_get; f_equal; f_equal; exact Hm).
    assert (get_obj l c
            = Some (mkDisplay (Some (meta_of (Node f None))) (Some p) ks false, c)) as E2
      by (unfold get_obj, ref in *; now rewrite Ho).
    rewrite syncNode_eq. cbv zeta. unfold mbind, stateful_bind. rewrite E1, E2.
    cbn [meta snapshot meta_of]. rewrite node_eqb_refl.
    destruct (is_group (Node f None)) eqn:G; [| reflexivity].
    destruct Hk as (cs & Hc & _). discriminate.
  - assert (nodeMap_get (node_id (Node f (Some cs))) c = Some (Some l, c)) as E1
      by (unfold nodeMap_get; f_equal; f_equal; exact Hm).
    assert (get_obj l c
            = Some (mkDisplay (Some (meta_of (Node f (Some cs)))) (Some p) ks false, c)) as E2
      by (unfold get_obj, ref in *; now rewrite Ho).
    assert (setMeta l (meta_of (Node f (Some cs))) c = Some (tt, c)) as E3.
    { unfold setMeta, mbind, stateful_bind. rewrite E2. unfold set_obj. cbn.
      rewrite list_insert_id by exact Ho. now destruct c. }
    rewrite syncNode_eq. cbv zeta. unfold mbind, stateful_bind. rewrite E1, E2.
    cbn [meta snapshot meta_of nodeType]. rewrite node_eqb_refl.
    destruct (is_group (Node f (Some cs))) eqn:G; [| reflexivity].
    cbn [negb andb]. rewrite String.eqb_refl. cbn [negb].
    destruct Hk as (cs' & [= <-] & N & Hs).
    change (mkMeta (node_id (Node f (Some cs))) (node_type (Node f (Some cs)))
              (nodeSnapshot (Node f (Some cs)))) with (meta_of (Node f (Some cs))).
    rewrite E3.
    apply (syncChildrenWith_stable syncNode (Node f (Some cs)) c lo hi l _ cs eq_refl Ho N Hs).
    apply Forall_forall. intros child Hc. rewrite Forall_forall in IH.
    destruct (Forall2_zipped _ _ _ Hs) as (zs & E & _ & Hz).
    pose proof Hc as Hc'.
    rewrite E in Hc. apply list_elem_of_In, in_map_iff in Hc as ([child' k] & <- & Hin).
    rewrite Forall_forall in Hz. destruct (Hz (child', k)) as [_ Hsh];
      [now apply list_elem_of_In |].
    now apply (IH child' Hc') with (lo := lo) (hi := hi).
Qed.

(** X23: a pass over a document that is on display changes nothing.  In
    whatever context the object map and the display objects show the
    document, every node by a display object that carries the node's
    snapshot and hangs in the node's place, [syncScene] succeeds and
    returns the context as it was: it creates, destroys and moves no
    display object and leaves the object map alone. *)
Theorem displayed_is_stable (c : Ctx) (doc : SceneGraph) :
  displayed c doc -> syncScene doc c = Some (tt, c).
Proof.
  intros (cs & o & lo & hi & Hc & Ho & N & Hs).
  unfold syncScene, syncGroupChildren.
  apply (syncChildrenWith_stable syncNode _ c lo hi _ o cs Hc Ho N Hs).
  apply Forall_forall. intros child Hin.
  destruct (Forall2_zipped _ _ _ Hs) as (zs & E & _ & Hz).
  rewrite E in Hin. apply list_elem_of_In, in_map_iff in Hin as ([child' k] & <- & Hin).
  rewrite Forall_forall in Hz. destruct (Hz (child', k)) as [_ Hsh];
    [now apply list_elem_of_In |].
  now apply (syncNode_stable child' c lo hi).
Qed.

(** *** The first pass *)

(** Every node that a pass reaches is a group with children, or of a
    variant that [createDisplayObject] draws and with the fields that the
    drawing of the variant reads. *)
Fixpoint renderable (n : SceneNode) : bool :=
  let '(Node f ch) := n in
  if String.eqb (type f) "group" then
    match ch with
    | Some cs => forallb renderable cs
    | None => false
    end
  else existsb (String.eqb (type f)) drawable && draws f.

Lemma kids_shown_each c lo hi p cs ks child :
  kids_shown c lo hi p cs ks -> child ∈ cs ->
  exists k, k ∈ ks /\ nodeMap c !! node_id child = Some k /\ shown c lo hi p child.
Proof.
  induction 1 as [| ch k cs ks [H1 H2] _ IH]; intros Hin.
  - now apply not_elem_of_nil in Hin.
  - apply elem_of_cons in Hin as [-> | Hin].
    + exists k. split; [left | now split].
    + destruct (IH Hin) as (k' & Hk & H). exists k'. split; [now right | exact H].
Qed.

(** What is shown stays shown while the display objects at its addresses
    and the entries of its ids stay. *)
Lemma shown_frame n : forall c c' lo hi p,
  shown c lo hi p n ->
  (forall a, (lo <= a < hi)%nat -> objects c' !! a = objects c !! a) ->
  (forall i, i ∈ allNodeIds n -> nodeMap c' !! i = nodeMap c !! i) ->
  shown c' lo hi p n.
Proof.
  induction n as [f | f cs IH] using SceneNode_rect_children; intros c c' lo hi p H Fo Fm;
    apply shown_unfold in H as (l & ks & Hm & Hl & Ho & Hk); apply shown_unfold;
    exists l, ks; (split; [| split; [exact Hl | split]]).
  - rewrite Fm; [exact Hm | apply Tools.own_id_elem].
  - unfold ref in *. rewrite Fo; [exact Ho | exact Hl].
  - destruct (is_group (Node f None)); [| exact Hk]. destruct Hk as (cs & Hc & _). discriminate.
  - rewrite Fm; [exact Hm | apply Tools.own_id_elem].
  - unfold ref in *. rewrite Fo; [exact Ho | exact Hl].
  - destruct (is_group (Node f (Some cs))) eqn:G; [| exact Hk].
    destruct Hk as (cs' & [= <-] & N & Hs). exists cs. split; [reflexivity | split; [exact N |]].
    assert (forall child, child ∈ cs ->
              forall i, i ∈ allNodeIds child -> nodeMap c' !! i = nodeMap c !! i) as Fc.
    { intros child Hc i Hi. apply Fm. apply Tools.inner_ids_elem; [exact G |].
      unfold Tools.inner_ids. simpl. apply Tools.elem_of_flat_map. eauto. }
    clear Fm G Hm Ho N. induction Hs as [| child k cs ks [H1 H2] _ IHs]; [constructor |].
    apply Forall_cons in IH as [IHc IH]. constructor.
    + split.
      * rewrite (Fc child); [exact H1 | left | apply Tools.own_id_elem].
      * apply (IHc c c'); auto. apply Fc. left.
    + apply IHs; auto. intros ch Hch. apply Fc. now right.
Qed.

Lemma shown_wider n : forall c lo hi lo' hi' p,
  shown c lo hi p n -> (lo' <= lo)%nat -> (hi <= hi')%nat -> shown c lo' hi' p n.
Proof.
  induction n as [f | f cs IH] using SceneNode_rect_children; intros c lo hi lo' hi' p H L U;
    apply shown_unfold in H as (l & ks & Hm & Hl & Ho & Hk); apply shown_unfold;
    exists l, ks; (split; [exact Hm | split; [lia | split; [exact Ho |]]]).
  - destruct (is_group (Node f None)); [| exact Hk]. destruct Hk as (cs & Hc & _). discriminate.
  - destruct (is_group (Node f (Some cs))) eqn:G; [| exact Hk].
    destruct Hk as (cs' & [= <-] & N & Hs). exists cs. split; [reflexivity | split; [exact N |]].
    clear N Hm Ho. induction Hs as [| child k cs ks [H1 H2] _ IHs]; [constructor |].
    apply Forall_cons in IH as [IHc IH]. constructor; [| now apply IHs].
    split; [exact H1 |]. now apply (IHc c lo hi).
Qed.

(** The creation of a child below a container: the body of the loop of
    [createDisplayObject] for a group, and the creation in [syncNode]. *)
Definition attach_child (container : ref) (child : SceneNode) : Sync unit :=
  childObj ← createDisplayObject child;
  match childObj with
  | Some o =>
      _ ← setMeta o (mkMeta (node_id child) (node_type child) (nodeSnapshot child));
      _ ← nodeMap_set (node_id child) o;
      addChild container o
  | None => mret tt
  end.

Lemma createDisplayObject_eq node :
  createDisplayObject node
  = if is_group node then
      match children node with
      | None => fail
      | Some cs =>
          container ← new_obj;
          _ ← for_each (attach_child container) cs;
          mret (Some container)
      end
    else if existsb (String.eqb (node_type node)) drawable then
      if draws (fields_of node) then obj ← new_obj; mret (Some obj) else fail
    else mret None.
Proof. destruct node as [f [cs |]]; reflexivity. Qed.

(** Giving a new display object its metadata, its entry and its parent. *)
Lemma attach_steps c1 p o m po ks :
  p <> o -> objects c1 !! p = Some po ->
  objects c1 !! o = Some (mkDisplay None None ks false) ->
  exists c2,
    (_ ← setMeta o m; _ ← nodeMap_set (nodeId m) o; addChild p o) c1 = Some (tt, c2) /\
    length (objects c2) = length (objects c1) /\
    objects c2 !! o = Some (mkDisplay (Some m) (Some p) ks false) /\
    objects c2 !! p
    = Some (mkDisplay (meta po) (parent po) (kids po ++ [o]) (destroyed po)) /\
    (forall a, a <> o -> a <> p -> objects c2 !! a = objects c1 !! a) /\
    nodeMap c2 = <[nodeId m := o]> (nodeMap c1).
Proof.
  intros Hne Hp Ho. unfold ref in *.
  assert (o < length (objects c1))%nat as Lo by (now apply lookup_lt_Some in Ho).
  assert (p < length (objects c1))%nat as Lp by (now apply lookup_lt_Some in Hp).
  eexists. split.
  - unfold setMeta, addChild, removeFromParent, nodeMap_set, get_obj, set_obj, mbind,
      stateful_bind, mret, stateful_ret. unfold ref in *.
    rewrite Ho. cbn [objects nodeMap parent meta kids destroyed].
    rewrite list_lookup_insert_eq by exact Lo.
    cbn [objects nodeMap parent meta kids destroyed].
    rewrite list_lookup_insert_ne by lia. rewrite Hp.
    cbn [objects nodeMap parent meta kids destroyed].
    rewrite list_lookup_insert_ne by lia.
    rewrite list_lookup_insert_eq by exact Lo.
    cbn [objects nodeMap parent meta kids destroyed]. reflexivity.
  - cbn [objects nodeMap]. repeat split.
    + now rewrite !length_insert.
    + apply list_lookup_insert_eq. now rewrite !length_insert.
    + rewrite list_lookup_insert_ne by lia. apply list_lookup_insert_eq.
      now rewrite length_insert.
    + intros a Ha1 Ha2. now rewrite !list_lookup_insert_ne by lia.
Qed.

Lemma kids_shown_bounds c lo hi p cs ks :
  kids_shown c lo hi p cs ks -> Forall (fun k => (lo <= k < hi)%nat) ks.
Proof.
  induction 1 as [| child k cs ks [H1 H2] _ IH]; constructor; [| exact IH].
  apply shown_unfold in H2 as (l & ks' & Hm & Hl & _).
  pose proof (eq_trans (eq_sym H1) Hm) as E. injection E as ->. exact Hl.
Qed.

Lemma kids_shown_frame c c' lo hi p cs ks :
  kids_shown c lo hi p cs ks ->
  (forall a, (lo <= a < hi)%nat -> objects c' !! a = objects c !! a) ->
  (forall i, i ∈ flat_map allNodeIds cs -> nodeMap c' !! i = nodeMap c !! i) ->
  kids_shown c' lo hi p cs ks.
Proof.
  intros H Fo. induction H as [| child k cs ks [H1 H2] _ IH]; intros Fm; constructor.
  - split.
    + rewrite Fm; [exact H1 |]. simpl. apply elem_of_app. left. apply Tools.own_id_elem.
    + apply (shown_frame child c c'); auto.
      intros i Hi. apply Fm. simpl. apply elem_of_app. now left.
  - apply IH. intros i Hi. apply Fm. simpl. apply elem_of_app. now right.
Qed.

Lemma kids_shown_wider c lo hi lo' hi' p cs ks :
  kids_shown c lo hi p cs ks -> (lo' <= lo)%nat -> (hi <= hi')%nat ->
  kids_shown c lo' hi' p cs ks.
Proof.
  intros H L U. induction H as [| child k cs ks [H1 H2] _ IH]; constructor; [| exact IH].
  split; [exact H1 |]. now apply (shown_wider child c lo hi).
Qed.

(** The ids below a node, as far as a walk goes. *)
Definition ids_below (n : SceneNode) : list string :=
  if is_group n then Tools.inner_ids n else [].

Lemma allNodeIds_below n : allNodeIds n = node_id n :: ids_below n.
Proof. apply Tools.allNodeIds_unfold. Qed.

(** A display object fresh from its constructor, with the children [ks]. *)
Definition blank (ks : list ref) : DisplayObject := mkDisplay None None ks false.

(** [createDisplayObject] on the node [n]: in any context it returns a
    new display object at the next address, leaves the older ones alone,
    and shows the children of a group below the new object. *)
Definition creates (n : SceneNode) : Prop :=
  forall c, exists c' ks,
    createDisplayObject n c = Some (Some (length (objects c)), c') /\
    objects c' !! length (objects c) = Some (blank ks) /\
    (forall a, (a < length (objects c))%nat -> objects c' !! a = objects c !! a) /\
    (forall i, i ∉ ids_below n -> nodeMap c' !! i = nodeMap c !! i) /\
    if is_group n then
      exists cs, children n = Some cs /\ NoDup ks /\
        kids_shown c' (S (length (objects c))) (length (objects c')) (length (objects c)) cs ks
    else existsb (String.eqb (node_type n)) drawable = true /\ ks = [].

(** The state of a container [p] while its children are created: from
    the context [c], the children [done] are shown below [p] by [ks]. *)
Definition building (c : Ctx) (p : ref) (done : list SceneNode) (ks : list ref)
    (c1 : Ctx) : Prop :=
  objects c1 !! p = Some (blank ks) /\
  (forall a, (a < p)%nat -> objects c1 !! a = objects c !! a) /\
  NoDup ks /\ kids_shown c1 (S p) (length (objects c1)) p done ks /\
  (forall i, i ∉ flat_map allNodeIds done -> nodeMap c1 !! i = nodeMap c !! i).

Lemma attach_child_builds c p done c1 ks child :
  creates child -> NoDup (allNodeIds child) ->
  (forall i, i ∈ flat_map allNodeIds done -> i ∉ allNodeIds child) ->
  building c p done ks c1 ->
  exists c3 ks',
    attach_child p child c1 = Some (tt, c3) /\
    building c p (done ++ [child]) (ks ++ [length (objects c1)]) c3 /\
    (length (objects c1) ∉ ks) /\
    nodeMap c3 !! node_id child = Some (length (objects c1)) /\
    objects c3 !! length (objects c1)
    = Some (mkDisplay (Some (meta_of child)) (Some p) ks' false).
Proof.
  intros Hcr Nc Apart (I1 & I2 & I3 & I4 & I5).
  destruct (Hcr c1) as (c2 & kso & C1 & C4 & C3 & C5 & C6).
  set (o := length (objects c1)) in *.
  assert (p < o)%nat as Lp by (unfold ref in *; now apply lookup_lt_Some in I1).
  assert (objects c2 !! p = Some (blank ks)) as I1'
    by (unfold ref in *; rewrite C3 by exact Lp; exact I1).
  destruct (attach_steps c2 p o (meta_of child) (blank ks) kso) as
    (c3 & A1 & A2 & A3 & A4 & A5 & A6); [lia | exact I1' | exact C4 |].
  cbn [meta_of nodeId blank meta parent kids destroyed] in A4, A6.
  assert (o < length (objects c2))%nat as Lo by (unfold ref in *; now apply lookup_lt_Some in C4).
  assert (node_id child ∉ ids_below child) as Own.
  { rewrite allNodeIds_below in Nc. now apply NoDup_cons in Nc as [? _]. }
  assert (forall i, i ∉ allNodeIds child -> nodeMap c3 !! i = nodeMap c1 !! i) as Fm.
  { intros i Hi. rewrite allNodeIds_below in Hi. apply not_elem_of_cons in Hi as [Hi1 Hi2].
    rewrite A6, lookup_insert_ne by congruence. now apply C5. }
  assert (forall a, (a < o)%nat -> a <> p -> objects c3 !! a = objects c1 !! a) as Fo.
  { intros a La Hap. unfold ref in *. rewrite A5 by lia. now apply C3. }
  assert (Forall (fun k => (S p <= k < o)%nat) ks) as Bk by exact (kids_shown_bounds _ _ _ _ _ _ I4).
  assert (o ∉ ks) as Fresh.
  { intros Hin. rewrite Forall_forall in Bk. apply Bk in Hin. lia. }
  exists c3, kso. split; [| split; [| split; [exact Fresh | split; [| exact A3]]]].
  - unfold attach_child, mbind, stateful_bind. rewrite C1. exact A1.
  - split; [exact A4 | split; [| split; [| split]]].
    + intros a La. unfold ref in *. rewrite A5 by lia. rewrite C3 by lia. now apply I2.
    + apply NoDup_app. split; [exact I3 | split; [| apply NoDup_singleton]].
      intros k Hk Hk'. apply list_elem_of_singleton in Hk'. subst k. now apply Fresh.
    + apply Forall2_app.
      * apply (kids_shown_wider c3 (S p) o); [| lia | lia].
        apply (kids_shown_frame c1 c3); [exact I4 | |].
        -- intros a La. apply Fo; lia.
        -- intros i Hi. apply Fm. now apply Apart.
      * constructor; [| constructor]. split.
        -- rewrite A6. apply lookup_insert_eq.
        -- apply shown_unfold. exists o, kso. split; [rewrite A6; apply lookup_insert_eq |].
           split; [lia | split; [exact A3 |]].
           destruct (is_group child) eqn:G; [| exact C6].
           destruct C6 as (cs & Hc & Nk & Hs). exists cs. split; [exact Hc | split; [exact Nk |]].
           apply (kids_shown_wider c3 (S o) (length (objects c2))); [| lia | lia].
           apply (kids_shown_frame c2 c3); [exact Hs | |].
           ++ intros a La. unfold ref in *. apply A5; lia.
           ++ intros i Hi. rewrite A6. apply lookup_insert_ne. intros <-. apply Own.
              unfold ids_below, Tools.inner_ids. now rewrite G, Hc.
    + intros i Hi. rewrite flat_map_app in Hi. apply not_elem_of_app in Hi as [Hi1 Hi2].
      simpl in Hi2. rewrite app_nil_r in Hi2. rewrite Fm by exact Hi2. now apply I5.
  - rewrite A6. apply lookup_insert_eq.
Qed.

Lemma ids_apart (done rest : list SceneNode) child :
  NoDup (flat_map allNodeIds (done ++ child :: rest)) ->
  NoDup (allNodeIds child) /\
  (forall i, i ∈ flat_map allNodeIds done -> i ∉ allNodeIds child) /\
  NoDup (flat_map allNodeIds ((done ++ [child]) ++ rest)).
Proof.
  intros N. split; [| split].
  - rewrite flat_map_app in N. apply NoDup_app in N as (_ & _ & N).
    simpl in N. now apply NoDup_app in N as (N & _ & _).
  - rewrite flat_map_app in N. apply NoDup_app in N as (_ & N & _).
    intros i Hi Hc. apply (N i Hi). simpl. apply elem_of_app. now left.
  - now rewrite <- app_assoc.
Qed.

Lemma attach_loop_builds c p rest : forall done c1 ks,
  Forall creates rest -> NoDup (flat_map allNodeIds (done ++ rest)) ->
  building c p done ks c1 ->
  exists us c' ks',
    for_each (attach_child p) rest c1 = Some (us, c') /\
    building c p (done ++ rest) ks' c'.
Proof.
  induction rest as [| child rest IH]; intros done c1 ks Hcr N B.
  - exists [], c1, ks. split; [reflexivity | now rewrite app_nil_r].
  - apply Forall_cons in Hcr as [Hc Hcr]. destruct (ids_apart _ _ _ N) as (N1 & N2 & N3).
    destruct (attach_child_builds c p done c1 ks child Hc N1 N2 B) as (c3 & ks' & E & B' & _).
    destruct (IH (done ++ [child]) c3 _ Hcr N3 B') as (us & c' & ks'' & E' & B'').
    exists (tt :: us), c', ks''. split.
    + cbn [for_each]. unfold mbind, stateful_bind. rewrite E, E'. reflexivity.
    + now rewrite <- app_assoc in B''.
Qed.

(** [createDisplayObject] creates the display of every node of a kind it
    knows, whatever the context. *)
Lemma create_spec n : renderable n = true -> NoDup (allNodeIds n) -> creates n.
Proof.
  assert (forall f ch, String.eqb (type f) "group" = false ->
            existsb (String.eqb (type f)) drawable && draws f = true ->
            creates (Node f ch)) as Leaf.
  { intros f ch G D c. apply andb_true_iff in D as [D W].
    exists (mkCtx (objects c ++ [blank []]) (nodeMap c)), [].
    assert (is_group (Node f ch) = false) as G' by exact G.
    split; [| split; [| split; [| split]]].
    - rewrite createDisplayObject_eq, G'. unfold node_type. cbn [fields_of]. rewrite D, W.
      reflexivity.
    - cbn [objects]. apply list_lookup_middle. reflexivity.
    - intros a La. cbn [objects]. now apply lookup_app_l.
    - reflexivity.
    - rewrite G'. split; [exact D | reflexivity]. }
  induction n as [f | f cs IH] using SceneNode_rect_children; intros R N.
  - cbn [renderable] in R. destruct (String.eqb (type f) "group") eqn:G; [discriminate |].
    now apply Leaf.
  - cbn [renderable] in R. destruct (String.eqb (type f) "group") eqn:G; [| now apply Leaf].
    assert (is_group (Node f (Some cs)) = true) as G' by exact G.
    rewrite allNodeIds_below in N. unfold ids_below in N. rewrite G' in N.
    unfold Tools.inner_ids in N. cbn [children] in N. apply NoDup_cons in N as [_ N].
    assert (Forall creates cs) as Hcr.
    { clear G G'. induction IH as [| child cs Hc _ IHcs]; [constructor |].
      cbn [forallb] in R. apply andb_prop in R as [R1 R2].
      simpl in N. apply NoDup_app in N as (N1 & _ & N2). constructor; auto. }
    intros c. set (base := length (objects c)).
    assert (building c base [] [] (mkCtx (objects c ++ [blank []]) (nodeMap c))) as B.
    { split; [| split; [| split; [| split]]].
      - cbn [objects]. apply list_lookup_middle. reflexivity.
      - intros a La. cbn [objects]. now apply lookup_app_l.
      - constructor.
      - constructor.
      - reflexivity. }
    destruct (attach_loop_builds c base cs [] _ [] Hcr N B) as (us & c' & ks' & E & B').
    destruct B' as (I1 & I2 & I3 & I4 & I5). cbn [app] in I4, I5.
    exists c', ks'. split; [| split; [exact I1 | split; [exact I2 | split]]].
    + rewrite createDisplayObject_eq, G'. cbn [children]. unfold mbind, stateful_bind.
      change (new_obj c) with (Some (base, mkCtx (objects c ++ [blank []]) (nodeMap c))).
      cbv beta iota. rewrite E. reflexivity.
    + intros i Hi. apply I5. unfold ids_below in Hi. now rewrite G' in Hi.
    + rewrite G'. exists cs. split; [reflexivity | split; [exact I3 | exact I4]].
Qed.

Lemma index_of_last (ks : list ref) (o : ref) :
  o ∉ ks -> index_of o (ks ++ [o]) = Some (length ks).
Proof.
  induction ks as [| k ks IH]; intros H; simpl.
  - now rewrite Nat.eqb_refl.
  - apply not_elem_of_cons in H as [H1 H2].
    destruct (Nat.eqb k o) eqn:E; [apply Nat.eqb_eq in E; congruence |].
    now rewrite IH.
Qed.

(** The loop of the first pass below the root container: every child is
    new, is created at the end of the container, and stays where it is. *)
Lemma place_loop_builds p rest : forall done c1 ks,
  Forall creates rest -> NoDup (flat_map allNodeIds (done ++ rest)) ->
  building initial p done ks c1 ->
  exists c' ks',
    place_loop syncNode p (length done) rest c1 = Some (tt, c') /\
    building initial p (done ++ rest) ks' c'.
Proof.
  induction rest as [| child rest IH]; intros done c1 ks Hcr N B.
  - exists c1, ks. split; [reflexivity | now rewrite app_nil_r].
  - apply Forall_cons in Hcr as [Hc Hcr]. destruct (ids_apart _ _ _ N) as (N1 & N2 & N3).
    destruct (attach_child_builds initial p done c1 ks child Hc N1 N2 B)
      as (c3 & ks' & E & B' & Fresh & Hm & Ho).
    destruct (IH (done ++ [child]) c3 _ Hcr N3 B') as (c' & ks'' & E' & B'').
    exists c', ks''. split; [| now rewrite <- app_assoc in B''].
    assert (syncNode child p c1 = Some (tt, c3)) as E1.
    { rewrite syncNode_eq. cbv zeta. unfold mbind at 1, stateful_bind at 1.
      assert (nodeMap_get (node_id child) c1 = Some (None, c1)) as ->.
      { unfold nodeMap_get. do 2 f_equal. destruct B as (_ & _ & _ & _ & I5).
        rewrite I5; [reflexivity |]. intros Hin. apply (N2 _ Hin), Tools.own_id_elem. }
      exact E. }
    assert (nodeMap_get (node_id child) c3 = Some (Some (length (objects c1)), c3)) as E2
      by (unfold nodeMap_get; do 2 f_equal; exact Hm).
    assert (get_obj (length (objects c1)) c3
            = Some (mkDisplay (Some (meta_of child)) (Some p) ks' false, c3)) as E3
      by (unfold get_obj, ref in *; now rewrite Ho).
    destruct B' as (I1 & _).
    assert (get_obj p c3 = Some (blank (ks ++ [length (objects c1)]), c3)) as E4
      by (unfold get_obj, ref in *; now rewrite I1).
    destruct B as (_ & _ & _ & I4 & _). apply Forall2_length in I4.
    cbn [place_loop]. unfold mbind, stateful_bind. rewrite E1, E2, E3.
    cbn [parent option_eqb]. rewrite Nat.eqb_refl, E4. cbn [blank kids].
    rewrite index_of_last by exact Fresh. rewrite <- I4, Nat.eqb_refl. cbn [negb andb].
    unfold mret, stateful_ret.
    rewrite length_app, Nat.add_1_r in E'. exact E'.
Qed.

(** The first pass over a document, from the empty display. *)
Lemma first_pass (doc : SceneGraph) :
  is_group (root doc) = true -> renderable (root doc) = true ->
  NoDup (allNodeIds (root doc)) ->
  exists c1, syncScene doc initial = Some (tt, c1) /\ displayed c1 doc.
Proof.
  intros G R N. rewrite allNodeIds_below in N. unfold ids_below in N. rewrite G in N.
  apply NoDup_cons in N as [_ N]. unfold Tools.inner_ids in N.
  destruct (root doc) as [f ch] eqn:Er.
  change (String.eqb (type f) "group" = true) in G.
  cbn [renderable] in R. rewrite G in R.
  destruct ch as [cs |]; [| discriminate]. cbn [children] in N.
  assert (Forall creates cs) as Hcr.
  { apply Forall_forall. intros child Hin.
    apply create_spec.
    - rewrite forallb_forall in R. now apply R, list_elem_of_In.
    - apply list_elem_of_split in Hin as (l1 & l2 & ->).
      now destruct (ids_apart _ _ _ N) as (N1 & _). }
  assert (building initial rootContainer [] [] initial) as B.
  { split; [reflexivity | split; [| split; [constructor | split; [constructor | reflexivity]]]].
    intros a La. unfold rootContainer in La. lia. }
  destruct (place_loop_builds rootContainer cs [] initial [] Hcr N B) as (c1 & ks & E & B').
  destruct B' as (I1 & _ & I3 & I4 & _). cbn [app] in I4.
  exists c1. split.
  - unfold syncScene, syncGroupChildren. rewrite syncChildrenWith_eq, Er. cbn [children].
    cbv zeta. unfold mbind, stateful_bind.
    change (get_obj rootContainer initial) with (Some (blank [], initial)).
    cbn [blank kids rev for_each flat_map]. unfold mret, stateful_ret.
    cbn [flat_map for_each]. unfold mret, stateful_ret.
    change (length (@nil SceneNode)) with 0%nat in E. rewrite E. reflexivity.
  - exists cs, (blank ks), 1%nat, (length (objects c1)).
    split; [now rewrite Er | split; [exact I1 | split; [exact I3 | exact I4]]].
Qed.

(** A polygon that the schema admits, and on which the first pass throws:
    [n.points.length] of a node without points. *)
Definition bare_polygon : SceneNode :=
  Node (mkFields "p" "polygon" None None None None None None []) None.

Lemma polygon_without_points :
  syncScene (Tools.with_root Tools.default_scene (group_node "root" [bare_polygon]))
            initial = None /\
  createDisplayObject (Node (mkFields "q" "path" None None None None None None []) None)
                      initial = None /\
  renderable bare_polygon = false.
Proof. repeat split. Qed.

(** Every node of a shown subtree has its display object in the object
    map, with the node's metadata and a parent. *)
Lemma shown_registered n : forall c lo hi p m,
  shown c lo hi p n -> m ∈ walkNodes n ->
  exists l q ks,
    nodeMap c !! node_id m = Some l /\
    objects c !! l = Some (mkDisplay (Some (meta_of m)) (Some q) ks false).
Proof.
  induction n as [f | f cs IH] using SceneNode_rect_children; intros c lo hi p m H Hin;
    pose proof H as H0; apply shown_unfold in H as (l & ks & Hm & _ & Ho & Hk);
    cbn [walkNodes] in Hin; apply elem_of_cons in Hin as [-> | Hin]; eauto.
  - destruct (is_group (Node f None)); cbn [children] in Hin;
      now apply not_elem_of_nil in Hin.
  - destruct (is_group (Node f (Some cs))); [| now apply not_elem_of_nil in Hin].
    destruct Hk as (cs' & [= <-] & _ & Hs). cbn [children] in Hin.
    apply Tools.elem_of_flat_map in Hin as (child & Hc & Hin).
    destruct (kids_shown_each _ _ _ _ _ _ child Hs Hc) as (k & _ & _ & Hsh).
    rewrite Forall_forall in IH. exact (IH child Hc c lo hi l m Hsh Hin).
Qed.

(** X22: the first pass puts the whole document on display.  For a
    document whose root is a group, whose ids are unique and whose nodes
    are [renderable] (a group has its children; any other node is of a
    variant that [createDisplayObject] draws and has the fields that the
    drawing reads: a polyline or polygon its points, a path its [d], a
    tilemap of positive width and height its [data], a particles node
    with particles its emitters), [syncScene] from the empty display
    succeeds; afterwards the document is on display, and every node below
    the root has a display object in the object map that is not
    destroyed, has a parent and carries the node's id, type and snapshot.
    Without such a field the pass throws ([polygon_without_points]). *)
Theorem first_pass_displays (doc : SceneGraph) :
  is_group (root doc) = true -> renderable (root doc) = true ->
  NoDup (allNodeIds (root doc)) ->
  exists c1,
    syncScene doc initial = Some (tt, c1) /\ displayed c1 doc /\
    forall m, m ∈ tl (walkNodes (root doc)) ->
      exists l q ks,
        nodeMap c1 !! node_id m = Some l /\
        objects c1 !! l = Some (mkDisplay (Some (meta_of m)) (Some q) ks false).
Proof.
  intros G R N. destruct (first_pass doc G R N) as (c1 & E & D).
  exists c1. split; [exact E | split; [exact D |]].
  intros m Hin. destruct D as (cs & o & lo & hi & Hc & _ & _ & Hs).
  destruct (root doc) as [f ch]. cbn [walkNodes tl] in Hin. rewrite G in Hin.
  cbn [children] in Hc, Hin. subst ch.
  apply Tools.elem_of_flat_map in Hin as (child & Hin & Hm).
  destruct (kids_shown_each _ _ _ _ _ _ child Hs Hin) as (k & _ & _ & Hsh).
  exact (shown_registered child c1 lo hi rootContainer m Hsh Hm).
Qed.

(** The display after the first pass over [a_in_X]. *)
Definition a_in_X_shown : Ctx :=
  Eval vm_compute in
    match syncScene a_in_X initial with Some (_, c) => c | None => initial end.

Lemma first_pass_displays_witness :
  exists c1, syncScene a_in_X initial = Some (tt, c1) /\ displayed c1 a_in_X.
Proof.
  destruct (first_pass_displays a_in_X) as (c1 & E & D & _).
  - reflexivity.
  - reflexivity.
  - apply (bool_decide_unpack _). vm_compute. exact I.
  - exists c1. split; [exact E | exact D].
Defined.

Lemma displayed_is_stable_witness :
  displayed a_in_X_shown a_in_X /\ syncScene a_in_X a_in_X_shown = Some (tt, a_in_X_shown).
Proof.
  assert (displayed a_in_X_shown a_in_X) as D.
  { destruct (first_pass a_in_X) as (c1 & E & D).
    - reflexivity.
    - reflexivity.
    - apply (bool_decide_unpack _). vm_compute. exact I.
    - assert (Some (tt, c1) = Some (tt, a_in_X_shown)) as Ec
        by (rewrite <- E; vm_compute; reflexivity).
      injection Ec as <-. exact D. }
  split; [exact D | exact (displayed_is_stable a_in_X_shown a_in_X D)].
Defined.

End Reconciler.
